(** * wdsoo.aropt: the adaptive robust optimisation model builder

    A shallow embedding of [src/wdsoo/aropt.py] (class [ARO]) and the
    properties of its decision index, its adaptive decision rule, its
    constraint builders, its solver entry point and its policy extraction.

    Conventions of the embedding.
    - Python exceptions are values of [exn]; a call that may raise returns
      an [outcome].
    - Numbers are exact integers ([Z]); a float that may be NaN is a
      [pynum].  Rounding of floating point arithmetic is outside the model.
    - [sim.vars] carries pandas' default RangeIndex, so the index labels of
      its rows are their positions; the decision rule [x] is addressed with
      these labels.
    - The rsome objects the class builds (decision rule, affine expressions,
      constraints) are modelled by the data they hold. *)

From Stdlib Require Import ZArith Lia.
From stdpp Require Import base numbers list strings gmap sorting.

Open Scope Z_scope.

(** ** Python outcomes *)

Inductive exn :=
| KeyError | IndexError | TypeError | ValueError | RuntimeError
| AttributeError.

(** [LookupError] is the base class of [KeyError] and [IndexError]. *)
Definition is_LookupError (e : exn) : bool :=
  match e with
  | KeyError | IndexError => true
  | _ => false
  end.

Inductive outcome (A : Type) :=
| Ret (a : A)
| Raise (e : exn).
Arguments Ret {A} a.
Arguments Raise {A} e.

Global Instance outcome_ret : MRet outcome := λ A a, Ret a.
Global Instance outcome_bind : MBind outcome := λ A B k m,
  match m with
  | Ret a => k a
  | Raise e => Raise e
  end.

(** A Python [for] loop whose body may raise, threading a state. *)
Fixpoint for_each {A S} (body : S → A → outcome S) (l : list A) (s : S)
  : outcome S :=
  match l with
  | [] => Ret s
  | a :: l' => s' ← body s a; for_each body l' s'
  end.

(** A number that pandas or numpy may report as NaN. *)
Inductive pynum :=
| NaN
| Int (n : Z).

(** [v + 1]: NaN is absorbing. *)
Definition py_succ (v : pynum) : pynum :=
  match v with
  | NaN => NaN
  | Int n => Int (n + 1)
  end.

(** [np.isnan]. *)
Definition isnan (v : pynum) : bool :=
  match v with NaN => true | Int _ => false end.

(** ** Decision index manager *)

Module Index.

(** [self.sim.vars.loc[self.sim.vars['name'] == name].index]: the labels of
    the rows whose name column equals [name]; [i] is the label of the first
    row of [names]. *)
Fixpoint loc_from (i : Z) (names : list string) (name : string) : list Z :=
  match names with
  | [] => []
  | n :: rest =>
      if String.eqb n name
      then i :: loc_from (i + 1) rest name
      else loc_from (i + 1) rest name
  end.

Definition loc (names : list string) (name : string) : list Z :=
  loc_from 0 names name.

(** [Index.min()] and [Index.max()]: NaN on an empty index. *)
Definition index_min (l : list Z) : pynum :=
  match l with
  | [] => NaN
  | a :: r => Int (foldr Z.min a r)
  end.

Definition index_max (l : list Z) : pynum :=
  match l with
  | [] => NaN
  | a :: r => Int (foldr Z.max a r)
  end.

(** [get_x_idx]: no statement of the method raises. *)
Definition get_x_idx (names : list string) (name : string)
  : outcome (pynum * pynum) :=
  let xmin_idx := index_min (loc names name) in
  let xmax_idx := py_succ (index_max (loc names name)) in
  Ret (xmin_idx, xmax_idx).

End Index.


(** ** Tables, elements and the network *)

(** A pandas DataFrame: its index (time stamps) and its columns in order. *)
Record DataFrame := {
  df_index : list Z;
  df_columns : list (string * list Z);
}.

(** A column of a table. *)
Fixpoint assoc (col : string) (cols : list (string * list Z)) : option (list Z) :=
  match cols with
  | [] => None
  | (c, v) :: r => if String.eqb c col then Some v else assoc col r
  end.

(** [df[col] = v] on the columns: an existing column is replaced in place,
    a new one is appended. *)
Fixpoint set_column (col : string) (v : list Z) (cols : list (string * list Z))
  : list (string * list Z) :=
  match cols with
  | [] => [(col, v)]
  | (c, w) :: r =>
      if String.eqb c col then (c, v) :: r else (c, w) :: set_column col v r
  end.

Definition with_columns (df : DataFrame) (cols : list (string * list Z))
  : DataFrame :=
  {| df_index := df_index df; df_columns := cols |}.

(** A controllable element.  [combs = None] is an element without the
    attribute [combs]. *)
Record Element := {
  e_name : string;
  combs : option (list string);
  min_flow : Z;
  max_flow : Z;
  init_flow : pynum;
  e_vars : DataFrame;
}.

(** A volume bound as numpy receives it: a scalar, or a column of shape
    (n, 1). *)
Inductive bound :=
| Scalar (v : Z)
| Column (l : list Z).

(** A tank.  The contributor lists hold references to element objects; an
    object is referred to by its key in the network. *)
Record Tank := {
  t_name : string;
  t_vars : DataFrame;
  initial_vol : Z;
  min_vol : list Z;
  max_vol : bound;
  final_vol : Z;
  inflows : list string;
  pumps_inflows : list string;
  vsp_inflows : list string;
  v_inflows : list string;
  cv_inflows : list string;
  pumps_outflows : list string;
  vsp_outflows : list string;
  v_outflows : list string;
  cv_outflows : list string;
}.

(** The network: the element objects by name ([network[name]]), and the
    named sub-collections as the ordered keys of their dicts. *)
Record Network := {
  objects : gmap string Element;
  pump_stations : list string;
  vsp : list string;
  wells : list string;
  control_valves : list string;
  valves : list string;
  comb_elements : list string;
  flow_elements : list string;
  tanks : list (string * Tank);
}.

(** The simulation: the horizon, the table [sim.vars] (its name column and,
    once written, its value column) and the network.  The cell
    [network_element] of a row is the object [network[name]] of its name. *)
Record Sim := {
  num_steps : nat;
  time_range : list Z;
  vars_name : list string;
  vars_value : option (list Z);
  network : Network;
}.

(** Modelled from the spec: the class of the values of [self.udata] is not
    part of the source at hand.  Section 5: an object exposing the affected
    elements and an optional [delta], the affine sensitivity map, which is
    [None] when absent. *)
Record UData := {
  u_elements : list string;
  u_delta : option (list (list Z));
}.

(** The object [self]: the simulation, the level of uncertainty and the
    uncertainty data by quantity. *)
Record Aro := {
  sim : Sim;
  lou : Z;
  udata : gmap string UData;
}.

(** A record of [vsp_volume.csv]. *)
Record volume_row := {
  vr_start : Z;
  vr_end : Z;
  vr_vsp : string;
  vr_vol : Z;
  vr_constraint_type : string;
}.

(** A record of [vsp_changes.csv]. *)
Record changes_row := {
  cr_start : Z;
  cr_end : Z;
  cr_vsp : string;
}.

(** A solution that the solver leaves in [self.model]: the objective value,
    the native status code and the solved rule [x(z) = pi0 + pi z]. *)
Record Solution := {
  s_obj : Z;
  s_status : Z;
  s_pi0 : list Z;
  s_pi : list (list Z);
}.

(** [len(element.combs)] where the element has [combs], else 1. *)
Definition state_count (e : Element) : nat :=
  match combs e with
  | Some l => length l
  | None => 1%nat
  end.

(** A dict lookup: [KeyError] on a missing key. *)
Definition getitem `{Countable K} {A} (d : gmap K A) (k : K) : outcome A :=
  match d !! k with
  | Some a => Ret a
  | None => Raise KeyError
  end.

(** [d.items()] of a sub-collection. *)
Definition items (net : Network) (keys : list string)
  : outcome (list (string * Element)) :=
  mapM (M := outcome) (λ k, e ← getitem (objects net) k; mret (k, e)) keys.

(** [Series.unique()]: the values in the order of their first occurrence. *)
Fixpoint unique_from (seen : list string) (l : list string) : list string :=
  match l with
  | [] => []
  | a :: r =>
      if bool_decide (a ∈ seen) then unique_from seen r
      else a :: unique_from (a :: seen) r
  end.

Definition unique (l : list string) : list string := unique_from [] l.

(** ** rsome: affine expressions, arrays of them and constraints *)

(** An affine expression over the entries of the decision rule [x] and of
    the random variable [z] (flattened in C order). *)
Record affine := {
  a_x : list (nat * Z);
  a_z : list (nat * Z);
  a_const : Z;
}.

Definition aff_const (c : Z) : affine := {| a_x := []; a_z := []; a_const := c |}.
Definition aff_x (i : nat) : affine := {| a_x := [(i, 1)]; a_z := []; a_const := 0 |}.
Definition aff_z (j : nat) : affine := {| a_x := []; a_z := [(j, 1)]; a_const := 0 |}.

Definition scale_terms (k : Z) (l : list (nat * Z)) : list (nat * Z) :=
  (λ p, (p.1, k * p.2)) <$> l.

Definition aff_add (a b : affine) : affine :=
  {| a_x := a_x a ++ a_x b; a_z := a_z a ++ a_z b;
     a_const := a_const a + a_const b |}.

Definition aff_scale (k : Z) (a : affine) : affine :=
  {| a_x := scale_terms k (a_x a); a_z := scale_terms k (a_z a);
     a_const := k * a_const a |}.

Definition aff_sub (a b : affine) : affine := aff_add a (aff_scale (-1) b).

(** [sum] of a list of numbers. *)
Definition sumZ (l : list Z) : Z := foldr Z.add 0 l.

(** The entry [v[i]] of a value of [x] or of [z]. *)
Definition entry (v : list Z) (i : nat) : Z := default 0 (v !! i).

Definition eval_terms (v : list Z) (l : list (nat * Z)) : Z :=
  sumZ ((λ p, p.2 * entry v p.1) <$> l).

(** The value of an expression at a value [xv] of [x] and [zv] of [z]. *)
Definition eval (xv zv : list Z) (a : affine) : Z :=
  eval_terms xv (a_x a) + eval_terms zv (a_z a) + a_const a.

(** Decisions and realizations are real numbers.  A rational value of [x]
    and of [z] is given by integer numerators [xv] and [zv] over a common
    denominator [den > 0]: the entry [i] of [x] is [xv[i] / den].
    [eval_at den xv zv a] is the value of [a] there, times [den]. *)
Definition eval_at (den : Z) (xv zv : list Z) (a : affine) : Z :=
  eval_terms xv (a_x a) + eval_terms zv (a_z a) + den * a_const a.

(** An array of expressions: 0-dimensional, of shape (n,), or of shape
    (n, 1). *)
Inductive nd :=
| Sc (a : affine)
| Vec (l : list affine)
| Col (l : list affine).

Inductive cmp := Le | Ge | Eq.

Definition cmp_holds (op : cmp) (a b : Z) : Prop :=
  match op with
  | Le => a ≤ b
  | Ge => b ≤ a
  | Eq => a = b
  end.

(** A constraint [lhs op rhs]; [c_forall] records [.forall(self.z_set)]. *)
Record Constraint := {
  c_lhs : nd;
  c_op : cmp;
  c_rhs : nd;
  c_forall : bool;
}.

(** A comparison of two arrays, with numpy's broadcasting. *)
Definition compare (op : cmp) (l r : nd) : outcome Constraint :=
  let ok := Ret {| c_lhs := l; c_op := op; c_rhs := r; c_forall := false |} in
  match l, r with
  | Vec a, Vec b =>
      if bool_decide (length a = length b ∨ length a = 1%nat ∨ length b = 1%nat)
      then ok else Raise ValueError
  | Col a, Col b =>
      if bool_decide (length a = length b ∨ length a = 1%nat ∨ length b = 1%nat)
      then ok else Raise ValueError
  | _, _ => ok
  end.

(** A constraint with the qualifier [forall(self.z_set)] attached. *)
Definition qualified (c : Constraint) : Constraint :=
  {| c_lhs := c_lhs c; c_op := c_op c; c_rhs := c_rhs c; c_forall := true |}.

(** [c.forall(self.z_set)].  rsome has two classes of constraints: the
    comparison of an expression in which random variables occur is a
    robust constraint, which has the method [forall]; the comparison of an
    expression of plain decisions is a linear constraint ([LinConstr]),
    which has not, and the call is an [AttributeError].  [random] tells
    whether random variables occur in the compared expressions. *)
Definition forall_z_set (random : bool) (c : Constraint) : outcome Constraint :=
  if random then Ret (qualified c) else Raise AttributeError.

(** What a constraint says at the value [xv / den] of [x] and [zv / den]
    of [z]: the comparison holds at every position of the broadcast
    arrays. *)
Definition holds_at (den : Z) (xv zv : list Z) (c : Constraint) : Prop :=
  let ev := eval_at den xv zv in
  let rel a b := cmp_holds (c_op c) (ev a) (ev b) in
  match c_lhs c, c_rhs c with
  | Sc a, Sc b => rel a b
  | Sc a, (Vec l | Col l) => ∀ b, b ∈ l → rel a b
  | (Vec l | Col l), Sc b => ∀ a, a ∈ l → rel a b
  | Vec l, Vec r | Col l, Col r =>
      if bool_decide (length l = length r)
      then ∀ i a b, l !! i = Some a → r !! i = Some b → rel a b
      else ∀ a b, a ∈ l → b ∈ r → rel a b
  | Vec l, Col r | Col l, Vec r => ∀ a b, a ∈ l → b ∈ r → rel a b
  end.

(** What a constraint says at an integer value of [x] and of [z]. *)
Definition holds (xv zv : list Z) (c : Constraint) : Prop :=
  holds_at 1 xv zv c.

(** A robust constraint holds for a policy [z ↦ x(z)] at every [z] of the
    uncertainty set. *)
Definition holds_robustly (z_set : list Z → Prop) (policy : list Z → list Z)
    (c : Constraint) : Prop :=
  c_forall c = true ∧ ∀ zv, z_set zv → holds (policy zv) zv c.

(** The rsome model: the size of [x], the shape of [z], the adaptation
    matrix [depend] (the pairs of an entry of [x] and an entry of flattened
    [z] it may depend on) and the constraints declared so far. *)
Record Model := {
  x_size : nat;
  z_rows : nat;
  z_cols : nat;
  depend : gset (nat * nat);
  constraints : list Constraint;
}.

(** Whether random variables occur in the expressions of [self.x].  rsome
    turns a rule with a declared adaptation into an affine function of [z],
    all its slices included, and leaves a rule on which [adapt] was never
    called an array of plain decisions.  The embedding reads this off
    [depend]: the rule is adapted when some entry of [x] may depend on some
    entry of [z], and a rule on which [adapt] was never called has an empty
    [depend].  Calls of [adapt] that bind an empty slice of [x] or of [z]
    leave [depend] empty too; the embedding does not tell such a rule from
    one that was never adapted. *)
Definition adapted (m : Model) : bool := bool_decide (depend m ≠ ∅).

(** [self.model.st(c)]. *)
Definition st (m : Model) (c : Constraint) : Model :=
  {| x_size := x_size m; z_rows := z_rows m; z_cols := z_cols m;
     depend := depend m; constraints := constraints m ++ [c] |}.

(** A bound of a Python slice over a sequence of length [n]. *)
Definition clip (n : nat) (i : Z) : nat :=
  Z.to_nat (if i <? 0 then Z.max 0 (i + Z.of_nat n) else Z.min i (Z.of_nat n)).

(** The first position and the length of [a[lo:hi]]; a NaN bound is a
    [TypeError]. *)
Definition slice_bounds (n : nat) (lo hi : pynum) : outcome (nat * nat) :=
  match lo, hi with
  | Int lo, Int hi => Ret (clip n lo, (clip n hi - clip n lo)%nat)
  | _, _ => Raise TypeError
  end.

(** The positions of [a[lo:hi]]. *)
Definition slice_indices (n : nat) (lo hi : pynum) : outcome (list nat) :=
  '(a, w) ← slice_bounds n lo hi; mret (seq a w).

(** [self.x[lo:hi]]. *)
Definition x_slice (m : Model) (lo hi : pynum) : outcome (list nat) :=
  slice_indices (x_size m) lo hi.

(** A position of [a[i]] or of a fancy index: negative positions count from
    the end, positions out of range are an [IndexError]. *)
Definition position (n : nat) (i : Z) : outcome nat :=
  if bool_decide (0 ≤ i < Z.of_nat n) then Ret (Z.to_nat i)
  else if bool_decide (- Z.of_nat n ≤ i < 0) then Ret (Z.to_nat (i + Z.of_nat n))
  else Raise IndexError.

(** [self.x[i]]. *)
Definition x_item (m : Model) (i : pynum) : outcome nat :=
  match i with
  | Int i => position (x_size m) i
  | NaN => Raise IndexError
  end.

(** [self.x[idx]] with an index of labels. *)
Definition x_take (m : Model) (idx : list Z) : outcome (list nat) :=
  mapM (M := outcome) (position (x_size m)) idx.

(** The entries of [x] as expressions. *)
Definition as_vec (ix : list nat) : nd := Vec (aff_x <$> ix).

(** [self.z[:t, :]]: the flat positions of the first [t] rows of [z]. *)
Definition z_rows_before (m : Model) (t : nat) : list nat :=
  seq 0 (min t (z_rows m) * z_cols m).

(** [DecRuleSub.adapt]: the entries [ix] of [x] may depend on the entries
    [iz] of [z]; rsome refuses to define an adaptation twice. *)
Definition adapt (m : Model) (ix iz : list nat) : outcome Model :=
  let pairs : list (nat * nat) := i ← ix; j ← iz; [(i, j)] in
  if bool_decide (Exists (λ p, p ∈ depend m) pairs)
  then Raise RuntimeError
  else Ret {| x_size := x_size m; z_rows := z_rows m; z_cols := z_cols m;
              depend := depend m ∪ list_to_set pairs;
              constraints := constraints m |}.

(** ** numpy arrays *)

Abbreviation matrix := (list (list Z)).

(** [m[r, j]], where it exists. *)
Definition mget (m : matrix) (r j : nat) : option Z := m !! r ≫= (.!! j).

(** A matrix of [r] rows and [c] columns. *)
Definition shape (m : matrix) (r c : nat) : Prop :=
  length m = r ∧ Forall (λ row, length row = c) m.

(** [np.zeros([r, c])]. *)
Definition np_zeros (r c : nat) : matrix := replicate r (replicate c 0).

(** [np.diag(np.ones(n))]. *)
Definition np_eye (n : nat) : matrix :=
  (λ i, <[i := 1]> (replicate n 0)) <$> seq 0 n.

(** [np.hstack]: an empty sequence of arrays is a [ValueError]. *)
Definition np_hstack {A} (l : list (list A)) : outcome (list A) :=
  match l with
  | [] => Raise ValueError
  | _ => Ret (concat l)
  end.

(** [m[r, c] = v]. *)
Definition mset (m : matrix) (r c : nat) (v : Z) : outcome matrix :=
  match m !! r with
  | Some row =>
      if bool_decide (c < length row)%nat
      then Ret (<[r := <[c := v]> row]> m)
      else Raise IndexError
  | None => Raise IndexError
  end.

(** [m[rows, cols] = v] with two index arrays of one length. *)
Definition fancy_assign (m : matrix) (rows cols : list nat) (v : Z)
  : outcome matrix :=
  if bool_decide (length rows = length cols)
  then for_each (λ m p, mset m p.1 p.2 v) (zip rows cols) m
  else Raise IndexError.

(** [np.indices((n, n))]: the row numbers and the column numbers. *)
Definition np_indices (n : nat) : list (list nat) * list (list nat) :=
  ((λ i, replicate n i) <$> seq 0 n, (λ _, seq 0 n) <$> seq 0 n).

(** [np.diag(m, k=-1)]: the diagonal below the main one. *)
Definition np_diag_below {A} (m : list (list A)) : list A :=
  omap (λ i, m !! S i ≫= (.!! i)) (seq 0 (length m - 1)).

(** [np.tril_indices(n)]. *)
Definition np_tril_indices (n : nat) : list nat * list nat :=
  (i ← seq 0 n; replicate (S i) i, i ← seq 0 n; seq 0 (S i)).

(** An elementwise operation on two 1-dimensional arrays, with numpy's
    broadcasting of an array of length 1. *)
Definition broadcast {A B C} (f : A → B → C) (a : list A) (b : list B)
  : outcome (list C) :=
  if bool_decide (length a = length b) then Ret (zip_with f a b)
  else match a, b with
       | [a0], _ => Ret (f a0 <$> b)
       | _, [b0] => Ret ((λ x, f x b0) <$> a)
       | _, _ => Raise ValueError
       end.

(** [m * v]: every row of [m] times the 1-dimensional [v]. *)
Definition mul_rows (m : matrix) (v : list Z) : outcome matrix :=
  mapM (M := outcome) (λ row, broadcast Z.mul row v) m.

(** [np.multiply(m, a[:, np.newaxis])]: row [i] of [m] times [a[i]]. *)
Definition mul_column (m : matrix) (a : list Z) : outcome matrix :=
  if bool_decide (length m = length a)
  then Ret (zip_with (λ (row : list Z) k, Z.mul k <$> row) m a)
  else match m, a with
       | _, [k] => Ret ((λ row : list Z, Z.mul k <$> row) <$> m)
       | [row], _ => Ret ((λ k, Z.mul k <$> row) <$> a)
       | _, _ => Raise ValueError
       end.

(** [k * m] for a scalar [k]. *)
Definition scale_matrix (k : Z) (m : matrix) : matrix :=
  (λ row : list Z, Z.mul k <$> row) <$> m.

(** [m.sum(axis=0)]: the sums of the columns of a matrix of [c] columns. *)
Definition sum_axis0 (c : nat) (m : matrix) : list Z :=
  foldr (zip_with Z.add) (replicate c 0) m.

(** [np.cumsum]. *)
Fixpoint cumsum_from (acc : Z) (l : list Z) : list Z :=
  match l with
  | [] => []
  | a :: r => (acc + a) :: cumsum_from (acc + a) r
  end.

Definition cumsum (l : list Z) : list Z := cumsum_from 0 l.

(** The linear combination [Σ row[j] · v[j]] of expressions. *)
Definition lincomb (row : list Z) (v : list affine) : affine :=
  foldr aff_add (aff_const 0) (zip_with aff_scale row v).

(** [m @ v] for a matrix and a 1-dimensional array of expressions. *)
Definition matmul (m : matrix) (v : list affine) : outcome (list affine) :=
  if bool_decide (Forall (λ row, length row = length v) m)
  then Ret ((λ row, lincomb row v) <$> m)
  else Raise ValueError.

(** [w @ v] for two 1-dimensional arrays. *)
Definition dot (w : list Z) (v : list affine) : outcome affine :=
  if bool_decide (length w = length v) then Ret (lincomb w v)
  else Raise ValueError.

(** ** pandas tables *)

(** [df[col]]: a missing column is a [KeyError]. *)
Definition df_get (df : DataFrame) (col : string) : outcome (list Z) :=
  match assoc col (df_columns df) with
  | Some v => Ret v
  | None => Raise KeyError
  end.

(** [df[col] = k] for a scalar [k]. *)
Definition df_set_scalar (df : DataFrame) (col : string) (k : Z) : DataFrame :=
  with_columns df (set_column col (replicate (length (df_index df)) k) (df_columns df)).

(** [df[col] = v] for an array [v]: its length must be the number of rows. *)
Definition df_set_array (df : DataFrame) (col : string) (v : list Z)
  : outcome DataFrame :=
  if bool_decide (length v = length (df_index df))
  then Ret (with_columns df (set_column col v (df_columns df)))
  else Raise ValueError.

(** [df.loc[mask, col] = k] on an existing column. *)
Definition df_loc_set (df : DataFrame) (mask : list bool) (col : string) (k : Z)
  : outcome DataFrame :=
  v ← df_get df col;
  mret (with_columns df
          (set_column col (zip_with (λ (b : bool) a, if b then k else a) mask v)
             (df_columns df))).

(** [df.drop(col, axis=1)]: a missing column is a [KeyError]. *)
Definition df_drop (df : DataFrame) (col : string) : outcome DataFrame :=
  match assoc col (df_columns df) with
  | Some _ =>
      Ret (with_columns df
             (filter (λ p, negb (String.eqb p.1 col) = true) (df_columns df)))
  | None => Raise KeyError
  end.

(** ** The class ARO *)

Module ARO.

Import Index.

(** Python's [a + b] on numbers that may be NaN. *)
Definition py_add (a b : pynum) : pynum :=
  match a, b with
  | Int a, Int b => Int (a + b)
  | _, _ => NaN
  end.

(** [range(a, b)]. *)
Definition range (a b : nat) : list nat := seq a (b - a).

(** [adapt_ldr]: every element's block of step [t >= 1] adapts to the rows
    of [z] before [t]. *)
Definition adapt_ldr (sim : Sim) (m : Model) : outcome Model :=
  for_each (λ m element_name,
      element ← getitem (objects (network sim)) element_name;
      '(xmin_idx, xmax_idx) ← get_x_idx (vars_name sim) element_name;
      let c := state_count element in
      for_each (λ m t,
          ix ← x_slice m (py_add xmin_idx (Int (Z.of_nat t * Z.of_nat c)))
                         (py_add xmin_idx (Int ((Z.of_nat t + 1) * Z.of_nat c)));
          adapt m ix (z_rows_before m t))
        (range 1 (num_steps sim)) m)
    (unique (vars_name sim)) m.

(** A robust constraint on the slice [self.x[xmin:xmax]]:
    [self.model.st((self.x[xmin: xmax] op v).forall(self.z_set))]. *)
Definition st_slice (m : Model) (xmin xmax : pynum) (op : cmp) (v : Z)
  : outcome Model :=
  ix ← x_slice m xmin xmax;
  c ← compare op (as_vec ix) (Sc (aff_const v));
  c ← forall_z_set (adapted m) c;
  mret (st m c).

(** The loop body of [range_constraints] for an element whose decisions
    are utilisations. *)
Definition unit_range (names : list string) (m : Model)
    (item : string * Element) : outcome Model :=
  '(xmin_idx, xmax_idx) ← get_x_idx names item.1;
  m ← st_slice m xmin_idx xmax_idx Ge 0;
  st_slice m xmin_idx xmax_idx Le 1.

(** The loop body of [range_constraints] for a variable speed pump. *)
Definition vsp_range (names : list string) (m : Model)
    (item : string * Element) : outcome Model :=
  let vsp := item.2 in
  '(xmin_idx, xmax_idx) ← get_x_idx names item.1;
  m ← st_slice m xmin_idx xmax_idx Ge (min_flow vsp);
  m ← st_slice m xmin_idx xmax_idx Le (max_flow vsp);
  match init_flow vsp with
  | NaN => mret m
  | Int v =>
      i ← x_item m xmin_idx;
      c ← compare Eq (Sc (aff_x i)) (Sc (aff_const v));
      c ← forall_z_set (adapted m) c;
      mret (st m c)
  end.

Definition range_constraints (sim : Sim) (m : Model) : outcome Model :=
  let net := network sim in
  let names := vars_name sim in
  l ← items net (pump_stations net); m ← for_each (unit_range names) l m;
  l ← items net (vsp net); m ← for_each (vsp_range names) l m;
  l ← items net (wells net); m ← for_each (unit_range names) l m;
  l ← items net (control_valves net); m ← for_each (unit_range names) l m;
  l ← items net (valves net); for_each (unit_range names) l m.

(** [len(element.combs)]. *)
Definition len_combs (e : Element) : outcome nat :=
  match combs e with
  | Some l => Ret (length l)
  | None => Raise AttributeError
  end.

(** The selector matrix of [one_comb_only]. *)
Definition selector_matrix (T c : nat) : outcome matrix :=
  let matrix := np_zeros T (T * c) in
  rows ← np_hstack ((λ i, replicate c i) <$> range 0 T);
  let cols := seq 0 (c * T) in
  fancy_assign matrix rows cols 1.

(** The loop body of [one_comb_only]. *)
Definition one_comb (sim : Sim) (m : Model) (item : string * Element)
  : outcome Model :=
  let station := item.2 in
  let idx := loc (vars_name sim) (e_name station) in
  x ← x_take m idx;
  c ← len_combs station;
  matrix ← selector_matrix (num_steps sim) c;
  lhs ← matmul matrix (aff_x <$> x);
  c ← compare Le (Vec lhs) (Col (replicate (num_steps sim) (aff_const 1)));
  c ← forall_z_set (adapted m) c;
  mret (st m c).

Definition one_comb_only (sim : Sim) (m : Model) : outcome Model :=
  l ← items (network sim) (comb_elements (network sim));
  for_each (one_comb sim) l m.

(** *** Mass balance *)

(** The keys ['in'] and ['out'] of [flow_direction]. *)
Inductive inout := flow_in | flow_out.

Definition flow_direction (d : inout) : Z :=
  match d with
  | flow_in => 1
  | flow_out => -1
  end.

Definition cumulative_comb_matrix (T : nat) (element : Element) (d : inout)
    (param : option string) : outcome matrix :=
  c ← len_combs element;
  let matrix := np_zeros T (T * c) in
  rows ← np_hstack ((λ i, replicate (c * i) (i - 1)%nat) <$> range 1 (T + 1));
  cols ← np_hstack ((λ t, seq 0 (c * (t + 1))) <$> range 0 T);
  matrix ← fancy_assign matrix rows cols (flow_direction d);
  match param with
  | Some p => v ← df_get (e_vars element) p; mul_rows matrix v
  | None => mret matrix
  end.

Definition cumulative_not_comb_matrix (T : nat) (d : inout) : outcome matrix :=
  let matrix := np_zeros T T in
  let '(rows, cols) := np_tril_indices T in
  fancy_assign matrix rows cols (flow_direction d).

(** [self.sim.network.flow_elements[element_name]]. *)
Definition flow_element (net : Network) (element_name : string)
  : outcome Element :=
  if bool_decide (element_name ∈ flow_elements net)
  then getitem (objects net) element_name
  else Raise KeyError.

Definition get_cumulative_flow_matrix (sim : Sim) (element_name : string)
    (d : inout) : outcome matrix :=
  element ← flow_element (network sim) element_name;
  match combs element with
  | Some _ => cumulative_comb_matrix (num_steps sim) element d (Some "flow")
  | None => cumulative_not_comb_matrix (num_steps sim) d
  end.

(** [l[a : a + length blk] = blk] on a list. *)
Definition splice {A} (l : list A) (a : nat) (blk : list A) : list A :=
  take a l ++ blk ++ drop (a + length blk) l.

(** [v[r0 : r0 + T] = blk] on a column: [blk] must be of length [T], or of
    length 1. *)
Definition assign_rows (v : list Z) (r0 T : nat) (blk : list Z)
  : outcome (list Z) :=
  if bool_decide (length blk = T) then Ret (splice v r0 blk)
  else match blk with
       | [a] => Ret (splice v r0 (replicate T a))
       | _ => Raise ValueError
       end.

(** [v[r0 : r0 + T] = b] for a volume bound. *)
Definition assign_bound (v : list Z) (r0 T : nat) (b : bound)
  : outcome (list Z) :=
  match b with
  | Scalar k => Ret (splice v r0 (replicate T k))
  | Column l => assign_rows v r0 T l
  end.

(** [lhs[r0 : r0 + T, xmin : xmax] = mat] for a matrix [lhs] of [n]
    columns and a matrix [mat] of [T] rows: the rows of [mat] must be as
    wide as the slice, or of width 1. *)
Definition assign_block (n : nat) (lhs : matrix) (r0 T : nat)
    (xmin xmax : pynum) (mat : matrix) : outcome matrix :=
  '(a, w) ← slice_bounds n xmin xmax;
  blk ← mapM (M := outcome) (λ row : list Z,
            if bool_decide (length row = w) then Ret row
            else match row with
                 | [k] => Ret (replicate w k)
                 | _ => Raise ValueError
                 end) mat;
  mret (take r0 lhs
        ++ zip_with (λ row b, splice row a b) (take T (drop r0 lhs)) blk
        ++ drop (r0 + T) lhs).

(** The arrays [mass_balance] fills. *)
Record balance := {
  b_lhs : matrix;
  b_lhs_init : list Z;
  b_rhs_min : list Z;
  b_rhs_max : list Z;
  b_dem : list Z;
}.

(** The inner loop body of [mass_balance]: the columns of one element in
    the rows of one tank; [n] is the length of [x].  An element object is
    identified by the name it is stored under. *)
Definition balance_element (sim : Sim) (n : nat) (tank_idx : nat)
    (tank : Tank) (lhs : matrix) (element_name : string) : outcome matrix :=
  let T := num_steps sim in
  element ← flow_element (network sim) element_name;
  '(xmin_idx, xmax_idx) ← get_x_idx (vars_name sim) element_name;
  if bool_decide (element_name ∈ inflows tank) then
    mat ← get_cumulative_flow_matrix sim element_name flow_in;
    assign_block n lhs (tank_idx * T) T xmin_idx xmax_idx mat
  else if bool_decide (element_name ∈
            pumps_outflows tank ++ vsp_outflows tank ++ v_outflows tank
            ++ cv_outflows tank) then
    mat ← get_cumulative_flow_matrix sim element_name flow_out;
    assign_block n lhs (tank_idx * T) T xmin_idx xmax_idx mat
  else mret lhs.

(** The outer loop body of [mass_balance]: the rows of one tank. *)
Definition balance_tank (sim : Sim) (n : nat) (b : balance)
    (item : nat * (string * Tank)) : outcome balance :=
  let T := num_steps sim in
  let tank_idx := item.1 in
  let tank := item.2.2 in
  demand ← df_get (t_vars tank) "demand";
  dem ← assign_rows (b_dem b) (tank_idx * T) T (cumsum demand);
  rhs_min ← assign_rows (b_rhs_min b) (tank_idx * T) T
              (drop 1 (min_vol tank) ++ [final_vol tank]);
  rhs_max ← assign_bound (b_rhs_max b) (tank_idx * T) T (max_vol tank);
  let lhs_init := splice (b_lhs_init b) (tank_idx * T)
                    (replicate T (initial_vol tank)) in
  lhs ← for_each (balance_element sim n tank_idx tank)
          (unique (vars_name sim)) (b_lhs b);
  mret {| b_lhs := lhs; b_lhs_init := lhs_init; b_rhs_min := rhs_min;
          b_rhs_max := rhs_max; b_dem := dem |}.

(** [self.z.reshape(-1)]. *)
Definition z_flat (m : Model) : list affine :=
  aff_z <$> seq 0 (z_rows m * z_cols m).

(** [self.x]. *)
Definition x_all (m : Model) : list affine := aff_x <$> seq 0 (x_size m).

(** The right-hand side of a mass-balance constraint for the bound [rhs]:
    [np.squeeze(rhs + dem - lhs_init)] without an affine map, and
    [np.squeeze(rhs) + (1 + self.lou * self.z.reshape(-1)) * np.squeeze(dem)
     - np.squeeze(lhs_init)] with one. *)
Definition balance_rhs (self : Aro) (m : Model) (b : balance)
    (rhs : list Z) (affine_map : option (list (list Z)))
  : outcome (list affine) :=
  match affine_map with
  | None =>
      Ret (aff_const <$>
             zip_with Z.sub (zip_with Z.add rhs (b_dem b)) (b_lhs_init b))
  | Some _ =>
      let factor := (λ z, aff_add (aff_const 1) (aff_scale (lou self) z))
                      <$> z_flat m in
      demand ← broadcast (λ f d, aff_scale d f) factor (b_dem b);
      total ← broadcast (λ r d, aff_add (aff_const r) d) rhs demand;
      broadcast (λ t i, aff_sub t (aff_const i)) total (b_lhs_init b)
  end.

(** [mass_balance].  With an affine map the right-hand sides hold
    [self.z], and the two comparisons are robust constraints whatever the
    rule; without one random variables occur in them when the rule is
    adapted. *)
Definition mass_balance (self : Aro) (tanks : list (string * Tank))
    (affine_map : option (list (list Z))) (m : Model) : outcome Model :=
  let T := num_steps (sim self) in
  let ntanks := length tanks in
  if bool_decide (ntanks = 0%nat) then mret m else
  let zeros := replicate (ntanks * T) 0 in
  b ← for_each (balance_tank (sim self) (x_size m)) (imap pair tanks)
        {| b_lhs := np_zeros (ntanks * T) (x_size m); b_lhs_init := zeros;
           b_rhs_min := zeros; b_rhs_max := zeros; b_dem := zeros |};
  let random := match affine_map with
                | None => adapted m
                | Some _ => true
                end in
  lhs ← matmul (b_lhs b) (x_all m);
  rhs ← balance_rhs self m b (b_rhs_max b) affine_map;
  c ← compare Le (Vec lhs) (Vec rhs);
  c ← forall_z_set random c;
  let m := st m c in
  rhs ← balance_rhs self m b (b_rhs_min b) affine_map;
  c ← compare Ge (Vec lhs) (Vec rhs);
  c ← forall_z_set random c;
  mret (st m c).

Definition build_mass_balance (self : Aro) (m : Model) : outcome Model :=
  let tanks := tanks (network (sim self)) in
  match udata self !! "demand" with
  | Some demand =>
      let utanks := filter (λ p, p.1 ∈ u_elements demand) tanks in
      let delta := u_delta demand in
      m ← mass_balance self utanks delta m;
      let dtanks := filter (λ p, p.1 ∉ utanks.*1) tanks in
      mass_balance self dtanks None m
  | None =>
      let utanks : list (string * Tank) := [] in
      let dtanks := filter (λ p, p.1 ∉ utanks.*1) tanks in
      mass_balance self dtanks None m
  end.

(** *** Scheduling windows *)

(** [vsp.vars = vars] on the object of the network named [name]. *)
Definition set_vars (s : Sim) (name : string) (vars : DataFrame) : Sim :=
  let net := network s in
  {| num_steps := num_steps s; time_range := time_range s;
     vars_name := vars_name s; vars_value := vars_value s;
     network :=
       {| objects :=
            alter (λ e, {| e_name := e_name e; combs := combs e;
                           min_flow := min_flow e; max_flow := max_flow e;
                           init_flow := init_flow e; e_vars := vars |})
              name (objects net);
          pump_stations := pump_stations net; vsp := vsp net;
          wells := wells net; control_valves := control_valves net;
          valves := valves net; comb_elements := comb_elements net;
          flow_elements := flow_elements net; tanks := tanks net |} |}.

(** [self.sim.vars.loc[self.sim.vars['name'] == name,
    'network_element'].values[0]]. *)
Definition network_element (s : Sim) (name : string) : outcome Element :=
  match loc (vars_name s) name with
  | [] => Raise IndexError
  | _ => getitem (objects (network s)) name
  end.

(** [not_comb_matrix]. *)
Definition not_comb_matrix (T : nat) (d : inout) : matrix :=
  scale_matrix (flow_direction d) (np_eye T).

(** The dict [operators] of [vsp_volume]. *)
Definition operators (operator_type : string) : outcome cmp :=
  if String.eqb operator_type "le" then Ret Le
  else if String.eqb operator_type "ge" then Ret Ge
  else if String.eqb operator_type "eq" then Ret Eq
  else Raise KeyError.

(** The loop body of [vsp_volume]. *)
Definition vsp_volume_row (st0 : Sim * Model) (row : volume_row)
  : outcome (Sim * Model) :=
  let '(s, m) := st0 in
  let vsp_name := vr_vsp row in
  vsp ← network_element s vsp_name;
  '(xmin_idx, xmax_idx) ← get_x_idx (vars_name s) vsp_name;
  vsp_x ← x_slice m xmin_idx xmax_idx;
  let vars := df_set_scalar (e_vars vsp) "aux" 0 in
  let mask := (λ t, bool_decide (vr_start row ≤ t) && bool_decide (t ≤ vr_end row))
                <$> df_index vars in
  vars ← df_loc_set vars mask "aux" 1;
  let matrix := not_comb_matrix (num_steps s) flow_in in
  aux ← df_get vars "aux";
  matrix ← mul_column matrix aux;
  lhs ← dot (sum_axis0 (num_steps s) matrix) (aff_x <$> vsp_x);
  op ← operators (vr_constraint_type row);
  c ← compare op (Sc lhs) (Sc (aff_const (vr_vol row)));
  c ← forall_z_set (adapted m) c;
  let m := st m c in
  vars ← df_drop vars "aux";
  mret (set_vars s vsp_name vars, m).

Definition vsp_volume (rows : list volume_row) (st0 : Sim * Model)
  : outcome (Sim * Model) :=
  for_each vsp_volume_row rows st0.

(** The first-difference matrix of [vsp_changes]. *)
Definition difference_matrix (T : nat) : outcome matrix :=
  let matrix := np_eye T in
  let '(rows, cols) := np_indices T in
  let row_vals := np_diag_below rows in
  let col_vals := np_diag_below cols in
  matrix ← fancy_assign matrix row_vals col_vals (-1);
  mset matrix 0 0 0.

(** The loop body of [vsp_changes]. *)
Definition vsp_changes_row (st0 : Sim * Model) (row : changes_row)
  : outcome (Sim * Model) :=
  let '(s, m) := st0 in
  let vsp_name := cr_vsp row in
  vsp ← network_element s vsp_name;
  '(xmin_idx, xmax_idx) ← get_x_idx (vars_name s) vsp_name;
  vsp_x ← x_slice m xmin_idx xmax_idx;
  let vars := df_set_scalar (e_vars vsp) "aux" 0 in
  let mask := (λ t, bool_decide (cr_start row < t) && bool_decide (t < cr_end row))
                <$> df_index vars in
  vars ← df_loc_set vars mask "aux" 1;
  let s := set_vars s vsp_name vars in
  matrix ← difference_matrix (num_steps s);
  aux ← df_get vars "aux";
  matrix ← mul_column matrix aux;
  lhs ← matmul matrix (aff_x <$> vsp_x);
  c ← compare Eq (Vec lhs) (Sc (aff_const 0));
  c ← forall_z_set (adapted m) c;
  mret (s, st m c).

Definition vsp_changes (rows : list changes_row) (st0 : Sim * Model)
  : outcome (Sim * Model) :=
  for_each vsp_changes_row rows st0.

(** *** Solving and policy extraction *)

Definition GRB_STATUS : gmap Z string :=
  list_to_map [(1, "LOADED"); (2, "OPTIMAL"); (3, "INFEASIBLE");
               (4, "INF_OR_UNBD"); (5, "UNBOUNDED")].

(** [self.x(self.z.assign(sample))]: the affine rule at a realization.
    The embedding covers the realizations of the shape of [z]; a
    realization of another shape, which rsome broadcasts to the shape of
    [z] where numpy can, is outside it and reported as a [ValueError]. *)
Definition retrieve_decision_vars (m : Model) (sol : Solution)
    (sample : option (list (list Z))) : outcome (list Z) :=
  let sample := match sample with
                | None => np_zeros (z_rows m) (z_cols m)
                | Some sample => sample
                end in
  if bool_decide (length sample = z_rows m
                  ∧ Forall (λ row, length row = z_cols m) sample)
  then Ret (zip_with (λ c row, c + sumZ (zip_with Z.mul row (concat sample)))
              (s_pi0 sol) (s_pi sol))
  else Raise ValueError.

(** The loop body of [get_results]:
    [self.sim.network[name].vars['value'] = x[xmin_idx: xmax_idx]]. *)
Definition write_value (x : list Z) (s : Sim) (name : string) : outcome Sim :=
  '(xmin_idx, xmax_idx) ← get_x_idx (vars_name s) name;
  element ← getitem (objects (network s)) name;
  '(a, w) ← slice_bounds (length x) xmin_idx xmax_idx;
  vars ← df_set_array (e_vars element) "value" (take w (drop a x));
  mret (set_vars s name vars).

(** [self.sim.vars['value'] = x]. *)
Definition write_flat (x : list Z) (s : Sim) : outcome Sim :=
  if bool_decide (length x = length (vars_name s))
  then Ret {| num_steps := num_steps s; time_range := time_range s;
              vars_name := vars_name s; vars_value := Some x;
              network := network s |}
  else Raise ValueError.

(** [series.groupby(level='time').sum()]: the sum of the rows of every time
    stamp, the time stamps in increasing order. *)
Definition groupby_sum (keys vals : list Z) : list Z * list Z :=
  let times := merge_sort Z.le (remove_dups keys) in
  (times,
   (λ t, sumZ (omap (λ p : Z * Z, if bool_decide (p.1 = t) then Some p.2 else None)
                 (zip keys vals))) <$> times).

(** [pd.merge(df, series.rename(name), left_index=True, right_index=True)]:
    the inner join on the index, in the order of the rows of [df]. *)
Definition merge (df : DataFrame) (name : string) (keys vals : list Z)
  : DataFrame :=
  let rows : list (nat * Z * Z) :=
    p ← imap pair (df_index df);
    q ← zip keys vals;
    if bool_decide (q.1 = p.2) then [(p.1, p.2, q.2)] else [] in
  {| df_index := (λ r, r.1.2) <$> rows;
     df_columns :=
       ((λ c : string * list Z,
           (c.1, (λ r : nat * Z * Z, default 0 (c.2 !! r.1.1)) <$> rows))
          <$> df_columns df)
       ++ [(name, (λ r, r.2) <$> rows)] |}.

(** [df.sum(axis=1)]. *)
Definition sum_axis1 (df : DataFrame) : list Z :=
  imap (λ i _, sumZ ((λ c : string * list Z, default 0 (c.2 !! i)) <$> df_columns df))
    (df_index df).

(** The values of a series at the labels of another index.  pandas fills
    the labels that the series lacks with NaN; the tables of the embedding
    hold numbers only and such a label is reported as a [ValueError], as is
    a label that the series has twice. *)
Definition align (keys vals : list Z) (target : list Z) : outcome (list Z) :=
  mapM (M := outcome) (λ t,
      match omap (λ p : Z * Z, if bool_decide (p.1 = t) then Some p.2 else None)
              (zip keys vals) with
      | [v] => Ret v
      | _ => Raise ValueError
      end) target.

(** The flows into a tank that a group of discrete-state elements
    contributes, with the sign [sign]. *)
Definition merge_comb (s : Sim) (sign : Z) (df : DataFrame) (name : string)
  : outcome DataFrame :=
  x ← getitem (objects (network s)) name;
  flow ← df_get (e_vars x) "flow";
  value ← df_get (e_vars x) "value";
  let q := groupby_sum (df_index (e_vars x)) (zip_with Z.mul flow value) in
  mret (merge df (e_name x) q.1 (Z.mul sign <$> q.2)).

(** The flows of a group of continuous elements. *)
Definition merge_value (s : Sim) (sign : Z) (df : DataFrame) (name : string)
  : outcome DataFrame :=
  x ← getitem (objects (network s)) name;
  value ← df_get (e_vars x) "value";
  mret (merge df (e_name x) (df_index (e_vars x)) (Z.mul sign <$> value)).

(** The loop body of [tanks_balance]: the inflow and the volume of one
    tank. *)
Definition tank_balance (s : Sim) (item : string * Tank)
  : outcome (string * Tank) :=
  let t := item.2 in
  let df := {| df_index := time_range s;
               df_columns := [("df", replicate (length (time_range s)) 0)] |} in
  df ← for_each (merge_comb s 1) (pumps_inflows t ++ cv_inflows t) df;
  df ← for_each (merge_value s 1) (vsp_inflows t ++ v_inflows t) df;
  df ← for_each (merge_comb s (-1)) (pumps_outflows t ++ cv_outflows t) df;
  df ← for_each (merge_value s (-1)) (vsp_outflows t ++ v_outflows t) df;
  let inflow := sum_axis1 df in
  demand ← df_get (t_vars t) "demand";
  demand ← align (df_index (t_vars t)) (Z.opp <$> demand) (df_index df);
  let volume := Z.add (initial_vol t) <$> cumsum (zip_with Z.add inflow demand) in
  value ← align (df_index df) volume (df_index (t_vars t));
  inflow ← align (df_index df) inflow (df_index (t_vars t));
  let vars := with_columns (t_vars t)
                (set_column "inflow" inflow
                   (set_column "value" value (df_columns (t_vars t)))) in
  mret (item.1,
        {| t_name := t_name t; t_vars := vars; initial_vol := initial_vol t;
           min_vol := min_vol t; max_vol := max_vol t; final_vol := final_vol t;
           inflows := inflows t; pumps_inflows := pumps_inflows t;
           vsp_inflows := vsp_inflows t; v_inflows := v_inflows t;
           cv_inflows := cv_inflows t; pumps_outflows := pumps_outflows t;
           vsp_outflows := vsp_outflows t; v_outflows := v_outflows t;
           cv_outflows := cv_outflows t |}).

Definition tanks_balance (s : Sim) : outcome Sim :=
  let net := network s in
  tanks ← mapM (M := outcome) (tank_balance s) (tanks net);
  mret {| num_steps := num_steps s; time_range := time_range s;
          vars_name := vars_name s; vars_value := vars_value s;
          network :=
            {| objects := objects net; pump_stations := pump_stations net;
               vsp := vsp net; wells := wells net;
               control_valves := control_valves net; valves := valves net;
               comb_elements := comb_elements net;
               flow_elements := flow_elements net; tanks := tanks |} |}.

Definition get_results (m : Model) (sol : Solution) (s : Sim)
    (sample : option (list (list Z))) : outcome Sim :=
  x ← retrieve_decision_vars m sol sample;
  s ← for_each (write_value x) (unique (vars_name s)) s;
  s ← write_flat x s;
  tanks_balance s.

(** [self.model.get()]: the objective value of the solution; a model that
    holds no solution is a [RuntimeError]. *)
Definition model_get (solution : option Solution) : outcome Z :=
  match solution with
  | Some sol => Ret (s_obj sol)
  | None => Raise RuntimeError
  end.

(** [solve]: [solution] is what the solver leaves in
    [self.model.solution], [None] when it found no solution.  The objective
    is read first, then the attributes of the solution. *)
Definition solve (m : Model) (solution : option Solution) (s : Sim)
  : outcome (Sim * (string * Z)) :=
  obj ← model_get solution;
  match solution with
  | None => Raise AttributeError
  | Some sol =>
      status ← getitem GRB_STATUS (s_status sol);
      s ← get_results m sol s None;
      mret (s, (status, obj))
  end.

(** *** Construction of the model *)

(** [comb_matrix]: the per-step matrix of an element with discrete states,
    row [t] selecting the block of step [t]. *)
Definition comb_matrix (T : nat) (element : Element) (d : inout)
    (param : option string) : outcome matrix :=
  c ← len_combs element;
  let matrix := np_zeros T (T * c) in
  rows ← np_hstack ((λ i, replicate c i) <$> range 0 T);
  let cols := seq 0 (c * T) in
  matrix ← fancy_assign matrix rows cols (flow_direction d);
  match param with
  | Some p => v ← df_get (e_vars element) p; mul_rows matrix v
  | None => mret matrix
  end.

(** [declare_variables]: the number of entries of the decision rule that
    [self.model.ldr] is asked for. *)
Definition declare_variables (sim : Sim) : outcome nat :=
  let net := network sim in
  l ← items net (pump_stations net);
  cs ← mapM (M := outcome) (λ p : string * Element, len_combs p.2) l;
  let n := sum_list cs in
  let n := (n + length (vsp net))%nat in
  let n := (n + length (wells net))%nat in
  l ← items net (control_valves net);
  cs ← mapM (M := outcome) (λ p : string * Element, len_combs p.2) l;
  let n := (n + sum_list cs)%nat in
  let n := (n + length (valves net))%nat in
  mret (n * num_steps sim)%nat.

(** A 2-dimensional array together with its shape, which the rows alone do
    not give when a dimension is 0. *)
Record array2 := {
  a_rows : nat;
  a_cols : nat;
  a_data : matrix;
}.

(** [np.vstack] of 1-dimensional arrays: at least one array, and all of one
    length, or a [ValueError]. *)
Definition np_vstack (l : list (list Z)) : outcome array2 :=
  match l with
  | [] => Raise ValueError
  | a :: r =>
      if bool_decide (Forall (λ b, length b = length a) r)
      then Ret {| a_rows := length l; a_cols := length a; a_data := l |}
      else Raise ValueError
  end.

(** [a.T]. *)
Definition np_transpose (a : array2) : array2 :=
  {| a_rows := a_cols a; a_cols := a_rows a;
     a_data := (λ j, (λ row, entry row j) <$> a_data a) <$> seq 0 (a_cols a) |}.

(** [get_nominal_demands]: the demand series of the tanks whose name is in
    [self.utanks], one column per tank. *)
Definition get_nominal_demands (sim : Sim) (utanks : list string)
  : outcome array2 :=
  rows ← mapM (M := outcome) (λ p : string * Tank, df_get (t_vars p.2) "demand")
         (filter (λ p : string * Tank, t_name p.2 ∈ utanks)
            (tanks (network sim)));
  a ← np_vstack rows;
  mret (np_transpose a).

(** [declare_random_variables]: the shape of [z] is the shape of the
    nominal demands. *)
Definition declare_random_variables (nominal_demands : array2) : nat * nat :=
  (a_rows nominal_demands, a_cols nominal_demands).

(** [__init__].  [uutils.init_uncertainty] is not part of the source at
    hand: its result, the uncertainty data, is the argument [udata].  The
    object, the nominal demands and the model with the declared and adapted
    decision rule are returned. *)
Definition init (sim : Sim) (lou : Z) (udata : gmap string UData)
  : outcome (Aro * array2 * Model) :=
  demand ← getitem udata "demand";
  let utanks := u_elements demand in
  nominal_demands ← get_nominal_demands sim utanks;
  n ← declare_variables sim;
  let '(zr, zc) := declare_random_variables nominal_demands in
  let m := {| x_size := n; z_rows := zr; z_cols := zc; depend := ∅;
              constraints := [] |} in
  m ← adapt_ldr sim m;
  mret ({| sim := sim; lou := lou; udata := udata |}, nominal_demands, m).

(** [objective_func]: the expression handed to [minmax], and whether the
    nominal uncertainty set [z == 0] goes with it.  The collection
    [cost_elements] of the network and the flag [worst_case] are
    arguments. *)
Definition objective_func (s : Sim) (m : Model) (cost_elements : list string)
    (worst_case : bool) : outcome (affine * bool) :=
  l ← items (network s) cost_elements;
  obj ← for_each (λ obj (item : string * Element),
      '(xmin_idx, xmax_idx) ← get_x_idx (vars_name s) item.1;
      cost ← df_get (e_vars item.2) "cost";
      ix ← x_slice m xmin_idx xmax_idx;
      term ← dot cost (aff_x <$> ix);
      mret (aff_add obj term)) l (aff_const 0);
  mret (obj, negb worst_case).

(** [build]: the builders in turn; the records of the two schedules, read
    from files by the builders, are arguments. *)
Definition build (self : Aro) (m : Model) (volume_rows : list volume_row)
    (changes_rows : list changes_row) (cost_elements : list string)
    (worst_case : bool) : outcome (Sim * Model * (affine * bool)) :=
  m ← range_constraints (sim self) m;
  m ← one_comb_only (sim self) m;
  m ← build_mass_balance self m;
  '(s, m) ← vsp_volume volume_rows (sim self, m);
  '(s, m) ← vsp_changes changes_rows (s, m);
  obj ← objective_func s m cost_elements worst_case;
  mret (s, m, obj).


End ARO.

(** ** The layout of the decision vector *)

(** Modelled from the spec: the code that fills [sim.vars] is not part of
    the source at hand.  Section 3: the elements follow each other in a
    fixed order, and within an element the time steps are contiguous blocks
    whose width is the element's state count. *)
Definition block_size (T : nat) (e : Element) : nat := (T * state_count e)%nat.

Definition layout (T : nat) (elems : list Element) : list string :=
  e ← elems; replicate (block_size T e) (e_name e).

Record laid_out (sim : Sim) (elems : list Element) : Prop := {
  lo_names : vars_name sim = layout (num_steps sim) elems;
  lo_nodup : NoDup (e_name <$> elems);
  lo_objects : ∀ e, e ∈ elems → objects (network sim) !! e_name e = Some e;
}.

(** The step that the decision at a position of [x] belongs to, in the
    layout of the elements [elems] over [T] steps. *)
Fixpoint step_of (T : nat) (elems : list Element) (i : nat) : option nat :=
  match elems with
  | [] => None
  | e :: rest =>
      if decide (i < block_size T e)%nat then Some (i / state_count e)%nat
      else step_of T rest (i - block_size T e)
  end.

(** ** What a declared constraint says

    The predicates below state the content of a robust constraint: the
    qualifier [forall(self.z_set)] is attached, and the constraint holds at
    a rational value of [x] and of [z], the numerators [xv] and [zv] over
    the denominator [den > 0], exactly when the stated relation does; a
    bound [v] on the entry [xv[i] / den] reads [den * v] on the numerator
    [xv[i]]. *)

(** Every entry of [x] at the positions [a], ..., [b - 1] is at least
    [lo]: the constraint is [x[a:b] >= lo]. *)
Definition bounds_below (c : Constraint) (a b : nat) (lo : Z) : Prop :=
  c_forall c = true ∧
  c_lhs c = as_vec (seq a (b - a)) ∧ c_op c = Ge ∧
  c_rhs c = Sc (aff_const lo) ∧
  ∀ den xv zv, 0 < den →
    (holds_at den xv zv c ↔ ∀ i, (a ≤ i < b)%nat → den * lo ≤ entry xv i).

(** Every entry of [x] at the positions [a], ..., [b - 1] is at most
    [hi]: the constraint is [x[a:b] <= hi]. *)
Definition bounds_above (c : Constraint) (a b : nat) (hi : Z) : Prop :=
  c_forall c = true ∧
  c_lhs c = as_vec (seq a (b - a)) ∧ c_op c = Le ∧
  c_rhs c = Sc (aff_const hi) ∧
  ∀ den xv zv, 0 < den →
    (holds_at den xv zv c ↔ ∀ i, (a ≤ i < b)%nat → entry xv i ≤ den * hi).

(** The entry of [x] at the position [a] is [v]: the constraint is
    [x[a] == v]. *)
Definition pins (c : Constraint) (a : nat) (v : Z) : Prop :=
  c_forall c = true ∧
  c_lhs c = Sc (aff_x a) ∧ c_op c = Eq ∧ c_rhs c = Sc (aff_const v) ∧
  ∀ den xv zv, 0 < den → (holds_at den xv zv c ↔ entry xv a = den * v).

(** The positions [a], ..., [b - 1] of [x] span the rows of the name [k]
    in the table: [a] is the first row of the name, [b - 1] its last row,
    and every row of the name lies among them. *)
Definition spans_rows (names : list string) (k : string) (a b : nat) : Prop :=
  (a < b ≤ length names)%nat ∧
  names !! a = Some k ∧ names !! (b - 1)%nat = Some k ∧
  ∀ i, names !! i = Some k → (a ≤ i < b)%nat.

(** What [range_constraints] declares for an element bounded to [0, 1]:
    the two bounds on the positions that span the rows of the element. *)
Definition unit_range_spec (names : list string) (k : string)
    (cs : list Constraint) : Prop :=
  ∃ (a b : nat) c1 c2,
    spans_rows names k a b ∧
    cs = [c1; c2] ∧ bounds_below c1 a b 0 ∧ bounds_above c2 a b 1.

(** What [range_constraints] declares for a variable speed pump: the two
    bounds on the positions that span the rows of the pump and, when it has
    an initial flow, the pin of the first of them. *)
Definition vsp_range_spec (names : list string) (objs : gmap string Element)
    (k : string) (cs : list Constraint) : Prop :=
  ∃ e (a b : nat) c1 c2 rest,
    objs !! k = Some e ∧
    spans_rows names k a b ∧
    cs = c1 :: c2 :: rest ∧
    bounds_below c1 a b (min_flow e) ∧ bounds_above c2 a b (max_flow e) ∧
    match init_flow e with
    | NaN => rest = []
    | Int v => ∃ c3, rest = [c3] ∧ pins c3 a v
    end.

(** The positions of [x] that the rows of a name in the table address. *)
Definition rows_of (names : list string) (name : string) : list nat :=
  Z.to_nat <$> Index.loc names name.

(** The sum of the decisions of the step [t] of an element with [c] states
    whose rows address the positions [ix]: the entries at [ix[t * c]], ...,
    [ix[t * c + c - 1]]. *)
Definition block_sum (xv : list Z) (ix : list nat) (t c : nat) : Z :=
  sumZ ((λ k, from_option (entry xv) 0 (ix !! (t * c + k)%nat)) <$> seq 0 c).

(** The 0/1 selector pattern: row [t] has ones at the columns of the block
    of step [t] and zeros elsewhere. *)
Definition selects_blocks (M : matrix) (T c : nat) : Prop :=
  shape M T (T * c) ∧
  ∀ t j, (t < T)%nat → (j < T * c)%nat →
    mget M t j = Some (if decide (t * c ≤ j < t * c + c)%nat then 1 else 0).

(** What [one_comb_only] declares for a discrete-state element. *)
Definition one_comb_spec (s : Sim) (k : string) (cs : list Constraint) : Prop :=
  let T := num_steps s in
  ∃ station l M lhs ct,
    objects (network s) !! k = Some station ∧ combs station = Some l ∧
    ARO.selector_matrix T (length l) = Ret M ∧ selects_blocks M T (length l) ∧
    matmul M (aff_x <$> rows_of (vars_name s) (e_name station)) = Ret lhs ∧
    cs = [ct] ∧ c_lhs ct = Vec lhs ∧ c_op ct = Le ∧
    c_rhs ct = Col (replicate T (aff_const 1)) ∧ c_forall ct = true ∧
    ∀ den xv zv, 0 < den →
      (holds_at den xv zv ct ↔
       ∀ t, (t < T)%nat →
         block_sum xv (rows_of (vars_name s) (e_name station)) t (length l)
         ≤ den).

(** The first-difference pattern: the identity with -1 below the diagonal,
    and the row 0 zeroed. *)
Definition first_difference (D : matrix) (T : nat) : Prop :=
  shape D T T ∧
  ∀ i j, (i < T)%nat → (j < T)%nat →
    mget D i j = Some (if decide (i = 0%nat) then 0
                       else if decide (j = i) then 1
                       else if decide (S j = i) then -1 else 0).

(** The step [i] of a table lies strictly inside the window of a record of
    [vsp_changes.csv]. *)
Definition in_window (index : list Z) (row : changes_row) (i : nat) : bool :=
  match index !! i with
  | Some t => bool_decide (cr_start row < t) && bool_decide (t < cr_end row)
  | None => false
  end.



(** The element of a record of a schedule in the state [s]: an object of
    the network with one row per step, whose decisions are [x[a]], ...,
    [x[a + T - 1]]. *)
Definition scheduled (s : Sim) (m : Model) (name : string) (vsp : Element)
    (a : nat) : Prop :=
  objects (network s) !! name = Some vsp ∧
  Index.get_x_idx (vars_name s) name
  = Ret (Int (Z.of_nat a), Int (Z.of_nat (a + num_steps s))) ∧
  (a + num_steps s ≤ x_size m)%nat ∧
  length (df_index (e_vars vsp)) = num_steps s.

(** Two states with the same horizon and table, whose objects have the
    same attributes and the same table index. *)
Definition same_rows (s s' : Sim) : Prop :=
  num_steps s' = num_steps s ∧ vars_name s' = vars_name s ∧
  ∀ k, (λ e, (e_name e, combs e, min_flow e, max_flow e, init_flow e,
              df_index (e_vars e)))
         <$> objects (network s') !! k
       = (λ e, (e_name e, combs e, min_flow e, max_flow e, init_flow e,
                df_index (e_vars e)))
           <$> objects (network s) !! k.

(** ** What the mass balance says *)

(** The column [flow] of the table of an element, and the column [demand]
    of the table of a tank. *)
Definition flow_of (e : Element) : list Z :=
  default [] (assoc "flow" (df_columns (e_vars e))).

Definition demand_of (tank : Tank) : list Z :=
  default [] (assoc "demand" (df_columns (t_vars tank))).

(** The row of the step [t] of the cumulative matrix of an element, for
    the direction 1. *)
Definition cum_row (T : nat) (e : Element) (t : nat) : list Z :=
  match combs e with
  | Some l =>
      (λ j, if decide (j < length l * (t + 1))%nat then entry (flow_of e) j
            else 0) <$> seq 0 (T * length l)
  | None => (λ j, if decide (j ≤ t)%nat then 1 else 0) <$> seq 0 T
  end.

(** The direction of an element for a tank: 1 for an inflow, -1 for an
    outflow, 0 for an element that is neither. *)
Definition tank_sign (tank : Tank) (name : string) : Z :=
  if bool_decide (name ∈ inflows tank) then 1
  else if bool_decide (name ∈ pumps_outflows tank ++ vsp_outflows tank
                              ++ v_outflows tank ++ cv_outflows tank)
       then -1 else 0.

(** The flow through an element over the steps 0 to [t], its decisions
    starting at the position [off] of [x]: for a discrete-state element the
    flow of every state times its decision, for a continuous one the
    decision. *)
Definition cum_flow (e : Element) (xv : list Z) (off t : nat) : Z :=
  match combs e with
  | Some l =>
      sumZ ((λ j, entry (flow_of e) j * entry xv (off + j))
              <$> seq 0 (length l * (t + 1)))
  | None => sumZ ((λ j, entry xv (off + j)) <$> seq 0 (t + 1))
  end.

(** The cumulative net inflow of a tank over the steps 0 to [t], for the
    elements [elems] laid out from the position [off] on. *)
Fixpoint net_inflow (T : nat) (tank : Tank) (elems : list Element) (off : nat)
    (xv : list Z) (t : nat) : Z :=
  match elems with
  | [] => 0
  | e :: rest =>
      tank_sign tank (e_name e) * cum_flow e xv off t
      + net_inflow T tank rest (off + block_size T e) xv t
  end.

(** The row of the step [t] of a tank in the left-hand side of the mass
    balance: the cumulative rows of the elements, block by block, each with
    its direction for the tank. *)
Definition balance_row (T : nat) (tank : Tank) (elems : list Element) (t : nat)
  : list Z :=
  e ← elems; Z.mul (tank_sign tank (e_name e)) <$> cum_row T e t.

(** The nominal cumulative demand of a tank at the step [t]. *)
Definition cum_demand (tank : Tank) (t : nat) : Z :=
  entry (cumsum (demand_of tank)) t.

(** The maximum volume of a tank at the step [t]. *)
Definition max_at (tank : Tank) (t : nat) : Z :=
  match max_vol tank with
  | Scalar k => k
  | Column l => entry l t
  end.

(** The minimum volume that [mass_balance] uses at the step [t] of [T]:
    the entry of [min_vol] of the next step, and [final_vol] at the last
    step. *)
Definition min_at (T : nat) (tank : Tank) (t : nat) : Z :=
  if decide (S t = T) then final_vol tank else entry (min_vol tank) (S t).

(** The demand offset of the row [row] of a mass-balance constraint for
    the nominal cumulative demand [d], at the realization [zv / den] and
    times [den]: [d] without a map, [(1 + lou * z[row]) * d] with one. *)
Definition demand_offset (affine_map : option (list (list Z))) (lou : Z)
    (den : Z) (zv : list Z) (row : nat) (d : Z) : Z :=
  match affine_map with
  | None => den * d
  | Some _ => (den + lou * entry zv row) * d
  end.

(** The data that [mass_balance] needs: the table laid out by element, one
    decision per row, at least one step, every element of the table a flow
    element whose flow column, if it has states, has one entry per row, and
    every tank with one demand and one minimum volume per step. *)
Record balance_ready (self : Aro) (elems : list Element)
    (tanks : list (string * Tank)) (m : Model) : Prop := {
  br_laid : laid_out (sim self) elems;
  br_size : x_size m = length (vars_name (sim self));
  br_steps : (0 < num_steps (sim self))%nat;
  br_flow : ∀ e, e ∈ elems → (0 < block_size (num_steps (sim self)) e)%nat →
      e_name e ∈ flow_elements (network (sim self)) ∧
      ∀ l, combs e = Some l →
        ∃ fl, assoc "flow" (df_columns (e_vars e)) = Some fl ∧
              length fl = (num_steps (sim self) * length l)%nat;
  br_tanks : ∀ p, p ∈ tanks →
      (∃ d, assoc "demand" (df_columns (t_vars p.2)) = Some d ∧
            length d = num_steps (sim self)) ∧
      length (min_vol p.2) = num_steps (sim self) ∧
      ∀ l, max_vol p.2 = Column l → length l = num_steps (sim self);
}.

(** A column of [n] tanks times [T] steps whose rows of the first [k]
    tanks hold the values [val] and whose other rows are zero. *)
Definition filled (T n k : nat) (tanks : list (string * Tank))
    (val : Tank → nat → Z) (v : list Z) : Prop :=
  ∃ P, v = P ++ replicate ((n - k) * T) 0 ∧ length P = (k * T)%nat ∧
       ∀ k' p t, tanks !! k' = Some p → (k' < k)%nat → (t < T)%nat →
                 P !! (k' * T + t)%nat = Some (val p.2 t).

(** The arrays of [mass_balance] after the first [k] of [n] tanks. *)
Definition balance_filled (T N n k : nat) (elems : list Element)
    (tanks : list (string * Tank)) (b : ARO.balance) : Prop :=
  filled T n k tanks cum_demand (ARO.b_dem b) ∧
  filled T n k tanks (min_at T) (ARO.b_rhs_min b) ∧
  filled T n k tanks max_at (ARO.b_rhs_max b) ∧
  filled T n k tanks (λ tank _, initial_vol tank) (ARO.b_lhs_init b) ∧
  length (ARO.b_lhs b) = (n * T)%nat ∧
  (∀ k' p t, tanks !! k' = Some p → (k' < k)%nat → (t < T)%nat →
     ARO.b_lhs b !! (k' * T + t)%nat = Some (balance_row T p.2 elems t)) ∧
  (∀ r, (k * T ≤ r < n * T)%nat → ARO.b_lhs b !! r = Some (replicate N 0)).

(** What [mass_balance] declares for the tanks [tanks]: the two robust
    constraints that keep, for every tank and step, the initial volume plus
    the cumulative net inflow minus the demand offset at most the maximum
    volume and at least the minimum volume, at every rational value
    [xv / den] of the decisions and [zv / den] of the realization; both
    sides of the comparisons are written times [den]. *)
Definition balance_spec (self : Aro) (elems : list Element)
    (tanks : list (string * Tank)) (affine_map : option (list (list Z)))
    (cmax cmin : Constraint) : Prop :=
  let T := num_steps (sim self) in
  let volume den k tank xv zv t :=
    den * initial_vol tank + net_inflow T tank elems 0 xv t
    - demand_offset affine_map (lou self) den zv (k * T + t)
        (cum_demand tank t) in
  c_forall cmax = true ∧ c_forall cmin = true ∧
  c_op cmax = Le ∧ c_op cmin = Ge ∧
  (∀ den xv zv, 0 < den →
     (holds_at den xv zv cmax ↔
      ∀ k p t, tanks !! k = Some p → (t < T)%nat →
        volume den k p.2 xv zv t ≤ den * max_at p.2 t)) ∧
  (∀ den xv zv, 0 < den →
     (holds_at den xv zv cmin ↔
      ∀ k p t, tanks !! k = Some p → (t < T)%nat →
        den * min_at T p.2 t ≤ volume den k p.2 xv zv t)).

(** What one call of [mass_balance] does to the model: nothing for no
    tank, the two constraints of [balance_spec] otherwise. *)
Definition balance_declared (self : Aro) (elems : list Element)
    (tanks : list (string * Tank)) (affine_map : option (list (list Z)))
    (m m' : Model) : Prop :=
  match tanks with
  | [] => m' = m
  | _ :: _ =>
      ∃ cmax cmin, m' = st (st m cmax) cmin ∧
                   balance_spec self elems tanks affine_map cmax cmin
  end.

(** The tanks that [build_mass_balance] treats as uncertain, the map it
    passes along with them, and the tanks it treats as deterministic. *)
Definition uncertain_tanks (self : Aro) : list (string * Tank) :=
  match udata self !! "demand" with
  | Some demand =>
      filter (λ p, p.1 ∈ u_elements demand) (tanks (network (sim self)))
  | None => []
  end.

Definition passed_map (self : Aro) : option (list (list Z)) :=
  match udata self !! "demand" with
  | Some demand => u_delta demand
  | None => None
  end.

Definition deterministic_tanks (self : Aro) : list (string * Tank) :=
  filter (λ p, p.1 ∉ (uncertain_tanks self).*1) (tanks (network (sim self))).

(** ** Policy extraction

    The element [name] holds what [get_results] writes for the decisions
    [x]: over the range that [get_x_idx] gives for it, the entries of [x],
    one per row of its table, in the column [value]. *)
Definition written (x : list Z) (s : Sim) (name : string) : Prop :=
  ∃ xmin xmax e a w,
    Index.get_x_idx (vars_name s) name = Ret (xmin, xmax) ∧
    objects (network s) !! name = Some e ∧
    slice_bounds (length x) xmin xmax = Ret (a, w) ∧
    length (take w (drop a x)) = length (df_index (e_vars e)) ∧
    assoc "value" (df_columns (e_vars e)) = Some (take w (drop a x)).

(** ** Further properties of the builders *)

(** The step [i] of a table lies inside the closed window of a record of
    [vsp_volume.csv]. *)
Definition in_period (index : list Z) (row : volume_row) (i : nat) : bool :=
  match index !! i with
  | Some t => bool_decide (vr_start row ≤ t) && bool_decide (t ≤ vr_end row)
  | None => false
  end.

(** The total of the decisions [x[a]], ..., [x[a + T - 1]] over the steps
    inside the window. *)
Definition period_flow (xv : list Z) (index : list Z) (row : volume_row)
    (a T : nat) : Z :=
  sumZ ((λ i, if in_period index row i then entry xv (a + i) else 0)
          <$> seq 0 T).

(** What [vsp_volume] declares for a record whose element has the table
    index [index] and the decisions [x[a]], ..., [x[a + T - 1]]. *)
Definition volume_spec (T : nat) (index : list Z) (a : nat) (row : volume_row)
    (c : Constraint) : Prop :=
  ∃ op, ARO.operators (vr_constraint_type row) = Ret op ∧
        c_op c = op ∧ c_forall c = true ∧
        ∀ den xv zv, 0 < den →
          (holds_at den xv zv c ↔
           cmp_holds op (period_flow xv index row a T) (den * vr_vol row)).

(** [m'] is [m] with robust constraints appended: the size of [x], the
    shape of [z] and the adaptation are those of [m]. *)
Definition appends_robust (m m' : Model) : Prop :=
  ∃ cs, m' = foldl st m cs ∧ Forall (λ c, c_forall c = true) cs.

(** The factor of the column [j] of a matrix of an element: the entry of
    the column [param] of its table, or 1 without a parameter. *)
Definition param_at (e : Element) (param : option string) (j : nat) : Z :=
  match param with
  | None => 1
  | Some p => entry (default [] (assoc p (df_columns (e_vars e)))) j
  end.

(** The table of an element has the column [param] with [n] entries. *)
Definition has_param (e : Element) (param : option string) (n : nat) : Prop :=
  match param with
  | None => True
  | Some p => ∃ v, assoc p (df_columns (e_vars e)) = Some v ∧ length v = n
  end.

(** The sum of the column [j] of a matrix over the rows 0 to [t]. *)
Definition running_total (M : matrix) (t j : nat) : Z :=
  sumZ ((λ s, default 0 (mget M s j)) <$> seq 0 (S t)).

(** The number of states of the object of a name: what the name
    contributes, per step, to the size of the decision rule. *)
Definition states_of (net : Network) (k : string) : nat :=
  from_option state_count 0%nat (objects net !! k).

(** The value series of the object of a name: the column [value] of its
    table, empty when there is none. *)
Definition value_of (s : Sim) (name : string) : list Z :=
  default [] (e ← objects (network s) !! name;
              assoc "value" (df_columns (e_vars e))).

(** The cost of the decisions [xv] of the element [k]: the entries of the
    column [cost] of its table times the decisions from the first row of
    the element on. *)
Definition element_cost (s : Sim) (xv : list Z) (k : string) : Z :=
  match objects (network s) !! k, Index.index_min (Index.loc (vars_name s) k) with
  | Some e, Int a =>
      let cost := default [] (assoc "cost" (df_columns (e_vars e))) in
      sumZ ((λ j, entry cost j * entry xv (Z.to_nat a + j))
              <$> seq 0 (length cost))
  | _, _ => 0
  end.

(** ** The balance of a tank after the extraction *)

(** The flow through the discrete-state element [name] at the time stamp
    [t]: the flows of its states times their values, summed over the rows
    of the time stamp. *)
Definition comb_flow_at (s : Sim) (name : string) (t : Z) : Z :=
  match objects (network s) !! name with
  | Some x =>
      sumZ (omap (λ p : Z * Z, if bool_decide (p.1 = t) then Some p.2 else None)
              (zip (df_index (e_vars x))
                 (zip_with Z.mul (flow_of x) (value_of s name))))
  | None => 0
  end.

(** The net inflow of a tank at the row [i] of the time stamp [t]: its
    discrete-state and continuous inflows minus its outflows. *)
Definition tank_inflow_at (s : Sim) (tank : Tank) (i : nat) (t : Z) : Z :=
  sumZ ((λ k, comb_flow_at s k t) <$> (pumps_inflows tank ++ cv_inflows tank))
  + sumZ ((λ k, entry (value_of s k) i) <$> (vsp_inflows tank ++ v_inflows tank))
  - sumZ ((λ k, comb_flow_at s k t) <$> (pumps_outflows tank ++ cv_outflows tank))
  - sumZ ((λ k, entry (value_of s k) i) <$> (vsp_outflows tank ++ v_outflows tank)).

(** The tables that [tanks_balance] joins for a tank share the time stamps
    of the simulation: the time stamps are distinct, the table of the tank
    is indexed by them and has a demand per step, every continuous
    contributor is an object whose table is indexed by them and has a value
    per step, and every discrete-state contributor is an object with flows
    and values whose distinct time stamps, in increasing order, are the
    time stamps of the simulation. *)
Record balanceable (s : Sim) (tank : Tank) : Prop := {
  bl_nodup : NoDup (time_range s);
  bl_index : df_index (t_vars tank) = time_range s;
  bl_demand : ∃ d, assoc "demand" (df_columns (t_vars tank)) = Some d ∧
                   length d = length (time_range s);
  bl_comb : ∀ k, k ∈ pumps_inflows tank ++ cv_inflows tank
                     ++ pumps_outflows tank ++ cv_outflows tank →
      ∃ x fl v, objects (network s) !! k = Some x ∧
                assoc "flow" (df_columns (e_vars x)) = Some fl ∧
                assoc "value" (df_columns (e_vars x)) = Some v ∧
                merge_sort Z.le (remove_dups (df_index (e_vars x)))
                = time_range s;
  bl_cont : ∀ k, k ∈ vsp_inflows tank ++ v_inflows tank
                     ++ vsp_outflows tank ++ v_outflows tank →
      ∃ x v, objects (network s) !! k = Some x ∧
             assoc "value" (df_columns (e_vars x)) = Some v ∧
             length v = length (time_range s) ∧
             df_index (e_vars x) = time_range s;
}.


(** ** A small network

    Three steps; a pump station [p1] with two states that fills the tank
    [t1], and a variable speed pump [v1] that empties it. *)

Module Example.

Definition p1 : Element :=
  {| e_name := "p1"; combs := Some ["off"; "on"]; min_flow := 0; max_flow := 0;
     init_flow := NaN;
     e_vars := {| df_index := [10; 10; 20; 20; 30; 30];
                  df_columns := [("flow", [1; 2; 1; 2; 1; 2])] |} |}.

Definition v1 : Element :=
  {| e_name := "v1"; combs := None; min_flow := 0; max_flow := 10;
     init_flow := Int 3;
     e_vars := {| df_index := [10; 20; 30];
                  df_columns := [("flow", [0; 0; 0])] |} |}.

Definition t1 : Tank :=
  {| t_name := "t1";
     t_vars := {| df_index := [10; 20; 30];
                  df_columns := [("demand", [1; 2; 3])] |};
     initial_vol := 10; min_vol := [7; 6; 4]; max_vol := Scalar 20;
     final_vol := 1;
     inflows := ["p1"]; pumps_inflows := ["p1"]; vsp_inflows := [];
     v_inflows := []; cv_inflows := []; pumps_outflows := [];
     vsp_outflows := ["v1"]; v_outflows := []; cv_outflows := [] |}.

Definition net : Network :=
  {| objects := <["p1" := p1]> (<["v1" := v1]> ∅);
     pump_stations := ["p1"]; vsp := ["v1"]; wells := [];
     control_valves := []; valves := []; comb_elements := ["p1"];
     flow_elements := ["p1"; "v1"]; tanks := [("t1", t1)] |}.

Definition sim0 : Sim :=
  {| num_steps := 3; time_range := [10; 20; 30];
     vars_name := ["p1"; "p1"; "p1"; "p1"; "p1"; "p1"; "v1"; "v1"; "v1"];
     vars_value := None; network := net |}.

(** The model as [__init__] declares it, before the adaptation: nine
    decisions, [z] of shape (3, 1). *)
Definition m0 : Model :=
  {| x_size := 9; z_rows := 3; z_cols := 1; depend := ∅; constraints := [] |}.

(** The model after [adapt_ldr], as [__init__] leaves it: the blocks of the
    steps 1 and 2 of [p1] and of [v1] depend on the rows of [z] before
    their step. *)
Definition m1 : Model :=
  {| x_size := 9; z_rows := 3; z_cols := 1;
     depend := list_to_set [(2, 0); (3, 0); (4, 0); (4, 1); (5, 0); (5, 1);
                            (7, 0); (8, 0); (8, 1)]%nat;
     constraints := [] |}.

(** The tank [t1] is uncertain; with and without a sensitivity map. *)
Definition aro_delta : Aro :=
  {| sim := sim0; lou := 2;
     udata := {["demand" := {| u_elements := ["t1"]; u_delta := Some [[0]] |}]} |}.

Definition aro_no_delta : Aro :=
  {| sim := sim0; lou := 2;
     udata := {["demand" := {| u_elements := ["t1"]; u_delta := None |}]} |}.

(** A solved rule that does not adapt, with the native status [code]. *)
Definition answer (code : Z) : Solution :=
  {| s_obj := 77; s_status := code; s_pi0 := [1; 0; 0; 1; 1; 0; 3; 4; 5];
     s_pi := replicate 9 [0; 0; 0] |}.

Definition changes : changes_row :=
  {| cr_start := 10; cr_end := 40; cr_vsp := "v1" |}.

Definition volume : volume_row :=
  {| vr_start := 10; vr_end := 20; vr_vsp := "v1"; vr_vol := 5;
     vr_constraint_type := "ge" |}.

End Example.


(** ** A network with costs

    Three steps; one variable speed pump [v1] with a cost per step. *)

Module Costed.

Definition v1 : Element :=
  {| e_name := "v1"; combs := None; min_flow := 0; max_flow := 10;
     init_flow := NaN;
     e_vars := {| df_index := [10; 20; 30];
                  df_columns := [("flow", [0; 0; 0]); ("cost", [5; 6; 7])] |} |}.

Definition net : Network :=
  {| objects := {["v1" := v1]};
     pump_stations := []; vsp := ["v1"]; wells := [];
     control_valves := []; valves := []; comb_elements := [];
     flow_elements := ["v1"]; tanks := [] |}.

Definition sim1 : Sim :=
  {| num_steps := 3; time_range := [10; 20; 30];
     vars_name := ["v1"; "v1"; "v1"]; vars_value := None; network := net |}.

Definition m1 : Model :=
  {| x_size := 3; z_rows := 3; z_cols := 1; depend := ∅; constraints := [] |}.

End Costed.

(** ** A network after the extraction

    The network of the first example with the values of a solution written
    to the tables of its elements. *)

Module Solved.

Definition p1 : Element :=
  {| e_name := "p1"; combs := Some ["off"; "on"]; min_flow := 0; max_flow := 0;
     init_flow := NaN;
     e_vars := {| df_index := [10; 10; 20; 20; 30; 30];
                  df_columns := [("flow", [1; 2; 1; 2; 1; 2]);
                                 ("value", [1; 0; 0; 1; 1; 0])] |} |}.

Definition v1 : Element :=
  {| e_name := "v1"; combs := None; min_flow := 0; max_flow := 10;
     init_flow := Int 3;
     e_vars := {| df_index := [10; 20; 30];
                  df_columns := [("flow", [0; 0; 0]); ("value", [3; 4; 5])] |} |}.

Definition net : Network :=
  {| objects := <["p1" := p1]> (<["v1" := v1]> ∅);
     pump_stations := ["p1"]; vsp := ["v1"]; wells := [];
     control_valves := []; valves := []; comb_elements := ["p1"];
     flow_elements := ["p1"; "v1"]; tanks := [("t1", Example.t1)] |}.

Definition sim1 : Sim :=
  {| num_steps := 3; time_range := [10; 20; 30];
     vars_name := ["p1"; "p1"; "p1"; "p1"; "p1"; "p1"; "v1"; "v1"; "v1"];
     vars_value := None; network := net |}.

End Solved.

(** ** A one-step horizon

    The network of the first example over a single step: [adapt_ldr] has
    no step to adapt. *)

Module OneStep.

Definition p1 : Element :=
  {| e_name := "p1"; combs := Some ["off"; "on"]; min_flow := 0; max_flow := 0;
     init_flow := NaN;
     e_vars := {| df_index := [10; 10];
                  df_columns := [("flow", [1; 2])] |} |}.

Definition v1 : Element :=
  {| e_name := "v1"; combs := None; min_flow := 0; max_flow := 10;
     init_flow := Int 3;
     e_vars := {| df_index := [10]; df_columns := [("flow", [0])] |} |}.

Definition t1 : Tank :=
  {| t_name := "t1";
     t_vars := {| df_index := [10]; df_columns := [("demand", [1])] |};
     initial_vol := 10; min_vol := [7]; max_vol := Scalar 20; final_vol := 1;
     inflows := ["p1"]; pumps_inflows := ["p1"]; vsp_inflows := [];
     v_inflows := []; cv_inflows := []; pumps_outflows := [];
     vsp_outflows := ["v1"]; v_outflows := []; cv_outflows := [] |}.

Definition net : Network :=
  {| objects := <["p1" := p1]> (<["v1" := v1]> ∅);
     pump_stations := ["p1"]; vsp := ["v1"]; wells := [];
     control_valves := []; valves := []; comb_elements := ["p1"];
     flow_elements := ["p1"; "v1"]; tanks := [("t1", t1)] |}.

Definition sim1 : Sim :=
  {| num_steps := 1; time_range := [10]; vars_name := ["p1"; "p1"; "v1"];
     vars_value := None; network := net |}.

(** The model as [__init__] leaves it: three decisions, [z] of shape
    (1, 1), no adaptation. *)
Definition m0 : Model :=
  {| x_size := 3; z_rows := 1; z_cols := 1; depend := ∅; constraints := [] |}.

Definition aro : Aro :=
  {| sim := sim1; lou := 2;
     udata := {["demand" := {| u_elements := ["t1"]; u_delta := Some [[0]] |}]} |}.

Definition changes : changes_row :=
  {| cr_start := 0; cr_end := 40; cr_vsp := "v1" |}.

Definition volume : volume_row :=
  {| vr_start := 10; vr_end := 20; vr_vsp := "v1"; vr_vol := 5;
     vr_constraint_type := "ge" |}.

End OneStep.
(** * Properties *)

Import ARO.

Section IndexFacts.

Lemma loc_from_absent i names name :
  name ∉ names → Index.loc_from i names name = [].
Proof.
  revert i. induction names as [|n rest IH]; intros i Hnot; [done|].
  apply not_elem_of_cons in Hnot as [Hne Hrest]. simpl.
  destruct (String.eqb_spec n name) as [->|_]; [done|]. by apply IH.
Qed.

End IndexFacts.

(** C1 (as the code has it): for a name that does not occur in the
    decision-variable table [get_x_idx] raises nothing; it returns the pair
    (NaN, NaN), the minimum of an empty index and that maximum plus one. *)
Theorem get_x_idx_unknown_is_nan (names : list string) (name : string) :
  name ∉ names → Index.get_x_idx names name = Ret (NaN, NaN).
Proof.
  intros Hnot. unfold Index.get_x_idx, Index.loc.
  by rewrite (loc_from_absent 0 names name Hnot).
Qed.

Lemma get_x_idx_unknown_is_nan_witness :
  ("ghost" ∉ ["p1"; "p1"; "w1"]) ∧
  Index.get_x_idx ["p1"; "p1"; "w1"] "ghost" = Ret (NaN, NaN).
Proof.
  assert (H : "ghost" ∉ ["p1"; "p1"; "w1"]).
  { intros Hin. repeat (apply elem_of_cons in Hin as [Heq|Hin]; [discriminate|]).
    by apply elem_of_nil in Hin. }
  split; [exact H | exact (get_x_idx_unknown_is_nan _ _ H)].
Defined.

(** C1 (as the specification words it) fails: on the table
    [p1, p1, w1] the unknown name [ghost] yields a returned pair and no
    exception of the [LookupError] class. *)
Lemma get_x_idx_unknown_no_LookupError :
  ¬ (∀ names name, name ∉ names →
       ∃ e, Index.get_x_idx names name = Raise e ∧ is_LookupError e = true).
Proof.
  intros H. destruct (H ["p1"; "p1"; "w1"] "ghost") as (e & Heq & _).
  - intros Hin. repeat (apply elem_of_cons in Hin as [Heq|Hin]; [discriminate|]).
    by apply elem_of_nil in Hin.
  - discriminate Heq.
Qed.

(** ** Loops *)

Lemma for_each_app {A S} (body : S → A → outcome S) (l1 l2 : list A) (s : S) :
  for_each body (l1 ++ l2) s = s' ← for_each body l1 s; for_each body l2 s'.
Proof.
  revert s. induction l1 as [|a l1 IH]; intros s; simpl; [done|].
  destruct (body s a) as [s'|e]; simpl; [apply IH | done].
Qed.

Section Layout.

Context (T : nat).

Lemma layout_app (l1 l2 : list Element) :
  layout T (l1 ++ l2) = layout T l1 ++ layout T l2.
Proof. unfold layout. by rewrite bind_app. Qed.

Lemma layout_cons e l :
  layout T (e :: l) = replicate (block_size T e) (e_name e) ++ layout T l.
Proof. done. Qed.

Lemma elem_of_layout name l :
  name ∈ layout T l → name ∈ e_name <$> l.
Proof.
  unfold layout. intros (e & Hin & He)%list_elem_of_bind.
  apply elem_of_replicate in Hin as [-> _]. by apply list_elem_of_fmap_2.
Qed.

Lemma loc_from_app i l1 l2 name :
  Index.loc_from i (l1 ++ l2) name
  = Index.loc_from i l1 name ++ Index.loc_from (i + Z.of_nat (length l1)) l2 name.
Proof.
  revert i. induction l1 as [|n l1 IH]; intros i; simpl.
  - by rewrite Z.add_0_r.
  - rewrite IH. replace (i + 1 + Z.of_nat (length l1)) with (i + Z.pos (Pos.of_succ_nat (length l1))) by lia.
    by destruct (String.eqb n name).
Qed.

Lemma loc_from_replicate i n name :
  Index.loc_from i (replicate n name) name = seqZ i (Z.of_nat n).
Proof.
  revert i. induction n as [|n IH]; intros i; [done|].
  simpl replicate. simpl Index.loc_from. rewrite String.eqb_refl, IH.
  rewrite (seqZ_cons i (Z.of_nat (S n))) by lia. f_equal. f_equal; lia.
Qed.

(** The rows of an element are its block. *)
Lemma loc_layout pre e post :
  NoDup (e_name <$> (pre ++ e :: post)) →
  Index.loc (layout T (pre ++ e :: post)) (e_name e)
  = seqZ (Z.of_nat (length (layout T pre))) (Z.of_nat (block_size T e)).
Proof.
  intros Hnd. unfold Index.loc.
  rewrite fmap_app, fmap_cons in Hnd.
  apply NoDup_app in Hnd as (_ & Hpre & Hpost).
  apply NoDup_cons in Hpost as [Hpost _].
  rewrite layout_app, layout_cons, !loc_from_app, loc_from_replicate.
  rewrite (loc_from_absent _ (layout T pre)), (loc_from_absent _ (layout T post)).
  - by rewrite app_nil_r.
  - intros Hin%elem_of_layout. done.
  - intros Hin%elem_of_layout. apply (Hpre _ Hin). left.
Qed.

End Layout.

Lemma foldr_min_seqZ a n : 0 ≤ n → foldr Z.min a (seqZ (a + 1) n) = a.
Proof.
  intros Hn.
  assert (Hall : ∀ m, 0 ≤ m → ∀ b, a ≤ b → foldr Z.min a (seqZ b m) = a).
  { intros m Hm. pattern m. apply natlike_ind; [done| |done].
    clear m Hm. intros m Hm IHm b Hb. rewrite seqZ_cons by lia. simpl.
    replace (Z.pred (Z.succ m)) with m by lia. rewrite (IHm (Z.succ b)) by lia. lia. }
  apply Hall; lia.
Qed.

Lemma foldr_max_seqZ n :
  0 ≤ n → ∀ a b, a ≤ b → foldr Z.max a (seqZ b n) = if decide (n = 0) then a else b + n - 1.
Proof.
  intros Hn. pattern n. apply natlike_ind; [done| |done].
  clear n Hn. intros n Hn IH a b Hab. rewrite seqZ_cons by lia. simpl.
  replace (Z.pred (Z.succ n)) with n by lia.
  rewrite (IH a (Z.succ b)) by lia.
  destruct (decide (Z.succ n = 0)); [lia|]. destruct (decide (n = 0)); lia.
Qed.

Lemma index_min_seqZ a n : 0 < n → Index.index_min (seqZ a n) = Int a.
Proof.
  intros Hn. rewrite seqZ_cons by lia. simpl. f_equal.
  rewrite <- (Z.add_1_r a). apply foldr_min_seqZ. lia.
Qed.

Lemma index_max_seqZ a n : 0 < n → Index.index_max (seqZ a n) = Int (a + n - 1).
Proof.
  intros Hn. rewrite seqZ_cons by lia. simpl. f_equal.
  rewrite foldr_max_seqZ by lia. destruct (decide (Z.pred n = 0)); lia.
Qed.

Section LayoutIndex.

Context (T : nat).

(** [get_x_idx] of an element with a non-empty block: the bounds of the
    block. *)
Lemma get_x_idx_layout pre e post :
  NoDup (e_name <$> (pre ++ e :: post)) →
  (0 < block_size T e)%nat →
  Index.get_x_idx (layout T (pre ++ e :: post)) (e_name e)
  = Ret (Int (Z.of_nat (length (layout T pre))),
         Int (Z.of_nat (length (layout T pre) + block_size T e))).
Proof.
  intros Hnd Hpos. unfold Index.get_x_idx. rewrite loc_layout by done.
  rewrite index_min_seqZ, index_max_seqZ by lia. simpl. do 3 f_equal. lia.
Qed.

End LayoutIndex.

(** ** Outcomes and loops *)

(** One step of a computation whose first statement has returned. *)
Ltac ret := cbn [mbind outcome_bind mret outcome_ret fst snd].

Lemma bind_Ret_inv {A B} (m : outcome A) (k : A → outcome B) (b : B) :
  m ≫= k = Ret b → ∃ a, m = Ret a ∧ k a = Ret b.
Proof. destruct m as [a|e]; [by exists a | done]. Qed.

Lemma mapM_Ret {A B} (f : A → outcome B) (g : A → B) (l : list A) :
  (∀ a, a ∈ l → f a = Ret (g a)) → mapM f l = Ret (g <$> l).
Proof.
  induction l as [|a l IH]; intros Hf; [done|]. simpl.
  rewrite (Hf a) by left. simpl.
  rewrite IH; [done|]. intros b Hb. apply Hf. by right.
Qed.

Lemma for_each_snoc {A S} (body : S → A → outcome S) (l : list A) a (s : S) :
  for_each body (l ++ [a]) s = s' ← for_each body l s; body s' a.
Proof.
  rewrite for_each_app. destruct (for_each body l s) as [s'|e]; [|done].
  simpl. by destruct (body s' a).
Qed.

(** A loop invariant: a body that keeps the invariant never raises, and
    the loop ends in a state that satisfies it. *)
Lemma for_each_invariant {A S} (P : list A → S → Prop)
    (body : S → A → outcome S) (l : list A) (s : S) :
  P [] s →
  (∀ done a s, done ++ [a] `prefix_of` l → P done s →
     ∃ s', body s a = Ret s' ∧ P (done ++ [a]) s') →
  ∃ s', for_each body l s = Ret s' ∧ P l s'.
Proof.
  intros H0 Hstep.
  cut (∀ rest done s, l = done ++ rest → P done s →
         ∃ s', for_each body rest s = Ret s' ∧ P l s').
  { intros Hcut. by apply (Hcut l [] s). }
  induction rest as [|a rest IH]; intros done s0 Hl HP.
  - rewrite app_nil_r in Hl. subst. by exists s0.
  - destruct (Hstep done a s0) as (s1 & Hb & HP1); [|done|].
    { rewrite Hl. exists rest. by rewrite <- app_assoc. }
    simpl. rewrite Hb. simpl. apply (IH (done ++ [a])); [|done].
    by rewrite <- app_assoc.
Qed.

(** ** Sums *)

Arguments sumZ : simpl never.

Lemma sumZ_cons (a : Z) (l : list Z) : sumZ (a :: l) = a + sumZ l.
Proof. done. Qed.

Lemma sumZ_app (l1 l2 : list Z) : sumZ (l1 ++ l2) = sumZ l1 + sumZ l2.
Proof. unfold sumZ. induction l1 as [|a l1 IH]; simpl; lia. Qed.

Lemma sumZ_zero (l : list Z) : Forall (λ a, a = 0) l → sumZ l = 0.
Proof. unfold sumZ. induction 1; simpl; lia. Qed.

Lemma sumZ_ext {A} (f g : A → Z) (l : list A) :
  (∀ a, a ∈ l → f a = g a) → sumZ (f <$> l) = sumZ (g <$> l).
Proof.
  induction l as [|a l IH]; intros H; [done|].
  rewrite !fmap_cons, !sumZ_cons, (H a) by left.
  rewrite IH; [done|]. intros b Hb. apply H. by right.
Qed.

Lemma sumZ_seq_shift (f : nat → Z) (a n : nat) :
  sumZ (f <$> seq a n) = sumZ ((λ i, f (a + i)%nat) <$> seq 0 n).
Proof.
  revert a. induction n as [|n IH]; intros a; [done|].
  rewrite !seq_S, !fmap_app, !sumZ_app, IH. simpl. done.
Qed.

Lemma sumZ_seq_split (f : nat → Z) (n1 n2 : nat) :
  sumZ (f <$> seq 0 (n1 + n2)) =
  sumZ (f <$> seq 0 n1) + sumZ ((λ i, f (n1 + i)%nat) <$> seq 0 n2).
Proof. by rewrite seq_app, fmap_app, sumZ_app, (sumZ_seq_shift f n1). Qed.

Lemma sumZ_seq_zero (f : nat → Z) (a n : nat) :
  (∀ i, (a ≤ i < a + n)%nat → f i = 0) → sumZ (f <$> seq a n) = 0.
Proof.
  intros H. apply sumZ_zero, Forall_fmap, Forall_forall.
  intros i Hi%elem_of_seq. by apply H.
Qed.

(** A dot product as a sum over the positions. *)
Lemma sumZ_zip_with (l1 l2 : list Z) :
  length l1 = length l2 →
  sumZ (zip_with Z.mul l1 l2) =
  sumZ ((λ i, entry l1 i * entry l2 i) <$> seq 0 (length l1)).
Proof.
  revert l2. induction l1 as [|a l1 IH]; intros [|b l2] Hlen; try done.
  simpl in Hlen. simpl zip_with. rewrite sumZ_cons, IH by lia.
  simpl length. rewrite <- cons_seq, fmap_cons, sumZ_cons. simpl. f_equal.
  by rewrite (sumZ_seq_shift _ 1).
Qed.

(** ** Affine expressions *)

Lemma eval_terms_app v l1 l2 :
  eval_terms v (l1 ++ l2) = eval_terms v l1 + eval_terms v l2.
Proof. unfold eval_terms. by rewrite fmap_app, sumZ_app. Qed.

Lemma eval_terms_scale v k l :
  eval_terms v (scale_terms k l) = k * eval_terms v l.
Proof.
  unfold eval_terms, scale_terms.
  induction l as [|p l IH]; [simpl; unfold sumZ; simpl; lia|].
  rewrite !fmap_cons, !sumZ_cons, IH. simpl. lia.
Qed.

Lemma eval_add xv zv a b : eval xv zv (aff_add a b) = eval xv zv a + eval xv zv b.
Proof. unfold eval, aff_add. simpl. rewrite !eval_terms_app. lia. Qed.

Lemma eval_scale xv zv k a : eval xv zv (aff_scale k a) = k * eval xv zv a.
Proof. unfold eval, aff_scale. simpl. rewrite !eval_terms_scale. lia. Qed.

Lemma eval_sub xv zv a b : eval xv zv (aff_sub a b) = eval xv zv a - eval xv zv b.
Proof. unfold aff_sub. rewrite eval_add, eval_scale. lia. Qed.

Lemma eval_const xv zv c : eval xv zv (aff_const c) = c.
Proof. unfold eval, eval_terms, sumZ. simpl. lia. Qed.

Lemma eval_x xv zv i : eval xv zv (aff_x i) = entry xv i.
Proof. unfold eval, eval_terms, sumZ. simpl. lia. Qed.

Lemma eval_z xv zv j : eval xv zv (aff_z j) = entry zv j.
Proof. unfold eval, eval_terms, sumZ. simpl. lia. Qed.

(** The value of a linear combination is the dot product of the values. *)
Lemma eval_lincomb xv zv (row : list Z) (v : list affine) :
  eval xv zv (lincomb row v) = sumZ (zip_with Z.mul row (eval xv zv <$> v)).
Proof.
  unfold lincomb. revert v. induction row as [|k row IH]; intros [|a v];
    simpl; rewrite ?eval_const; try done.
  rewrite eval_add, eval_scale, IH, sumZ_cons. done.
Qed.

Lemma eval_lincomb_x xv zv (row : list Z) (ix : list nat) :
  length row = length ix →
  eval xv zv (lincomb row (aff_x <$> ix)) =
  sumZ ((λ j, entry row j * from_option (entry xv) 0 (ix !! j))
          <$> seq 0 (length row)).
Proof.
  intros Hlen. rewrite eval_lincomb, sumZ_zip_with by (by rewrite !length_fmap).
  apply sumZ_ext. intros j Hj%elem_of_seq. f_equal.
  unfold entry at 1. rewrite !list_lookup_fmap.
  destruct (ix !! j) as [i|] eqn:Hi; simpl; [|done].
  apply eval_x.
Qed.

(** The same at a rational value. *)
Lemma eval_at_1 xv zv a : eval_at 1 xv zv a = eval xv zv a.
Proof. unfold eval_at, eval. lia. Qed.

Lemma eval_at_add den xv zv a b :
  eval_at den xv zv (aff_add a b) = eval_at den xv zv a + eval_at den xv zv b.
Proof. unfold eval_at, aff_add. simpl. rewrite !eval_terms_app. lia. Qed.

Lemma eval_at_scale den xv zv k a :
  eval_at den xv zv (aff_scale k a) = k * eval_at den xv zv a.
Proof. unfold eval_at, aff_scale. simpl. rewrite !eval_terms_scale. lia. Qed.

Lemma eval_at_sub den xv zv a b :
  eval_at den xv zv (aff_sub a b) = eval_at den xv zv a - eval_at den xv zv b.
Proof. unfold aff_sub. rewrite eval_at_add, eval_at_scale. lia. Qed.

Lemma eval_at_const den xv zv c : eval_at den xv zv (aff_const c) = den * c.
Proof. unfold eval_at, eval_terms, sumZ. simpl. lia. Qed.

Lemma eval_at_x den xv zv i : eval_at den xv zv (aff_x i) = entry xv i.
Proof. unfold eval_at, eval_terms, sumZ. simpl. lia. Qed.

Lemma eval_at_z den xv zv j : eval_at den xv zv (aff_z j) = entry zv j.
Proof. unfold eval_at, eval_terms, sumZ. simpl. lia. Qed.

Lemma eval_at_lincomb den xv zv (row : list Z) (v : list affine) :
  eval_at den xv zv (lincomb row v)
  = sumZ (zip_with Z.mul row (eval_at den xv zv <$> v)).
Proof.
  unfold lincomb. revert v. induction row as [|k row IH]; intros [|a v];
    simpl; rewrite ?eval_at_const; try (unfold sumZ; simpl; lia).
  rewrite eval_at_add, eval_at_scale, IH, sumZ_cons. done.
Qed.

Lemma eval_at_lincomb_x den xv zv (row : list Z) (ix : list nat) :
  length row = length ix →
  eval_at den xv zv (lincomb row (aff_x <$> ix)) =
  sumZ ((λ j, entry row j * from_option (entry xv) 0 (ix !! j))
          <$> seq 0 (length row)).
Proof.
  intros Hlen.
  rewrite eval_at_lincomb, sumZ_zip_with by (by rewrite !length_fmap).
  apply sumZ_ext. intros j Hj%elem_of_seq. f_equal.
  unfold entry at 1. rewrite !list_lookup_fmap.
  destruct (ix !! j) as [i|] eqn:Hi; simpl; [|done].
  apply eval_at_x.
Qed.

(** ** Lists *)

Lemma Forall2_chain {A B C} (R : A → B → Prop) (Q : B → C → Prop)
    (S : A → C → Prop) (l : list A) (k : list B) (o : list C) :
  (∀ a b c, R a b → Q b c → S a c) →
  Forall2 R l k → Forall2 Q k o → Forall2 S l o.
Proof.
  intros HS HR. revert o. induction HR as [|a b l k Hab HR IH]; intros o HQ.
  - inversion HQ. constructor.
  - inversion HQ as [|? c ? o' Hbc HQ']; subst. constructor; eauto.
Qed.

Lemma concat_fmap_bind {A B} (f : A → list B) (l : list A) :
  concat (f <$> l) = l ≫= f.
Proof.
  induction l as [|a l IH]; [done|].
  rewrite fmap_cons, bind_cons, <- IH. done.
Qed.

(** ** Matrices *)

Lemma shape_lookup m R C r row : shape m R C → m !! r = Some row → length row = C.
Proof.
  intros [_ Hall] Hr. rewrite Forall_forall in Hall.
  apply Hall. by eapply list_elem_of_lookup_2.
Qed.

Lemma mget_Some m R C r j :
  shape m R C → (r < R)%nat → (j < C)%nat → is_Some (mget m r j).
Proof.
  intros Hs Hr Hj. unfold mget.
  destruct (lookup_lt_is_Some_2 m r) as [row Hrow]; [by rewrite (proj1 Hs)|].
  rewrite Hrow. simpl. apply lookup_lt_is_Some_2.
  by rewrite (shape_lookup _ _ _ _ _ Hs Hrow).
Qed.

Lemma mget_lt m R C r j v :
  shape m R C → mget m r j = Some v → (r < R)%nat ∧ (j < C)%nat.
Proof.
  intros Hs. unfold mget. destruct (m !! r) as [row|] eqn:Hrow; [|done]. simpl.
  intros Hj. split.
  - rewrite <- (proj1 Hs). by eapply lookup_lt_Some.
  - rewrite <- (shape_lookup _ _ _ _ _ Hs Hrow). by eapply lookup_lt_Some.
Qed.

Lemma mget_row m r row j : m !! r = Some row → entry row j = default 0 (mget m r j).
Proof. intros Hr. unfold mget, entry. by rewrite Hr. Qed.

Lemma shape_zeros R C : shape (np_zeros R C) R C.
Proof.
  split; [apply length_replicate|].
  apply Forall_replicate, length_replicate.
Qed.

Lemma mget_zeros R C r j :
  (r < R)%nat → (j < C)%nat → mget (np_zeros R C) r j = Some 0.
Proof.
  intros Hr Hj. unfold mget, np_zeros.
  rewrite lookup_replicate_2 by done. simpl. by apply lookup_replicate_2.
Qed.

Lemma shape_eye n : shape (np_eye n) n n.
Proof.
  split; [unfold np_eye; by rewrite length_fmap, length_seq|].
  apply Forall_fmap, Forall_forall. intros i _. simpl.
  by rewrite length_insert, length_replicate.
Qed.

Lemma mget_eye n r j :
  (r < n)%nat → (j < n)%nat →
  mget (np_eye n) r j = Some (if decide (r = j) then 1 else 0).
Proof.
  intros Hr Hj. unfold mget, np_eye.
  rewrite list_lookup_fmap, lookup_seq_lt by done. simpl.
  case_decide as Heq.
  - subst. apply list_lookup_insert_eq. by rewrite length_replicate.
  - rewrite list_lookup_insert_ne by done. by apply lookup_replicate_2.
Qed.

(** [m[r, j] = v] changes the one entry. *)
Lemma mset_spec m R C r j v :
  shape m R C → (r < R)%nat → (j < C)%nat →
  ∃ m', mset m r j v = Ret m' ∧ shape m' R C ∧
    ∀ r' j', mget m' r' j' =
      if decide (r' = r ∧ j' = j) then Some v else mget m r' j'.
Proof.
  intros Hs Hr Hj. unfold mset.
  destruct (lookup_lt_is_Some_2 m r) as [row Hrow]; [by rewrite (proj1 Hs)|].
  rewrite Hrow. pose proof (shape_lookup _ _ _ _ _ Hs Hrow) as Hlen.
  rewrite bool_decide_true by lia. eexists. split; [done|]. split.
  - split; [by rewrite length_insert, (proj1 Hs)|].
    apply Forall_insert; [apply Hs | by rewrite length_insert].
  - intros r' j'. unfold mget. destruct (decide (r' = r)) as [->|Hne].
    + rewrite list_lookup_insert_eq by (by rewrite (proj1 Hs)). simpl.
      rewrite Hrow. simpl. destruct (decide (j' = j)) as [->|Hnej].
      * rewrite decide_True by done. apply list_lookup_insert_eq. lia.
      * rewrite decide_False; [|intros [_ ?]; done].
        by apply list_lookup_insert_ne.
    + rewrite list_lookup_insert_ne by done.
      rewrite decide_False; [done|]. intros [? _]; done.
Qed.

(** [m[rows, cols] = v] changes the entries at the listed positions. *)
Lemma fancy_assign_spec m R C rows cols v :
  shape m R C → length rows = length cols →
  Forall (λ r, r < R)%nat rows → Forall (λ j, j < C)%nat cols →
  ∃ m', fancy_assign m rows cols v = Ret m' ∧ shape m' R C ∧
    ∀ r j, mget m' r j =
      if decide ((r, j) ∈ zip rows cols) then Some v else mget m r j.
Proof.
  intros Hs Hlen Hrows Hcols. unfold fancy_assign.
  rewrite bool_decide_true by done.
  destruct (for_each_invariant
           (λ (done : list (nat * nat)) (m' : matrix), shape m' R C ∧
              ∀ r j, mget m' r j =
                if decide ((r, j) ∈ done) then Some v else mget m r j)
           (λ m p, mset m p.1 p.2 v) (zip rows cols) m)
    as (m' & Hm' & Hs' & Hget'); [| |by exists m'].
  - split; [done|]. intros r j. rewrite decide_False; [done|]. apply not_elem_of_nil.
  - intros done [r j] m1 Hpre [Hs1 Hget].
    assert (Hin : (r, j) ∈ zip rows cols).
    { destruct Hpre as [rest ->]. set_solver. }
    apply elem_of_zip_l in Hin as Hr. apply elem_of_zip_r in Hin as Hj.
    rewrite Forall_forall in Hrows, Hcols.
    destruct (mset_spec m1 R C r j v Hs1 (Hrows _ Hr) (Hcols _ Hj))
      as (m2 & Hm2 & Hs2 & Hget2).
    exists m2. simpl. split; [done|]. split; [done|].
    intros r' j'. rewrite Hget2, Hget.
    destruct (decide (r' = r ∧ j' = j)) as [[-> ->]|Hne].
    + rewrite decide_True; [done|]. set_solver.
    + destruct (decide ((r', j') ∈ done)) as [Hd|Hd].
      * rewrite decide_True; [done|]. set_solver.
      * rewrite decide_False; [done|].
        rewrite elem_of_app, list_elem_of_singleton.
        intros [?|[= -> ->]]; [done | by apply Hne].
Qed.

Lemma zip_app {A B} (l1 l2 : list A) (k1 k2 : list B) :
  length l1 = length k1 → zip (l1 ++ l2) (k1 ++ k2) = zip l1 k1 ++ zip l2 k2.
Proof. apply zip_with_app. Qed.

Lemma lookup_zip_Some {A B} (l : list A) (k : list B) i a b :
  l !! i = Some a → k !! i = Some b → zip l k !! i = Some (a, b).
Proof. intros Ha Hb. apply lookup_zip_with_Some. by exists a, b. Qed.

(** The positions that a family of blocks of an index assignment lists:
    the block of [i] pairs the row [row i] with the columns from [start i]
    on. *)
Lemma elem_of_zip_blocks (L : list nat) (row start len : nat → nat) r j :
  (r, j) ∈ zip (i ← L; replicate (len i) (row i)) (i ← L; seq (start i) (len i))
  ↔ ∃ i, i ∈ L ∧ r = row i ∧ (start i ≤ j < start i + len i)%nat.
Proof.
  induction L as [|i L IH].
  - simpl. split; [by intros ?%elem_of_nil | by intros (i & ?%elem_of_nil & _)].
  - rewrite !bind_cons.
    rewrite zip_app by (by rewrite length_replicate, length_seq).
    rewrite elem_of_app, IH. split.
    + intros [Hin|(i' & Hi' & Hrest)].
      * exists i. split; [left|].
        apply elem_of_zip_l in Hin as Hr. apply elem_of_zip_r in Hin as Hj.
        apply elem_of_replicate in Hr as [-> _]. apply elem_of_seq in Hj. done.
      * exists i'. split; [by right | done].
    + intros (i' & [->|Hi']%elem_of_cons & -> & Hj).
      * left. apply list_elem_of_lookup. exists (j - start i)%nat.
        apply lookup_zip_Some.
        -- apply lookup_replicate_2. lia.
        -- rewrite lookup_seq_lt by lia. f_equal. lia.
      * right. by exists i'.
Qed.

Lemma seq_blocks (c T : nat) :
  seq 0 (c * T) = i ← seq 0 T; seq (i * c) c.
Proof.
  induction T as [|T IH]; [by rewrite Nat.mul_0_r|].
  rewrite seq_S, bind_app, <- IH. simpl. rewrite app_nil_r.
  replace (c * S T)%nat with (c * T + c)%nat by lia.
  rewrite seq_app. f_equal. f_equal. lia.
Qed.

(** ** Declaring constraints *)

Lemma foldl_st_fields (m : Model) (cs : list Constraint) :
  x_size (foldl st m cs) = x_size m ∧ z_rows (foldl st m cs) = z_rows m ∧
  z_cols (foldl st m cs) = z_cols m ∧ depend (foldl st m cs) = depend m ∧
  constraints (foldl st m cs) = constraints m ++ cs.
Proof.
  revert m. induction cs as [|c cs IH]; intros m; simpl.
  - by rewrite app_nil_r.
  - destruct (IH (st m c)) as (-> & -> & -> & -> & ->). simpl.
    by rewrite <- app_assoc.
Qed.

Lemma foldl_st_app (m : Model) (cs1 cs2 : list Constraint) :
  foldl st (foldl st m cs1) cs2 = foldl st m (cs1 ++ cs2).
Proof. by rewrite foldl_app. Qed.

(** A loop whose body declares, for the item [a], constraints that satisfy
    [Q a], declares such constraints for every item in turn. *)
Lemma for_each_st {A} (body : Model → A → outcome Model)
    (Q : A → list Constraint → Prop) (n : nat) (d : gset (nat * nat))
    (l : list A) (m : Model) :
  x_size m = n → depend m = d →
  (∀ a m, a ∈ l → x_size m = n → depend m = d →
     ∃ cs, body m a = Ret (foldl st m cs) ∧ Q a cs) →
  ∃ css, for_each body l m = Ret (foldl st m (concat css)) ∧ Forall2 Q l css.
Proof.
  revert m. induction l as [|a l IH]; intros m Hn Hd Hbody.
  - exists []. by split; [|constructor].
  - destruct (Hbody a m) as (cs & Hcs & HQ); [left|done|done|].
    destruct (IH (foldl st m cs)) as (css & Hcss & HQs).
    { by rewrite (proj1 (foldl_st_fields m cs)). }
    { by rewrite (proj1 (proj2 (proj2 (proj2 (foldl_st_fields m cs))))). }
    { intros b m' Hb. apply Hbody. by right. }
    exists (cs :: css). simpl. rewrite Hcs. simpl.
    rewrite Hcss, foldl_st_app. by split; [|constructor].
Qed.

(** ** Robust and linear constraints *)

Lemma adapted_true (m : Model) : depend m ≠ ∅ → adapted m = true.
Proof. intros H. unfold adapted. by rewrite bool_decide_true. Qed.

Lemma adapted_false (m : Model) : depend m = ∅ → adapted m = false.
Proof. intros H. unfold adapted. rewrite bool_decide_false; [done|]. by intros []. Qed.

Lemma adapted_foldl_st (m : Model) (cs : list Constraint) :
  adapted (foldl st m cs) = adapted m.
Proof.
  unfold adapted.
  by rewrite (proj1 (proj2 (proj2 (proj2 (foldl_st_fields m cs))))).
Qed.

Lemma forall_z_set_random (c : Constraint) :
  forall_z_set true c = Ret (qualified c).
Proof. done. Qed.

Lemma forall_z_set_plain (c : Constraint) :
  forall_z_set false c = Raise AttributeError.
Proof. done. Qed.

Lemma forall_z_set_Ret_inv (random : bool) (c c' : Constraint) :
  forall_z_set random c = Ret c' → random = true ∧ c' = qualified c.
Proof. destruct random; simpl; [|done]. intros [= <-]. done. Qed.

Lemma getitem_Some `{Countable K} {A} (d : gmap K A) (k : K) (a : A) :
  d !! k = Some a → getitem d k = Ret a.
Proof. intros Hk. unfold getitem. by rewrite Hk. Qed.

Lemma getitem_None `{Countable K} {A} (d : gmap K A) (k : K) :
  d !! k = None → getitem d k = Raise KeyError.
Proof. intros Hk. unfold getitem. by rewrite Hk. Qed.

(** The items of a sub-collection whose keys all name an object. *)
Lemma items_Ret (net : Network) (keys : list string) :
  (∀ k, k ∈ keys → is_Some (objects net !! k)) →
  ∃ l, items net keys = Ret l ∧
       Forall2 (λ k p, p.1 = k ∧ objects net !! k = Some p.2) keys l.
Proof.
  unfold items. induction keys as [|k keys IH]; intros Hall.
  - exists []. by split; [|constructor].
  - destruct (Hall k) as [e He]; [left|].
    destruct IH as (l & Hl & HF); [intros k' Hk'; apply Hall; by right|].
    exists ((k, e) :: l). simpl. rewrite (getitem_Some _ _ _ He). simpl.
    rewrite Hl. simpl. split; [done|]. by constructor.
Qed.

(** ** Slices of the decision rule *)

Lemma clip_in_range (n : nat) (i : nat) : (i ≤ n)%nat → clip n (Z.of_nat i) = i.
Proof.
  intros Hi. unfold clip.
  destruct (Z.ltb_spec (Z.of_nat i) 0); lia.
Qed.

Lemma slice_bounds_in_range (n a b : nat) :
  (a ≤ b)%nat → (b ≤ n)%nat →
  slice_bounds n (Int (Z.of_nat a)) (Int (Z.of_nat b)) = Ret (a, (b - a)%nat).
Proof.
  intros Hab Hb. unfold slice_bounds. by rewrite !clip_in_range by lia.
Qed.

Lemma x_slice_in_range (m : Model) (a b : nat) :
  (a ≤ b)%nat → (b ≤ x_size m)%nat →
  x_slice m (Int (Z.of_nat a)) (Int (Z.of_nat b)) = Ret (seq a (b - a)).
Proof.
  intros Hab Hb. unfold x_slice, slice_indices.
  by rewrite slice_bounds_in_range.
Qed.

Lemma position_in_range (n i : nat) :
  (i < n)%nat → position n (Z.of_nat i) = Ret i.
Proof.
  intros Hi. unfold position. rewrite bool_decide_true by lia.
  by rewrite Nat2Z.id.
Qed.

(** ** The rows of a name in the table *)

Lemma loc_from_bounds i names name x :
  x ∈ Index.loc_from i names name → i ≤ x < i + Z.of_nat (length names).
Proof.
  revert i. induction names as [|n names IH]; intros i; simpl.
  - by intros ?%elem_of_nil.
  - destruct (String.eqb n name).
    + intros [->|Hx%IH]%elem_of_cons; lia.
    + intros Hx%IH. lia.
Qed.

Lemma loc_from_present i names name :
  name ∈ names → Index.loc_from i names name ≠ [].
Proof.
  revert i. induction names as [|n names IH]; intros i Hin.
  - by apply elem_of_nil in Hin.
  - simpl. destruct (String.eqb_spec n name) as [->|Hne]; [done|].
    apply elem_of_cons in Hin as [->|Hin]; [done|]. by apply IH.
Qed.

Lemma foldr_min_bounds (a : Z) (l : list Z) lo hi :
  lo ≤ a < hi → (∀ x, x ∈ l → lo ≤ x < hi) → lo ≤ foldr Z.min a l < hi.
Proof.
  intros Ha. induction l as [|b l IH]; intros Hl; simpl; [done|].
  pose proof (Hl b ltac:(left)). 
  assert (lo ≤ foldr Z.min a l < hi) by (apply IH; intros x Hx; apply Hl; by right).
  lia.
Qed.

Lemma foldr_max_bounds (a : Z) (l : list Z) lo hi :
  lo ≤ a < hi → (∀ x, x ∈ l → lo ≤ x < hi) → lo ≤ foldr Z.max a l < hi.
Proof.
  intros Ha. induction l as [|b l IH]; intros Hl; simpl; [done|].
  pose proof (Hl b ltac:(left)).
  assert (lo ≤ foldr Z.max a l < hi) by (apply IH; intros x Hx; apply Hl; by right).
  lia.
Qed.

Lemma foldr_min_le_max (a : Z) (l : list Z) : foldr Z.min a l ≤ foldr Z.max a l.
Proof. induction l as [|b l IH]; simpl; lia. Qed.

Lemma elem_of_loc_from (i : Z) (names : list string) (name : string) (x : Z) :
  x ∈ Index.loc_from i names name
  ↔ ∃ k : nat, x = i + Z.of_nat k ∧ names !! k = Some name.
Proof.
  revert i. induction names as [|n names IH]; intros i; simpl.
  - split; [by intros ?%elem_of_nil|]. by intros (k & _ & ?).
  - destruct (String.eqb_spec n name) as [->|Hne].
    + rewrite elem_of_cons, IH. split.
      * intros [->|(k & -> & Hk)]; [exists 0%nat; split; [lia|done]|].
        exists (S k). split; [lia|done].
      * intros ([|k] & -> & Hk); [left; lia|right]. exists k. split; [lia|done].
    + rewrite IH. split.
      * intros (k & -> & Hk). exists (S k). split; [lia|done].
      * intros ([|k] & -> & Hk); [simpl in Hk; congruence|].
        exists k. split; [lia|done].
Qed.

Lemma foldr_min_elem (a : Z) (l : list Z) :
  foldr Z.min a l ∈ a :: l ∧ ∀ x, x ∈ a :: l → foldr Z.min a l ≤ x.
Proof.
  induction l as [|b l [IHin IHle]]; simpl.
  - split; [left|]. intros x ->%list_elem_of_singleton. lia.
  - split.
    + destruct (Z.min_spec b (foldr Z.min a l)) as [[_ ->]|[_ ->]].
      * right. left.
      * apply elem_of_cons in IHin as [->|Hin]; [left|]. do 2 right. done.
    + intros x [->|[->|Hx]%elem_of_cons]%elem_of_cons.
      * specialize (IHle a ltac:(left)). lia.
      * lia.
      * specialize (IHle x ltac:(by right)). lia.
Qed.

Lemma foldr_max_elem (a : Z) (l : list Z) :
  foldr Z.max a l ∈ a :: l ∧ ∀ x, x ∈ a :: l → x ≤ foldr Z.max a l.
Proof.
  induction l as [|b l [IHin IHle]]; simpl.
  - split; [left|]. intros x ->%list_elem_of_singleton. lia.
  - split.
    + destruct (Z.max_spec b (foldr Z.max a l)) as [[_ ->]|[_ ->]].
      * apply elem_of_cons in IHin as [->|Hin]; [left|]. do 2 right. done.
      * right. left.
    + intros x [->|[->|Hx]%elem_of_cons]%elem_of_cons.
      * specialize (IHle a ltac:(left)). lia.
      * lia.
      * specialize (IHle x ltac:(by right)). lia.
Qed.

(** [get_x_idx] of a name of the table: two integer bounds within the
    table. *)
Lemma get_x_idx_present (names : list string) (name : string) :
  name ∈ names →
  ∃ a b : nat, Index.get_x_idx names name = Ret (Int (Z.of_nat a), Int (Z.of_nat b))
             ∧ (a < b ≤ length names)%nat.
Proof.
  intros Hin. unfold Index.get_x_idx, Index.loc.
  pose proof (loc_from_present 0 names name Hin) as Hne.
  pose proof (loc_from_bounds 0 names name) as Hb.
  destruct (Index.loc_from 0 names name) as [|x l]; [done|]. simpl.
  assert (Hx : 0 ≤ x < 0 + Z.of_nat (length names)) by (apply Hb; left).
  assert (Hl : ∀ y, y ∈ l → 0 ≤ y < 0 + Z.of_nat (length names))
    by (intros y Hy; apply Hb; by right).
  pose proof (foldr_min_bounds x l _ _ Hx Hl).
  pose proof (foldr_max_bounds x l _ _ Hx Hl).
  pose proof (foldr_min_le_max x l).
  exists (Z.to_nat (foldr Z.min x l)), (Z.to_nat (foldr Z.max x l + 1)).
  split; [|lia]. do 3 f_equal; lia.
Qed.

(** The bounds of [get_x_idx] span the rows of the name. *)
Lemma get_x_idx_spans (names : list string) (name : string) :
  name ∈ names →
  ∃ a b : nat,
    Index.get_x_idx names name = Ret (Int (Z.of_nat a), Int (Z.of_nat b)) ∧
    spans_rows names name a b.
Proof.
  intros Hin. unfold Index.get_x_idx, Index.loc.
  pose proof (loc_from_present 0 names name Hin) as Hne.
  pose proof (elem_of_loc_from 0 names name) as Hloc.
  destruct (Index.loc_from 0 names name) as [|x l]; [done|]. simpl.
  destruct (foldr_min_elem x l) as [Hmin_in Hmin_le].
  destruct (foldr_max_elem x l) as [Hmax_in Hmax_le].
  apply Hloc in Hmin_in as (ka & Hka & Hna).
  apply Hloc in Hmax_in as (kb & Hkb & Hnb).
  exists ka, (S kb). split; [do 3 f_equal; lia|].
  pose proof (foldr_min_le_max x l) as Hab.
  split; [apply lookup_lt_Some in Hnb; lia|].
  split; [done|]. split; [by replace (S kb - 1)%nat with kb by lia|].
  intros i Hi.
  assert (Hi' : Z.of_nat i ∈ x :: l) by (apply Hloc; exists i; split; [lia|done]).
  specialize (Hmin_le _ Hi'). specialize (Hmax_le _ Hi'). lia.
Qed.

(** ** Operating ranges *)

Lemma holds_slice_scalar den xv zv (a n : nat) (op : cmp) (v : Z) :
  holds_at den xv zv {| c_lhs := as_vec (seq a n); c_op := op;
                        c_rhs := Sc (aff_const v); c_forall := true |}
  ↔ ∀ i, (a ≤ i < a + n)%nat → cmp_holds op (entry xv i) (den * v).
Proof.
  unfold holds_at, as_vec. simpl. split.
  - intros H i Hi. specialize (H (aff_x i)).
    rewrite eval_at_x, eval_at_const in H. apply H.
    apply list_elem_of_fmap_2. by apply elem_of_seq.
  - intros H e (i & -> & Hi%elem_of_seq)%list_elem_of_fmap.
    rewrite eval_at_x, eval_at_const. by apply H.
Qed.

(** A robust bound on a slice within the range of [x]. *)
Lemma st_slice_spec (m : Model) (a b : nat) (op : cmp) (v : Z) :
  adapted m = true → (a ≤ b ≤ x_size m)%nat →
  ∃ c, st_slice m (Int (Z.of_nat a)) (Int (Z.of_nat b)) op v = Ret (st m c) ∧
       c_forall c = true ∧
       c_lhs c = as_vec (seq a (b - a)) ∧ c_op c = op ∧
       c_rhs c = Sc (aff_const v) ∧
       ∀ den xv zv, 0 < den →
         (holds_at den xv zv c
          ↔ ∀ i, (a ≤ i < b)%nat → cmp_holds op (entry xv i) (den * v)).
Proof.
  intros Had Hab. unfold st_slice. rewrite x_slice_in_range by lia. ret.
  unfold compare. ret. rewrite Had. ret.
  eexists. split; [reflexivity|]. do 4 (split; [done|]).
  intros den xv zv _. unfold qualified. simpl.
  rewrite (holds_slice_scalar den xv zv a (b - a) op v).
  split; intros H i Hi; apply H; lia.
Qed.

Lemma unit_range_spec_holds (names : list string) (m : Model) (p : string * Element) :
  x_size m = length names → adapted m = true → p.1 ∈ names →
  ∃ cs, unit_range names m p = Ret (foldl st m cs) ∧ unit_range_spec names p.1 cs.
Proof.
  intros Hn Had Hin. unfold unit_range.
  destruct (get_x_idx_spans names p.1 Hin) as (a & b & Hidx & Hsp).
  pose proof Hsp as [Hab _].
  rewrite Hidx. ret.
  destruct (st_slice_spec m a b Ge 0) as (c1 & Hc1 & Hs1); [done|lia|].
  rewrite Hc1. ret.
  destruct (st_slice_spec (st m c1) a b Le 1) as (c2 & Hc2 & Hs2);
    [done|simpl; lia|].
  rewrite Hc2. exists [c1; c2]. split; [done|].
  exists a, b, c1, c2. split; [exact Hsp|]. split; [done|].
  split; [exact Hs1|exact Hs2].
Qed.

Lemma vsp_range_spec_holds (names : list string) (objs : gmap string Element)
    (m : Model) (p : string * Element) :
  x_size m = length names → adapted m = true → p.1 ∈ names →
  objs !! p.1 = Some p.2 →
  ∃ cs, vsp_range names m p = Ret (foldl st m cs) ∧
        vsp_range_spec names objs p.1 cs.
Proof.
  intros Hn Had Hin Hobj. unfold vsp_range.
  destruct (get_x_idx_spans names p.1 Hin) as (a & b & Hidx & Hsp).
  pose proof Hsp as [Hab _].
  rewrite Hidx. ret.
  destruct (st_slice_spec m a b Ge (min_flow p.2)) as (c1 & Hc1 & Hs1);
    [done|lia|].
  rewrite Hc1. ret.
  destruct (st_slice_spec (st m c1) a b Le (max_flow p.2))
    as (c2 & Hc2 & Hs2); [done|simpl; lia|].
  rewrite Hc2. ret.
  destruct (init_flow p.2) as [|v] eqn:Hinit.
  - exists [c1; c2]. split; [done|].
    exists p.2, a, b, c1, c2, []. rewrite Hinit.
    split; [done|]. split; [exact Hsp|]. split; [done|].
    split; [exact Hs1|]. split; [exact Hs2|done].
  - unfold x_item. cbn [x_size st]. rewrite position_in_range by lia.
    unfold compare. ret.
    change (adapted (st (st m c1) c2)) with (adapted m). rewrite Had. ret.
    eexists [c1; c2; _]. split; [reflexivity|].
    exists p.2, a, b, c1, c2. eexists. rewrite Hinit.
    split; [done|]. split; [exact Hsp|]. split; [done|].
    split; [exact Hs1|]. split; [exact Hs2|].
    eexists. split; [reflexivity|]. do 4 (split; [done|]).
    intros den xv zv _. unfold holds_at. simpl.
    by rewrite eval_at_x, eval_at_const.
Qed.

(** The five loops of [range_constraints]. *)
Lemma unit_loop_spec (names : list string) (net : Network)
    (keys : list string) (m : Model) :
  x_size m = length names → adapted m = true →
  (∀ k, k ∈ keys → is_Some (objects net !! k) ∧ k ∈ names) →
  ∃ css, (l ← items net keys; for_each (unit_range names) l m)
         = Ret (foldl st m (concat css)) ∧
         Forall2 (unit_range_spec names) keys css.
Proof.
  intros Hn Had Hkeys.
  destruct (items_Ret net keys) as (l & Hl & HF); [intros k Hk; by apply Hkeys|].
  rewrite Hl. ret.
  destruct (for_each_st (unit_range names)
              (λ p cs, unit_range_spec names p.1 cs) (length names) (depend m)
              l m Hn eq_refl)
    as (css & Hcss & HQ).
  { intros p m' Hp Hm' Hd'. apply unit_range_spec_holds; [done| |].
    { unfold adapted in *. by rewrite Hd'. }
    apply list_elem_of_lookup in Hp as [i Hi].
    destruct (Forall2_lookup_r _ _ _ _ _ HF Hi) as (k & Hk & <- & _).
    apply Hkeys. by eapply list_elem_of_lookup_2. }
  exists css. split; [done|].
  eapply Forall2_chain; [|exact HF | exact HQ].
  intros k p cs [<- _] Hspec. exact Hspec.
Qed.

Lemma vsp_loop_spec (names : list string) (net : Network)
    (keys : list string) (m : Model) :
  x_size m = length names → adapted m = true →
  (∀ k, k ∈ keys → is_Some (objects net !! k) ∧ k ∈ names) →
  ∃ css, (l ← items net keys; for_each (vsp_range names) l m)
         = Ret (foldl st m (concat css)) ∧
         Forall2 (vsp_range_spec names (objects net)) keys css.
Proof.
  intros Hn Had Hkeys.
  destruct (items_Ret net keys) as (l & Hl & HF); [intros k Hk; by apply Hkeys|].
  rewrite Hl. ret.
  destruct (for_each_st (vsp_range names)
              (λ p cs, vsp_range_spec names (objects net) p.1 cs)
              (length names) (depend m) l m Hn eq_refl)
    as (css & Hcss & HQ).
  { intros p m' Hp Hm' Hd'.
    apply list_elem_of_lookup in Hp as [i Hi].
    destruct (Forall2_lookup_r _ _ _ _ _ HF Hi) as (k & Hk & <- & Hobj).
    apply vsp_range_spec_holds; [done| | |done].
    { unfold adapted in *. by rewrite Hd'. }
    apply Hkeys. by eapply list_elem_of_lookup_2. }
  exists css. split; [done|].
  eapply Forall2_chain; [|exact HF | exact HQ].
  intros k p cs [<- _] Hspec. exact Hspec.
Qed.

(** C6: when the decision rule is adapted, the model has one decision per
    row of the table and every pump station, variable speed pump, well,
    control valve and valve names an object and occurs in the table,
    [range_constraints] returns, and it declares, in the order of the five
    collections, for every pump station, well, control valve and valve the
    two robust constraints [x[a:b] >= 0] and [x[a:b] <= 1], where [a] is
    the first row of the element in the table and [b - 1] its last row, and
    for every variable speed pump the two robust constraints
    [x[a:b] >= min_flow] and [x[a:b] <= max_flow], followed, exactly when
    [init_flow] is not NaN, by the robust constraint [x[a] == init_flow].
    At every rational value of the decisions each of them holds exactly
    when every entry of the range satisfies the bound. *)
Theorem range_constraints_bounds (s : Sim) (m : Model) :
  let net := network s in
  let names := vars_name s in
  depend m ≠ ∅ →
  x_size m = length names →
  (∀ k, k ∈ pump_stations net ++ vsp net ++ wells net
            ++ control_valves net ++ valves net →
        is_Some (objects net !! k) ∧ k ∈ names) →
  ∃ m' ps vs ws cvs vvs,
    range_constraints s m = Ret m' ∧
    depend m' = depend m ∧
    constraints m' = constraints m ++ concat ps ++ concat vs ++ concat ws
                       ++ concat cvs ++ concat vvs ∧
    Forall2 (unit_range_spec names) (pump_stations net) ps ∧
    Forall2 (vsp_range_spec names (objects net)) (vsp net) vs ∧
    Forall2 (unit_range_spec names) (wells net) ws ∧
    Forall2 (unit_range_spec names) (control_valves net) cvs ∧
    Forall2 (unit_range_spec names) (valves net) vvs.
Proof.
  intros net names Had%adapted_true Hn Hkeys. unfold range_constraints.
  fold net names.
  destruct (unit_loop_spec names net (pump_stations net) m Hn Had)
    as (ps & Hps & Qps); [intros k Hk; apply Hkeys; rewrite !elem_of_app; auto 10|].
  set (m1 := foldl st m (concat ps)) in *.
  assert (Hn1 : x_size m1 = length names)
    by (unfold m1; by rewrite (proj1 (foldl_st_fields _ _))).
  assert (Had1 : adapted m1 = true) by (unfold m1; by rewrite adapted_foldl_st).
  destruct (vsp_loop_spec names net (vsp net) m1 Hn1 Had1)
    as (vs & Hvs & Qvs); [intros k Hk; apply Hkeys; rewrite !elem_of_app; auto 10|].
  set (m2 := foldl st m1 (concat vs)) in *.
  assert (Hn2 : x_size m2 = length names)
    by (unfold m2; by rewrite (proj1 (foldl_st_fields _ _))).
  assert (Had2 : adapted m2 = true) by (unfold m2; by rewrite adapted_foldl_st).
  destruct (unit_loop_spec names net (wells net) m2 Hn2 Had2)
    as (ws & Hws & Qws); [intros k Hk; apply Hkeys; rewrite !elem_of_app; auto 10|].
  set (m3 := foldl st m2 (concat ws)) in *.
  assert (Hn3 : x_size m3 = length names)
    by (unfold m3; by rewrite (proj1 (foldl_st_fields _ _))).
  assert (Had3 : adapted m3 = true) by (unfold m3; by rewrite adapted_foldl_st).
  destruct (unit_loop_spec names net (control_valves net) m3 Hn3 Had3)
    as (cvs & Hcvs & Qcvs); [intros k Hk; apply Hkeys; rewrite !elem_of_app; auto 10|].
  set (m4 := foldl st m3 (concat cvs)) in *.
  assert (Hn4 : x_size m4 = length names)
    by (unfold m4; by rewrite (proj1 (foldl_st_fields _ _))).
  assert (Had4 : adapted m4 = true) by (unfold m4; by rewrite adapted_foldl_st).
  destruct (unit_loop_spec names net (valves net) m4 Hn4 Had4)
    as (vvs & Hvvs & Qvvs); [intros k Hk; apply Hkeys; rewrite !elem_of_app; auto 10|].
  exists (foldl st m4 (concat vvs)), ps, vs, ws, cvs, vvs.
  split; [|split; [|split; [|done]]].
  - destruct (items net (pump_stations net)) as [l1|]; [|done]. simpl in *.
    rewrite Hps. simpl. fold m1.
    destruct (items net (vsp net)) as [l2|]; [|done]. simpl in *.
    rewrite Hvs. simpl. fold m2.
    destruct (items net (wells net)) as [l3|]; [|done]. simpl in *.
    rewrite Hws. simpl. fold m3.
    destruct (items net (control_valves net)) as [l4|]; [|done]. simpl in *.
    rewrite Hcvs. simpl. fold m4. done.
  - unfold m4, m3, m2, m1. by rewrite !(proj1 (proj2 (proj2 (proj2 (foldl_st_fields _ _))))).
  - unfold m4, m3, m2, m1.
    rewrite !(proj2 (proj2 (proj2 (proj2 (foldl_st_fields _ _))))).
    by rewrite <- !app_assoc.
Qed.

Lemma range_constraints_bounds_witness :
  depend Example.m1 ≠ ∅ ∧
  ∃ m' ps vs,
    range_constraints Example.sim0 Example.m1 = Ret m' ∧
    constraints m' = concat ps ++ concat vs ∧
    Forall2 (unit_range_spec (vars_name Example.sim0)) ["p1"] ps ∧
    Forall2 (vsp_range_spec (vars_name Example.sim0) (objects Example.net))
      ["v1"] vs.
Proof.
  assert (Had : depend Example.m1 ≠ ∅).
  { apply (bool_decide_unpack _). by vm_compute. }
  split; [exact Had|].
  destruct (range_constraints_bounds Example.sim0 Example.m1 Had)
    as (m' & ps & vs & ws & cvs & vvs & Hret & _ & Hcs & Hps & Hvs & Hws & Hcvs
        & Hvvs).
  - reflexivity.
  - intros k Hk. simpl in Hk.
    repeat (apply elem_of_cons in Hk as [->|Hk];
            [split; [by eexists | apply list_elem_of_In; simpl; auto 20]|]).
    by apply elem_of_nil in Hk.
  - exists m', ps, vs. split; [exact Hret|]. split; [|by split].
    simpl in Hws, Hcvs, Hvvs.
    apply Forall2_nil_inv_l in Hws, Hcvs, Hvvs. subst ws cvs vvs.
    simpl in Hcs. by rewrite !app_nil_r in Hcs.
Defined.

(** ** Exclusivity of the discrete states *)

Lemma np_hstack_fmap_seq {A} (f : nat → list A) (a n : nat) :
  (0 < n)%nat → np_hstack (f <$> seq a n) = Ret (seq a n ≫= f).
Proof.
  intros Hn. rewrite <- concat_fmap_bind. destruct n; [lia|]. done.
Qed.

Lemma length_blocks {A} (L : list nat) (row : nat → A) (start len : nat → nat) :
  length (i ← L; replicate (len i) (row i))
  = length (i ← L; seq (start i) (len i)).
Proof.
  induction L as [|i L IH]; [done|].
  by rewrite !bind_cons, !length_app, IH, length_replicate, length_seq.
Qed.

(** A sum against the indicator of a block is the sum over the block. *)
Lemma sumZ_indicator_block (f g : nat → Z) (a c n : nat) :
  (a + c ≤ n)%nat →
  (∀ j, (j < n)%nat → f j = if decide (a ≤ j < a + c)%nat then g j else 0) →
  sumZ (f <$> seq 0 n) = sumZ ((λ k, g (a + k)%nat) <$> seq 0 c).
Proof.
  intros Hn Hf.
  replace n with (a + (c + (n - a - c)))%nat by lia.
  rewrite sumZ_seq_split, sumZ_seq_split.
  rewrite (sumZ_seq_zero f 0 a), (sumZ_seq_zero _ 0 (n - a - c)).
  - rewrite Z.add_0_l, Z.add_0_r. apply sumZ_ext.
    intros k Hk%elem_of_seq. rewrite Hf by lia. by rewrite decide_True by lia.
  - intros i Hi. rewrite Hf by lia. by rewrite decide_False by lia.
  - intros i Hi. rewrite Hf by lia. by rewrite decide_False by lia.
Qed.

(** The selector matrix of a horizon of at least one step. *)
Lemma selector_matrix_spec (T c : nat) :
  (0 < T)%nat →
  ∃ M, selector_matrix T c = Ret M ∧ selects_blocks M T c.
Proof.
  intros HT. unfold selector_matrix, range.
  rewrite Nat.sub_0_r, np_hstack_fmap_seq by done. ret.
  rewrite seq_blocks.
  destruct (fancy_assign_spec (np_zeros T (T * c)) T (T * c)
              (i ← seq 0 T; replicate c i) (i ← seq 0 T; seq (i * c) c) 1)
    as (M & HM & Hs & Hget).
  - apply shape_zeros.
  - apply (length_blocks _ id (λ i, i * c)%nat (λ _, c)).
  - apply Forall_forall. intros r (i & Hr & Hi%elem_of_seq)%list_elem_of_bind.
    apply elem_of_replicate in Hr as [-> _]. lia.
  - rewrite <- seq_blocks. apply Forall_forall. intros j Hj%elem_of_seq. lia.
  - exists M. split; [done|]. split; [done|]. intros t j Ht Hj.
    rewrite Hget, mget_zeros by done.
    pose proof (elem_of_zip_blocks (seq 0 T) id (λ i, i * c)%nat (λ _, c) t j)
      as Hzip.
    destruct (decide (t * c ≤ j < t * c + c)%nat) as [Hin|Hout].
    + rewrite decide_True; [done|]. apply Hzip. exists t.
      split; [apply elem_of_seq; lia|]. done.
    + rewrite decide_False; [done|].
      intros (i & _ & -> & Hi)%Hzip. done.
Qed.

(** The labels of the rows of a name are positions of [x]. *)
Lemma x_take_loc (m : Model) (names : list string) (name : string) :
  x_size m = length names →
  x_take m (Index.loc names name) = Ret (rows_of names name).
Proof.
  intros Hn. unfold x_take, rows_of. apply mapM_Ret.
  intros i Hi%loc_from_bounds. unfold position.
  by rewrite bool_decide_true by lia.
Qed.

Lemma one_comb_spec_holds (s : Sim) (m : Model) (p : string * Element) l :
  (0 < num_steps s)%nat → x_size m = length (vars_name s) →
  adapted m = true →
  objects (network s) !! p.1 = Some p.2 → combs p.2 = Some l →
  length (Index.loc (vars_name s) (e_name p.2)) = (num_steps s * length l)%nat →
  ∃ cs, one_comb s m p = Ret (foldl st m cs) ∧ one_comb_spec s p.1 cs.
Proof.
  intros HT Hn Had Hobj Hcombs Hrows. unfold one_comb.
  set (T := num_steps s) in *. set (c := length l).
  rewrite x_take_loc by done. ret.
  unfold len_combs. rewrite Hcombs. ret. fold c.
  destruct (selector_matrix_spec T c HT) as (M & HM & Hsel).
  rewrite HM. ret.
  set (ix := rows_of (vars_name s) (e_name p.2)).
  assert (Hix : length ix = (T * c)%nat)
    by (unfold ix, rows_of; by rewrite length_fmap).
  destruct Hsel as [Hs Hget].
  assert (Hmat : matmul M (aff_x <$> ix)
                 = Ret ((λ row, lincomb row (aff_x <$> ix)) <$> M)).
  { unfold matmul. rewrite bool_decide_true; [done|].
    eapply Forall_impl; [apply Hs|]. intros row Hrow. simpl in Hrow.
    by rewrite length_fmap, Hix. }
  rewrite Hmat. ret. unfold compare. ret. rewrite Had. ret.
  eexists [_]. split; [reflexivity|].
  exists p.2, l, M. eexists. eexists.
  split; [done|]. split; [done|]. split; [done|]. split; [by split|].
  split; [exact Hmat|]. split; [reflexivity|].
  split; [reflexivity|]. split; [reflexivity|]. split; [reflexivity|].
  split; [reflexivity|].
  assert (Hrow : ∀ den xv zv t row, M !! t = Some row →
            eval_at den xv zv (lincomb row (aff_x <$> ix))
            = block_sum xv ix t c).
  { intros den xv zv t row Hrow.
    assert (Ht : (t < T)%nat)
      by (rewrite <- (proj1 Hs); by eapply lookup_lt_Some).
    pose proof (shape_lookup _ _ _ _ _ Hs Hrow) as Hlen.
    rewrite eval_at_lincomb_x by (by rewrite Hix). rewrite Hlen.
    unfold block_sum.
    apply (sumZ_indicator_block _
             (λ j, from_option (entry xv) 0 (ix !! j)) (t * c) c (T * c)); [nia|].
    intros j Hj. rewrite (mget_row M t row j Hrow), Hget by done.
    case_decide; simpl; lia. }
  intros den xv zv _. unfold holds_at, qualified. simpl. fold ix c T. split.
  - intros H t Ht.
    destruct (lookup_lt_is_Some_2 M t) as [row Hr]; [by rewrite (proj1 Hs)|].
    rewrite <- (Hrow den xv zv t row Hr).
    replace den with (eval_at den xv zv (aff_const 1)) at 2
      by (rewrite eval_at_const; lia).
    apply H.
    + apply list_elem_of_fmap. exists row. split; [done|].
      by eapply list_elem_of_lookup_2.
    + apply elem_of_replicate. split; [done | lia].
  - intros H a b (row & -> & Hin)%list_elem_of_fmap Hb.
    apply elem_of_replicate in Hb as [-> _].
    apply list_elem_of_lookup in Hin as [t Hr].
    rewrite (Hrow den xv zv t row Hr), eval_at_const, Z.mul_1_r. apply H.
    rewrite <- (proj1 Hs). by eapply lookup_lt_Some.
Qed.

(** C5: on a horizon of at least one step, when the decision rule is
    adapted, the model has one decision per row of the table and every
    discrete-state element names an object that has [combs] and as many
    rows in the table as steps times states, [one_comb_only] returns, and
    it declares one constraint for every such element in turn: a robust
    constraint whose left-hand side is the product of the 0/1 selector
    matrix of shape (steps, steps × states), in which row [t] has ones
    exactly at the columns of the block of step [t], with the decisions of
    the element, whose right-hand side is a column of ones, and which holds
    at a rational value of the decisions exactly when at every step the
    decisions of the states of that step sum to at most 1. *)
Theorem one_comb_only_exclusive (s : Sim) (m : Model) :
  (0 < num_steps s)%nat →
  depend m ≠ ∅ →
  x_size m = length (vars_name s) →
  (∀ k, k ∈ comb_elements (network s) →
     ∃ station l,
       objects (network s) !! k = Some station ∧ combs station = Some l ∧
       length (Index.loc (vars_name s) (e_name station))
       = (num_steps s * length l)%nat) →
  ∃ m' css,
    one_comb_only s m = Ret m' ∧
    depend m' = depend m ∧
    constraints m' = constraints m ++ concat css ∧
    Forall2 (one_comb_spec s) (comb_elements (network s)) css.
Proof.
  intros HT Had%adapted_true Hn Hkeys. unfold one_comb_only.
  destruct (items_Ret (network s) (comb_elements (network s)))
    as (l & Hl & HF).
  { intros k Hk. destruct (Hkeys k Hk) as (station & ? & -> & _). by eexists. }
  rewrite Hl. ret.
  destruct (for_each_st (one_comb s) (λ p cs, one_comb_spec s p.1 cs)
              (length (vars_name s)) (depend m) l m Hn eq_refl)
    as (css & Hcss & HQ).
  { intros p m' Hp Hm' Hd'.
    assert (Had' : adapted m' = true) by (unfold adapted in *; by rewrite Hd').
    apply list_elem_of_lookup in Hp as [i Hi].
    destruct (Forall2_lookup_r _ _ _ _ _ HF Hi) as (k & Hk & <- & Hobj).
    destruct (Hkeys p.1) as (station & cl & Hst & Hcl & Hrows);
      [by eapply list_elem_of_lookup_2|].
    rewrite Hobj in Hst. injection Hst as <-.
    by eapply one_comb_spec_holds. }
  exists (foldl st m (concat css)), css. split; [done|].
  destruct (foldl_st_fields m (concat css)) as (_ & _ & _ & -> & ->).
  split; [done|]. split; [done|].
  eapply Forall2_chain; [|exact HF | exact HQ].
  intros k p cs [<- _] Hspec. exact Hspec.
Qed.

Lemma one_comb_only_exclusive_witness :
  ∃ m' cs,
    one_comb_only Example.sim0 Example.m1 = Ret m' ∧
    constraints m' = cs ∧ one_comb_spec Example.sim0 "p1" cs.
Proof.
  destruct (one_comb_only_exclusive Example.sim0 Example.m1)
    as (m' & css & Hret & _ & Hcs & Hspec).
  - simpl. lia.
  - apply (bool_decide_unpack _). by vm_compute.
  - reflexivity.
  - intros k Hk. simpl in Hk.
    apply elem_of_cons in Hk as [->|Hk]; [|by apply elem_of_nil in Hk].
    exists Example.p1, ["off"; "on"]. by repeat split.
  - simpl in Hspec. apply Forall2_cons_inv_l in Hspec as (cs & css' & Hp1 & Hnil & ->).
    apply Forall2_nil_inv_l in Hnil as ->.
    exists m', cs. split; [exact Hret|]. split; [|exact Hp1].
    rewrite Hcs. simpl. by rewrite app_nil_r.
Defined.

(** ** Scheduling windows *)

Lemma omap_fmap_Some {A B} (f : A → option B) (g : A → B) (l : list A) :
  (∀ a, a ∈ l → f a = Some (g a)) → omap f l = g <$> l.
Proof.
  induction l as [|a l IH]; intros Hf; [done|]. simpl.
  rewrite (Hf a) by left. f_equal. apply IH. intros b Hb. apply Hf. by right.
Qed.

Lemma fmap_bind_singleton {A B} (f : A → B) (l : list A) :
  f <$> l = a ← l; [f a].
Proof. induction l as [|a l IH]; [done|]. by rewrite fmap_cons, bind_cons, IH. Qed.

Lemma np_diag_below_indices (T : nat) :
  np_diag_below (np_indices T).1 = S <$> seq 0 (T - 1) ∧
  np_diag_below (np_indices T).2 = seq 0 (T - 1).
Proof.
  unfold np_diag_below, np_indices. simpl.
  rewrite !length_fmap, !length_seq. split.
  - apply omap_fmap_Some. intros i Hi%elem_of_seq.
    rewrite list_lookup_fmap, lookup_seq_lt by lia. simpl.
    apply lookup_replicate_2. lia.
  - rewrite <- (list_fmap_id (seq 0 (T - 1))) at 2.
    apply omap_fmap_Some. intros i Hi%elem_of_seq.
    rewrite list_lookup_fmap, lookup_seq_lt by lia. simpl.
    apply lookup_seq_lt. lia.
Qed.

Lemma elem_of_zip_succ (n r j : nat) :
  (r, j) ∈ zip (S <$> seq 0 n) (seq 0 n) ↔ r = S j ∧ (j < n)%nat.
Proof.
  rewrite list_elem_of_lookup. split.
  - intros (k & Hk). apply lookup_zip_with_Some in Hk as (x & y & [= -> ->] & Hx & Hy).
    apply lookup_seq in Hy as [-> Hlt].
    rewrite list_lookup_fmap, lookup_seq_lt in Hx by done.
    by injection Hx as <-.
  - intros [-> Hj]. exists j. apply lookup_zip_Some.
    + by rewrite list_lookup_fmap, lookup_seq_lt.
    + by rewrite lookup_seq_lt.
Qed.

(** The first-difference matrix of a horizon of at least one step. *)
Lemma difference_matrix_spec (T : nat) :
  (0 < T)%nat → ∃ D, difference_matrix T = Ret D ∧ first_difference D T.
Proof.
  intros HT. unfold difference_matrix.
  destruct (np_indices T) as [rows cols] eqn:Hidx.
  pose proof (np_diag_below_indices T) as [Hr Hc].
  rewrite Hidx in Hr, Hc. simpl in Hr, Hc. rewrite Hr, Hc.
  destruct (fancy_assign_spec (np_eye T) T T
              (S <$> seq 0 (T - 1)) (seq 0 (T - 1)) (-1))
    as (D1 & HD1 & Hs1 & Hget1).
  - apply shape_eye.
  - by rewrite length_fmap.
  - apply Forall_fmap, Forall_forall. intros i Hi%elem_of_seq. simpl. lia.
  - apply Forall_forall. intros i Hi%elem_of_seq. lia.
  - rewrite HD1. ret.
    destruct (mset_spec D1 T T 0 0 0 Hs1 HT HT) as (D & HD & Hs & Hget).
    exists D. split; [done|]. split; [done|]. intros i j Hi Hj.
    rewrite Hget, Hget1, mget_eye by done.
    pose proof (elem_of_zip_succ (T - 1) i j) as Hzip.
    destruct (decide (i = 0%nat ∧ j = 0%nat)) as [[-> ->]|Hne]; [done|].
    destruct (decide (i = 0%nat)) as [->|Hi0].
    + rewrite decide_False.
      * by rewrite decide_False by lia.
      * intros [? _]%Hzip. lia.
    + destruct (decide (j = i)) as [->|Hji].
      * rewrite decide_False; [by rewrite decide_True|].
        intros [? _]%Hzip. lia.
      * destruct (decide (S j = i)) as [<-|HSj].
        -- rewrite decide_True; [done|]. apply Hzip. lia.
        -- rewrite decide_False; [by rewrite decide_False by lia|].
           intros [? _]%Hzip. lia.
Qed.

(** *** The auxiliary column *)

Lemma assoc_set_column_eq col v cols : assoc col (set_column col v cols) = Some v.
Proof.
  induction cols as [|[c w] cols IH]; simpl.
  - by rewrite String.eqb_refl.
  - destruct (String.eqb c col) eqn:Hc; simpl; by rewrite Hc.
Qed.

Lemma assoc_set_column_ne col col' v cols :
  col ≠ col' → assoc col' (set_column col v cols) = assoc col' cols.
Proof.
  intros Hne. induction cols as [|[c w] cols IH]; simpl.
  - destruct (String.eqb_spec col col'); [done|]. done.
  - destruct (String.eqb_spec c col) as [->|Hc]; simpl.
    + by destruct (String.eqb_spec col col').
    + by rewrite IH.
Qed.

Lemma set_column_twice col v w cols :
  set_column col w (set_column col v cols) = set_column col w cols.
Proof.
  induction cols as [|[c u] cols IH]; simpl.
  - by rewrite String.eqb_refl.
  - destruct (String.eqb c col) eqn:Hc; simpl; rewrite Hc; [done|]. by rewrite IH.
Qed.

(** The auxiliary column after the two assignments of [vsp_changes]: 1 at
    the steps inside the window and 0 elsewhere. *)
Lemma aux_column (df : DataFrame) (row : changes_row) :
  let mask := (λ t, bool_decide (cr_start row < t) && bool_decide (t < cr_end row))
                <$> df_index df in
  ∃ vars aux,
    df_loc_set (df_set_scalar df "aux" 0) mask "aux" 1 = Ret vars ∧
    df_index vars = df_index df ∧
    df_columns vars = set_column "aux" aux (df_columns df) ∧
    df_get vars "aux" = Ret aux ∧
    length aux = length (df_index df) ∧
    ∀ i, (i < length (df_index df))%nat →
         aux !! i = Some (if in_window (df_index df) row i then 1 else 0).
Proof.
  intros mask. unfold df_loc_set, df_set_scalar, df_get. simpl.
  rewrite assoc_set_column_eq. ret. rewrite set_column_twice.
  eexists _, _. split; [reflexivity|]. simpl. split; [done|]. split; [done|].
  rewrite assoc_set_column_eq. split; [done|]. split.
  - unfold mask. by rewrite length_zip_with, length_fmap, length_replicate, Nat.min_id.
  - intros i Hi. destruct (lookup_lt_is_Some_2 (df_index df) i Hi) as [t Ht].
    apply lookup_zip_with_Some. unfold in_window. rewrite Ht.
    eexists _, 0. split; [|split].
    2:{ unfold mask. rewrite list_lookup_fmap, Ht. reflexivity. }
    2:{ by apply lookup_replicate_2. }
    done.
Qed.

(** The rows of the masked product. *)
Lemma mul_column_spec (D : matrix) (T : nat) (aux : list Z) :
  shape D T T → length aux = T →
  ∃ M, mul_column D aux = Ret M ∧ shape M T T ∧
       ∀ i j, mget M i j = (λ d, entry aux i * d) <$> mget D i j.
Proof.
  intros Hs Haux. unfold mul_column.
  rewrite bool_decide_true by (by rewrite (proj1 Hs)).
  eexists. split; [reflexivity|]. split.
  - split; [by rewrite length_zip_with, (proj1 Hs), Haux, Nat.min_id|].
    apply Forall_forall. intros r Hr.
    apply list_elem_of_lookup in Hr as [i Hi].
    apply lookup_zip_with_Some in Hi as (row & k & -> & Hrow & Hk).
    rewrite length_fmap. by eapply shape_lookup.
  - intros i j. unfold mget, entry. rewrite lookup_zip_with.
    destruct (D !! i) as [row|] eqn:Hrow; simpl; [|done].
    destruct (aux !! i) as [k|] eqn:Hk; simpl.
    + by rewrite list_lookup_fmap.
    + apply lookup_ge_None in Hk. apply lookup_lt_Some in Hrow.
      rewrite (proj1 Hs) in Hrow. lia.
Qed.

(** *** One record of [vsp_changes.csv] *)

Lemma lookup_set_vars (s : Sim) (name : string) (vars : DataFrame) (k : string) :
  objects (network (set_vars s name vars)) !! k
  = if decide (name = k)
    then (λ e, {| e_name := e_name e; combs := combs e; min_flow := min_flow e;
                  max_flow := max_flow e; init_flow := init_flow e;
                  e_vars := vars |}) <$> objects (network s) !! k
    else objects (network s) !! k.
Proof.
  unfold set_vars. simpl. rewrite lookup_alter.
  by destruct (decide (name = k)) as [->|].
Qed.

Lemma same_rows_refl (s : Sim) : same_rows s s.
Proof. by repeat split. Qed.

Lemma same_rows_trans (s1 s2 s3 : Sim) :
  same_rows s1 s2 → same_rows s2 s3 → same_rows s1 s3.
Proof.
  intros (H1 & H2 & H3) (H4 & H5 & H6).
  split; [congruence|]. split; [congruence|].
  intros k. by rewrite H6, H3.
Qed.

Lemma same_rows_set_vars (s : Sim) (name : string) (e : Element) (vars : DataFrame) :
  objects (network s) !! name = Some e →
  df_index vars = df_index (e_vars e) →
  same_rows s (set_vars s name vars).
Proof.
  intros He Hidx. repeat split. intros k. rewrite lookup_set_vars.
  destruct (decide (name = k)) as [<-|Hne]; [|done].
  rewrite He. simpl. by rewrite Hidx.
Qed.


Lemma network_element_scheduled (s : Sim) (m : Model) name vsp a :
  scheduled s m name vsp a → network_element s name = Ret vsp.
Proof.
  intros (He & Hidx & _). unfold network_element.
  unfold Index.get_x_idx in Hidx.
  destruct (Index.loc (vars_name s) name); [done|].
  by apply getitem_Some.
Qed.






(** ** The auxiliary column of the scheduling builders *)

(** C8 fails for the no-change builder.  On the network of the example
    with its adapted rule, whose variable speed pump [v1] has the one
    column [flow]: after [vsp_changes] has processed a record the table of
    [v1] carries the column [aux] of the record's window mask, while after
    [vsp_volume] has processed a record the table is what it was. *)
Theorem vsp_changes_keeps_aux_column :
  match vsp_changes [Example.changes] (Example.sim0, Example.m1) with
  | Ret (s', _) => e_vars <$> objects (network s') !! "v1"
  | Raise _ => None
  end
  = Some {| df_index := [10; 20; 30];
            df_columns := [("flow", [0; 0; 0]); ("aux", [0; 1; 1])] |}
  ∧ match vsp_volume [Example.volume] (Example.sim0, Example.m1) with
    | Ret (s', _) => e_vars <$> objects (network s') !! "v1"
    | Raise _ => None
    end
    = Some {| df_index := [10; 20; 30]; df_columns := [("flow", [0; 0; 0])] |}
  ∧ e_vars <$> objects (network Example.sim0) !! "v1"
    = Some {| df_index := [10; 20; 30]; df_columns := [("flow", [0; 0; 0])] |}.
Proof. repeat split; vm_compute; reflexivity. Qed.

(** ** The adaptive decision rule *)

Section Unique.

Context (T : nat).

Lemma unique_from_replicate_seen seen a n rest :
  a ∈ seen →
  unique_from seen (replicate n a ++ rest) = unique_from seen rest.
Proof.
  intros Ha. induction n as [|n IH]; [done|]. simpl.
  by rewrite bool_decide_true.
Qed.

Lemma unique_from_replicate_new seen a n rest :
  a ∉ seen → (0 < n)%nat →
  unique_from seen (replicate n a ++ rest) = a :: unique_from (a :: seen) rest.
Proof.
  intros Ha Hn. destruct n as [|n]; [lia|]. simpl.
  rewrite bool_decide_false by done. f_equal.
  apply unique_from_replicate_seen. left.
Qed.

(** The names of the table, in the order of their first occurrence, are
    the names of the elements with a non-empty block. *)
Lemma unique_from_layout seen (elems : list Element) :
  (∀ e, e ∈ elems → e_name e ∉ seen) → NoDup (e_name <$> elems) →
  unique_from seen (layout T elems)
  = e_name <$> filter (λ e, (0 < block_size T e)%nat) elems.
Proof.
  revert seen. induction elems as [|e elems IH]; intros seen Hseen Hnd; [done|].
  rewrite fmap_cons in Hnd. apply NoDup_cons in Hnd as [Hne Hnd].
  rewrite layout_cons, filter_cons.
  destruct (decide (0 < block_size T e)%nat) as [Hpos|Hzero].
  - rewrite unique_from_replicate_new; [|apply Hseen; left|done].
    rewrite fmap_cons. f_equal. apply IH; [|done].
    intros e' He' [Heq|Hin]%elem_of_cons.
    + apply Hne. rewrite <- Heq. by apply list_elem_of_fmap_2.
    + apply (Hseen e'); [by right | done].
  - replace (block_size T e) with 0%nat by lia. simpl.
    apply IH; [|done]. intros e' He'. apply Hseen. by right.
Qed.

Lemma unique_layout (elems : list Element) :
  NoDup (e_name <$> elems) →
  unique (layout T elems)
  = e_name <$> filter (λ e, (0 < block_size T e)%nat) elems.
Proof.
  intros Hnd. apply unique_from_layout; [|done].
  intros e _. apply not_elem_of_nil.
Qed.

Lemma length_layout_app (pre : list Element) (e : Element) :
  length (layout T (pre ++ [e])) = (length (layout T pre) + block_size T e)%nat.
Proof.
  rewrite layout_app, length_app, (layout_cons T e []), length_app,
    length_replicate.
  simpl. lia.
Qed.

Lemma length_layout_le (pre post : list Element) :
  (length (layout T pre) ≤ length (layout T (pre ++ post)))%nat.
Proof. rewrite layout_app, length_app. lia. Qed.

Lemma step_of_lt (elems : list Element) i t :
  step_of T elems i = Some t → (i < length (layout T elems))%nat.
Proof.
  revert i. induction elems as [|e elems IH]; intros i; [done|].
  cbn [step_of]. rewrite layout_cons, length_app, length_replicate.
  destruct (decide (i < block_size T e)%nat); [lia|].
  intros H%IH. lia.
Qed.

Lemma step_of_app (pre l : list Element) i :
  step_of T (pre ++ l) i
  = if decide (i < length (layout T pre))%nat then step_of T pre i
    else step_of T l (i - length (layout T pre)).
Proof.
  revert i. induction pre as [|e pre IH]; intros i.
  - simpl. by rewrite Nat.sub_0_r.
  - rewrite <- app_comm_cons, layout_cons, length_app, length_replicate.
    cbn [step_of].
    destruct (decide (i < block_size T e)%nat) as [Hlt|Hge].
    + by rewrite decide_True by lia.
    + rewrite IH.
      destruct (decide (i - block_size T e < length (layout T pre))%nat).
      * by rewrite decide_True by lia.
      * rewrite decide_False by lia. f_equal. lia.
Qed.

End Unique.

Lemma div_block (i c t : nat) :
  (0 < c)%nat → (i / c = t)%nat ↔ (t * c ≤ i < t * c + c)%nat.
Proof.
  intros Hc. pose proof (Nat.div_mod i c ltac:(lia)).
  pose proof (Nat.mod_upper_bound i c ltac:(lia)). split; [intros <-; lia|].
  intros Hi. symmetry. apply (Nat.div_unique i c t (i - t * c)); lia.
Qed.

(** *** One call of [adapt] *)

Lemma adapt_spec (m : Model) (ix iz : list nat) :
  (∀ i j, i ∈ ix → j ∈ iz → (i, j) ∉ depend m) →
  ∃ m', adapt m ix iz = Ret m' ∧
        x_size m' = x_size m ∧ z_rows m' = z_rows m ∧ z_cols m' = z_cols m ∧
        constraints m' = constraints m ∧
        ∀ i j, (i, j) ∈ depend m' ↔ (i, j) ∈ depend m ∨ (i ∈ ix ∧ j ∈ iz).
Proof.
  intros Hfresh. unfold adapt.
  assert (Hpairs : ∀ i j, (i, j) ∈ (i ← ix; j ← iz; [(i, j)]) ↔ i ∈ ix ∧ j ∈ iz).
  { intros i j. rewrite list_elem_of_bind. split.
    - intros (i' & (j' & [= -> ->]%list_elem_of_singleton & Hj)%list_elem_of_bind & Hi).
      done.
    - intros [Hi Hj]. exists i. split; [|done].
      apply list_elem_of_bind. exists j. split; [|done].
      by apply list_elem_of_singleton. }
  rewrite bool_decide_false.
  - eexists. split; [reflexivity|]. simpl. repeat split; try done.
    + rewrite elem_of_union, elem_of_list_to_set, Hpairs. tauto.
    + rewrite elem_of_union, elem_of_list_to_set, Hpairs. tauto.
  - rewrite Exists_exists. intros ([i j] & [Hi Hj]%Hpairs & Hdep).
    by apply (Hfresh i j Hi Hj).
Qed.

(** *** The loop over the steps of one element *)

Lemma adapt_steps (m : Model) (off c T : nat) :
  (off + T * c ≤ x_size m)%nat →
  (∀ i j, (i, j) ∈ depend m → (i < off + c)%nat) →
  ∃ m', for_each (λ m t,
            ix ← x_slice m (py_add (Int (Z.of_nat off))
                              (Int (Z.of_nat t * Z.of_nat c)))
                           (py_add (Int (Z.of_nat off))
                              (Int ((Z.of_nat t + 1) * Z.of_nat c)));
            adapt m ix (z_rows_before m t))
          (range 1 T) m = Ret m' ∧
        x_size m' = x_size m ∧ z_rows m' = z_rows m ∧ z_cols m' = z_cols m ∧
        constraints m' = constraints m ∧
        ∀ i j, (i, j) ∈ depend m' ↔
          (i, j) ∈ depend m ∨
          ∃ t, (1 ≤ t < T)%nat ∧ (off + t * c ≤ i < off + t * c + c)%nat ∧
               (j < t `min` z_rows m * z_cols m)%nat.
Proof.
  intros Hsize Hlow. unfold range.
  destruct (for_each_invariant
    (λ (done : list nat) (m' : Model),
       x_size m' = x_size m ∧ z_rows m' = z_rows m ∧ z_cols m' = z_cols m ∧
       constraints m' = constraints m ∧
       ∀ i j, (i, j) ∈ depend m' ↔
         (i, j) ∈ depend m ∨
         ∃ t, t ∈ done ∧ (off + t * c ≤ i < off + t * c + c)%nat ∧
              (j < t `min` z_rows m * z_cols m)%nat)
    (λ m t,
       ix ← x_slice m (py_add (Int (Z.of_nat off))
                         (Int (Z.of_nat t * Z.of_nat c)))
                      (py_add (Int (Z.of_nat off))
                         (Int ((Z.of_nat t + 1) * Z.of_nat c)));
       adapt m ix (z_rows_before m t))
    (seq 1 (T - 1)) m) as (m' & Hm' & Hx & Hzr & Hzc & Hcs & Hdep).
  - repeat split; try done; [tauto|].
    intros [?|(t & ?%elem_of_nil & _)]; done.
  - intros done t m1 Hpre (Hx & Hzr & Hzc & Hcs & Hdep).
    assert (Ht : (1 ≤ t < T)%nat).
    { destruct Hpre as [rest Hrest].
      assert (Hin : t ∈ seq 1 (T - 1)).
      { rewrite Hrest. apply elem_of_app. left. apply elem_of_app. right. left. }
      apply elem_of_seq in Hin. lia. }
    assert (Hnew : t ∉ done).
    { destruct Hpre as [rest Hrest]. pose proof (NoDup_seq 1 (T - 1)) as Hnd.
      rewrite Hrest, <- app_assoc in Hnd. apply NoDup_app in Hnd as (_ & Hnd & _).
      intros Hin. apply (Hnd t Hin). left. }
    unfold py_add.
    replace (Z.of_nat off + Z.of_nat t * Z.of_nat c)
      with (Z.of_nat (off + t * c)) by lia.
    replace (Z.of_nat off + (Z.of_nat t + 1) * Z.of_nat c)
      with (Z.of_nat (off + t * c + c)) by lia.
    rewrite x_slice_in_range by nia. ret.
    replace (off + t * c + c - (off + t * c))%nat with c by lia.
    destruct (adapt_spec m1 (seq (off + t * c) c) (z_rows_before m1 t))
      as (m2 & Hm2 & Hx2 & Hzr2 & Hzc2 & Hcs2 & Hdep2).
    { intros i j Hi%elem_of_seq _ [Hold|(t' & Ht' & Hblock & _)]%Hdep.
      - apply Hlow in Hold. nia.
      - assert (t' = t) by nia. by subst. }
    exists m2. split; [done|]. repeat split; try congruence.
    + intros [[Hold|(t' & Ht' & Hb)]%Hdep|[Hi%elem_of_seq Hj]]%Hdep2.
      * by left.
      * right. exists t'. split; [|done]. apply elem_of_app. by left.
      * right. exists t. split; [apply elem_of_app; right; by left|].
        split; [lia|]. unfold z_rows_before in Hj. apply elem_of_seq in Hj.
        rewrite Hzr, Hzc in Hj. lia.
    + intros [Hold|(t' & [Ht'|Ht']%elem_of_app & Hb & Hj)]; apply Hdep2.
      * left. apply Hdep. by left.
      * left. apply Hdep. right. by exists t'.
      * apply list_elem_of_singleton in Ht' as ->. right.
        split; [apply elem_of_seq; lia|].
        unfold z_rows_before. apply elem_of_seq. rewrite Hzr, Hzc. lia.
  - exists m'. split; [done|]. repeat split; try done.
    + intros [Hold|(t & Ht%elem_of_seq & Hb)]%Hdep; [by left|].
      right. exists t. split; [lia | done].
    + intros [Hold|(t & Ht & Hb)]; apply Hdep; [by left|].
      right. exists t. split; [apply elem_of_seq; lia | done].
Qed.

(** *** The loop over the elements *)

(** The dependence of the decisions of the elements [done] on [z]. *)
Lemma adapt_elements (s : Sim) (elems : list Element) (m : Model) :
  laid_out s elems → x_size m = length (vars_name s) →
  ∀ rest pre m1,
    elems = pre ++ rest →
    x_size m1 = x_size m → z_rows m1 = z_rows m → z_cols m1 = z_cols m →
    constraints m1 = constraints m →
    (∀ i j, (i, j) ∈ depend m1 ↔
       ∃ t, step_of (num_steps s) pre i = Some t ∧
            (j < t `min` z_rows m * z_cols m)%nat) →
    ∃ m',
      for_each (λ m element_name,
          element ← getitem (objects (network s)) element_name;
          '(xmin_idx, xmax_idx) ← Index.get_x_idx (vars_name s) element_name;
          let c := state_count element in
          for_each (λ m t,
              ix ← x_slice m (py_add xmin_idx (Int (Z.of_nat t * Z.of_nat c)))
                             (py_add xmin_idx
                                (Int ((Z.of_nat t + 1) * Z.of_nat c)));
              adapt m ix (z_rows_before m t))
            (range 1 (num_steps s)) m)
        (e_name <$> filter (λ e, (0 < block_size (num_steps s) e)%nat) rest) m1
      = Ret m' ∧
      x_size m' = x_size m ∧ z_rows m' = z_rows m ∧ z_cols m' = z_cols m ∧
      constraints m' = constraints m ∧
      ∀ i j, (i, j) ∈ depend m' ↔
        ∃ t, step_of (num_steps s) elems i = Some t ∧
             (j < t `min` z_rows m * z_cols m)%nat.
Proof.
  intros [Hnames Hnd Hobj] Hsize. set (T := num_steps s) in *.
  induction rest as [|e rest IH]; intros pre m1 Helems Hx Hzr Hzc Hcs Hdep.
  - exists m1. rewrite app_nil_r in Helems. subst pre.
    split; [done|]. do 4 (split; [done|]). exact Hdep.
  - assert (Helems' : elems = (pre ++ [e]) ++ rest)
      by (by rewrite <- app_assoc).
    assert (Hstep : ∀ i, step_of T (pre ++ [e]) i
              = if decide (i < length (layout T pre))%nat then step_of T pre i
                else if decide (i - length (layout T pre) < block_size T e)%nat
                     then Some ((i - length (layout T pre)) / state_count e)%nat
                     else None).
    { intros i. rewrite step_of_app. by destruct (decide _). }
    rewrite filter_cons.
    destruct (decide (0 < block_size T e)%nat) as [Hpos|Hzero].
    + rewrite fmap_cons. cbn [for_each].
      rewrite (getitem_Some _ _ e).
      2:{ apply Hobj. rewrite Helems. apply elem_of_app. right. left. }
      ret. rewrite Hnames, Helems.
      rewrite get_x_idx_layout by (by try rewrite <- Helems). ret.
      set (off := length (layout T pre)). set (c := state_count e).
      assert (Hc : (0 < c)%nat) by (unfold block_size in Hpos; fold c in Hpos; nia).
      assert (Hfit : (off + T * c ≤ x_size m1)%nat).
      { rewrite Hx, Hsize, Hnames, Helems'.
        pose proof (length_layout_le T (pre ++ [e]) rest) as Hle.
        rewrite length_layout_app in Hle. exact Hle. }
      destruct (adapt_steps m1 off c T Hfit)
        as (m2 & Hm2 & Hx2 & Hzr2 & Hzc2 & Hcs2 & Hdep2).
      { intros i j (t & Ht%step_of_lt & _)%Hdep. fold off in Ht. lia. }
      rewrite Hm2. ret.
      destruct (IH (pre ++ [e]) m2 Helems') as (m' & Hm' & Hrest);
        try congruence.
      { intros i j. rewrite Hdep2, Hdep, Hstep. fold off c. rewrite Hzr, Hzc.
        split.
        - intros [(t & Ht & Hj)|(t & Ht & Hi & Hj)].
          + exists t. split; [|done].
            apply step_of_lt in Ht as Hlt. fold off in Hlt.
            by rewrite decide_True.
          + exists t. split; [|done].
            rewrite decide_False by lia.
            rewrite decide_True by (unfold block_size; fold c; nia).
            f_equal. apply div_block; [done|]. lia.
        - intros (t & Ht & Hj).
          destruct (decide (i < off)%nat); [left; by exists t|].
          destruct (decide (i - off < block_size T e)%nat) as [Hb|]; [|done].
          injection Ht as Ht. apply div_block in Ht; [|done].
          unfold block_size in Hb. fold c in Hb.
          right. exists t. split; [|split; [lia|done]].
          destruct (decide (t = 0)%nat) as [->|]; [|nia].
          simpl in Hj. lia. }
      exists m'. rewrite <- Helems, <- Hnames. by split.
    + destruct (IH (pre ++ [e]) m1 Helems') as (m' & Hm' & Hrest);
        try congruence.
      { intros i j. rewrite Hdep, Hstep.
        split; intros (t & Ht & Hj); exists t; (split; [|done]).
        - apply step_of_lt in Ht as Hlt. by rewrite decide_True.
        - destruct (decide (i < length (layout T pre))%nat); [done|].
          destruct (decide _); [lia | done]. }
      exists m'. by split.
Qed.

(** C2: when the table is laid out element by element in blocks of one
    entry per step and state, the model has one decision per row and no
    adaptation is declared yet, [adapt_ldr] returns, and the decision at a
    position of [x] may depend on an entry of [z] exactly when that entry
    lies in one of the first [t] rows of [z], [t] being the step of the
    position.  For every element, every step [t] and every state [k] of
    it, the decision at [xmin + t * c + k], where [xmin] is the first
    bound that [get_x_idx] gives and [c] the state count, therefore depends
    on the entry [z[r, j]] exactly when [r < t]: on all rows before the
    step, on nothing at step 0, and on no row of the step or after it. *)
Theorem adapt_ldr_causal (s : Sim) (elems : list Element) (m : Model) :
  laid_out s elems → x_size m = length (vars_name s) → depend m = ∅ →
  ∃ m',
    adapt_ldr s m = Ret m' ∧ constraints m' = constraints m ∧
    (∀ i j, (i, j) ∈ depend m' ↔
       ∃ t, step_of (num_steps s) elems i = Some t ∧
            (j < t `min` z_rows m * z_cols m)%nat) ∧
    ∀ pre e post t k,
      elems = pre ++ e :: post →
      (t < num_steps s)%nat → (k < state_count e)%nat →
      ∃ xmin : nat,
        Index.get_x_idx (vars_name s) (e_name e)
        = Ret (Int (Z.of_nat xmin),
               Int (Z.of_nat (xmin + num_steps s * state_count e))) ∧
        ∀ r j, (r < z_rows m)%nat → (j < z_cols m)%nat →
          ((xmin + t * state_count e + k, r * z_cols m + j)%nat ∈ depend m'
           ↔ (r < t)%nat).
Proof.
  intros Hlaid Hsize Hempty. pose proof Hlaid as [Hnames Hnd Hobj].
  destruct (adapt_elements s elems m Hlaid Hsize elems [] m)
    as (m' & Hm' & _ & _ & _ & Hcs & Hdep); try done.
  { intros i j. rewrite Hempty. split; [by intros ?%elem_of_empty|].
    by intros (t & ? & _). }
  exists m'. split.
  { assert (Hu : unique (vars_name s)
                 = e_name <$> filter (λ e, (0 < block_size (num_steps s) e)%nat)
                                elems)
      by (rewrite Hnames; by apply unique_layout).
    unfold adapt_ldr. rewrite Hu. exact Hm'. }
  split; [done|]. split; [done|].
  intros pre e post t k Helems Ht Hk.
  set (T := num_steps s) in *. set (c := state_count e) in *.
  exists (length (layout T pre)). split.
  { rewrite Hnames, Helems. apply get_x_idx_layout; [by rewrite <- Helems|].
    unfold block_size. fold c. nia. }
  intros r j Hr Hj. rewrite Hdep, Helems, step_of_app.
  rewrite decide_False by lia. cbn [step_of].
  rewrite decide_True by (unfold block_size; fold c; nia).
  replace (length (layout T pre) + t * c + k - length (layout T pre))%nat
    with (t * c + k)%nat by lia.
  assert (Hdiv : ((t * c + k) / c = t)%nat) by (apply div_block; lia).
  fold c. rewrite Hdiv. split.
  - intros (t' & [= <-] & Hlt). nia.
  - intros Hlt. exists t. split; [done|]. nia.
Qed.

Lemma adapt_ldr_causal_witness :
  ∃ m',
    adapt_ldr Example.sim0 Example.m0 = Ret m' ∧
    ((7, 0)%nat ∈ depend m' ↔ (0 < 1)%nat) ∧
    ((7, 1)%nat ∈ depend m' ↔ (1 < 1)%nat).
Proof.
  destruct (adapt_ldr_causal Example.sim0 [Example.p1; Example.v1] Example.m0)
    as (m' & Hret & _ & _ & Hblock).
  - split.
    + reflexivity.
    + apply (bool_decide_unpack _). by vm_compute.
    + intros e He. repeat (apply elem_of_cons in He as [->|He]; [reflexivity|]).
      by apply elem_of_nil in He.
  - reflexivity.
  - reflexivity.
  - exists m'. split; [exact Hret|].
    destruct (Hblock [Example.p1] Example.v1 [] 1%nat 0%nat)
      as (xmin & Hidx & Hdep); [reflexivity | vm_compute; lia | vm_compute; lia |].
    assert (xmin = 6%nat) as ->.
    { assert (Hl : Index.get_x_idx (vars_name Example.sim0) "v1"
                   = Ret (Int 6, Int 9)) by reflexivity.
      change (e_name Example.v1) with "v1" in Hidx. rewrite Hl in Hidx.
      injection Hidx as Hx _. lia. }
    split.
    + apply (Hdep 0%nat 0%nat); vm_compute; lia.
    + apply (Hdep 1%nat 0%nat); vm_compute; lia.
Defined.

(** The adapted model of the example is what [adapt_ldr] makes of the
    declared one. *)
Lemma example_adapted : adapt_ldr Example.sim0 Example.m0 = Ret Example.m1.
Proof. vm_compute. reflexivity. Qed.

(** ** Mass balance *)

(** *** Lists and blocks *)

Lemma splice_prefix {A} (P S blk : list A) :
  splice (P ++ S) (length P) blk = P ++ blk ++ drop (length blk) S.
Proof.
  unfold splice. rewrite take_app_length. f_equal. f_equal.
  rewrite drop_app_ge by lia. f_equal. lia.
Qed.

Lemma splice_zeros (P blk : list Z) (n : nat) :
  splice (P ++ replicate n 0) (length P) blk
  = (P ++ blk) ++ replicate (n - length blk) 0.
Proof. by rewrite splice_prefix, drop_replicate, <- app_assoc. Qed.

Lemma length_splice {A} (l blk : list A) (a : nat) :
  (a + length blk ≤ length l)%nat → length (splice l a blk) = length l.
Proof.
  intros H. unfold splice.
  rewrite !length_app, length_take, length_drop. lia.
Qed.

(** A row of a matrix that is given entry by entry. *)
Lemma matrix_row_ext (M : matrix) (R C t : nat) (f : nat → Z) :
  shape M R C → (t < R)%nat →
  (∀ j, (j < C)%nat → mget M t j = Some (f j)) →
  M !! t = Some (f <$> seq 0 C).
Proof.
  intros Hs Ht Hf.
  destruct (lookup_lt_is_Some_2 M t) as [row Hrow]; [by rewrite (proj1 Hs)|].
  rewrite Hrow. f_equal. pose proof (shape_lookup _ _ _ _ _ Hs Hrow) as Hlen.
  apply list_eq. intros j. rewrite list_lookup_fmap.
  destruct (decide (j < C)%nat) as [Hj|Hj].
  - rewrite lookup_seq_lt by done. simpl. rewrite <- (Hf j Hj).
    unfold mget. by rewrite Hrow.
  - rewrite lookup_seq_ge by lia. simpl. apply lookup_ge_None. lia.
Qed.

(** The dot product of a row with the decisions, block by block. *)
Lemma sumZ_row_app (P Q : list Z) (g : nat → Z) :
  sumZ ((λ j, entry (P ++ Q) j * g j) <$> seq 0 (length (P ++ Q)))
  = sumZ ((λ j, entry P j * g j) <$> seq 0 (length P))
    + sumZ ((λ j, entry Q j * g (length P + j)%nat) <$> seq 0 (length Q)).
Proof.
  rewrite length_app, sumZ_seq_split. f_equal.
  - apply sumZ_ext. intros j Hj%elem_of_seq. unfold entry.
    by rewrite lookup_app_l by lia.
  - apply sumZ_ext. intros j Hj%elem_of_seq. unfold entry.
    rewrite lookup_app_r by lia. do 3 f_equal. lia.
Qed.

Lemma bind_seq_succ {A} (f : nat → list A) (a n : nat) :
  (i ← seq a n; f (i + 1)%nat) = (i ← seq (S a) n; f i).
Proof.
  revert a. induction n as [|n IH]; intros a; [done|].
  rewrite <- !cons_seq, !bind_cons, IH. by rewrite Nat.add_1_r.
Qed.

(** *** The cumulative matrices *)

Lemma mul_rows_spec (M : matrix) (R C : nat) (v : list Z) :
  shape M R C → length v = C →
  ∃ M', mul_rows M v = Ret M' ∧ shape M' R C ∧
        ∀ t j, mget M' t j = (λ a, a * entry v j) <$> mget M t j.
Proof.
  intros Hs Hv. unfold mul_rows.
  rewrite (mapM_Ret _ (λ row, zip_with Z.mul row v)).
  2:{ intros row Hrow. unfold broadcast. rewrite bool_decide_true; [done|].
      apply list_elem_of_lookup in Hrow as [t Ht].
      by rewrite (shape_lookup _ _ _ _ _ Hs Ht). }
  eexists. split; [reflexivity|]. split.
  - split; [by rewrite length_fmap, (proj1 Hs)|].
    apply Forall_fmap, Forall_forall. intros row Hrow. simpl.
    apply list_elem_of_lookup in Hrow as [t Ht].
    rewrite length_zip_with, (shape_lookup _ _ _ _ _ Hs Ht). lia.
  - intros t j. unfold mget. rewrite list_lookup_fmap.
    destruct (M !! t) as [row|] eqn:Hrow; simpl; [|done].
    rewrite lookup_zip_with. unfold entry.
    destruct (row !! j) as [a|] eqn:Ha; simpl; [|done].
    destruct (v !! j) as [b|] eqn:Hb; simpl; [done|].
    apply lookup_ge_None in Hb. apply lookup_lt_Some in Ha.
    rewrite (shape_lookup _ _ _ _ _ Hs Hrow) in Ha. lia.
Qed.

Lemma cumulative_comb_matrix_spec (T : nat) (e : Element) (d : inout)
    (l : list string) (fl : list Z) :
  (0 < T)%nat → combs e = Some l →
  assoc "flow" (df_columns (e_vars e)) = Some fl →
  length fl = (T * length l)%nat →
  ∃ M, cumulative_comb_matrix T e d (Some "flow") = Ret M ∧
       length M = T ∧
       ∀ t, (t < T)%nat →
            M !! t = Some (Z.mul (flow_direction d) <$> cum_row T e t).
Proof.
  intros HT Hcombs Hflow Hlen. unfold cumulative_comb_matrix, len_combs, range.
  rewrite Hcombs. ret. set (c := length l) in *.
  replace (T + 1 - 1)%nat with T by lia. rewrite Nat.sub_0_r.
  rewrite !np_hstack_fmap_seq by done. ret.
  rewrite (bind_seq_succ (λ i, seq 0 (c * i)) 0 T).
  destruct (fancy_assign_spec (np_zeros T (T * c)) T (T * c)
              (i ← seq 1 T; replicate (c * i) (i - 1)%nat)
              (i ← seq 1 T; seq 0 (c * i)) (flow_direction d))
    as (M1 & HM1 & Hs1 & Hget1).
  - apply shape_zeros.
  - apply (length_blocks _ (λ i, i - 1)%nat (λ _, 0%nat) (λ i, c * i)%nat).
  - apply Forall_forall. intros r (i & Hr & Hi%elem_of_seq)%list_elem_of_bind.
    apply elem_of_replicate in Hr as [-> _]. lia.
  - apply Forall_forall. intros j (i & Hj%elem_of_seq & Hi%elem_of_seq)%list_elem_of_bind.
    nia.
  - rewrite HM1. ret. unfold df_get. rewrite Hflow. ret.
    destruct (mul_rows_spec M1 T (T * c) fl Hs1 Hlen) as (M & HM & Hs & Hget).
    exists M. split; [done|]. split; [apply Hs|]. intros t Ht.
    unfold cum_row, flow_of. rewrite Hcombs, Hflow. simpl. fold c.
    rewrite <- list_fmap_compose.
    apply (matrix_row_ext M T (T * c) t _ Hs Ht). intros j Hj.
    rewrite Hget, Hget1, mget_zeros by done. simpl.
    pose proof (elem_of_zip_blocks (seq 1 T) (λ i, i - 1)%nat (λ _, 0%nat)
                  (λ i, c * i)%nat t j) as Hzip. simpl in Hzip.
    destruct (decide (j < c * (t + 1))%nat) as [Hin|Hout].
    + rewrite decide_True; [done|]. apply Hzip. exists (S t).
      split; [apply elem_of_seq; lia|]. split; [lia|]. nia.
    + rewrite decide_False; [simpl; f_equal; lia|].
      intros (i & Hi%elem_of_seq & -> & Hj')%Hzip.
      apply Hout. replace (i - 1 + 1)%nat with i by lia. lia.
Qed.

Lemma cumulative_not_comb_matrix_spec (T : nat) (e : Element) (d : inout) :
  combs e = None →
  ∃ M, cumulative_not_comb_matrix T d = Ret M ∧ length M = T ∧
       ∀ t, (t < T)%nat →
            M !! t = Some (Z.mul (flow_direction d) <$> cum_row T e t).
Proof.
  intros Hcombs. unfold cumulative_not_comb_matrix, np_tril_indices.
  destruct (fancy_assign_spec (np_zeros T T) T T
              (i ← seq 0 T; replicate (S i) i) (i ← seq 0 T; seq 0 (S i))
              (flow_direction d))
    as (M & HM & Hs & Hget).
  - apply shape_zeros.
  - apply (length_blocks _ id (λ _, 0%nat) S).
  - apply Forall_forall. intros r (i & Hr & Hi%elem_of_seq)%list_elem_of_bind.
    apply elem_of_replicate in Hr as [-> _]. lia.
  - apply Forall_forall. intros j (i & Hj%elem_of_seq & Hi%elem_of_seq)%list_elem_of_bind.
    lia.
  - exists M. split; [done|]. split; [apply Hs|]. intros t Ht.
    unfold cum_row. rewrite Hcombs. rewrite <- list_fmap_compose.
    apply (matrix_row_ext M T T t _ Hs Ht). intros j Hj.
    rewrite Hget, mget_zeros by done. simpl.
    pose proof (elem_of_zip_blocks (seq 0 T) id (λ _, 0%nat) S t j) as Hzip.
    simpl in Hzip. unfold id in Hzip.
    destruct (decide (j ≤ t)%nat) as [Hin|Hout].
    + rewrite decide_True; [f_equal; lia|]. apply Hzip. exists t.
      split; [apply elem_of_seq; lia|]. split; [done | lia].
    + rewrite decide_False; [f_equal; lia|].
      intros (i & _ & -> & Hj')%Hzip. lia.
Qed.

(** *** The rows of one tank *)

Lemma length_cum_row (T : nat) (e : Element) (t : nat) :
  length (cum_row T e t) = block_size T e.
Proof.
  unfold cum_row, block_size, state_count.
  destruct (combs e); rewrite length_fmap, length_seq; lia.
Qed.

Lemma length_balance_row (T : nat) (tank : Tank) (elems : list Element) (t : nat) :
  length (balance_row T tank elems t) = length (layout T elems).
Proof.
  unfold balance_row. induction elems as [|e elems IH]; [done|].
  rewrite bind_cons, layout_cons, !length_app, IH, length_fmap,
    length_cum_row, length_replicate. done.
Qed.

Lemma balance_row_snoc (T : nat) (tank : Tank) (pre : list Element) e (t : nat) :
  balance_row T tank (pre ++ [e]) t
  = balance_row T tank pre t ++ (Z.mul (tank_sign tank (e_name e)) <$> cum_row T e t).
Proof. unfold balance_row. rewrite bind_app. simpl. by rewrite app_nil_r. Qed.

Lemma fmap_mul_zero (l : list Z) : Z.mul 0 <$> l = replicate (length l) 0.
Proof.
  induction l as [|a l IH]; [done|].
  rewrite fmap_cons, IH. done.
Qed.

(** The rows of the block assignment. *)
Lemma assign_block_spec (n : nat) (lhs : matrix) (r0 T a b : nat) (mat : matrix) :
  (a ≤ b ≤ n)%nat → (r0 + T ≤ length lhs)%nat → length mat = T →
  Forall (λ row, length row = (b - a)%nat) mat →
  ∃ lhs', assign_block n lhs r0 T (Int (Z.of_nat a)) (Int (Z.of_nat b)) mat
          = Ret lhs' ∧
          length lhs' = length lhs ∧
          (∀ r, ¬ (r0 ≤ r < r0 + T)%nat → lhs' !! r = lhs !! r) ∧
          ∀ t row blk, (t < T)%nat → lhs !! (r0 + t)%nat = Some row →
                       mat !! t = Some blk →
                       lhs' !! (r0 + t)%nat = Some (splice row a blk).
Proof.
  intros Hab Hlen Hmat Hrows. unfold assign_block.
  rewrite slice_bounds_in_range by lia. ret.
  rewrite (mapM_Ret _ id).
  2:{ intros row Hrow. rewrite Forall_forall in Hrows.
      by rewrite bool_decide_true by (by apply Hrows). }
  rewrite list_fmap_id. ret. eexists. split; [reflexivity|].
  assert (Hmid : length (zip_with (λ row b0, splice row a b0)
                           (take T (drop r0 lhs)) mat) = T).
  { rewrite length_zip_with, length_take, length_drop. lia. }
  split; [|split].
  - rewrite !length_app, Hmid, length_take, length_drop. lia.
  - intros r Hr. destruct (decide (r < r0)%nat).
    + rewrite lookup_app_l by (rewrite length_take; lia).
      apply lookup_take_lt. lia.
    + rewrite lookup_app_r by (rewrite length_take; lia).
      rewrite length_take, lookup_app_r by lia.
      rewrite Hmid, lookup_drop. f_equal. lia.
  - intros t row blk Ht Hrow Hblk.
    rewrite lookup_app_r by (rewrite length_take; lia).
    rewrite length_take.
    replace (r0 + t - r0 `min` length lhs)%nat with t by lia.
    rewrite lookup_app_l by lia.
    apply lookup_zip_with_Some. exists row, blk. split; [done|].
    split; [|done]. rewrite lookup_take_lt by lia. by rewrite lookup_drop.
Qed.

(** The cumulative matrix of an element of the table. *)
Lemma get_cumulative_flow_matrix_spec (self : Aro) (elems : list Element)
    (tanks : list (string * Tank)) (m : Model) (e : Element) (d : inout) :
  balance_ready self elems tanks m → e ∈ elems →
  (0 < block_size (num_steps (sim self)) e)%nat →
  ∃ M, get_cumulative_flow_matrix (sim self) (e_name e) d = Ret M ∧
       length M = num_steps (sim self) ∧
       ∀ t, (t < num_steps (sim self))%nat →
            M !! t = Some (Z.mul (flow_direction d)
                             <$> cum_row (num_steps (sim self)) e t).
Proof.
  intros [[Hnames Hnd Hobj] Hsize HT Hflow Htanks] He Hpos.
  destruct (Hflow e He Hpos) as [Hfe Hcol].
  unfold get_cumulative_flow_matrix, flow_element.
  rewrite bool_decide_true by done.
  rewrite (getitem_Some _ _ e) by (by apply Hobj). ret.
  destruct (combs e) as [l|] eqn:Hcombs.
  - destruct (Hcol l eq_refl) as (fl & Hfl & Hlen).
    by eapply cumulative_comb_matrix_spec.
  - by apply cumulative_not_comb_matrix_spec.
Qed.

Lemma balance_elements (self : Aro) (elems : list Element)
    (tanks : list (string * Tank)) (m : Model) (k ntanks : nat) (tank : Tank) :
  let T := num_steps (sim self) in
  let N := x_size m in
  balance_ready self elems tanks m →
  ∀ rest pre lhs1,
    elems = pre ++ rest →
    length lhs1 = (ntanks * T)%nat → (k < ntanks)%nat →
    (∀ t, (t < T)%nat →
       lhs1 !! (k * T + t)%nat
       = Some (balance_row T tank pre t
               ++ replicate (N - length (layout T pre)) 0)) →
    ∃ lhs',
      for_each (balance_element (sim self) N k tank)
        (e_name <$> filter (λ e, (0 < block_size T e)%nat) rest) lhs1
      = Ret lhs' ∧
      length lhs' = (ntanks * T)%nat ∧
      (∀ r, ¬ (k * T ≤ r < k * T + T)%nat → lhs' !! r = lhs1 !! r) ∧
      ∀ t, (t < T)%nat →
        lhs' !! (k * T + t)%nat
        = Some (balance_row T tank elems t
                ++ replicate (N - length (layout T elems)) 0).
Proof.
  intros T N Hready. pose proof Hready as [[Hnames Hnd Hobj] Hsize HT Hflow _].
  fold T N in Hnames, Hsize, HT, Hflow.
  induction rest as [|e rest IH]; intros pre lhs1 Helems Hlen Hk Hrows.
  - exists lhs1. rewrite app_nil_r in Helems. subst pre.
    split; [done|]. split; [done|]. split; [done|]. exact Hrows.
  - assert (Helems' : elems = (pre ++ [e]) ++ rest)
      by (by rewrite <- app_assoc).
    assert (He : e ∈ elems).
    { rewrite Helems. apply elem_of_app. right. left. }
    set (off := length (layout T pre)) in *.
    set (bs := block_size T e).
    assert (Hfit : (off + bs ≤ N)%nat).
    { rewrite Hsize, Hnames, Helems'.
      pose proof (length_layout_le T (pre ++ [e]) rest) as Hle.
      by rewrite length_layout_app in Hle. }
    (* the rows of the tank once the block of [e] carries [sign] *)
    assert (Hnext : ∀ lhs2 sign,
      sign = tank_sign tank (e_name e) →
      length lhs2 = (ntanks * T)%nat →
      (∀ r, ¬ (k * T ≤ r < k * T + T)%nat → lhs2 !! r = lhs1 !! r) →
      (∀ t, (t < T)%nat →
         lhs2 !! (k * T + t)%nat
         = Some ((balance_row T tank pre t ++ (Z.mul sign <$> cum_row T e t))
                 ++ replicate (N - off - bs) 0)) →
      ∃ lhs',
        for_each (balance_element (sim self) N k tank)
          (e_name <$> filter (λ e, (0 < block_size T e)%nat) rest) lhs2
        = Ret lhs' ∧
        length lhs' = (ntanks * T)%nat ∧
        (∀ r, ¬ (k * T ≤ r < k * T + T)%nat → lhs' !! r = lhs1 !! r) ∧
        ∀ t, (t < T)%nat →
          lhs' !! (k * T + t)%nat
          = Some (balance_row T tank elems t
                  ++ replicate (N - length (layout T elems)) 0)).
    { intros lhs2 sign -> Hlen2 Hout2 Hrows2.
      destruct (IH (pre ++ [e]) lhs2 Helems' Hlen2 Hk)
        as (lhs' & Hloop & Hlen' & Hout' & Hrows').
      { intros t Ht. rewrite Hrows2 by done. rewrite balance_row_snoc.
        rewrite length_layout_app. fold off bs. do 3 f_equal. lia. }
      exists lhs'. split; [done|]. split; [done|]. split; [|done].
      intros r Hr. by rewrite Hout', Hout2. }
    rewrite filter_cons.
    destruct (decide (0 < block_size T e)%nat) as [Hpos|Hzero].
    + rewrite fmap_cons. cbn [for_each].
      destruct (Hflow e He Hpos) as [Hfe _].
      assert (Hstep : ∃ lhs2,
        balance_element (sim self) N k tank lhs1 (e_name e) = Ret lhs2 ∧
        length lhs2 = (ntanks * T)%nat ∧
        (∀ r, ¬ (k * T ≤ r < k * T + T)%nat → lhs2 !! r = lhs1 !! r) ∧
        ∀ t, (t < T)%nat →
          lhs2 !! (k * T + t)%nat
          = Some ((balance_row T tank pre t
                   ++ (Z.mul (tank_sign tank (e_name e)) <$> cum_row T e t))
                  ++ replicate (N - off - bs) 0)).
      { unfold balance_element, flow_element.
        rewrite (bool_decide_true (e_name e ∈ flow_elements _)) by done.
        rewrite (getitem_Some _ _ e) by (by apply Hobj). ret.
        rewrite Hnames, Helems.
        rewrite get_x_idx_layout by (by try rewrite <- Helems). ret.
        try rewrite <- Helems. fold T off bs.
        assert (Hassign : ∀ d,
          flow_direction d = tank_sign tank (e_name e) →
          ∃ lhs2,
            (mat ← get_cumulative_flow_matrix (sim self) (e_name e) d;
             assign_block N lhs1 (k * T) T (Int (Z.of_nat off))
               (Int (Z.of_nat (off + bs))) mat) = Ret lhs2 ∧
            length lhs2 = (ntanks * T)%nat ∧
            (∀ r, ¬ (k * T ≤ r < k * T + T)%nat → lhs2 !! r = lhs1 !! r) ∧
            ∀ t, (t < T)%nat →
              lhs2 !! (k * T + t)%nat
              = Some ((balance_row T tank pre t
                       ++ (Z.mul (tank_sign tank (e_name e)) <$> cum_row T e t))
                      ++ replicate (N - off - bs) 0)).
        { intros d Hd.
          destruct (get_cumulative_flow_matrix_spec self elems tanks m e d
                      Hready He Hpos) as (M & HM & HMlen & HMrows).
          fold T in HMlen, HMrows. rewrite HM. ret.
          destruct (assign_block_spec N lhs1 (k * T) T off (off + bs) M)
            as (lhs2 & Hlhs2 & Hlen2 & Hout2 & Hin2); [lia|nia|done| |].
          { apply Forall_forall. intros row Hrow.
            apply list_elem_of_lookup in Hrow as [t Ht].
            assert (t < T)%nat by (rewrite <- HMlen; by eapply lookup_lt_Some).
            rewrite HMrows in Ht by done. injection Ht as <-.
            rewrite length_fmap, length_cum_row. fold bs. lia. }
          exists lhs2. split; [done|]. split; [congruence|]. split; [done|].
          intros t Ht.
          rewrite (Hin2 t _ _ Ht (Hrows t Ht) (HMrows t Ht)).
          f_equal. rewrite Hd.
          pose proof (splice_zeros (balance_row T tank pre t)
                        (Z.mul (tank_sign tank (e_name e)) <$> cum_row T e t)
                        (N - off)) as Hsp.
          rewrite length_balance_row, length_fmap, length_cum_row in Hsp.
          exact Hsp. }
        destruct (decide (e_name e ∈ inflows tank)) as [Hin|Hnin].
        * rewrite bool_decide_true by done. apply Hassign.
          unfold tank_sign. by rewrite bool_decide_true.
        * rewrite bool_decide_false by done.
          destruct (decide (e_name e ∈ pumps_outflows tank ++ vsp_outflows tank
                              ++ v_outflows tank ++ cv_outflows tank))
            as [Hout|Hnout].
          -- rewrite bool_decide_true by done. apply Hassign.
             unfold tank_sign.
             rewrite bool_decide_false by done. by rewrite bool_decide_true.
          -- rewrite bool_decide_false by done. ret.
             exists lhs1. split; [done|]. split; [done|]. split; [done|].
             intros t Ht. rewrite Hrows by done. f_equal.
             unfold tank_sign. rewrite !bool_decide_false by done.
             rewrite fmap_mul_zero, length_cum_row. fold bs.
             rewrite <- app_assoc, <- replicate_add. do 2 f_equal. lia. }
      destruct Hstep as (lhs2 & Hl2 & Hlen2 & Hout2 & Hrows2).
      rewrite Hl2. ret. by eapply Hnext.
    + apply (Hnext lhs1 (tank_sign tank (e_name e))); try done.
      intros t Ht. rewrite Hrows by done. f_equal.
      assert (Hnil : cum_row T e t = []).
      { apply nil_length_inv. rewrite length_cum_row. lia. }
      rewrite Hnil. simpl. rewrite app_nil_r. do 2 f_equal. unfold bs. lia.
Qed.

(** *** The columns of the tanks *)

Lemma lookup_entry (l : list Z) (i : nat) :
  (i < length l)%nat → l !! i = Some (entry l i).
Proof.
  intros Hi. unfold entry.
  by destruct (lookup_lt_is_Some_2 l i Hi) as [a ->].
Qed.

Lemma length_cumsum_from (acc : Z) (l : list Z) :
  length (cumsum_from acc l) = length l.
Proof. revert acc. induction l as [|a l IH]; intros acc; simpl; [done|]. by rewrite IH. Qed.

Lemma length_cumsum (l : list Z) : length (cumsum l) = length l.
Proof. apply length_cumsum_from. Qed.

Lemma assign_rows_exact (v : list Z) (r0 T : nat) (blk : list Z) :
  length blk = T → assign_rows v r0 T blk = Ret (splice v r0 blk).
Proof. intros H. unfold assign_rows. by rewrite bool_decide_true. Qed.

Lemma filled_zero (T n : nat) tanks val : filled T n 0 tanks val (replicate (n * T) 0).
Proof.
  exists []. split; [by rewrite Nat.sub_0_r|]. split; [done|].
  intros k' p t _ Hk'. lia.
Qed.

Lemma filled_step (T n k : nat) tanks val (v blk : list Z) p :
  filled T n k tanks val v → (k < n)%nat → tanks !! k = Some p →
  length blk = T → (∀ t, (t < T)%nat → blk !! t = Some (val p.2 t)) →
  filled T n (S k) tanks val (splice v (k * T) blk).
Proof.
  intros (P & -> & HP & Hval) Hk Hp Hblk Hnew. exists (P ++ blk).
  split; [|split].
  - rewrite <- HP, splice_zeros, Hblk. do 2 f_equal. nia.
  - rewrite length_app, HP, Hblk. lia.
  - intros k' p' t Hp' Hk' Ht. destruct (decide (k' = k)) as [->|Hne].
    + rewrite Hp in Hp'. injection Hp' as <-.
      rewrite lookup_app_r by lia. rewrite HP.
      replace (k * T + t - k * T)%nat with t by lia. by apply Hnew.
    + rewrite lookup_app_l by nia. apply Hval; [done|lia|done].
Qed.

Lemma filled_all (T n : nat) tanks val (v : list Z) :
  filled T n n tanks val v → length tanks = n →
  length v = (n * T)%nat ∧
  ∀ k p t, tanks !! k = Some p → (t < T)%nat →
           v !! (k * T + t)%nat = Some (val p.2 t).
Proof.
  intros (P & -> & HP & Hval) Hlen. rewrite Nat.sub_diag. simpl.
  rewrite app_nil_r. split; [done|]. intros k p t Hp Ht.
  apply Hval; [done| |done]. rewrite <- Hlen. by eapply lookup_lt_Some.
Qed.

Lemma length_filled (T n k : nat) tanks val (v : list Z) :
  filled T n k tanks val v → (k ≤ n)%nat → length v = (n * T)%nat.
Proof.
  intros (P & -> & HP & _) Hk. rewrite length_app, length_replicate, HP. nia.
Qed.

Lemma prefix_imap_pair {A} (done : list (nat * A)) (a : nat * A) (l : list A) :
  done ++ [a] `prefix_of` imap pair l →
  a.1 = length done ∧ l !! length done = Some a.2.
Proof.
  intros [rest Hrest].
  assert (Hlook : imap pair l !! length done = Some a).
  { rewrite Hrest, <- app_assoc. rewrite lookup_app_r by lia.
    by rewrite Nat.sub_diag. }
  rewrite list_lookup_imap in Hlook.
  destruct (l !! length done) as [x|]; [|done].
  simpl in Hlook. injection Hlook as <-. done.
Qed.

(** *** The loop over the tanks *)

Lemma balance_tank_spec (self : Aro) (elems : list Element)
    (tanks : list (string * Tank)) (m : Model) (k : nat) (p : string * Tank)
    (b : balance) :
  let T := num_steps (sim self) in
  let N := x_size m in
  let n := length tanks in
  balance_ready self elems tanks m →
  tanks !! k = Some p →
  balance_filled T N n k elems tanks b →
  ∃ b', balance_tank (sim self) N b (k, p) = Ret b' ∧
        balance_filled T N n (S k) elems tanks b'.
Proof.
  intros T N n Hready Hp (Hdem & Hmin & Hmax & Hinit & Hlen & Hdone & Hzero).
  pose proof Hready as [[Hnames Hnd Hobj] Hsize HT Hflow Htanks].
  fold T in Hnames, HT, Hflow, Htanks.
  assert (Hk : (k < n)%nat) by (by eapply lookup_lt_Some).
  destruct (Htanks p) as ((d & Hd & Hdlen) & Hminlen & Hmaxlen);
    [by eapply list_elem_of_lookup_2|].
  unfold balance_tank. cbn [fst snd]. fold T.
  unfold df_get. rewrite Hd. ret.
  rewrite (assign_rows_exact _ _ _ (cumsum d)) by (by rewrite length_cumsum).
  ret.
  rewrite (assign_rows_exact _ _ _ (drop 1 (min_vol p.2) ++ [final_vol p.2])).
  2:{ rewrite length_app, length_drop, Hminlen. simpl. lia. }
  ret.
  assert (Hb : ∃ v, assign_bound (b_rhs_max b) (k * T) T (max_vol p.2) = Ret v ∧
                    filled T n (S k) tanks max_at v).
  { unfold assign_bound, max_at in *.
    destruct (max_vol p.2) as [c|l] eqn:Hmv.
    - eexists. split; [reflexivity|].
      apply (filled_step T n k tanks _ _ _ p Hmax Hk Hp).
      + apply length_replicate.
      + intros t Ht. rewrite Hmv. by apply lookup_replicate_2.
    - rewrite assign_rows_exact by (by apply Hmaxlen).
      eexists. split; [reflexivity|].
      apply (filled_step T n k tanks _ _ _ p Hmax Hk Hp).
      + by apply Hmaxlen.
      + intros t Ht. rewrite Hmv. apply lookup_entry.
        by rewrite (Hmaxlen l eq_refl). }
  destruct Hb as (vmax & Hvmax & Hfmax). rewrite Hvmax. ret.
  assert (Hu : unique (vars_name (sim self))
               = e_name <$> filter (λ e, (0 < block_size T e)%nat) elems)
    by (rewrite Hnames; by apply unique_layout).
  rewrite Hu.
  destruct (balance_elements self elems tanks m k n p.2 Hready elems []
              (b_lhs b) eq_refl Hlen Hk) as (lhs' & Hloop & Hlen' & Hout & Hrows).
  { intros t Ht. fold T N. rewrite Hzero by nia. simpl.
    by rewrite Nat.sub_0_r. }
  fold T N in Hloop, Hlen', Hout, Hrows. rewrite Hloop. ret.
  eexists. split; [reflexivity|]. unfold balance_filled. simpl.
  split; [|split; [|split; [done|split; [|split; [done|split]]]]].
  - apply (filled_step T n k tanks _ _ _ p Hdem Hk Hp).
    + by rewrite length_cumsum.
    + intros t Ht. unfold cum_demand, demand_of. rewrite Hd. simpl.
      apply lookup_entry. by rewrite length_cumsum, Hdlen.
  - apply (filled_step T n k tanks _ _ _ p Hmin Hk Hp).
    + rewrite length_app, length_drop, Hminlen. simpl. lia.
    + intros t Ht. unfold min_at. destruct (decide (S t = T)) as [HS|HS].
      * rewrite lookup_app_r by (rewrite length_drop; lia).
        rewrite length_drop, Hminlen.
        by replace (t - (T - 1))%nat with 0%nat by lia.
      * rewrite lookup_app_l by (rewrite length_drop; lia).
        rewrite lookup_drop. apply lookup_entry. lia.
  - apply (filled_step T n k tanks _ _ _ p Hinit Hk Hp).
    + apply length_replicate.
    + intros t Ht. by apply lookup_replicate_2.
  - intros k' p' t Hp' Hk' Ht. destruct (decide (k' = k)) as [->|Hne].
    + rewrite Hp in Hp'. injection Hp' as <-.
      rewrite Hrows by done. f_equal.
      unfold N. rewrite Hsize, Hnames, Nat.sub_diag. simpl. apply app_nil_r.
    + rewrite Hout by nia. apply Hdone; [done|lia|done].
  - intros r Hr. rewrite Hout by nia. apply Hzero. nia.
Qed.

Lemma balance_loop (self : Aro) (elems : list Element)
    (tanks : list (string * Tank)) (m : Model) :
  let T := num_steps (sim self) in
  let N := x_size m in
  let n := length tanks in
  balance_ready self elems tanks m →
  ∃ b, for_each (balance_tank (sim self) N) (imap pair tanks)
         {| b_lhs := np_zeros (n * T) N; b_lhs_init := replicate (n * T) 0;
            b_rhs_min := replicate (n * T) 0; b_rhs_max := replicate (n * T) 0;
            b_dem := replicate (n * T) 0 |} = Ret b ∧
       balance_filled T N n n elems tanks b.
Proof.
  intros T N n Hready.
  destruct (for_each_invariant
    (λ (done : list (nat * (string * Tank))) (b : balance),
       balance_filled T N n (length done) elems tanks b)
    (balance_tank (sim self) N) (imap pair tanks)
    {| b_lhs := np_zeros (n * T) N; b_lhs_init := replicate (n * T) 0;
       b_rhs_min := replicate (n * T) 0; b_rhs_max := replicate (n * T) 0;
       b_dem := replicate (n * T) 0 |}) as (b & Hb & Hfilled).
  - unfold balance_filled. simpl.
    repeat (split; [apply filled_zero|]).
    split; [apply length_replicate|]. split; [intros; lia|].
    intros r Hr. apply lookup_replicate_2. lia.
  - intros done a b Hpre Hfilled.
    apply prefix_imap_pair in Hpre as [Hk Hp]. destruct a as [k p].
    simpl in Hk, Hp. subst k.
    rewrite length_app. simpl. rewrite Nat.add_1_r.
    by apply balance_tank_spec.
  - exists b. split; [done|]. by rewrite length_imap in Hfilled.
Qed.

(** *** The value of a row *)

Lemma sumZ_scale {A} (k : Z) (f : A → Z) (l : list A) :
  sumZ ((λ a, k * f a) <$> l) = k * sumZ (f <$> l).
Proof.
  induction l as [|a l IH]; [unfold sumZ; simpl; lia|].
  rewrite !fmap_cons, !sumZ_cons, IH. lia.
Qed.

Lemma entry_fmap_seq (f : nat → Z) (n j : nat) :
  (j < n)%nat → entry (f <$> seq 0 n) j = f j.
Proof.
  intros Hj. unfold entry. by rewrite list_lookup_fmap, lookup_seq_lt.
Qed.

(** The product of the cumulative row of an element with its decisions is
    its cumulative flow. *)
Lemma cum_row_flow (T : nat) (e : Element) (xv : list Z) (off t : nat) :
  (t < T)%nat →
  sumZ ((λ j, entry (cum_row T e t) j * entry xv (off + j))
          <$> seq 0 (block_size T e))
  = cum_flow e xv off t.
Proof.
  intros Ht. unfold cum_row, cum_flow, block_size, state_count.
  destruct (combs e) as [l|].
  - rewrite (sumZ_indicator_block _
               (λ j, entry (flow_of e) j * entry xv (off + j))
               0 (length l * (t + 1)) (T * length l)); [done|nia|].
    intros j Hj. rewrite entry_fmap_seq by done.
    destruct (decide (j < length l * (t + 1))%nat).
    + by rewrite decide_True by lia.
    + rewrite decide_False by lia. lia.
  - rewrite Nat.mul_1_r.
    rewrite (sumZ_indicator_block _ (λ j, entry xv (off + j)) 0 (t + 1) T);
      [done|lia|].
    intros j Hj. rewrite entry_fmap_seq by done.
    destruct (decide (j ≤ t)%nat).
    + rewrite decide_True by lia. lia.
    + rewrite decide_False by lia. lia.
Qed.

(** The product of a row of the left-hand side with the decisions is the
    cumulative net inflow of the tank. *)
Lemma balance_row_inflow (T : nat) (tank : Tank) (elems : list Element)
    (xv : list Z) (off t : nat) :
  (t < T)%nat →
  sumZ ((λ j, entry (balance_row T tank elems t) j * entry xv (off + j))
          <$> seq 0 (length (balance_row T tank elems t)))
  = net_inflow T tank elems off xv t.
Proof.
  intros Ht. revert off. induction elems as [|e elems IH]; intros off; [done|].
  change (balance_row T tank (e :: elems) t)
    with ((Z.mul (tank_sign tank (e_name e)) <$> cum_row T e t)
          ++ balance_row T tank elems t).
  rewrite (sumZ_row_app _ _ (λ j, entry xv (off + j))).
  rewrite length_fmap, length_cum_row. cbn [net_inflow]. f_equal.
  - rewrite <- cum_row_flow with (T := T) by done.
    rewrite <- sumZ_scale. apply sumZ_ext. intros j Hj%elem_of_seq.
    unfold entry at 1. rewrite list_lookup_fmap.
    rewrite (lookup_entry (cum_row T e t)) by (rewrite length_cum_row; lia).
    simpl. lia.
  - rewrite <- IH. apply sumZ_ext. intros j _. do 2 f_equal. lia.
Qed.

(** *** The right-hand sides *)

Lemma broadcast_exact {A B C} (f : A → B → C) (a : list A) (b : list B) :
  length a = length b → broadcast f a b = Ret (zip_with f a b).
Proof. intros H. unfold broadcast. by rewrite bool_decide_true. Qed.

Lemma balance_rhs_spec (self : Aro) (m : Model) (b : balance) (rhs : list Z)
    (affine_map : option (list (list Z))) (L : nat) :
  length rhs = L → length (b_dem b) = L → length (b_lhs_init b) = L →
  (is_Some affine_map → (z_rows m * z_cols m)%nat = L) →
  ∃ l, balance_rhs self m b rhs affine_map = Ret l ∧ length l = L ∧
       ∀ i a den xv zv, l !! i = Some a →
         eval_at den xv zv a
         = den * entry rhs i
           + demand_offset affine_map (lou self) den zv i (entry (b_dem b) i)
           - den * entry (b_lhs_init b) i.
Proof.
  intros Hrhs Hdem Hinit Hz. unfold balance_rhs, demand_offset.
  destruct affine_map as [delta|].
  - specialize (Hz ltac:(by eexists)). unfold z_flat.
    rewrite broadcast_exact
      by (by rewrite !length_fmap, length_seq, Hz, Hdem).
    ret. rewrite broadcast_exact.
    2:{ rewrite length_zip_with, !length_fmap, length_seq. lia. }
    ret. rewrite broadcast_exact.
    2:{ rewrite !length_zip_with, !length_fmap, length_seq. lia. }
    eexists. split; [reflexivity|]. split.
    { rewrite !length_zip_with, !length_fmap, length_seq. lia. }
    intros i a den xv zv Ha.
    apply lookup_zip_with_Some in Ha as (tot & ini & -> & Htot & Hini).
    apply lookup_zip_with_Some in Htot as (r & dm & -> & Hr & Hdm).
    apply lookup_zip_with_Some in Hdm as (fa & d & -> & Hfa & Hd).
    rewrite !list_lookup_fmap in Hfa.
    destruct (seq 0 (z_rows m * z_cols m) !! i) as [j|] eqn:Hj; [|done].
    apply lookup_seq in Hj as [-> _]. simpl in Hfa. injection Hfa as <-.
    rewrite eval_at_sub, eval_at_add, eval_at_scale, eval_at_add,
      eval_at_scale, !eval_at_const, eval_at_z.
    unfold entry. rewrite Hr, Hd, Hini. simpl. lia.
  - eexists. split; [reflexivity|]. split.
    { rewrite length_fmap, !length_zip_with. lia. }
    intros i a den xv zv Ha. rewrite list_lookup_fmap in Ha.
    destruct (zip_with Z.sub _ _ !! i) as [v|] eqn:Hv; [|done].
    simpl in Ha. injection Ha as <-. rewrite eval_at_const.
    apply lookup_zip_with_Some in Hv as (s & ini & -> & Hs & Hini).
    apply lookup_zip_with_Some in Hs as (r & d & -> & Hr & Hd).
    unfold entry. rewrite Hr, Hd, Hini. simpl. lia.
Qed.

(** *** The two constraints *)

(** A row of [n] tanks times [T] steps is the row of a tank and a step. *)
Lemma row_of_tank {A} (tanks : list A) (T i : nat) :
  (i < length tanks * T)%nat →
  ∃ k p t, tanks !! k = Some p ∧ (t < T)%nat ∧ i = (k * T + t)%nat.
Proof.
  intros Hi. assert (HT : (0 < T)%nat) by nia.
  pose proof (Nat.div_mod_eq i T) as Hdm.
  pose proof (Nat.mod_upper_bound i T ltac:(lia)) as Hmod.
  assert (Hk : (i / T < length tanks)%nat) by (apply Nat.Div0.div_lt_upper_bound; nia).
  destruct (lookup_lt_is_Some_2 tanks (i / T) Hk) as [p Hp].
  exists (i / T)%nat, p, (i mod T)%nat. split; [done|]. split; [done|]. lia.
Qed.

Lemma compare_vec (op : cmp) (a b : list affine) :
  length a = length b →
  compare op (Vec a) (Vec b)
  = Ret {| c_lhs := Vec a; c_op := op; c_rhs := Vec b; c_forall := false |}.
Proof.
  intros H. unfold compare. rewrite bool_decide_true; [done|by left].
Qed.

Lemma mass_balance_declares (self : Aro) (elems : list Element)
    (tanks : list (string * Tank)) (affine_map : option (list (list Z)))
    (m : Model) :
  balance_ready self elems tanks m → tanks ≠ [] →
  (affine_map = None → adapted m = true) →
  (is_Some affine_map →
   (z_rows m * z_cols m)%nat = (length tanks * num_steps (sim self))%nat) →
  ∃ cmax cmin,
    mass_balance self tanks affine_map m = Ret (st (st m cmax) cmin) ∧
    balance_spec self elems tanks affine_map cmax cmin.
Proof.
  intros Hready Hne Had Hz. unfold mass_balance.
  rewrite bool_decide_false by (by destruct tanks).
  assert (Hrand : match affine_map with
                  | None => adapted m
                  | Some _ => true
                  end = true) by (destruct affine_map; auto).
  rewrite Hrand. clear Hrand Had.
  set (T := num_steps (sim self)) in *. set (N := x_size m).
  set (n := length tanks) in *.
  destruct (balance_loop self elems tanks m Hready) as (b & Hb & Hfilled).
  fold T N n in Hb, Hfilled. rewrite Hb. ret.
  destruct Hfilled as (Hdem & Hmin & Hmax & Hinit & Hlen & Hrows & _).
  apply filled_all in Hdem as [Hdlen Hdval]; [|done].
  apply filled_all in Hmin as [Hminlen Hminval]; [|done].
  apply filled_all in Hmax as [Hmaxlen Hmaxval]; [|done].
  apply filled_all in Hinit as [Hilen Hival]; [|done].
  pose proof Hready as [[Hnames _ _] Hsize HT _ _].
  fold T in Hnames, HT.
  assert (Hmat : matmul (b_lhs b) (x_all m)
                 = Ret ((λ row, lincomb row (x_all m)) <$> b_lhs b)).
  { unfold matmul. rewrite bool_decide_true; [done|].
    apply Forall_forall. intros row Hrow.
    apply list_elem_of_lookup in Hrow as [i Hi].
    assert (Hi' : (i < n * T)%nat) by (rewrite <- Hlen; by eapply lookup_lt_Some).
    destruct (row_of_tank tanks T i Hi') as (k & p & t & Hp & Ht & ->).
    rewrite (Hrows k p t Hp) in Hi; [|by eapply lookup_lt_Some|done].
    injection Hi as <-. unfold x_all.
    by rewrite length_balance_row, length_fmap, length_seq, Hsize, Hnames. }
  rewrite Hmat. ret.
  destruct (balance_rhs_spec self m b (b_rhs_max b) affine_map (n * T))
    as (rmax & Hrmax & Hrmaxlen & Hrmaxval); try done.
  rewrite Hrmax. ret.
  rewrite compare_vec by (by rewrite length_fmap, Hlen, Hrmaxlen).
  ret. rewrite forall_z_set_random. ret.
  destruct (balance_rhs_spec self
              (st m (qualified
                 {| c_lhs := Vec ((λ row, lincomb row (x_all m)) <$> b_lhs b);
                    c_op := Le; c_rhs := Vec rmax; c_forall := false |}))
              b (b_rhs_min b) affine_map (n * T))
    as (rmin & Hrmin & Hrminlen & Hrminval); try done.
  rewrite Hrmin. ret.
  rewrite compare_vec by (by rewrite length_fmap, Hlen, Hrminlen).
  ret. rewrite forall_z_set_random. ret.
  eexists _, _. split; [reflexivity|].
  (* the value of the row of a tank and a step *)
  assert (Hlhs : ∀ den xv zv k p t,
            tanks !! k = Some p → (t < T)%nat →
            ((λ row, lincomb row (x_all m)) <$> b_lhs b) !! (k * T + t)%nat
            = Some (lincomb (balance_row T p.2 elems t) (x_all m)) ∧
            eval_at den xv zv (lincomb (balance_row T p.2 elems t) (x_all m))
            = net_inflow T p.2 elems 0 xv t).
  { intros den xv zv k p t Hp Ht. split.
    - rewrite list_lookup_fmap, (Hrows k p t Hp); [done| |done].
      by eapply lookup_lt_Some.
    - unfold x_all. rewrite eval_at_lincomb_x
        by (by rewrite length_balance_row, length_seq, Hsize, Hnames).
      rewrite <- (balance_row_inflow T p.2 elems xv 0 t Ht).
      apply sumZ_ext. intros j Hj%elem_of_seq.
      rewrite lookup_seq_lt; [done|].
      rewrite length_balance_row, <- Hnames, <- Hsize in Hj. lia. }
  unfold balance_spec. fold T. cbn [c_forall c_op qualified].
  do 4 (split; [done|]).
  split; intros den xv zv _; unfold holds_at;
    cbn [c_lhs c_rhs c_op qualified];
    (rewrite bool_decide_true
       by (rewrite length_fmap, Hlen; congruence)); cbn [cmp_holds].
  - split.
    + intros H k p t Hp Ht.
      destruct (Hlhs den xv zv k p t Hp Ht) as [Hrow Hval].
      assert (Hi : (k * T + t < length rmax)%nat).
      { rewrite Hrmaxlen. apply lookup_lt_Some in Hp. fold n in Hp. nia. }
      destruct (lookup_lt_is_Some_2 rmax _ Hi) as [a Ha].
      specialize (H _ _ _ Hrow Ha).
      rewrite Hval, (Hrmaxval _ _ den xv zv Ha) in H.
      unfold entry in H.
      rewrite (Hmaxval k p t Hp Ht), (Hdval k p t Hp Ht),
        (Hival k p t Hp Ht) in H.
      simpl in H. lia.
    + intros H i a c Ha Hc.
      assert (Hi : (i < n * T)%nat)
        by (rewrite <- Hrmaxlen; by eapply lookup_lt_Some).
      destruct (row_of_tank tanks T i Hi) as (k & p & t & Hp & Ht & ->).
      destruct (Hlhs den xv zv k p t Hp Ht) as [Hrow Hval].
      rewrite Hrow in Ha. injection Ha as <-.
      rewrite Hval, (Hrmaxval _ _ den xv zv Hc).
      unfold entry.
      rewrite (Hmaxval k p t Hp Ht), (Hdval k p t Hp Ht),
        (Hival k p t Hp Ht).
      simpl. specialize (H k p t Hp Ht). lia.
  - split.
    + intros H k p t Hp Ht.
      destruct (Hlhs den xv zv k p t Hp Ht) as [Hrow Hval].
      assert (Hi : (k * T + t < length rmin)%nat).
      { rewrite Hrminlen. apply lookup_lt_Some in Hp. fold n in Hp. nia. }
      destruct (lookup_lt_is_Some_2 rmin _ Hi) as [a Ha].
      specialize (H _ _ _ Hrow Ha).
      rewrite Hval, (Hrminval _ _ den xv zv Ha) in H.
      unfold entry in H.
      rewrite (Hminval k p t Hp Ht), (Hdval k p t Hp Ht),
        (Hival k p t Hp Ht) in H.
      simpl in H. lia.
    + intros H i a c Ha Hc.
      assert (Hi : (i < n * T)%nat)
        by (rewrite <- Hrminlen; by eapply lookup_lt_Some).
      destruct (row_of_tank tanks T i Hi) as (k & p & t & Hp & Ht & ->).
      destruct (Hlhs den xv zv k p t Hp Ht) as [Hrow Hval].
      rewrite Hrow in Ha. injection Ha as <-.
      rewrite Hval, (Hrminval _ _ den xv zv Hc).
      unfold entry.
      rewrite (Hminval k p t Hp Ht), (Hdval k p t Hp Ht),
        (Hival k p t Hp Ht).
      simpl. specialize (H k p t Hp Ht). lia.
Qed.

Lemma balance_ready_sublist (self : Aro) (elems : list Element)
    (tanks tanks' : list (string * Tank)) (m : Model) :
  balance_ready self elems tanks m → (∀ p, p ∈ tanks' → p ∈ tanks) →
  balance_ready self elems tanks' m.
Proof. intros [? ? ? ? Ht] Hsub. split; try done. intros p Hp. auto. Qed.

Lemma balance_ready_model (self : Aro) (elems : list Element)
    (tanks : list (string * Tank)) (m m' : Model) :
  balance_ready self elems tanks m → x_size m' = x_size m →
  balance_ready self elems tanks m'.
Proof. intros [? Hs ? ? ?] Hx. split; try done. by rewrite Hx. Qed.

Lemma mass_balance_declared (self : Aro) (elems : list Element)
    (tanks : list (string * Tank)) (affine_map : option (list (list Z)))
    (m : Model) :
  balance_ready self elems tanks m →
  (affine_map = None → tanks ≠ [] → adapted m = true) →
  (is_Some affine_map → tanks ≠ [] →
   (z_rows m * z_cols m)%nat = (length tanks * num_steps (sim self))%nat) →
  ∃ m', mass_balance self tanks affine_map m = Ret m' ∧
        balance_declared self elems tanks affine_map m m'.
Proof.
  intros Hready Had Hz. destruct tanks as [|p tanks].
  { exists m. by split. }
  destruct (mass_balance_declares self elems (p :: tanks) affine_map m)
    as (cmax & cmin & Hret & Hspec); [done|done|auto|auto|].
  exists (st (st m cmax) cmin). split; [done|]. by exists cmax, cmin.
Qed.

Lemma balance_declared_size (self : Aro) (elems : list Element)
    (tanks : list (string * Tank)) (affine_map : option (list (list Z)))
    (m m' : Model) :
  balance_declared self elems tanks affine_map m m' → x_size m' = x_size m.
Proof.
  destruct tanks; simpl; [by intros ->|]. by intros (? & ? & -> & _).
Qed.

Lemma balance_declared_adapted (self : Aro) (elems : list Element)
    (tanks : list (string * Tank)) (affine_map : option (list (list Z)))
    (m m' : Model) :
  balance_declared self elems tanks affine_map m m' → adapted m' = adapted m.
Proof.
  destruct tanks; simpl; [by intros ->|]. by intros (? & ? & -> & _).
Qed.

Lemma build_mass_balance_declared (self : Aro) (elems : list Element)
    (m : Model) :
  balance_ready self elems (tanks (network (sim self))) m →
  adapted m = true →
  (is_Some (passed_map self) → uncertain_tanks self ≠ [] →
   (z_rows m * z_cols m)%nat
   = (length (uncertain_tanks self) * num_steps (sim self))%nat) →
  ∃ m1 m2,
    build_mass_balance self m = Ret m2 ∧
    balance_declared self elems (uncertain_tanks self) (passed_map self) m m1 ∧
    balance_declared self elems (deterministic_tanks self) None m1 m2.
Proof.
  intros Hready Had Hz.
  assert (Hu : ∃ m1, mass_balance self (uncertain_tanks self) (passed_map self) m
                     = Ret m1 ∧
                     balance_declared self elems (uncertain_tanks self)
                       (passed_map self) m m1).
  { apply mass_balance_declared; [|done|done].
    apply (balance_ready_sublist _ _ _ _ _ Hready). unfold uncertain_tanks.
    destruct (udata self !! "demand"); [|by intros ? ?%elem_of_nil].
    by intros p [_ ?]%list_elem_of_filter. }
  destruct Hu as (m1 & Hm1 & Hd1).
  destruct (mass_balance_declared self elems (deterministic_tanks self) None m1)
    as (m2 & Hm2 & Hd2).
  { apply (balance_ready_model _ _ _ m);
      [|by eapply balance_declared_size].
    apply (balance_ready_sublist _ _ _ _ _ Hready).
    by intros p [_ ?]%list_elem_of_filter. }
  { intros _ _. by rewrite (balance_declared_adapted _ _ _ _ _ _ Hd1). }
  { by intros [? [=]]. }
  unfold build_mass_balance.
  unfold deterministic_tanks, uncertain_tanks, passed_map in *.
  destruct (udata self !! "demand") as [demand|].
  - exists m1, m2. rewrite Hm1. ret. by rewrite Hm2.
  - exists m1, m2. simpl in Hd1. subst m1. by rewrite Hm2.
Qed.

(** *** The small network *)

Lemma example_laid_out : laid_out Example.sim0 [Example.p1; Example.v1].
Proof.
  split.
  - reflexivity.
  - apply (bool_decide_unpack _). by vm_compute.
  - intros e He. repeat (apply elem_of_cons in He as [->|He]; [reflexivity|]).
    by apply elem_of_nil in He.
Qed.

Lemma example_balance_ready (self : Aro) (m : Model) :
  sim self = Example.sim0 → x_size m = 9%nat →
  balance_ready self [Example.p1; Example.v1] [("t1", Example.t1)] m.
Proof.
  intros Hsim Hm. split; rewrite ?Hsim.
  - apply example_laid_out.
  - exact Hm.
  - simpl. lia.
  - intros e He _.
    apply elem_of_cons in He as [->|He];
      [|apply elem_of_cons in He as [->|He]; [|by apply elem_of_nil in He]].
    + split; [apply (bool_decide_unpack _); by vm_compute|].
      intros l [= <-]. by eexists.
    + split; [apply (bool_decide_unpack _); by vm_compute|]. by intros l [=].
  - intros p ->%list_elem_of_singleton. split; [by eexists|]. by split.
Qed.

Lemma example_is_adapted : depend Example.m1 ≠ ∅.
Proof. apply (bool_decide_unpack _). by vm_compute. Qed.

Lemma example_net_inflow (xv : list Z) (t : nat) :
  net_inflow 3 Example.t1 [Example.p1; Example.v1] 0 xv t
  = cum_flow Example.p1 xv 0 t - cum_flow Example.v1 xv 6 t.
Proof.
  cbn [net_inflow].
  change (tank_sign Example.t1 (e_name Example.p1)) with 1.
  change (tank_sign Example.t1 (e_name Example.v1)) with (-1).
  change (0 + block_size 3 Example.p1)%nat with 6%nat. lia.
Qed.

(** C3 (amended): for a table laid out by element, one decision per row, at
    least one step and well-formed tanks, and a decision rule that is
    adapted when no affine map is passed, [mass_balance] returns for every
    non-empty collection of tanks, having declared two constraints, both
    robustly over the uncertainty set.  At every rational value of the
    decisions and of the realization, the first holds exactly when for
    every tank and every step [t] the initial volume plus the cumulative
    net inflow minus the demand offset is at most [max_vol[t]]; the second
    exactly when that volume is at least a minimum whose value at every
    non-terminal step [t] is [min_vol[t + 1]], the entry of the next step,
    and at the terminal step is [final_vol]. *)
Theorem mass_balance_volume_bounds (self : Aro) (elems : list Element)
    (tanks : list (string * Tank)) (affine_map : option (list (list Z)))
    (m : Model) :
  balance_ready self elems tanks m → tanks ≠ [] →
  (affine_map = None → depend m ≠ ∅) →
  (is_Some affine_map →
   (z_rows m * z_cols m)%nat = (length tanks * num_steps (sim self))%nat) →
  ∃ cmax cmin,
    mass_balance self tanks affine_map m = Ret (st (st m cmax) cmin) ∧
    balance_spec self elems tanks affine_map cmax cmin ∧
    ∀ tank t,
      ((S t < num_steps (sim self))%nat →
       min_at (num_steps (sim self)) tank t = entry (min_vol tank) (S t)) ∧
      (S t = num_steps (sim self) →
       min_at (num_steps (sim self)) tank t = final_vol tank).
Proof.
  intros Hready Hne Had Hz.
  destruct (mass_balance_declares self elems tanks affine_map m Hready Hne)
    as (cmax & cmin & Hret & Hspec); [|done|].
  { intros Hnone. by apply adapted_true, Had. }
  exists cmax, cmin. split; [done|]. split; [done|].
  intros tank t. unfold min_at. split; intros Ht.
  - by rewrite decide_False by lia.
  - by rewrite decide_True.
Qed.

Lemma mass_balance_volume_bounds_witness :
  (∃ cmax cmin,
     mass_balance Example.aro_delta [("t1", Example.t1)] (Some [[0]]) Example.m1
     = Ret (st (st Example.m1 cmax) cmin) ∧
     balance_spec Example.aro_delta [Example.p1; Example.v1]
       [("t1", Example.t1)] (Some [[0]]) cmax cmin) ∧
  (∃ cmax cmin,
     mass_balance Example.aro_no_delta [("t1", Example.t1)] None Example.m1
     = Ret (st (st Example.m1 cmax) cmin) ∧
     balance_spec Example.aro_no_delta [Example.p1; Example.v1]
       [("t1", Example.t1)] None cmax cmin) ∧
  min_at 3 Example.t1 0 = 6 ∧ min_at 3 Example.t1 2 = 1.
Proof.
  split; [|split; [|split; reflexivity]].
  - destruct (mass_balance_volume_bounds Example.aro_delta
                [Example.p1; Example.v1] [("t1", Example.t1)] (Some [[0]])
                Example.m1)
      as (cmax & cmin & Hret & Hspec & _).
    + by apply example_balance_ready.
    + done.
    + intros [=].
    + reflexivity.
    + by exists cmax, cmin.
  - destruct (mass_balance_volume_bounds Example.aro_no_delta
                [Example.p1; Example.v1] [("t1", Example.t1)] None
                Example.m1)
      as (cmax & cmin & Hret & Hspec & _).
    + by apply example_balance_ready.
    + done.
    + intros _. apply (bool_decide_unpack _). by vm_compute.
    + by intros [? [=]].
    + by exists cmax, cmin.
Defined.

(** C3 as stated fails: in the small network, with its adapted rule, the
    tank [t1] has [min_vol = [7; 6; 4]].  The decisions that draw 3 through
    [v1] at step 0 and nothing else satisfy both declared constraints at
    the nominal realization, and yet leave the volume 10 - 3 - 1 = 6 at
    step 0, below [min_vol[0] = 7]: the bound of the non-terminal step 0 is
    not [min_vol[0]]. *)
Lemma mass_balance_min_vol_is_shifted :
  ∃ cmax cmin,
    mass_balance Example.aro_no_delta [("t1", Example.t1)] None Example.m1
    = Ret (st (st Example.m1 cmax) cmin) ∧
    let xv := [0; 0; 0; 0; 0; 0; 3; 0; 0] in
    let zv := [0; 0; 0] in
    holds xv zv cmax ∧ holds xv zv cmin ∧
    ¬ (entry (min_vol Example.t1) 0
       ≤ initial_vol Example.t1
         + net_inflow 3 Example.t1 [Example.p1; Example.v1] 0 xv 0
         - cum_demand Example.t1 0).
Proof.
  destruct (mass_balance_declares Example.aro_no_delta
              [Example.p1; Example.v1] [("t1", Example.t1)] None Example.m1)
    as (cmax & cmin & Hret & _ & _ & _ & _ & Hmax & Hmin).
  { by apply example_balance_ready. }
  { done. }
  { intros _. apply adapted_true, example_is_adapted. }
  { by intros [? [=]]. }
  exists cmax, cmin. split; [exact Hret|]. cbn zeta.
  split; [|split].
  - apply (Hmax 1); [lia|]. intros k p t Hp Ht.
    destruct k as [|k]; [|by destruct k]. injection Hp as <-.
    change (num_steps (sim Example.aro_no_delta)) with 3%nat in *.
    destruct t as [|[|[|t]]]; [vm_compute; by intros [=]..|lia].
  - apply (Hmin 1); [lia|]. intros k p t Hp Ht.
    destruct k as [|k]; [|by destruct k]. injection Hp as <-.
    change (num_steps (sim Example.aro_no_delta)) with 3%nat in *.
    destruct t as [|[|[|t]]]; [vm_compute; by intros [=]..|lia].
  - vm_compute. by intros H.
Qed.

(** C4 (amended): with an adapted decision rule, [build_mass_balance]
    returns, having called [mass_balance] for the tanks named by the
    uncertainty data of the demand with its [delta] as the map, and then
    for the other tanks with no map.  The constraints of the tanks of a
    call with a map, whatever the map holds, use
    [(1 + lou * z_flat[row]) * d] as the demand offset of the row [row]
    with the nominal cumulative demand [d], which at the realization
    [zv / den] and times [den] is [(den + lou * zv[row]) * d], and no term
    of the map; the constraints of the tanks of a call without a map, which
    are the deterministic tanks and also the uncertain ones when [delta] is
    [None], use the fixed [d]. *)
Theorem build_mass_balance_offsets (self : Aro) (elems : list Element)
    (m : Model) :
  balance_ready self elems (tanks (network (sim self))) m →
  depend m ≠ ∅ →
  (is_Some (passed_map self) → uncertain_tanks self ≠ [] →
   (z_rows m * z_cols m)%nat
   = (length (uncertain_tanks self) * num_steps (sim self))%nat) →
  (∃ m1 m2,
     build_mass_balance self m = Ret m2 ∧
     balance_declared self elems (uncertain_tanks self) (passed_map self) m m1 ∧
     balance_declared self elems (deterministic_tanks self) None m1 m2) ∧
  ∀ den zv row d,
    demand_offset None (lou self) den zv row d = den * d ∧
    ∀ delta, demand_offset (Some delta) (lou self) den zv row d
             = (den + lou self * entry zv row) * d.
Proof.
  intros Hready Had%adapted_true Hz.
  split; [by apply build_mass_balance_declared|].
  intros den zv row d. by split.
Qed.

Lemma build_mass_balance_offsets_witness :
  ∃ cmax cmin,
    build_mass_balance Example.aro_delta Example.m1
    = Ret (st (st Example.m1 cmax) cmin) ∧
    balance_spec Example.aro_delta [Example.p1; Example.v1]
      [("t1", Example.t1)] (Some [[0]]) cmax cmin ∧
    demand_offset (Some [[0]]) 2 1 [1; 1; 1] 2 6 = 18.
Proof.
  destruct (build_mass_balance_offsets Example.aro_delta
              [Example.p1; Example.v1] Example.m1)
    as [(m1 & m2 & Hret & Hu & Hd) Hoff].
  - by apply example_balance_ready.
  - apply (bool_decide_unpack _). by vm_compute.
  - reflexivity.
  - change (uncertain_tanks Example.aro_delta) with [("t1", Example.t1)] in Hu.
    change (passed_map Example.aro_delta) with (Some [[0 : Z]]) in Hu.
    change (deterministic_tanks Example.aro_delta)
      with (@nil (string * Tank)) in Hd.
    cbn [balance_declared] in Hu, Hd.
    destruct Hu as (cmax & cmin & Hm1 & Hspec).
    exists cmax, cmin. split; [by rewrite Hret, Hd, Hm1|].
    split; [exact Hspec|]. reflexivity.
Defined.

(** C4 as stated fails: the tank [t1] of the small network is subject to the
    uncertainty model, with [lou = 2] and no [delta]; the rule is adapted.
    The decisions that are all zero satisfy both declared constraints at
    the realization [z = [1; 1; 1]], whereas with the offset
    [(1 + lou * z) * d] the volume of the last step would be
    10 - 3 * 6 = -8, below the final volume 1: the offset of this uncertain
    tank is the fixed nominal one. *)
Lemma build_mass_balance_no_delta_nominal :
  ∃ cmax cmin,
    build_mass_balance Example.aro_no_delta Example.m1
    = Ret (st (st Example.m1 cmax) cmin) ∧
    "t1" ∈ (uncertain_tanks Example.aro_no_delta).*1 ∧
    let xv := replicate 9 0 in
    let zv := [1; 1; 1] in
    holds xv zv cmax ∧ holds xv zv cmin ∧
    ¬ (min_at 3 Example.t1 2
       ≤ initial_vol Example.t1
         + net_inflow 3 Example.t1 [Example.p1; Example.v1] 0 xv 2
         - (1 + lou Example.aro_no_delta * entry zv 2)
           * cum_demand Example.t1 2).
Proof.
  destruct (build_mass_balance_declared Example.aro_no_delta
              [Example.p1; Example.v1] Example.m1)
    as (m1 & m2 & Hret & Hu & Hd).
  { by apply example_balance_ready. }
  { apply adapted_true, example_is_adapted. }
  { by intros [? [=]]. }
  change (uncertain_tanks Example.aro_no_delta)
    with [("t1", Example.t1)] in Hu.
  change (passed_map Example.aro_no_delta) with (@None (list (list Z))) in Hu.
  change (deterministic_tanks Example.aro_no_delta)
    with (@nil (string * Tank)) in Hd.
  cbn [balance_declared] in Hu, Hd.
  destruct Hu as (cmax & cmin & Hm1 & _ & _ & _ & _ & Hmax & Hmin).
  exists cmax, cmin. split; [by rewrite Hret, Hd, Hm1|].
  split; [apply (bool_decide_unpack _); by vm_compute|]. cbn zeta.
  split; [|split].
  - apply (Hmax 1); [lia|]. intros k p t Hp Ht.
    destruct k as [|k]; [|by destruct k]. injection Hp as <-.
    change (num_steps (sim Example.aro_no_delta)) with 3%nat in *.
    destruct t as [|[|[|t]]]; [vm_compute; by intros [=]..|lia].
  - apply (Hmin 1); [lia|]. intros k p t Hp Ht.
    destruct k as [|k]; [|by destruct k]. injection Hp as <-.
    change (num_steps (sim Example.aro_no_delta)) with 3%nat in *.
    destruct t as [|[|[|t]]]; [vm_compute; by intros [=]..|lia].
  - vm_compute. by intros H.
Qed.

(** ** The solver entry point *)

Lemma GRB_STATUS_lookup (code : Z) :
  GRB_STATUS !! code =
    if decide (code = 1) then Some "LOADED"
    else if decide (code = 2) then Some "OPTIMAL"
    else if decide (code = 3) then Some "INFEASIBLE"
    else if decide (code = 4) then Some "INF_OR_UNBD"
    else if decide (code = 5) then Some "UNBOUNDED"
    else None.
Proof.
  change GRB_STATUS with
    (<[1:="LOADED"]> (<[2:="OPTIMAL"]> (<[3:="INFEASIBLE"]>
       (<[4:="INF_OR_UNBD"]> (<[5:="UNBOUNDED"]> (∅ : gmap Z string)))))).
  repeat (case_decide; [subst code; reflexivity|]).
  rewrite !lookup_insert_ne by congruence. apply lookup_empty.
Qed.

(** With a solution in the model, [solve] maps the native codes 1 to 5 to
    their names and returns the name with the objective value after the
    policy extraction; any other code is a [KeyError]. *)
Lemma solve_with_solution (m : Model) (sol : Solution) (s : Sim) :
  (1 ≤ s_status sol ≤ 5 →
   ∃ name,
     GRB_STATUS !! s_status sol = Some name ∧
     (∀ s', get_results m sol s None = Ret s' →
            solve m (Some sol) s = Ret (s', (name, s_obj sol))) ∧
     (∀ e, get_results m sol s None = Raise e →
           solve m (Some sol) s = Raise e)) ∧
  (¬ 1 ≤ s_status sol ≤ 5 → solve m (Some sol) s = Raise KeyError).
Proof.
  unfold solve, model_get, getitem. ret. rewrite GRB_STATUS_lookup. split.
  - intros Hcode.
    assert (s_status sol = 1 ∨ s_status sol = 2 ∨ s_status sol = 3
            ∨ s_status sol = 4 ∨ s_status sol = 5) as Hcases by lia.
    clear Hcode.
    destruct Hcases as [Hc|[Hc|[Hc|[Hc|Hc]]]]; rewrite Hc; simpl;
      (eexists; split; [reflexivity|];
       split; [intros s' ->; reflexivity | intros e ->; reflexivity]).
  - intros Hcode. repeat (case_decide; [lia|]). reflexivity.
Qed.

(** C9 fails when the solver finds no solution, as for an infeasible
    model: [solve] reads the objective with [self.model.get()] before it
    reads and maps the status, and that call raises [RuntimeError] on a
    model without a solution, whatever the model and the state; no pair is
    returned and no status name is produced.  With the solution of an
    optimal solve in the model, the same call returns the name [OPTIMAL]
    with the objective value. *)
Theorem solve_without_solution_raises :
  (∀ m s, solve m None s = Raise RuntimeError) ∧
  (∃ s', solve Example.m1 (Some (Example.answer 2)) Example.sim0
         = Ret (s', ("OPTIMAL", 77))) ∧
  ¬ (∀ m solution s,
       ∃ s' status obj, solve m solution s = Ret (s', (status, obj))).
Proof.
  split; [reflexivity|]. split.
  - destruct (solve_with_solution Example.m1 (Example.answer 2) Example.sim0)
      as [Hin _].
    destruct Hin as (name & Hname & Hret & _); [simpl; lia|].
    assert (name = "OPTIMAL") as -> by (vm_compute in Hname; congruence).
    destruct (get_results Example.m1 (Example.answer 2) Example.sim0 None)
      as [s'|e] eqn:Hg; [|vm_compute in Hg; discriminate].
    exists s'. by apply Hret.
  - intros H. destruct (H Example.m1 None Example.sim0)
      as (s' & status & obj & Heq).
    discriminate.
Qed.

(** X19: with a solution in the model, [solve] returns a status name for
    the native codes 1 to 5 only.  For such a code it runs the policy
    extraction at the nominal realization and returns the state the
    extraction leaves with the pair of the mapped name, which is [OPTIMAL]
    exactly for the code 2, and the objective value; an error of the
    extraction is passed on.  For any other native code, such as the 9 of
    a time limit, the lookup in [GRB_STATUS] raises [KeyError] and nothing
    is returned, although the model holds a solution. *)
Theorem solve_status_codes (m : Model) (sol : Solution) (s : Sim) :
  (1 ≤ s_status sol ≤ 5 →
   ∃ name,
     GRB_STATUS !! s_status sol = Some name ∧
     name ∈ ["LOADED"; "OPTIMAL"; "INFEASIBLE"; "INF_OR_UNBD"; "UNBOUNDED"] ∧
     (name = "OPTIMAL" ↔ s_status sol = 2) ∧
     (∀ s', get_results m sol s None = Ret s' →
            solve m (Some sol) s = Ret (s', (name, s_obj sol))) ∧
     (∀ e, get_results m sol s None = Raise e →
           solve m (Some sol) s = Raise e)) ∧
  (¬ 1 ≤ s_status sol ≤ 5 → solve m (Some sol) s = Raise KeyError).
Proof.
  destruct (solve_with_solution m sol s) as [Hin Hout].
  split; [|exact Hout].
  intros Hcode. destruct (Hin Hcode) as (name & Hname & Hret & Herr).
  exists name. split; [exact Hname|].
  rewrite GRB_STATUS_lookup in Hname.
  assert (s_status sol = 1 ∨ s_status sol = 2 ∨ s_status sol = 3
          ∨ s_status sol = 4 ∨ s_status sol = 5) as Hcases by lia.
  clear Hcode Hin Hout.
  split; [|split; [|by split]];
    destruct Hcases as [Hc|[Hc|[Hc|[Hc|Hc]]]]; rewrite Hc in *;
    simpl in Hname; injection Hname as <-;
    first [set_solver | split; intros; (done || discriminate)].
Qed.

Lemma solve_status_codes_witness :
  (∃ s', solve Example.m1 (Some (Example.answer 2)) Example.sim0
         = Ret (s', ("OPTIMAL", 77))) ∧
  solve Example.m1 (Some (Example.answer 9)) Example.sim0 = Raise KeyError.
Proof.
  split.
  - destruct (solve_status_codes Example.m1 (Example.answer 2) Example.sim0)
      as [Hin _].
    destruct Hin as (name & Hname & _ & _ & Hret & _); [simpl; lia|].
    assert (name = "OPTIMAL") as -> by (vm_compute in Hname; congruence).
    destruct (get_results Example.m1 (Example.answer 2) Example.sim0 None)
      as [s'|e] eqn:Hg; [|vm_compute in Hg; discriminate].
    exists s'. by apply Hret.
  - destruct (solve_status_codes Example.m1 (Example.answer 9) Example.sim0)
      as [_ Hout].
    apply Hout. simpl. lia.
Defined.
(** ** Policy extraction *)

Lemma set_column_same col v cols :
  assoc col cols = Some v → set_column col v cols = cols.
Proof.
  induction cols as [|[c w] cols IH]; simpl; [done|].
  destruct (String.eqb c col); [by intros [= ->]|]. intros H. by rewrite IH.
Qed.

Lemma elem_of_unique_from (seen l : list string) (a : string) :
  a ∈ unique_from seen l ↔ a ∈ l ∧ a ∉ seen.
Proof.
  revert seen. induction l as [|b l IH]; intros seen; simpl.
  - split; [by intros ?%elem_of_nil|by intros [?%elem_of_nil _]].
  - destruct (bool_decide_reflect (b ∈ seen)) as [Hb|Hb].
    + rewrite IH, elem_of_cons. split; [tauto|].
      intros [[->|?] ?]; [done|tauto].
    + rewrite !elem_of_cons, IH, elem_of_cons. split.
      * intros [->|[? ?]]; [tauto|]. split; [tauto|]. tauto.
      * intros [[->|?] ?]; [tauto|].
        destruct (decide (a = b)) as [->|]; [tauto|]. right. split; [done|].
        tauto.
Qed.

Lemma elem_of_unique (l : list string) (a : string) : a ∈ unique l ↔ a ∈ l.
Proof.
  unfold unique. rewrite elem_of_unique_from. split; [tauto|].
  intros H. split; [done|]. by intros ?%elem_of_nil.
Qed.

(** An assignment of the table that an object already has changes
    nothing. *)
Lemma set_vars_same (s : Sim) (name : string) (e : Element) :
  objects (network s) !! name = Some e → set_vars s name (e_vars e) = s.
Proof.
  intros He.
  assert (Hobj : objects (network (set_vars s name (e_vars e)))
                 = objects (network s)).
  { apply map_eq. intros k. rewrite lookup_set_vars.
    destruct (decide (name = k)) as [<-|]; [|done].
    rewrite He. by destruct e. }
  unfold set_vars in *. destruct s as [T tr vn vv [objs ps vs ws cvs vls ce fe tk]].
  simpl in *. by rewrite Hobj.
Qed.

Lemma write_value_inv (x : list Z) (s s1 : Sim) (name : string) :
  write_value x s name = Ret s1 →
  ∃ xmin xmax e a w,
    Index.get_x_idx (vars_name s) name = Ret (xmin, xmax) ∧
    objects (network s) !! name = Some e ∧
    slice_bounds (length x) xmin xmax = Ret (a, w) ∧
    length (take w (drop a x)) = length (df_index (e_vars e)) ∧
    s1 = set_vars s name
           (with_columns (e_vars e)
              (set_column "value" (take w (drop a x)) (df_columns (e_vars e)))).
Proof.
  unfold write_value. intros H.
  apply bind_Ret_inv in H as ([xmin xmax] & Hidx & H).
  apply bind_Ret_inv in H as (e & He & H).
  apply bind_Ret_inv in H as ([a w] & Hsl & H).
  apply bind_Ret_inv in H as (vars & Hvars & H).
  exists xmin, xmax, e, a, w. split; [done|].
  unfold getitem in He. destruct (objects (network s) !! name) as [e'|]; [|done].
  injection He as ->. split; [done|]. split; [done|].
  unfold df_set_array in Hvars.
  destruct (bool_decide_reflect
              (length (take w (drop a x)) = length (df_index (e_vars e))));
    [|done].
  injection Hvars as <-. split; [done|]. simpl in H. by injection H.
Qed.

Lemma written_fixed (x : list Z) (s : Sim) (name : string) :
  written x s name → write_value x s name = Ret s.
Proof.
  intros (xmin & xmax & e & a & w & Hidx & He & Hsl & Hlen & Hval).
  unfold write_value. rewrite Hidx. ret. rewrite (getitem_Some _ _ _ He). ret.
  rewrite Hsl. ret. unfold df_set_array. rewrite bool_decide_true by done. ret.
  rewrite (set_column_same _ _ _ Hval).
  replace (with_columns (e_vars e) (df_columns (e_vars e))) with (e_vars e)
    by (by destruct (e_vars e)).
  by rewrite set_vars_same.
Qed.

Lemma write_value_written (x : list Z) (s s1 : Sim) (name : string) :
  write_value x s name = Ret s1 →
  vars_name s1 = vars_name s ∧ written x s1 name ∧
  ∀ n, written x s n → written x s1 n.
Proof.
  intros (xmin & xmax & e & a & w & Hidx & He & Hsl & Hlen & ->)%write_value_inv.
  split; [done|].
  assert (Hw : written x
                 (set_vars s name
                    (with_columns (e_vars e)
                       (set_column "value" (take w (drop a x))
                          (df_columns (e_vars e))))) name).
  { eexists xmin, xmax, _, a, w. split; [done|]. split.
    { rewrite lookup_set_vars, decide_True by done. by rewrite He. }
    split; [done|]. split; [done|]. simpl. apply assoc_set_column_eq. }
  split; [done|]. intros n Hn.
  destruct (decide (n = name)) as [->|Hne]; [done|].
  destruct Hn as (xmin' & xmax' & e' & a' & w' & Hidx' & He' & Hrest).
  exists xmin', xmax', e', a', w'. split; [done|]. split; [|done].
  by rewrite lookup_set_vars, decide_False.
Qed.

Lemma write_loop_written (x : list Z) (l : list string) (s s1 : Sim) :
  for_each (write_value x) l s = Ret s1 →
  vars_name s1 = vars_name s ∧
  (∀ n, written x s n → written x s1 n) ∧
  ∀ n, n ∈ l → written x s1 n.
Proof.
  revert s. induction l as [|a l IH]; intros s; cbn [for_each].
  - intros [= <-]. split; [done|]. split; [done|]. by intros n ?%elem_of_nil.
  - intros (s' & Hs' & Hrest)%bind_Ret_inv.
    apply write_value_written in Hs' as (Hn' & Ha & Hkeep').
    apply IH in Hrest as (Hn & Hkeep & Hl).
    split; [congruence|]. split; [auto|].
    intros n [->|Hin]%elem_of_cons; auto.
Qed.

Lemma write_loop_fixed (x : list Z) (l : list string) (s : Sim) :
  (∀ n, n ∈ l → written x s n) → for_each (write_value x) l s = Ret s.
Proof.
  induction l as [|a l IH]; intros Hl; cbn [for_each]; [done|].
  rewrite written_fixed by (apply Hl; by left). ret.
  apply IH. intros n Hn. apply Hl. by right.
Qed.

Lemma written_same (x : list Z) (s s' : Sim) (name : string) :
  vars_name s' = vars_name s → objects (network s') = objects (network s) →
  written x s name → written x s' name.
Proof. unfold written. by intros -> ->. Qed.

(** The balance of a tank reads the demand of the tank and the tables of
    the elements, and writes the columns [value] and [inflow] of the tank:
    run on its own result it changes nothing. *)
Lemma tank_balance_fixed (s : Sim) (item item' : string * Tank) :
  tank_balance s item = Ret item' → tank_balance s item' = Ret item'.
Proof.
  unfold tank_balance. intros H.
  apply bind_Ret_inv in H as (df1 & H1 & H).
  apply bind_Ret_inv in H as (df2 & H2 & H).
  apply bind_Ret_inv in H as (df3 & H3 & H).
  apply bind_Ret_inv in H as (df4 & H4 & H).
  apply bind_Ret_inv in H as (demand & Hdem & H).
  apply bind_Ret_inv in H as (demand' & Hdem' & H).
  apply bind_Ret_inv in H as (value & Hvalue & H).
  apply bind_Ret_inv in H as (inflow & Hinflow & H).
  injection H as <-. cbn [fst snd t_vars pumps_inflows cv_inflows vsp_inflows
    v_inflows pumps_outflows cv_outflows vsp_outflows v_outflows initial_vol
    t_name min_vol max_vol final_vol inflows].
  unfold with_columns. cbn [df_index df_columns].
  rewrite H1. ret. rewrite H2. ret. rewrite H3. ret. rewrite H4. ret.
  assert (Hd : df_get
                 {| df_index := df_index (t_vars item.2);
                    df_columns :=
                      set_column "inflow" inflow
                        (set_column "value" value (df_columns (t_vars item.2))) |}
                 "demand" = Ret demand).
  { unfold df_get in *. cbn [df_columns].
    by rewrite !assoc_set_column_ne by done. }
  rewrite Hd. ret. rewrite Hdem'. ret. rewrite Hvalue. ret. rewrite Hinflow. ret.
  rewrite (set_column_same "value" value)
    by (rewrite assoc_set_column_ne by done; apply assoc_set_column_eq).
  rewrite (set_column_same "inflow" inflow) by apply assoc_set_column_eq.
  done.
Qed.

Lemma mapM_fixed {A} (f : A → outcome A) (l l' : list A) :
  (∀ a a', f a = Ret a' → f a' = Ret a') →
  mapM f l = Ret l' → mapM f l' = Ret l'.
Proof.
  intros Hf. revert l'. induction l as [|a l IH]; intros l'; simpl.
  - by intros [= <-].
  - intros (a' & Ha & H)%bind_Ret_inv.
    apply bind_Ret_inv in H as (r & Hr & [= <-]).
    simpl. rewrite (Hf _ _ Ha). simpl. by rewrite (IH _ Hr).
Qed.

Lemma tanks_balance_inv (s s1 : Sim) :
  tanks_balance s = Ret s1 →
  ∃ tanks',
    mapM (M := outcome) (tank_balance s) (tanks (network s)) = Ret tanks' ∧
    s1 = {| num_steps := num_steps s; time_range := time_range s;
            vars_name := vars_name s; vars_value := vars_value s;
            network :=
              {| objects := objects (network s);
                 pump_stations := pump_stations (network s);
                 vsp := vsp (network s); wells := wells (network s);
                 control_valves := control_valves (network s);
                 valves := valves (network s);
                 comb_elements := comb_elements (network s);
                 flow_elements := flow_elements (network s);
                 tanks := tanks' |} |}.
Proof.
  unfold tanks_balance. intros (tanks' & Ht & [= <-])%bind_Ret_inv.
  by exists tanks'.
Qed.

Lemma tanks_balance_fixed (s s1 : Sim) :
  tanks_balance s = Ret s1 → tanks_balance s1 = Ret s1.
Proof.
  intros (tanks' & Ht & ->)%tanks_balance_inv.
  unfold tanks_balance at 1. cbn [network tanks].
  change (tank_balance _) with (tank_balance s).
  by rewrite (mapM_fixed _ _ _ (tank_balance_fixed s) Ht).
Qed.

(** C10: the policy extraction is deterministic.  The decision values are a
    function of the solved rule and of the realization alone, and no
    realization stands for the realization of zeros.  When [get_results]
    returns for a realization, the flat column [value] holds these decision
    values, every element of the table holds its range of them in its column
    [value], and extracting once more with the same realization, from the
    state that the first extraction left, returns that very state: the same
    decision values and the same value series of every element and tank. *)
Theorem get_results_deterministic (m : Model) (sol : Solution) (s s1 : Sim)
    (sample : option (list (list Z))) :
  get_results m sol s sample = Ret s1 →
  ∃ x,
    retrieve_decision_vars m sol sample = Ret x ∧
    retrieve_decision_vars m sol None
    = retrieve_decision_vars m sol (Some (np_zeros (z_rows m) (z_cols m))) ∧
    vars_value s1 = Some x ∧
    (∀ name, name ∈ vars_name s → written x s1 name) ∧
    get_results m sol s1 sample = Ret s1.
Proof.
  unfold get_results. intros H.
  apply bind_Ret_inv in H as (x & Hx & H).
  apply bind_Ret_inv in H as (sA & HA & H).
  apply bind_Ret_inv in H as (sB & HB & H).
  exists x. split; [done|]. split; [done|].
  apply write_loop_written in HA as (Hnames & _ & Hwritten).
  unfold write_flat in HB.
  destruct (bool_decide_reflect (length x = length (vars_name sA))) as [Hlen|];
    [|done].
  injection HB as <-.
  pose proof (tanks_balance_fixed _ _ H) as Hfix.
  apply tanks_balance_inv in H as (tanks' & _ & ->).
  cbn [vars_value]. split; [done|].
  assert (Hall : ∀ name, name ∈ vars_name s →
            written x
              {| num_steps := num_steps sA; time_range := time_range sA;
                 vars_name := vars_name sA; vars_value := Some x;
                 network :=
                   {| objects := objects (network sA);
                      pump_stations := pump_stations (network sA);
                      vsp := vsp (network sA); wells := wells (network sA);
                      control_valves := control_valves (network sA);
                      valves := valves (network sA);
                      comb_elements := comb_elements (network sA);
                      flow_elements := flow_elements (network sA);
                      tanks := tanks' |} |} name).
  { intros name Hname. apply (written_same x sA); [done|done|].
    apply Hwritten. by apply (proj2 (elem_of_unique _ _)). }
  split; [done|].
  rewrite Hx. ret. cbn [vars_name network objects num_steps time_range] in *.
  rewrite write_loop_fixed.
  - ret. unfold write_flat. cbn [vars_name]. rewrite bool_decide_true by done.
    ret. exact Hfix.
  - intros n Hn. apply (proj1 (elem_of_unique _ _)) in Hn.
    apply Hall. by rewrite <- Hnames.
Qed.

Lemma get_results_deterministic_witness :
  ∃ s1,
    get_results Example.m0 (Example.answer 2) Example.sim0 None = Ret s1 ∧
    vars_value s1 = Some [1; 0; 0; 1; 1; 0; 3; 4; 5] ∧
    written [1; 0; 0; 1; 1; 0; 3; 4; 5] s1 "v1" ∧
    get_results Example.m0 (Example.answer 2) s1 None = Ret s1.
Proof.
  destruct (get_results Example.m0 (Example.answer 2) Example.sim0 None)
    as [s1|e] eqn:Hret; [|vm_compute in Hret; discriminate].
  destruct (get_results_deterministic _ _ _ _ _ Hret)
    as (x & Hx & _ & Hflat & Hwritten & Hagain).
  assert (x = [1; 0; 0; 1; 1; 0; 3; 4; 5]) as ->
    by (vm_compute in Hx; congruence).
  exists s1. split; [reflexivity|]. split; [exact Hflat|].
  split; [|exact Hagain].
  apply Hwritten. apply (bool_decide_unpack _). by vm_compute.
Defined.

(** ** The volume schedule *)

Lemma filter_set_column_absent col v cols :
  assoc col cols = None →
  filter (λ p : string * list Z, negb (String.eqb p.1 col) = true)
    (set_column col v cols) = cols.
Proof.
  induction cols as [|[c w] cols IH]; simpl.
  - intros _. rewrite filter_cons. simpl. by rewrite String.eqb_refl.
  - destruct (String.eqb c col) eqn:Hc; [done|]. intros H.
    rewrite filter_cons. simpl. rewrite Hc. simpl. by rewrite IH.
Qed.

(** The auxiliary column after the two assignments of [vsp_volume]: 1 at
    the steps inside the closed window and 0 elsewhere. *)
Lemma aux_column_period (df : DataFrame) (row : volume_row) :
  let mask := (λ t, bool_decide (vr_start row ≤ t) && bool_decide (t ≤ vr_end row))
                <$> df_index df in
  ∃ vars aux,
    df_loc_set (df_set_scalar df "aux" 0) mask "aux" 1 = Ret vars ∧
    df_index vars = df_index df ∧
    df_columns vars = set_column "aux" aux (df_columns df) ∧
    df_get vars "aux" = Ret aux ∧
    length aux = length (df_index df) ∧
    ∀ i, (i < length (df_index df))%nat →
         aux !! i = Some (if in_period (df_index df) row i then 1 else 0).
Proof.
  intros mask. unfold df_loc_set, df_set_scalar, df_get. simpl.
  rewrite assoc_set_column_eq. ret. rewrite set_column_twice.
  eexists _, _. split; [reflexivity|]. simpl. split; [done|]. split; [done|].
  rewrite assoc_set_column_eq. split; [done|]. split.
  - unfold mask. by rewrite length_zip_with, length_fmap, length_replicate, Nat.min_id.
  - intros i Hi. destruct (lookup_lt_is_Some_2 (df_index df) i Hi) as [t Ht].
    apply lookup_zip_with_Some. unfold in_period. rewrite Ht.
    eexists _, 0. split; [|split].
    2:{ unfold mask. rewrite list_lookup_fmap, Ht. reflexivity. }
    2:{ by apply lookup_replicate_2. }
    done.
Qed.

(** The column sums of a matrix given entry by entry. *)
Lemma sum_axis0_lookup (M : matrix) (R C j : nat) :
  shape M R C → (j < C)%nat →
  sum_axis0 C M !! j = Some (sumZ ((λ i, default 0 (mget M i j)) <$> seq 0 R)).
Proof.
  revert R. induction M as [|row M IH]; intros R [HR Hall] Hj.
  - simpl in HR. subst R. simpl. by apply lookup_replicate_2.
  - simpl in HR. subst R. apply Forall_cons in Hall as [Hrow Hall].
    cbn [sum_axis0 foldr]. fold (sum_axis0 C M).
    rewrite lookup_zip_with, (IH (length M)) by (by split || done).
    destruct (lookup_lt_is_Some_2 row j) as [v Hv]; [by rewrite Hrow|].
    rewrite Hv. simpl. f_equal.
    rewrite sumZ_cons. unfold mget at 2. simpl. rewrite Hv. simpl. f_equal.
    change (list_fmap nat Z ?f ?l) with (f <$> l).
    rewrite <- (fmap_S_seq 0), <- list_fmap_compose. by apply sumZ_ext.
Qed.

Lemma length_sum_axis0 (M : matrix) (R C : nat) :
  shape M R C → length (sum_axis0 C M) = C.
Proof.
  revert R. induction M as [|row M IH]; intros R [HR Hall].
  - simpl. apply length_replicate.
  - apply Forall_cons in Hall as [Hrow Hall]. cbn [sum_axis0 foldr].
    fold (sum_axis0 C M).
    rewrite length_zip_with, (IH (length M)), Hrow by (by split). lia.
Qed.

Lemma shape_scale_matrix (k : Z) (M : matrix) (R C : nat) :
  shape M R C → shape (scale_matrix k M) R C.
Proof.
  intros [HR Hall]. split; [by unfold scale_matrix; rewrite length_fmap|].
  unfold scale_matrix. apply Forall_fmap. eapply Forall_impl; [exact Hall|].
  intros row Hrow. simpl. by rewrite length_fmap.
Qed.

Lemma mget_scale_matrix (k : Z) (M : matrix) (r j : nat) :
  mget (scale_matrix k M) r j = Z.mul k <$> mget M r j.
Proof.
  unfold mget, scale_matrix. rewrite list_lookup_fmap.
  destruct (M !! r) as [row|]; simpl; [|done]. by rewrite list_lookup_fmap.
Qed.

(** The sum of a row of indicator values that is 1 at one place. *)
Lemma sumZ_single (f : nat → Z) (n j : nat) :
  (j < n)%nat → (∀ i, (i < n)%nat → i ≠ j → f i = 0) →
  sumZ (f <$> seq 0 n) = f j.
Proof.
  intros Hj Hf.
  rewrite (sumZ_indicator_block f f j 1 n) by
    (lia || (intros i Hi; destruct (decide (j ≤ i < j + 1)%nat); [done|];
             apply Hf; lia)).
  simpl. rewrite sumZ_cons. unfold sumZ. simpl.
  replace (j + 0)%nat with j by lia. lia.
Qed.

Lemma vsp_volume_row_cases (s : Sim) (m : Model) (row : volume_row) vsp a :
  scheduled s m (vr_vsp row) vsp a →
  assoc "aux" (df_columns (e_vars vsp)) = None →
  match operators (vr_constraint_type row) with
  | Ret _ =>
      if adapted m
      then ∃ c, vsp_volume_row (s, m) row = Ret (s, st m c) ∧
                volume_spec (num_steps s) (df_index (e_vars vsp)) a row c
      else vsp_volume_row (s, m) row = Raise AttributeError
  | Raise e => vsp_volume_row (s, m) row = Raise e
  end.
Proof.
  intros Hsch Hno. pose proof Hsch as (He & Hidx & Hle & Hlen).
  unfold vsp_volume_row. set (T := num_steps s) in *.
  rewrite (network_element_scheduled s m _ vsp a Hsch). ret.
  rewrite Hidx. ret. rewrite x_slice_in_range by lia. ret.
  replace (a + T - a)%nat with T by lia.
  destruct (aux_column_period (e_vars vsp) row)
    as (vars & aux & Hvars & Hvidx & Hvcols & Haux & Hauxlen & Hauxval).
  change (df_index (df_set_scalar (e_vars vsp) "aux" 0))
    with (df_index (e_vars vsp)).
  rewrite Hvars. ret. rewrite Haux. ret.
  pose proof (shape_scale_matrix (flow_direction flow_in) _ _ _ (shape_eye T))
    as HDs.
  fold (not_comb_matrix T flow_in) in HDs.
  destruct (mul_column_spec (not_comb_matrix T flow_in) T aux HDs)
    as (M & HM & HMs & HMget); [by rewrite Hauxlen|].
  rewrite HM. ret.
  assert (Hsum : ∀ j, (j < T)%nat → sum_axis0 T M !! j = Some (entry aux j)).
  { intros j Hj. rewrite (sum_axis0_lookup M T T j HMs Hj). f_equal.
    rewrite (sumZ_single _ T j Hj).
    - rewrite HMget. unfold not_comb_matrix.
      rewrite mget_scale_matrix, mget_eye, decide_True by done. simpl. lia.
    - intros i Hi Hne. rewrite HMget. unfold not_comb_matrix.
      rewrite mget_scale_matrix, mget_eye, decide_False by done. simpl. lia. }
  unfold dot.
  rewrite bool_decide_true
    by (by rewrite (length_sum_axis0 M T T HMs), length_fmap, length_seq).
  ret. destruct (operators (vr_constraint_type row)) as [op|e] eqn:Hop; [|done].
  ret. unfold compare. ret. destruct (adapted m); [|done]. ret.
  assert (Hdrop : df_drop vars "aux" = Ret (e_vars vsp)).
  { unfold df_drop. rewrite Hvcols, assoc_set_column_eq.
    rewrite filter_set_column_absent by done.
    unfold with_columns. rewrite Hvidx. by destruct (e_vars vsp). }
  rewrite Hdrop. ret. rewrite set_vars_same by done.
  eexists. split; [reflexivity|].
  exists op. split; [done|]. split; [done|]. split; [done|].
  intros den xv zv _. unfold holds_at, qualified. cbn [c_lhs c_rhs c_op].
  rewrite eval_at_const, eval_at_lincomb_x
    by (by rewrite (length_sum_axis0 M T T HMs), length_seq).
  rewrite (length_sum_axis0 M T T HMs).
  assert (Heq : sumZ ((λ j, entry (sum_axis0 T M) j
                            * from_option (entry xv) 0 (seq a T !! j))
                        <$> seq 0 T)
                = period_flow xv (df_index (e_vars vsp)) row a T).
  { unfold period_flow. apply sumZ_ext. intros j Hj%elem_of_seq.
    unfold entry at 1. rewrite Hsum by lia. simpl.
    rewrite lookup_seq_lt by lia. simpl. unfold entry at 1.
    rewrite Hauxval by lia. simpl.
    destruct (in_period _ row j); lia. }
  by rewrite Heq.
Qed.




(** X2: a record of a schedule that names an element absent from the
    decision table stops the builder with an [IndexError], at the lookup of
    the element of the first row of the name; this holds for [vsp_volume]
    and for [vsp_changes], whatever the other fields of the record. *)
Theorem schedule_unknown_element_raises (s : Sim) (m : Model)
    (vrow : volume_row) (vrows : list volume_row)
    (crow : changes_row) (crows : list changes_row) :
  (vr_vsp vrow ∉ vars_name s →
   vsp_volume (vrow :: vrows) (s, m) = Raise IndexError) ∧
  (cr_vsp crow ∉ vars_name s →
   vsp_changes (crow :: crows) (s, m) = Raise IndexError).
Proof.
  split; intros Hno.
  - unfold vsp_volume. cbn [for_each]. unfold vsp_volume_row, network_element.
    unfold Index.loc. by rewrite loc_from_absent.
  - unfold vsp_changes. cbn [for_each]. unfold vsp_changes_row, network_element.
    unfold Index.loc. by rewrite loc_from_absent.
Qed.

Lemma schedule_unknown_element_raises_witness :
  vsp_volume [{| vr_start := 10; vr_end := 20; vr_vsp := "ghost"; vr_vol := 5;
                 vr_constraint_type := "ge" |}] (Example.sim0, Example.m0)
  = Raise IndexError ∧
  vsp_changes [{| cr_start := 10; cr_end := 40; cr_vsp := "ghost" |}]
    (Example.sim0, Example.m0)
  = Raise IndexError.
Proof.
  destruct (schedule_unknown_element_raises Example.sim0 Example.m0
              {| vr_start := 10; vr_end := 20; vr_vsp := "ghost"; vr_vol := 5;
                 vr_constraint_type := "ge" |} []
              {| cr_start := 10; cr_end := 40; cr_vsp := "ghost" |} [])
    as [Hv Hc].
  split.
  - apply Hv. apply (bool_decide_unpack _). by vm_compute.
  - apply Hc. apply (bool_decide_unpack _). by vm_compute.
Defined.

(** X3: a record of the volume schedule whose constraint type is none of
    [le], [ge] and [eq] stops [vsp_volume] with a [KeyError], the lookup in
    the dict of operators, although its element and window are fine. *)
Theorem vsp_volume_unknown_type_raises (s : Sim) (m : Model) (row : volume_row)
    (rows : list volume_row) vsp a :
  scheduled s m (vr_vsp row) vsp a →
  assoc "aux" (df_columns (e_vars vsp)) = None →
  vr_constraint_type row ∉ ["le"; "ge"; "eq"] →
  vsp_volume (row :: rows) (s, m) = Raise KeyError.
Proof.
  intros Hsch Hno Htype.
  pose proof (vsp_volume_row_cases s m row vsp a Hsch Hno) as H.
  assert (Hop : operators (vr_constraint_type row) = Raise KeyError).
  { unfold operators.
    destruct (String.eqb_spec (vr_constraint_type row) "le") as [Heq|_];
      [rewrite Heq in Htype; set_solver|].
    destruct (String.eqb_spec (vr_constraint_type row) "ge") as [Heq|_];
      [rewrite Heq in Htype; set_solver|].
    destruct (String.eqb_spec (vr_constraint_type row) "eq") as [Heq|_];
      [rewrite Heq in Htype; set_solver|].
    done. }
  rewrite Hop in H. unfold vsp_volume. cbn [for_each]. by rewrite H.
Qed.

Lemma vsp_volume_unknown_type_raises_witness :
  vsp_volume [{| vr_start := 10; vr_end := 20; vr_vsp := "v1"; vr_vol := 5;
                 vr_constraint_type := "lt" |}] (Example.sim0, Example.m0)
  = Raise KeyError.
Proof.
  apply (vsp_volume_unknown_type_raises Example.sim0 Example.m0 _ []
           Example.v1 6%nat).
  - split; [reflexivity|]. split; [reflexivity|]. split; [simpl; lia|].
    reflexivity.
  - reflexivity.
  - apply (bool_decide_unpack _). by vm_compute.
Defined.

(** ** What the builders leave alone *)

Lemma appends_robust_refl (m : Model) : appends_robust m m.
Proof. exists []. by split. Qed.

Lemma appends_robust_trans (m1 m2 m3 : Model) :
  appends_robust m1 m2 → appends_robust m2 m3 → appends_robust m1 m3.
Proof.
  intros (cs1 & -> & H1) (cs2 & -> & H2). exists (cs1 ++ cs2).
  split; [by rewrite foldl_app|]. by apply Forall_app.
Qed.

Lemma appends_robust_st (m : Model) (random : bool) (c c' : Constraint) :
  forall_z_set random c = Ret c' → appends_robust m (st m c').
Proof.
  intros [_ ->]%forall_z_set_Ret_inv.
  exists [qualified c]. split; [done|]. by constructor.
Qed.

Lemma appends_robust_fields (m m' : Model) :
  appends_robust m m' →
  x_size m' = x_size m ∧ z_rows m' = z_rows m ∧ z_cols m' = z_cols m ∧
  depend m' = depend m ∧
  ∃ cs, constraints m' = constraints m ++ cs ∧
        Forall (λ c, c_forall c = true) cs.
Proof.
  intros (cs & -> & Hcs).
  destruct (foldl_st_fields m cs) as (-> & -> & -> & -> & ->).
  do 4 (split; [done|]). by exists cs.
Qed.

Lemma for_each_appends {A} (body : Model → A → outcome Model) (l : list A)
    (m m' : Model) :
  (∀ a m m', body m a = Ret m' → appends_robust m m') →
  for_each body l m = Ret m' → appends_robust m m'.
Proof.
  intros Hbody. revert m. induction l as [|a l IH]; intros m; cbn [for_each].
  - intros [= <-]. apply appends_robust_refl.
  - intros (m1 & H1 & Hrest)%bind_Ret_inv.
    eapply appends_robust_trans; [by eapply Hbody|by apply IH].
Qed.

Lemma st_slice_appends (m m' : Model) xmin xmax op v :
  st_slice m xmin xmax op v = Ret m' → appends_robust m m'.
Proof.
  unfold st_slice. intros (ix & _ & H)%bind_Ret_inv.
  apply bind_Ret_inv in H as (c & _ & H).
  apply bind_Ret_inv in H as (c' & Hc' & [= <-]).
  by eapply appends_robust_st.
Qed.

Lemma unit_range_appends names item (m m' : Model) :
  unit_range names m item = Ret m' → appends_robust m m'.
Proof.
  unfold unit_range. intros ([xmin xmax] & _ & H)%bind_Ret_inv.
  apply bind_Ret_inv in H as (m1 & H1 & H2).
  eapply appends_robust_trans; by eapply st_slice_appends.
Qed.

Lemma vsp_range_appends names item (m m' : Model) :
  vsp_range names m item = Ret m' → appends_robust m m'.
Proof.
  unfold vsp_range. intros ([xmin xmax] & _ & H)%bind_Ret_inv.
  apply bind_Ret_inv in H as (m1 & H1 & H).
  apply bind_Ret_inv in H as (m2 & H2 & H).
  eapply appends_robust_trans; [by eapply st_slice_appends|].
  eapply appends_robust_trans; [by eapply st_slice_appends|].
  destruct (init_flow item.2).
  - injection H as <-. apply appends_robust_refl.
  - apply bind_Ret_inv in H as (i & _ & H).
    apply bind_Ret_inv in H as (c & _ & H).
    apply bind_Ret_inv in H as (c' & Hc' & [= <-]).
    by eapply appends_robust_st.
Qed.

Lemma range_constraints_appends (sim : Sim) (m m' : Model) :
  range_constraints sim m = Ret m' → appends_robust m m'.
Proof.
  unfold range_constraints. intros H.
  apply bind_Ret_inv in H as (l1 & _ & H).
  apply bind_Ret_inv in H as (m1 & H1 & H).
  apply bind_Ret_inv in H as (l2 & _ & H).
  apply bind_Ret_inv in H as (m2 & H2 & H).
  apply bind_Ret_inv in H as (l3 & _ & H).
  apply bind_Ret_inv in H as (m3 & H3 & H).
  apply bind_Ret_inv in H as (l4 & _ & H).
  apply bind_Ret_inv in H as (m4 & H4 & H).
  apply bind_Ret_inv in H as (l5 & _ & H5).
  pose proof (for_each_appends _ _ _ _ (unit_range_appends _) H1).
  pose proof (for_each_appends _ _ _ _ (vsp_range_appends _) H2).
  pose proof (for_each_appends _ _ _ _ (unit_range_appends _) H3).
  pose proof (for_each_appends _ _ _ _ (unit_range_appends _) H4).
  pose proof (for_each_appends _ _ _ _ (unit_range_appends _) H5).
  repeat (eapply appends_robust_trans; [eassumption|]).
  apply appends_robust_refl.
Qed.

Lemma one_comb_only_appends (sim : Sim) (m m' : Model) :
  one_comb_only sim m = Ret m' → appends_robust m m'.
Proof.
  unfold one_comb_only. intros (l & _ & H)%bind_Ret_inv.
  eapply for_each_appends; [|exact H].
  clear. intros item m m'. unfold one_comb. intros H.
  apply bind_Ret_inv in H as (x & _ & H).
  apply bind_Ret_inv in H as (c & _ & H).
  apply bind_Ret_inv in H as (M & _ & H).
  apply bind_Ret_inv in H as (lhs & _ & H).
  apply bind_Ret_inv in H as (ct & _ & H).
  apply bind_Ret_inv in H as (ct' & Hct' & [= <-]).
  by eapply appends_robust_st.
Qed.

Lemma mass_balance_appends (self : Aro) tanks affine_map (m m' : Model) :
  mass_balance self tanks affine_map m = Ret m' → appends_robust m m'.
Proof.
  unfold mass_balance. case_bool_decide as Hn.
  - intros [= <-]. apply appends_robust_refl.
  - intros H.
    apply bind_Ret_inv in H as (b & _ & H).
    apply bind_Ret_inv in H as (lhs & _ & H).
    apply bind_Ret_inv in H as (r1 & _ & H).
    apply bind_Ret_inv in H as (c1 & _ & H).
    apply bind_Ret_inv in H as (c1' & Hc1' & H).
    apply bind_Ret_inv in H as (r2 & _ & H).
    apply bind_Ret_inv in H as (c2 & _ & H).
    apply bind_Ret_inv in H as (c2' & Hc2' & [= <-]).
    eapply appends_robust_trans; by eapply appends_robust_st.
Qed.

Lemma build_mass_balance_appends (self : Aro) (m m' : Model) :
  build_mass_balance self m = Ret m' → appends_robust m m'.
Proof.
  unfold build_mass_balance. destruct (udata self !! "demand").
  - intros (m1 & H1 & H2)%bind_Ret_inv.
    eapply appends_robust_trans; by eapply mass_balance_appends.
  - apply mass_balance_appends.
Qed.

Lemma network_element_Ret (s : Sim) (name : string) (e : Element) :
  network_element s name = Ret e → objects (network s) !! name = Some e.
Proof.
  unfold network_element, getitem. destruct (Index.loc (vars_name s) name); [done|].
  by destruct (objects (network s) !! name); intros [= ->].
Qed.

Lemma df_loc_set_index (df df' : DataFrame) mask col k :
  df_loc_set df mask col k = Ret df' → df_index df' = df_index df.
Proof.
  unfold df_loc_set. by intros (v & _ & [= <-])%bind_Ret_inv.
Qed.

Lemma df_drop_index (df df' : DataFrame) col :
  df_drop df col = Ret df' → df_index df' = df_index df.
Proof.
  unfold df_drop. destruct (assoc col (df_columns df)); [|done].
  by intros [= <-].
Qed.

Lemma vsp_volume_row_frame (s s' : Sim) (m m' : Model) (row : volume_row) :
  vsp_volume_row (s, m) row = Ret (s', m') →
  same_rows s s' ∧ appends_robust m m'.
Proof.
  unfold vsp_volume_row. intros H.
  apply bind_Ret_inv in H as (vsp & Hvsp%network_element_Ret & H).
  apply bind_Ret_inv in H as ([xmin xmax] & _ & H).
  apply bind_Ret_inv in H as (ix & _ & H).
  apply bind_Ret_inv in H as (vars & Hvars%df_loc_set_index & H).
  apply bind_Ret_inv in H as (aux & _ & H).
  apply bind_Ret_inv in H as (M & _ & H).
  apply bind_Ret_inv in H as (lhs & _ & H).
  apply bind_Ret_inv in H as (op & _ & H).
  apply bind_Ret_inv in H as (c & _ & H).
  apply bind_Ret_inv in H as (c' & Hc' & H).
  apply bind_Ret_inv in H as (vars' & Hvars'%df_drop_index & [= <- <-]).
  split; [|by eapply appends_robust_st].
  eapply same_rows_set_vars; [done|]. by rewrite Hvars', Hvars.
Qed.

Lemma vsp_changes_row_frame (s s' : Sim) (m m' : Model) (row : changes_row) :
  vsp_changes_row (s, m) row = Ret (s', m') →
  same_rows s s' ∧ appends_robust m m'.
Proof.
  unfold vsp_changes_row. intros H.
  apply bind_Ret_inv in H as (vsp & Hvsp%network_element_Ret & H).
  apply bind_Ret_inv in H as ([xmin xmax] & _ & H).
  apply bind_Ret_inv in H as (ix & _ & H).
  apply bind_Ret_inv in H as (vars & Hvars%df_loc_set_index & H).
  apply bind_Ret_inv in H as (D & _ & H).
  apply bind_Ret_inv in H as (aux & _ & H).
  apply bind_Ret_inv in H as (M & _ & H).
  apply bind_Ret_inv in H as (lhs & _ & H).
  apply bind_Ret_inv in H as (c & _ & H).
  apply bind_Ret_inv in H as (c' & Hc' & [= <- <-]).
  split; [|by eapply appends_robust_st].
  by eapply same_rows_set_vars.
Qed.

Lemma schedule_loop_frame {A} (body : Sim * Model → A → outcome (Sim * Model))
    (rows : list A) (s s' : Sim) (m m' : Model) :
  (∀ s s' m m' row, body (s, m) row = Ret (s', m') →
                    same_rows s s' ∧ appends_robust m m') →
  for_each body rows (s, m) = Ret (s', m') →
  same_rows s s' ∧ appends_robust m m'.
Proof.
  intros Hbody. revert s m. induction rows as [|row rows IH]; intros s m;
    cbn [for_each].
  - intros [= <- <-]. split; [apply same_rows_refl|apply appends_robust_refl].
  - intros ([s1 m1] & H1 & Hrest)%bind_Ret_inv.
    apply Hbody in H1 as [Hs1 Hm1]. apply IH in Hrest as [Hs2 Hm2].
    split; [by eapply same_rows_trans|by eapply appends_robust_trans].
Qed.

(** X4: the constraint builders only ever append robust constraints.
    Whenever [range_constraints], [one_comb_only], [build_mass_balance],
    [vsp_volume], [vsp_changes] or the whole of [build] returns, the model
    it leaves is the model it was given followed by new constraints that
    all carry [forall(self.z_set)]: the size of [x], the shape of [z], the
    adaptation and the constraints declared before are untouched.  The two
    schedule builders leave the horizon, the decision table and, of every
    object, the attributes and the table index as they were.  [build] hands
    the nominal uncertainty set to [minmax] exactly when [worst_case] is
    false. *)
Theorem builders_append_robust_constraints (self : Aro) (m : Model)
    (volume_rows : list volume_row) (changes_rows : list changes_row)
    (cost_elements : list string) (worst_case : bool) :
  (∀ m', range_constraints (sim self) m = Ret m' → appends_robust m m') ∧
  (∀ m', one_comb_only (sim self) m = Ret m' → appends_robust m m') ∧
  (∀ m', build_mass_balance self m = Ret m' → appends_robust m m') ∧
  (∀ s' m', vsp_volume volume_rows (sim self, m) = Ret (s', m') →
            same_rows (sim self) s' ∧ appends_robust m m') ∧
  (∀ s' m', vsp_changes changes_rows (sim self, m) = Ret (s', m') →
            same_rows (sim self) s' ∧ appends_robust m m') ∧
  (∀ s' m' obj,
     build self m volume_rows changes_rows cost_elements worst_case
     = Ret (s', m', obj) →
     same_rows (sim self) s' ∧ appends_robust m m' ∧
     x_size m' = x_size m ∧ z_rows m' = z_rows m ∧ z_cols m' = z_cols m ∧
     depend m' = depend m ∧ obj.2 = negb worst_case).
Proof.
  split; [intros m'; apply range_constraints_appends|].
  split; [intros m'; apply one_comb_only_appends|].
  split; [intros m'; apply build_mass_balance_appends|].
  split; [intros s' m'; apply schedule_loop_frame; apply vsp_volume_row_frame|].
  split; [intros s' m'; apply schedule_loop_frame; apply vsp_changes_row_frame|].
  intros s' m' obj. unfold build. intros H.
  apply bind_Ret_inv in H as (m1 & H1%range_constraints_appends & H).
  apply bind_Ret_inv in H as (m2 & H2%one_comb_only_appends & H).
  apply bind_Ret_inv in H as (m3 & H3%build_mass_balance_appends & H).
  apply bind_Ret_inv in H as ([s4 m4] & H4 & H).
  apply bind_Ret_inv in H as ([s5 m5] & H5 & H).
  apply bind_Ret_inv in H as ([o flag] & H6 & [= <- <- <-]).
  apply (schedule_loop_frame _ _ _ _ _ _ vsp_volume_row_frame) in H4
    as [Hs4 Hm4].
  apply (schedule_loop_frame _ _ _ _ _ _ vsp_changes_row_frame) in H5
    as [Hs5 Hm5].
  assert (Hall : appends_robust m m5).
  { repeat (eapply appends_robust_trans; [eassumption|]).
    apply appends_robust_refl. }
  split; [by eapply same_rows_trans|]. split; [done|].
  destruct (appends_robust_fields _ _ Hall) as (-> & -> & -> & -> & _).
  do 4 (split; [done|]).
  unfold objective_func in H6.
  apply bind_Ret_inv in H6 as (l & _ & H6).
  by apply bind_Ret_inv in H6 as (o' & _ & [= _ <-]).
Qed.

Lemma builders_append_robust_constraints_witness :
  ∃ s' m' obj,
    build Example.aro_delta Example.m1 [Example.volume] [Example.changes]
      [] false = Ret (s', m', obj) ∧
    appends_robust Example.m1 m' ∧ length (constraints m') = 10%nat ∧
    obj.2 = true.
Proof.
  destruct (build Example.aro_delta Example.m1 [Example.volume]
              [Example.changes] [] false) as [[[s' m'] obj]|e] eqn:Hret;
    [|vm_compute in Hret; discriminate].
  destruct (builders_append_robust_constraints Example.aro_delta Example.m1
              [Example.volume] [Example.changes] [] false)
    as (_ & _ & _ & _ & _ & Hbuild).
  destruct (Hbuild s' m' obj Hret) as (_ & Happ & _ & _ & _ & _ & Hflag).
  exists s', m', obj. split; [reflexivity|]. split; [exact Happ|].
  split; [|exact Hflag].
  vm_compute in Hret. injection Hret as _ <- _. reflexivity.
Defined.

(** ** The range of an element *)

(** X5: for a name that occurs in the decision table, [get_x_idx] returns
    two integers [a] and [b] with [a < b] within the table: [a] is the
    first row of the name, [b - 1] its last row, and every row of the name
    lies in the half-open range from [a] to [b].  Rows of other names that
    lie between the first and the last row of the name are inside the range
    as well. *)
Theorem get_x_idx_spans_rows (names : list string) (name : string) :
  name ∈ names →
  ∃ a b : nat,
    Index.get_x_idx names name = Ret (Int (Z.of_nat a), Int (Z.of_nat b)) ∧
    (a < b ≤ length names)%nat ∧
    names !! a = Some name ∧ names !! (b - 1)%nat = Some name ∧
    ∀ i, names !! i = Some name → (a ≤ i < b)%nat.
Proof.
  intros Hin. unfold Index.get_x_idx, Index.loc.
  pose proof (loc_from_present 0 names name Hin) as Hne.
  pose proof (elem_of_loc_from 0 names name) as Hloc.
  destruct (Index.loc_from 0 names name) as [|x l]; [done|]. simpl.
  destruct (foldr_min_elem x l) as [Hmin_in Hmin_le].
  destruct (foldr_max_elem x l) as [Hmax_in Hmax_le].
  apply Hloc in Hmin_in as (ka & Hka & Hna).
  apply Hloc in Hmax_in as (kb & Hkb & Hnb).
  exists ka, (S kb). split; [do 3 f_equal; lia|].
  assert (Hab : foldr Z.min x l ≤ foldr Z.max x l) by apply foldr_min_le_max.
  split; [apply lookup_lt_Some in Hnb; lia|].
  split; [done|]. split; [by replace (S kb - 1)%nat with kb by lia|].
  intros i Hi.
  assert (Hi' : Z.of_nat i ∈ x :: l) by (apply Hloc; exists i; split; [lia|done]).
  specialize (Hmin_le _ Hi'). specialize (Hmax_le _ Hi'). lia.
Qed.

Lemma get_x_idx_spans_rows_witness :
  ∃ a b : nat,
    Index.get_x_idx ["p"; "q"; "p"; "r"] "p"
    = Ret (Int (Z.of_nat a), Int (Z.of_nat b)) ∧
    (a < b ≤ 4)%nat ∧
    ["p"; "q"; "p"; "r"] !! a = Some "p" ∧
    ["p"; "q"; "p"; "r"] !! (b - 1)%nat = Some "p" ∧
    ∀ i, ["p"; "q"; "p"; "r"] !! i = Some "p" → (a ≤ i < b)%nat.
Proof.
  apply (get_x_idx_spans_rows ["p"; "q"; "p"; "r"] "p").
  apply (bool_decide_unpack _). by vm_compute.
Defined.

(** ** Elements without a row in the table, rules without adaptation *)

Lemma unit_range_absent (names : list string) (m : Model) (p : string * Element) :
  p.1 ∉ names → unit_range names m p = Raise TypeError.
Proof.
  intros Hno. unfold unit_range, Index.get_x_idx, Index.loc.
  by rewrite loc_from_absent.
Qed.

Lemma vsp_range_absent (names : list string) (m : Model) (p : string * Element) :
  p.1 ∉ names → vsp_range names m p = Raise TypeError.
Proof.
  intros Hno. unfold vsp_range, Index.get_x_idx, Index.loc.
  by rewrite loc_from_absent.
Qed.

(** On a rule without adaptation the first bound of an element with rows
    is a linear constraint, and [forall] is an [AttributeError]. *)
Lemma st_slice_plain (m : Model) (a b : nat) (op : cmp) (v : Z) :
  adapted m = false → (a ≤ b ≤ x_size m)%nat →
  st_slice m (Int (Z.of_nat a)) (Int (Z.of_nat b)) op v = Raise AttributeError.
Proof.
  intros Had Hab. unfold st_slice. rewrite x_slice_in_range by lia. ret.
  unfold compare. ret. by rewrite Had.
Qed.

Lemma unit_range_plain (names : list string) (m : Model) (p : string * Element) :
  x_size m = length names → adapted m = false → p.1 ∈ names →
  unit_range names m p = Raise AttributeError.
Proof.
  intros Hn Had Hin. unfold unit_range.
  destruct (get_x_idx_present names p.1 Hin) as (a & b & -> & Hab). ret.
  by rewrite st_slice_plain by (done || lia).
Qed.

Lemma vsp_range_plain (names : list string) (m : Model) (p : string * Element) :
  x_size m = length names → adapted m = false → p.1 ∈ names →
  vsp_range names m p = Raise AttributeError.
Proof.
  intros Hn Had Hin. unfold vsp_range.
  destruct (get_x_idx_present names p.1 Hin) as (a & b & -> & Hab). ret.
  by rewrite st_slice_plain by (done || lia).
Qed.

(** The items of a group that is not empty. *)
Lemma items_cons (net : Network) (k : string) (keys : list string) :
  (∀ k', k' ∈ k :: keys → is_Some (objects net !! k')) →
  ∃ e l, items net (k :: keys) = Ret ((k, e) :: l).
Proof.
  intros Hobj.
  destruct (items_Ret net (k :: keys) Hobj) as (l & Hl & HF).
  apply Forall2_cons_inv_l in HF as ([k' e] & l' & [Hk _] & _ & ->).
  simpl in Hk. subst k'. by exists e, l'.
Qed.

(** A loop over the items of a group, on an adapted rule: it returns when
    every item has a row and stops with a [TypeError] otherwise. *)
Lemma range_loop_cases (body : Model → string * Element → outcome Model)
    (names : list string) (net : Network) (keys : list string) (m : Model) :
  x_size m = length names → adapted m = true →
  (∀ k, k ∈ keys → is_Some (objects net !! k)) →
  (∀ p m, x_size m = length names → adapted m = true → p.1 ∈ names →
          objects net !! p.1 = Some p.2 →
          ∃ cs, body m p = Ret (foldl st m cs)) →
  (∀ p m, p.1 ∉ names → body m p = Raise TypeError) →
  (Forall (λ k, k ∈ names) keys ∧
   ∃ m', (l ← items net keys; for_each body l m) = Ret m' ∧
         x_size m' = length names ∧ adapted m' = true) ∨
  (Exists (λ k, k ∉ names) keys ∧
   (l ← items net keys; for_each body l m) = Raise TypeError).
Proof.
  intros Hn Had Hobj Hin Hout.
  destruct (items_Ret net keys Hobj) as (l & Hl & HF). rewrite Hl. ret.
  clear Hl Hobj. revert m Hn Had.
  induction HF as [|k p keys l [Hk Hp] HF IH]; intros m Hn Had.
  - left. split; [constructor|]. by exists m.
  - cbn [for_each]. destruct (decide (k ∈ names)) as [Hyes|Hno].
    + destruct (Hin p m Hn Had) as (cs & Hcs); [by rewrite Hk|by rewrite Hk|].
      rewrite Hcs. ret.
      destruct (IH (foldl st m cs)) as [[Hall Hret]|[Hex Hraise]].
      * by rewrite (proj1 (foldl_st_fields m cs)).
      * by rewrite adapted_foldl_st.
      * left. split; [by constructor|done].
      * right. split; [by apply Exists_cons_tl|done].
    + right. split; [by apply Exists_cons_hd|].
      rewrite Hout; [done|by rewrite Hk].
Qed.

Lemma unit_range_present (names : list string) (m : Model) (p : string * Element) :
  x_size m = length names → adapted m = true → p.1 ∈ names →
  ∃ cs, unit_range names m p = Ret (foldl st m cs).
Proof.
  intros Hn Had Hin.
  destruct (unit_range_spec_holds names m p Hn Had Hin) as (cs & Hcs & _).
  by exists cs.
Qed.

Lemma vsp_range_present (names : list string) (objs : gmap string Element)
    (m : Model) (p : string * Element) :
  x_size m = length names → adapted m = true → p.1 ∈ names →
  objs !! p.1 = Some p.2 →
  ∃ cs, vsp_range names m p = Ret (foldl st m cs).
Proof.
  intros Hn Had Hin Hobj.
  destruct (vsp_range_spec_holds names objs m p Hn Had Hin Hobj)
    as (cs & Hcs & _).
  by exists cs.
Qed.

(** The five loops on an adapted rule. *)
Lemma range_constraints_cases (s : Sim) (m : Model) :
  let net := network s in
  let names := vars_name s in
  let groups := pump_stations net ++ vsp net ++ wells net
                ++ control_valves net ++ valves net in
  x_size m = length names → adapted m = true →
  (∀ k, k ∈ groups → is_Some (objects net !! k)) →
  (Forall (λ k, k ∈ names) groups ∧ ∃ m', range_constraints s m = Ret m') ∨
  (Exists (λ k, k ∉ names) groups ∧ range_constraints s m = Raise TypeError).
Proof.
  intros net names groups Hn Had Hobj. unfold range_constraints.
  fold net names. unfold groups in *. clear groups.
  assert (Hunit : ∀ p m, x_size m = length names → adapted m = true →
            p.1 ∈ names → objects net !! p.1 = Some p.2 →
            ∃ cs, unit_range names m p = Ret (foldl st m cs))
    by (intros p m0 H1 H2 H3 _; by apply unit_range_present).
  assert (Hvsp : ∀ p m, x_size m = length names → adapted m = true →
            p.1 ∈ names → objects net !! p.1 = Some p.2 →
            ∃ cs, vsp_range names m p = Ret (foldl st m cs))
    by (intros p m0 H1 H2 H3 H4; by eapply vsp_range_present).
  destruct (range_loop_cases (unit_range names) names net
              (pump_stations net) m Hn Had)
    as [[H1 (m1 & E1 & N1 & A1)]|[H1 E1]];
    [intros k Hk; apply Hobj; rewrite !elem_of_app; tauto|done
    |intros ? ?; apply unit_range_absent| |].
  2:{ right. split; [by apply Exists_app; left|].
      destruct (items net (pump_stations net)) as [l|e]; [|done].
      simpl in *. by rewrite E1. }
  destruct (range_loop_cases (vsp_range names) names net
              (vsp net) m1 N1 A1) as [[H2 (m2 & E2 & N2 & A2)]|[H2 E2]];
    [intros k Hk; apply Hobj; rewrite !elem_of_app; tauto|done
    |intros ? ?; apply vsp_range_absent| |].
  2:{ right. split; [apply Exists_app; right; by apply Exists_app; left|].
      destruct (items net (pump_stations net)) as [l|e]; [|done].
      simpl in *. rewrite E1. simpl.
      destruct (items net (vsp net)) as [l2|e]; [|done]. simpl in *.
      by rewrite E2. }
  destruct (range_loop_cases (unit_range names) names net
              (wells net) m2 N2 A2) as [[H3 (m3 & E3 & N3 & A3)]|[H3 E3]];
    [intros k Hk; apply Hobj; rewrite !elem_of_app; tauto|done
    |intros ? ?; apply unit_range_absent| |].
  2:{ right. split.
      { apply Exists_app; right. apply Exists_app; right.
        by apply Exists_app; left. }
      destruct (items net (pump_stations net)) as [l|e]; [|done].
      simpl in *. rewrite E1. simpl.
      destruct (items net (vsp net)) as [l2|e]; [|done]. simpl in *.
      rewrite E2. simpl.
      destruct (items net (wells net)) as [l3|e]; [|done]. simpl in *.
      by rewrite E3. }
  destruct (range_loop_cases (unit_range names) names net
              (control_valves net) m3 N3 A3)
    as [[H4 (m4 & E4 & N4 & A4)]|[H4 E4]];
    [intros k Hk; apply Hobj; rewrite !elem_of_app; tauto|done
    |intros ? ?; apply unit_range_absent| |].
  2:{ right. split.
      { apply Exists_app; right. apply Exists_app; right.
        apply Exists_app; right. by apply Exists_app; left. }
      destruct (items net (pump_stations net)) as [l|e]; [|done].
      simpl in *. rewrite E1. simpl.
      destruct (items net (vsp net)) as [l2|e]; [|done]. simpl in *.
      rewrite E2. simpl.
      destruct (items net (wells net)) as [l3|e]; [|done]. simpl in *.
      rewrite E3. simpl.
      destruct (items net (control_valves net)) as [l4|e]; [|done].
      simpl in *. by rewrite E4. }
  destruct (range_loop_cases (unit_range names) names net
              (valves net) m4 N4 A4) as [[H5 (m5 & E5 & N5 & A5)]|[H5 E5]];
    [intros k Hk; apply Hobj; rewrite !elem_of_app; tauto|done
    |intros ? ?; apply unit_range_absent| |].
  2:{ right. split.
      { apply Exists_app; right. apply Exists_app; right.
        apply Exists_app; right. by apply Exists_app; right. }
      destruct (items net (pump_stations net)) as [l|e]; [|done].
      simpl in *. rewrite E1. simpl.
      destruct (items net (vsp net)) as [l2|e]; [|done]. simpl in *.
      rewrite E2. simpl.
      destruct (items net (wells net)) as [l3|e]; [|done]. simpl in *.
      rewrite E3. simpl.
      destruct (items net (control_valves net)) as [l4|e]; [|done].
      simpl in *. rewrite E4. simpl.
      destruct (items net (valves net)) as [l5|e]; [|done].
      simpl in *. by rewrite E5. }
  left. split; [by repeat (apply Forall_app; split)|].
  exists m5.
  destruct (items net (pump_stations net)) as [l|e]; [|done].
  simpl in *. rewrite E1. simpl.
  destruct (items net (vsp net)) as [l2|e]; [|done]. simpl in *.
  rewrite E2. simpl.
  destruct (items net (wells net)) as [l3|e]; [|done]. simpl in *.
  rewrite E3. simpl.
  destruct (items net (control_valves net)) as [l4|e]; [|done].
  simpl in *. rewrite E4. simpl.
  destruct (items net (valves net)) as [l5|e]; [|done].
  simpl in *. by rewrite E5.
Qed.

(** The first element of the five groups, on a rule without adaptation. *)
Lemma range_constraints_plain (s : Sim) (m : Model) (k : string)
    (rest : list string) :
  let net := network s in
  let names := vars_name s in
  pump_stations net ++ vsp net ++ wells net ++ control_valves net
    ++ valves net = k :: rest →
  x_size m = length names → adapted m = false →
  (∀ k', k' ∈ k :: rest → is_Some (objects net !! k')) →
  range_constraints s m
  = Raise (if bool_decide (k ∈ names) then AttributeError else TypeError).
Proof.
  intros net names Hgroups Hn Had Hobj. unfold range_constraints.
  fold net names.
  assert (Hunit : ∀ e, unit_range names m (k, e)
            = Raise (if bool_decide (k ∈ names) then AttributeError
                     else TypeError)).
  { intros e. case_bool_decide.
    - by apply unit_range_plain.
    - by apply unit_range_absent. }
  assert (Hvsp : ∀ e, vsp_range names m (k, e)
            = Raise (if bool_decide (k ∈ names) then AttributeError
                     else TypeError)).
  { intros e. case_bool_decide.
    - by apply vsp_range_plain.
    - by apply vsp_range_absent. }
  rewrite <- Hgroups in Hobj.
  destruct (pump_stations net) as [|k1 r1] eqn:E1.
  2:{ injection Hgroups as -> _.
      destruct (items_cons net k r1) as (e & l & ->).
      { intros k' Hk'. apply Hobj. rewrite elem_of_app. by left. }
      ret. cbn [for_each]. by rewrite ?Hunit, ?Hvsp. }
  cbn [items mapM app] in *. ret. cbn [for_each]. ret.
  destruct (vsp net) as [|k2 r2] eqn:E2.
  2:{ injection Hgroups as -> _.
      destruct (items_cons net k r2) as (e & l & ->).
      { intros k' Hk'. apply Hobj. rewrite elem_of_app. by left. }
      ret. cbn [for_each]. by rewrite ?Hunit, ?Hvsp. }
  cbn [items mapM app] in *. ret. cbn [for_each]. ret.
  destruct (wells net) as [|k3 r3] eqn:E3.
  2:{ injection Hgroups as -> _.
      destruct (items_cons net k r3) as (e & l & ->).
      { intros k' Hk'. apply Hobj. rewrite elem_of_app. by left. }
      ret. cbn [for_each]. by rewrite ?Hunit, ?Hvsp. }
  cbn [items mapM app] in *. ret. cbn [for_each]. ret.
  destruct (control_valves net) as [|k4 r4] eqn:E4.
  2:{ injection Hgroups as -> _.
      destruct (items_cons net k r4) as (e & l & ->).
      { intros k' Hk'. apply Hobj. rewrite elem_of_app. by left. }
      ret. cbn [for_each]. by rewrite ?Hunit, ?Hvsp. }
  cbn [items mapM app] in *. ret. cbn [for_each]. ret.
  destruct (valves net) as [|k5 r5] eqn:E5; [done|].
  injection Hgroups as -> _.
  destruct (items_cons net k r5 Hobj) as (e & l & ->).
  ret. cbn [for_each]. by rewrite Hunit.
Qed.

(** X6: [range_constraints] needs an adapted rule and a row of the
    decision table for every element of the five groups.  With one decision
    per row and every name of the groups an object of the network: on an
    adapted rule the builder returns when every element of the pump
    stations, variable speed pumps, wells, control valves and valves occurs
    in the table, and stops with a [TypeError] (the NaN bounds of
    [get_x_idx] are no slice bounds) as soon as one does not; on a rule
    without adaptation it stops at the first element of the groups, with
    an [AttributeError] when the element has rows (its bound is a linear
    constraint, which has no [forall]) and with the [TypeError]
    otherwise. *)
Theorem range_constraints_needs_rows (s : Sim) (m : Model) :
  let net := network s in
  let groups := pump_stations net ++ vsp net ++ wells net
                ++ control_valves net ++ valves net in
  x_size m = length (vars_name s) →
  (∀ k, k ∈ groups → is_Some (objects net !! k)) →
  (depend m ≠ ∅ →
   ((∀ k, k ∈ groups → k ∈ vars_name s) →
    ∃ m', range_constraints s m = Ret m') ∧
   ((∃ k, k ∈ groups ∧ k ∉ vars_name s) →
    range_constraints s m = Raise TypeError)) ∧
  (depend m = ∅ →
   ∀ k rest, groups = k :: rest →
     range_constraints s m
     = Raise (if bool_decide (k ∈ vars_name s) then AttributeError
              else TypeError)).
Proof.
  intros net groups Hn Hobj. split.
  - intros Had%adapted_true.
    destruct (range_constraints_cases s m Hn Had Hobj) as [Hcases|Hcases].
    + destruct Hcases as [Hall Hret]. split; [done|].
      intros (k & Hk & Hno). rewrite Forall_forall in Hall.
      by apply Hall in Hk.
    + destruct Hcases as [Hex Hraise]. split; [|done].
      intros Hall. apply Exists_exists in Hex as (k & Hk & Hno).
      by apply Hall in Hk.
  - intros Had%adapted_false k rest Hgroups.
    apply (range_constraints_plain s m k rest Hgroups Hn Had).
    fold net. unfold groups in Hgroups. rewrite <- Hgroups. exact Hobj.
Qed.

Lemma range_constraints_needs_rows_witness :
  (∃ m', range_constraints Example.sim0 Example.m1 = Ret m') ∧
  range_constraints
    {| num_steps := 3; time_range := [10; 20; 30];
       vars_name := replicate 9 "p1"; vars_value := None;
       network := Example.net |} Example.m1
  = Raise TypeError ∧
  range_constraints Example.sim0 Example.m0 = Raise AttributeError.
Proof.
  assert (Hobj : ∀ k, k ∈ ["p1"; "v1"] → is_Some (objects Example.net !! k)).
  { intros k Hk. apply (bool_decide_unpack _).
    revert k Hk. apply Forall_forall. apply (bool_decide_unpack _).
    by vm_compute. }
  split; [|split].
  - apply (range_constraints_needs_rows Example.sim0 Example.m1);
      [reflexivity|exact Hobj| |].
    + apply (bool_decide_unpack _). by vm_compute.
    + apply Forall_forall. apply (bool_decide_unpack _). by vm_compute.
  - apply (range_constraints_needs_rows
             {| num_steps := 3; time_range := [10; 20; 30];
                vars_name := replicate 9 "p1"; vars_value := None;
                network := Example.net |} Example.m1);
      [reflexivity|exact Hobj| |].
    + apply (bool_decide_unpack _). by vm_compute.
    + exists "v1". split; apply (bool_decide_unpack _); by vm_compute.
  - apply (range_constraints_needs_rows Example.sim0 Example.m0
             eq_refl Hobj) with (k := "p1") (rest := ["v1"]); reflexivity.
Defined.

(** ** Per-step and cumulative matrices *)

Lemma scale_by_param (M1 : matrix) (T C : nat) (e : Element)
    (param : option string) :
  shape M1 T C → has_param e param C →
  ∃ M, match param with
       | Some p => v ← df_get (e_vars e) p; mul_rows M1 v
       | None => mret M1
       end = Ret M ∧ shape M T C ∧
       ∀ t j, mget M t j = (λ a, a * param_at e param j) <$> mget M1 t j.
Proof.
  intros Hs Hp. destruct param as [p|]; simpl in *.
  - destruct Hp as (v & Hv & Hlen). unfold df_get. rewrite Hv. ret.
    destruct (mul_rows_spec M1 T C v Hs Hlen) as (M & HM & HMs & Hget).
    exists M. split; [done|]. split; [done|]. intros t j. by rewrite Hget.
  - exists M1. split; [done|]. split; [done|]. intros t j.
    destruct (mget M1 t j); simpl; [f_equal; lia|done].
Qed.

Lemma comb_matrix_spec (T : nat) (e : Element) (d : inout) (l : list string)
    (param : option string) :
  (0 < T)%nat → combs e = Some l → has_param e param (T * length l) →
  ∃ M, comb_matrix T e d param = Ret M ∧ shape M T (T * length l) ∧
       ∀ t j, (t < T)%nat → (j < T * length l)%nat →
         mget M t j
         = Some (if decide (t * length l ≤ j < t * length l + length l)%nat
                 then flow_direction d * param_at e param j else 0).
Proof.
  intros HT Hcombs Hp. unfold comb_matrix, len_combs, range.
  rewrite Hcombs. ret. set (c := length l) in *.
  rewrite Nat.sub_0_r, np_hstack_fmap_seq by done. ret.
  rewrite seq_blocks.
  destruct (fancy_assign_spec (np_zeros T (T * c)) T (T * c)
              (i ← seq 0 T; replicate c i) (i ← seq 0 T; seq (i * c) c)
              (flow_direction d))
    as (M1 & HM1 & Hs1 & Hget1).
  - apply shape_zeros.
  - apply (length_blocks _ id (λ i, i * c)%nat (λ _, c)).
  - apply Forall_forall. intros r (i & Hr & Hi%elem_of_seq)%list_elem_of_bind.
    apply elem_of_replicate in Hr as [-> _]. lia.
  - rewrite <- seq_blocks. apply Forall_forall. intros j Hj%elem_of_seq. lia.
  - rewrite HM1. ret.
    destruct (scale_by_param M1 T (T * c) e param Hs1 Hp) as (M & HM & Hs & Hget).
    exists M. split; [done|]. split; [done|]. intros t j Ht Hj.
    rewrite Hget, Hget1, mget_zeros by done.
    pose proof (elem_of_zip_blocks (seq 0 T) id (λ i, i * c)%nat (λ _, c) t j)
      as Hzip. simpl in Hzip. unfold id in Hzip.
    destruct (decide (t * c ≤ j < t * c + c)%nat) as [Hin|Hout].
    + rewrite decide_True; [done|]. apply Hzip. exists t.
      split; [apply elem_of_seq; lia|]. done.
    + rewrite decide_False; [simpl; f_equal; lia|].
      intros (i & _ & -> & Hj')%Hzip. lia.
Qed.

Lemma cumulative_comb_matrix_entries (T : nat) (e : Element) (d : inout)
    (l : list string) (param : option string) :
  (0 < T)%nat → combs e = Some l → has_param e param (T * length l) →
  ∃ M, cumulative_comb_matrix T e d param = Ret M ∧ shape M T (T * length l) ∧
       ∀ t j, (t < T)%nat → (j < T * length l)%nat →
         mget M t j
         = Some (if decide (j < length l * (t + 1))%nat
                 then flow_direction d * param_at e param j else 0).
Proof.
  intros HT Hcombs Hp. unfold cumulative_comb_matrix, len_combs, range.
  rewrite Hcombs. ret. set (c := length l) in *.
  replace (T + 1 - 1)%nat with T by lia. rewrite Nat.sub_0_r.
  rewrite !np_hstack_fmap_seq by done. ret.
  rewrite (bind_seq_succ (λ i, seq 0 (c * i)) 0 T).
  destruct (fancy_assign_spec (np_zeros T (T * c)) T (T * c)
              (i ← seq 1 T; replicate (c * i) (i - 1)%nat)
              (i ← seq 1 T; seq 0 (c * i)) (flow_direction d))
    as (M1 & HM1 & Hs1 & Hget1).
  - apply shape_zeros.
  - apply (length_blocks _ (λ i, i - 1)%nat (λ _, 0%nat) (λ i, c * i)%nat).
  - apply Forall_forall. intros r (i & Hr & Hi%elem_of_seq)%list_elem_of_bind.
    apply elem_of_replicate in Hr as [-> _]. lia.
  - apply Forall_forall. intros j (i & Hj%elem_of_seq & Hi%elem_of_seq)%list_elem_of_bind.
    nia.
  - rewrite HM1. ret.
    destruct (scale_by_param M1 T (T * c) e param Hs1 Hp) as (M & HM & Hs & Hget).
    exists M. split; [done|]. split; [done|]. intros t j Ht Hj.
    rewrite Hget, Hget1, mget_zeros by done.
    pose proof (elem_of_zip_blocks (seq 1 T) (λ i, i - 1)%nat (λ _, 0%nat)
                  (λ i, c * i)%nat t j) as Hzip. simpl in Hzip.
    destruct (decide (j < c * (t + 1))%nat) as [Hin|Hout].
    + rewrite decide_True; [done|]. apply Hzip. exists (S t).
      split; [apply elem_of_seq; lia|]. split; [lia|]. nia.
    + rewrite decide_False; [simpl; f_equal; lia|].
      intros (i & Hi%elem_of_seq & -> & Hj')%Hzip.
      apply Hout. replace (i - 1 + 1)%nat with i by lia. lia.
Qed.

Lemma cumulative_not_comb_matrix_entries (T : nat) (d : inout) :
  ∃ M, cumulative_not_comb_matrix T d = Ret M ∧ shape M T T ∧
       ∀ t j, (t < T)%nat → (j < T)%nat →
         mget M t j = Some (if decide (j ≤ t)%nat then flow_direction d else 0).
Proof.
  unfold cumulative_not_comb_matrix, np_tril_indices.
  destruct (fancy_assign_spec (np_zeros T T) T T
              (i ← seq 0 T; replicate (S i) i) (i ← seq 0 T; seq 0 (S i))
              (flow_direction d))
    as (M & HM & Hs & Hget).
  - apply shape_zeros.
  - apply (length_blocks _ id (λ _, 0%nat) S).
  - apply Forall_forall. intros r (i & Hr & Hi%elem_of_seq)%list_elem_of_bind.
    apply elem_of_replicate in Hr as [-> _]. lia.
  - apply Forall_forall. intros j (i & Hj%elem_of_seq & Hi%elem_of_seq)%list_elem_of_bind.
    lia.
  - exists M. split; [done|]. split; [done|]. intros t j Ht Hj.
    rewrite Hget, mget_zeros by done.
    pose proof (elem_of_zip_blocks (seq 0 T) id (λ _, 0%nat) S t j) as Hzip.
    simpl in Hzip. unfold id in Hzip.
    destruct (decide (j ≤ t)%nat) as [Hin|Hout].
    + rewrite decide_True; [done|]. apply Hzip. exists t.
      split; [apply elem_of_seq; lia|]. split; [done | lia].
    + rewrite decide_False; [done|].
      intros (i & _ & -> & Hj')%Hzip. lia.
Qed.

(** The sum of values that vanish outside one place [k]. *)
Lemma sumZ_at (f : nat → Z) (n k : nat) (v : Z) :
  (∀ s, (s < n)%nat → f s = if decide (s = k) then v else 0) →
  sumZ (f <$> seq 0 n) = if decide (k < n)%nat then v else 0.
Proof.
  intros Hf. destruct (decide (k < n)%nat) as [Hk|Hk].
  - rewrite (sumZ_single f n k Hk).
    + rewrite Hf by done. by rewrite decide_True.
    + intros i Hi Hne. rewrite Hf by done. by rewrite decide_False.
  - apply sumZ_seq_zero. intros i Hi. rewrite Hf by lia.
    by rewrite decide_False by lia.
Qed.

(** X7: the cumulative matrices are the running totals of the per-step
    matrices.  On a horizon of at least one step, for an element with
    discrete states whose table has the parameter column, one entry per
    step and state, [comb_matrix] and [cumulative_comb_matrix] return
    matrices of [T] rows and one column per step and state: the entry of
    row [t] of the first is the direction times the parameter inside the
    block of step [t] and 0 outside, and every entry of row [t] of the
    second is the sum of that column of the first over the rows 0 to [t].
    For a continuous element [cumulative_not_comb_matrix] is in the same
    way the running total of [not_comb_matrix]. *)
Theorem cumulative_matrices_are_running_totals (T : nat) (e : Element)
    (d : inout) (l : list string) (param : option string) :
  (0 < T)%nat → combs e = Some l → has_param e param (T * length l) →
  (∃ M C,
     comb_matrix T e d param = Ret M ∧
     cumulative_comb_matrix T e d param = Ret C ∧
     shape M T (T * length l) ∧ shape C T (T * length l) ∧
     ∀ t j, (t < T)%nat → (j < T * length l)%nat →
       mget M t j
       = Some (if decide (t * length l ≤ j < t * length l + length l)%nat
               then flow_direction d * param_at e param j else 0) ∧
       mget C t j = Some (running_total M t j)) ∧
  (∃ C, cumulative_not_comb_matrix T d = Ret C ∧ shape C T T ∧
        ∀ t j, (t < T)%nat → (j < T)%nat →
          mget C t j = Some (running_total (not_comb_matrix T d) t j)).
Proof.
  intros HT Hcombs Hp. split.
  - destruct (comb_matrix_spec T e d l param HT Hcombs Hp)
      as (M & HM & HMs & HMget).
    destruct (cumulative_comb_matrix_entries T e d l param HT Hcombs Hp)
      as (C & HC & HCs & HCget).
    exists M, C. do 4 (split; [done|]). intros t j Ht Hj.
    split; [by apply HMget|]. rewrite HCget by done. f_equal.
    set (c := length l) in *. unfold running_total.
    assert (Hc : (0 < c)%nat) by nia.
    rewrite (sumZ_at _ (S t) (j / c)%nat (flow_direction d * param_at e param j)).
    + pose proof (Nat.div_mod_eq j c). pose proof (Nat.mod_upper_bound j c).
      destruct (decide (j < c * (t + 1))%nat);
        destruct (decide (j / c < S t)%nat); try done; nia.
    + intros s Hs. rewrite HMget by (done || lia). simpl.
      pose proof (Nat.div_mod_eq j c). pose proof (Nat.mod_upper_bound j c).
      destruct (decide (s * c ≤ j < s * c + c)%nat);
        destruct (decide (s = (j / c)%nat)); try done; nia.
  - destruct (cumulative_not_comb_matrix_entries T d) as (C & HC & HCs & HCget).
    exists C. do 2 (split; [done|]). intros t j Ht Hj.
    rewrite HCget by done. f_equal. unfold running_total.
    rewrite (sumZ_at _ (S t) j (flow_direction d)).
    + destruct (decide (j ≤ t)%nat); destruct (decide (j < S t)%nat);
        try done; lia.
    + intros s Hs. unfold not_comb_matrix.
      rewrite mget_scale_matrix, mget_eye by lia. simpl.
      destruct (decide (s = j)); f_equal; lia.
Qed.

Lemma cumulative_matrices_are_running_totals_witness :
  ∃ M C,
    comb_matrix 3 Example.p1 flow_in (Some "flow") = Ret M ∧
    cumulative_comb_matrix 3 Example.p1 flow_in (Some "flow") = Ret C ∧
    mget M 1 3 = Some 2 ∧ mget C 2 3 = Some (running_total M 2 3).
Proof.
  destruct (cumulative_matrices_are_running_totals 3 Example.p1 flow_in
              ["off"; "on"] (Some "flow"))
    as [(M & C & HM & HC & _ & _ & Hget) _].
  - lia.
  - reflexivity.
  - by eexists.
  - exists M, C. split; [exact HM|]. split; [exact HC|]. split.
    + destruct (Hget 1%nat 3%nat) as [H _]; [lia|simpl; lia|]. exact H.
    + destruct (Hget 2%nat 3%nat) as [_ H]; [lia|simpl; lia|]. exact H.
Defined.

(** X8: on an empty horizon the matrices of an element with discrete states
    cannot be built: [comb_matrix] and [cumulative_comb_matrix] stop with
    the [ValueError] of [np.hstack] of no array, while the matrices of a
    continuous element are simply empty.  An element without [combs] stops
    the two matrices of discrete states with an [AttributeError]. *)
Theorem matrices_on_empty_horizon (e : Element) (d : inout)
    (param : option string) :
  (is_Some (combs e) →
   comb_matrix 0 e d param = Raise ValueError ∧
   cumulative_comb_matrix 0 e d param = Raise ValueError) ∧
  (combs e = None → ∀ T,
   comb_matrix T e d param = Raise AttributeError ∧
   cumulative_comb_matrix T e d param = Raise AttributeError) ∧
  cumulative_not_comb_matrix 0 d = Ret [] ∧ not_comb_matrix 0 d = [].
Proof.
  split; [|split; [|done]].
  - intros [l Hl]. unfold comb_matrix, cumulative_comb_matrix, len_combs.
    by rewrite Hl.
  - intros Hl T. unfold comb_matrix, cumulative_comb_matrix, len_combs.
    by rewrite Hl.
Qed.

Lemma matrices_on_empty_horizon_witness :
  comb_matrix 0 Example.p1 flow_in (Some "flow") = Raise ValueError ∧
  cumulative_comb_matrix 0 Example.p1 flow_out None = Raise ValueError ∧
  comb_matrix 3 Example.v1 flow_in None = Raise AttributeError.
Proof.
  destruct (matrices_on_empty_horizon Example.p1 flow_in (Some "flow"))
    as (H1 & _ & _).
  destruct (matrices_on_empty_horizon Example.p1 flow_out None)
    as (H2 & _ & _).
  destruct (matrices_on_empty_horizon Example.v1 flow_in None)
    as (_ & H3 & _).
  split; [apply H1; by eexists|]. split; [apply H2; by eexists|].
  by apply H3.
Defined.

(** X9: [one_comb_only] does not survive an empty horizon.  With no step
    and a first discrete-state element that has [combs], it stops with the
    [ValueError] of [np.hstack], which is given no array to stack, before
    any constraint is built. *)
Theorem one_comb_only_on_empty_horizon (s : Sim) (m : Model) (k : string)
    (rest : list string) (e : Element) :
  num_steps s = 0%nat → x_size m = length (vars_name s) →
  comb_elements (network s) = k :: rest →
  (∀ k', k' ∈ k :: rest → is_Some (objects (network s) !! k')) →
  objects (network s) !! k = Some e → is_Some (combs e) →
  one_comb_only s m = Raise ValueError.
Proof.
  intros HT Hn Hcomb Hobjs He [l Hl]. unfold one_comb_only.
  destruct (items_Ret (network s) (comb_elements (network s)))
    as (its & Hits & HF).
  { by rewrite Hcomb. }
  rewrite Hits. ret. rewrite Hcomb in HF.
  apply Forall2_cons_inv_l in HF as (p & its' & [Hp1 Hp2] & _ & ->).
  cbn [for_each]. unfold one_comb. rewrite x_take_loc by done. ret.
  rewrite He in Hp2. injection Hp2 as <-.
  unfold len_combs. rewrite Hl. ret. by rewrite HT.
Qed.

Lemma one_comb_only_on_empty_horizon_witness :
  one_comb_only
    {| num_steps := 0; time_range := []; vars_name := []; vars_value := None;
       network := Example.net |}
    {| x_size := 0; z_rows := 0; z_cols := 1; depend := ∅; constraints := [] |}
  = Raise ValueError.
Proof.
  apply (one_comb_only_on_empty_horizon _ _ "p1" [] Example.p1).
  - reflexivity.
  - reflexivity.
  - reflexivity.
  - intros k' ->%list_elem_of_singleton. by eexists.
  - reflexivity.
  - by eexists.
Defined.

(** ** The declaration of the variables *)

Lemma comb_group_count (net : Network) (keys : list string) :
  (∀ k, k ∈ keys → ∃ e, objects net !! k = Some e ∧ is_Some (combs e)) →
  ∃ l cs, items net keys = Ret l ∧
          mapM (M := outcome) (λ p : string * Element, len_combs p.2) l = Ret cs ∧
          sum_list cs = sum_list_with (states_of net) keys.
Proof.
  unfold items. induction keys as [|k keys IH]; intros Hall.
  - by exists [], [].
  - destruct (Hall k) as (e & He & [l Hl]); [left|].
    destruct IH as (its & cs & Hits & Hcs & Hsum);
      [intros k' Hk'; apply Hall; by right|].
    exists ((k, e) :: its), (length l :: cs). simpl.
    rewrite (getitem_Some _ _ _ He). simpl. rewrite Hits. simpl.
    assert (len_combs e = Ret (length l)) as ->
      by (unfold len_combs; by rewrite Hl).
    simpl. rewrite Hcs. simpl.
    split; [done|]. split; [done|].
    rewrite Hsum. unfold states_of at 2. rewrite He. simpl.
    unfold state_count. by rewrite Hl.
Qed.

Lemma unit_group_count (net : Network) (keys : list string) :
  (∀ k, k ∈ keys → ∃ e, objects net !! k = Some e ∧ combs e = None) →
  length keys = sum_list_with (states_of net) keys.
Proof.
  induction keys as [|k keys IH]; intros Hall; [done|].
  destruct (Hall k) as (e & He & Hl); [left|]. simpl.
  rewrite <- IH by (intros k' Hk'; apply Hall; by right).
  unfold states_of. rewrite He. simpl. unfold state_count. by rewrite Hl.
Qed.

Lemma count_elements (net : Network) (elems : list Element) :
  (∀ e, e ∈ elems → objects net !! e_name e = Some e) →
  sum_list_with (states_of net) (e_name <$> elems) = sum_list_with state_count elems.
Proof.
  induction elems as [|e elems IH]; intros Hobj; [done|].
  rewrite fmap_cons. simpl. rewrite IH by (intros e' He'; apply Hobj; by right).
  unfold states_of. by rewrite (Hobj e) by left.
Qed.

Lemma length_layout_count (T : nat) (elems : list Element) :
  length (layout T elems) = (sum_list_with state_count elems * T)%nat.
Proof.
  induction elems as [|e elems IH]; [done|].
  rewrite layout_cons, length_app, length_replicate, IH. simpl.
  unfold block_size. lia.
Qed.

Lemma declare_variables_rows (s : Sim) (elems : list Element) :
  let net := network s in
  laid_out s elems →
  e_name <$> elems ≡ₚ pump_stations net ++ vsp net ++ wells net
                       ++ control_valves net ++ valves net →
  (∀ e, e ∈ elems → e_name e ∈ pump_stations net ++ control_valves net →
        is_Some (combs e)) →
  (∀ e, e ∈ elems → e_name e ∈ vsp net ++ wells net ++ valves net →
        combs e = None) →
  declare_variables s = Ret (length (vars_name s)).
Proof.
  intros net [Hnames Hnd Hobj] Hperm Hcomb Hunit.
  assert (Hgroup : ∀ k, k ∈ pump_stations net ++ vsp net ++ wells net
                            ++ control_valves net ++ valves net →
            ∃ e, e ∈ elems ∧ e_name e = k ∧ objects net !! k = Some e).
  { intros k Hk. rewrite <- Hperm in Hk.
    apply list_elem_of_fmap in Hk as (e & -> & He). exists e.
    split; [done|]. split; [done|]. by apply Hobj. }
  assert (Hc : ∀ keys, keys ⊆ pump_stations net ++ control_valves net →
            ∀ k, k ∈ keys → ∃ e, objects net !! k = Some e ∧ is_Some (combs e)).
  { intros keys Hsub k Hk. pose proof (Hsub _ Hk) as Hk'.
    destruct (Hgroup k) as (e & He & <- & Hobj').
    { rewrite !elem_of_app in *. tauto. }
    exists e. split; [done|]. by apply Hcomb. }
  assert (Hu : ∀ keys, keys ⊆ vsp net ++ wells net ++ valves net →
            ∀ k, k ∈ keys → ∃ e, objects net !! k = Some e ∧ combs e = None).
  { intros keys Hsub k Hk. pose proof (Hsub _ Hk) as Hk'.
    destruct (Hgroup k) as (e & He & <- & Hobj').
    { rewrite !elem_of_app in *. tauto. }
    exists e. split; [done|]. by apply Hunit. }
  unfold declare_variables. fold net.
  destruct (comb_group_count net (pump_stations net)) as (l1 & cs1 & -> & Hcs1 & Hs1);
    [apply Hc; intros k Hk; rewrite elem_of_app; tauto|].
  ret. rewrite Hcs1. ret.
  destruct (comb_group_count net (control_valves net)) as (l2 & cs2 & -> & Hcs2 & Hs2);
    [apply Hc; intros k Hk; rewrite elem_of_app; tauto|].
  ret. rewrite Hcs2. ret. f_equal.
  rewrite Hs1, Hs2.
  rewrite (unit_group_count net (vsp net)) by (apply Hu; intros k Hk; rewrite !elem_of_app; tauto).
  rewrite (unit_group_count net (wells net)) by (apply Hu; intros k Hk; rewrite !elem_of_app; tauto).
  rewrite (unit_group_count net (valves net)) by (apply Hu; intros k Hk; rewrite !elem_of_app; tauto).
  rewrite Hnames, length_layout_count. f_equal.
  rewrite <- (count_elements net) by done. rewrite Hperm.
  rewrite !sum_list_with_app. lia.
Qed.

Lemma comb_group_cases (net : Network) (keys : list string) :
  (∀ k, k ∈ keys → is_Some (objects net !! k)) →
  ∃ l, items net keys = Ret l ∧
       ((∀ k e, k ∈ keys → objects net !! k = Some e → is_Some (combs e)) ∧
        (∃ cs, mapM (M := outcome) (λ p : string * Element, len_combs p.2) l
               = Ret cs) ∨
        (∃ k e, k ∈ keys ∧ objects net !! k = Some e ∧ combs e = None) ∧
        mapM (M := outcome) (λ p : string * Element, len_combs p.2) l
        = Raise AttributeError).
Proof.
  unfold items. induction keys as [|k keys IH]; intros Hall.
  - exists []. split; [done|]. left. split; [by intros k e ?%elem_of_nil|].
    by exists [].
  - destruct (Hall k) as [e He]; [left|].
    destruct IH as (its & Hits & Hcases); [intros k' Hk'; apply Hall; by right|].
    exists ((k, e) :: its). simpl. rewrite (getitem_Some _ _ _ He). simpl.
    rewrite Hits. simpl. split; [done|].
    destruct (combs e) as [l|] eqn:Hl.
    + assert (len_combs e = Ret (length l)) as ->
        by (unfold len_combs; by rewrite Hl).
      simpl. destruct Hcases as [[Hsome [cs Hcs]]|[(k' & e' & Hk' & He' & Hn) Hr]].
      * left. split.
        -- intros k' e' [->|Hk']%elem_of_cons He'; [|by eapply Hsome].
           rewrite He in He'. injection He' as <-. by rewrite Hl.
        -- rewrite Hcs. by eexists.
      * right. split; [exists k', e'; split; [by right|done]|by rewrite Hr].
    + right. split; [exists k, e; split; [left|done]|].
      unfold len_combs. by rewrite Hl.
Qed.

(** X10: [declare_variables] asks for one decision per row of the table.
    When the table is laid out by element, its elements are, in any order,
    the pump stations, variable speed pumps, wells, control valves and
    valves of the network, the pump stations and control valves have
    [combs] and the other elements do not, the size it computes, the number
    of states of every pump station and control valve plus one for every
    other element, times the number of steps, is the number of rows of the
    decision table.  A pump station or a control valve without [combs]
    stops it with an [AttributeError]. *)
Theorem declare_variables_counts_rows (s : Sim) (elems : list Element) :
  let net := network s in
  (laid_out s elems →
   e_name <$> elems ≡ₚ pump_stations net ++ vsp net ++ wells net
                        ++ control_valves net ++ valves net →
   (∀ e, e ∈ elems → e_name e ∈ pump_stations net ++ control_valves net →
         is_Some (combs e)) →
   (∀ e, e ∈ elems → e_name e ∈ vsp net ++ wells net ++ valves net →
         combs e = None) →
   declare_variables s = Ret (length (vars_name s))) ∧
  ((∀ k, k ∈ pump_stations net ++ control_valves net →
         is_Some (objects net !! k)) →
   (∃ k e, k ∈ pump_stations net ++ control_valves net ∧
           objects net !! k = Some e ∧ combs e = None) →
   declare_variables s = Raise AttributeError).
Proof.
  intros net. split; [apply declare_variables_rows|].
  intros Hobj (k & e & Hk & He & Hnone). unfold declare_variables. fold net.
  destruct (comb_group_cases net (pump_stations net)) as (l1 & -> & H1);
    [intros k' Hk'; apply Hobj, elem_of_app; by left|].
  ret. destruct H1 as [[Hsome1 [cs1 ->]]|[_ ->]]; [|done]. ret.
  destruct (comb_group_cases net (control_valves net)) as (l2 & -> & H2);
    [intros k' Hk'; apply Hobj, elem_of_app; by right|].
  ret. destruct H2 as [[Hsome2 [cs2 ->]]|[_ ->]]; [|done].
  apply elem_of_app in Hk as [Hk|Hk].
  - destruct (Hsome1 k e Hk He) as [? ?]. congruence.
  - destruct (Hsome2 k e Hk He) as [? ?]. congruence.
Qed.

Lemma declare_variables_counts_rows_witness :
  declare_variables Example.sim0 = Ret 9%nat ∧
  declare_variables
    {| num_steps := 3; time_range := [10; 20; 30];
       vars_name := ["v1"; "v1"; "v1"]; vars_value := None;
       network :=
         {| objects := {["v1" := Costed.v1]};
            pump_stations := ["v1"]; vsp := []; wells := [];
            control_valves := []; valves := []; comb_elements := [];
            flow_elements := ["v1"]; tanks := [] |} |}
  = Raise AttributeError.
Proof.
  split.
  2:{ apply (declare_variables_counts_rows _ []).
      - intros k Hk. cbn in Hk. apply list_elem_of_singleton in Hk as ->.
        by eexists.
      - exists "v1", Costed.v1. split; [|by split].
        cbn. by apply list_elem_of_singleton. }
  destruct (declare_variables_counts_rows Example.sim0
              [Example.p1; Example.v1]) as [Hrows _].
  apply Hrows.
  - apply example_laid_out.
  - reflexivity.
  - intros e He Hin.
    apply elem_of_cons in He as [->|He]; [by eexists|].
    apply elem_of_cons in He as [->|He]; [|by apply elem_of_nil in He].
    apply (bool_decide_pack _) in Hin. by vm_compute in Hin.
  - intros e He Hin.
    apply elem_of_cons in He as [->|He].
    { apply (bool_decide_pack _) in Hin. by vm_compute in Hin. }
    apply elem_of_cons in He as [->|He]; [done|]. by apply elem_of_nil in He.
Defined.

(** ** The construction of the object *)

Lemma adapt_ldr_returns (s : Sim) (elems : list Element) (m : Model) :
  laid_out s elems → x_size m = length (vars_name s) → depend m = ∅ →
  ∃ m',
    adapt_ldr s m = Ret m' ∧
    x_size m' = x_size m ∧ z_rows m' = z_rows m ∧ z_cols m' = z_cols m ∧
    constraints m' = constraints m ∧
    ∀ i j, (i, j) ∈ depend m' ↔
      ∃ t, step_of (num_steps s) elems i = Some t ∧
           (j < t `min` z_rows m * z_cols m)%nat.
Proof.
  intros Hlaid Hsize Hempty. pose proof Hlaid as [Hnames Hnd Hobj].
  destruct (adapt_elements s elems m Hlaid Hsize elems [] m)
    as (m' & Hm' & Hrest); try done.
  { intros i j. rewrite Hempty. split; [by intros ?%elem_of_empty|].
    by intros (t & ? & _). }
  exists m'. split; [|done].
  assert (Hu : unique (vars_name s)
               = e_name <$> filter (λ e, (0 < block_size (num_steps s) e)%nat)
                              elems)
    by (rewrite Hnames; by apply unique_layout).
  unfold adapt_ldr. rewrite Hu. exact Hm'.
Qed.

Lemma get_nominal_demands_spec (s : Sim) (utanks : list string) (L : nat) :
  let selected := filter (λ p : string * Tank, t_name p.2 ∈ utanks)
                    (tanks (network s)) in
  selected ≠ [] →
  (∀ p, p ∈ selected →
     ∃ d, assoc "demand" (df_columns (t_vars p.2)) = Some d ∧ length d = L) →
  ∃ a, get_nominal_demands s utanks = Ret a ∧
       a_rows a = L ∧ a_cols a = length selected ∧
       length (a_data a) = L ∧
       ∀ t k p, (t < L)%nat → selected !! k = Some p →
         mget (a_data a) t k = Some (entry (demand_of p.2) t).
Proof.
  intros selected Hne Hdem. unfold get_nominal_demands. fold selected.
  rewrite (mapM_Ret _ (λ p, demand_of p.2)).
  2:{ intros p Hp. destruct (Hdem p Hp) as (d & Hd & _).
      unfold df_get, demand_of. by rewrite Hd. }
  ret.
  assert (Hlen : ∀ p, p ∈ selected → length (demand_of p.2) = L).
  { intros p Hp. destruct (Hdem p Hp) as (d & Hd & Hl).
    unfold demand_of. by rewrite Hd. }
  destruct selected as [|p0 rest] eqn:Hsel; [done|].
  rewrite fmap_cons. unfold np_vstack.
  rewrite bool_decide_true.
  2:{ apply Forall_fmap, Forall_forall. intros p Hp. simpl.
      rewrite (Hlen p0) by left. apply Hlen. by right. }
  ret. eexists. split; [reflexivity|].
  unfold np_transpose. cbn [a_rows a_cols a_data].
  rewrite (Hlen p0) by left.
  split; [done|]. split; [by rewrite length_cons, length_fmap|].
  split; [by rewrite length_fmap, length_seq|].
  intros t k p Ht Hk. unfold mget.
  rewrite list_lookup_fmap, lookup_seq_lt by done. simpl.
  destruct k as [|k]; simpl in Hk |- *; [by injection Hk as <-|].
  change (list_fmap (list Z) Z ?f ?l) with (f <$> l).
  by rewrite !list_lookup_fmap, Hk.
Qed.

Lemma init_returns (s : Sim) (lou : Z) (udata : gmap string UData)
    (demand : UData) (elems : list Element) (L : nat) :
  let net := network s in
  let selected := filter (λ p : string * Tank, t_name p.2 ∈ u_elements demand)
                    (tanks net) in
  udata !! "demand" = Some demand →
  selected ≠ [] →
  (∀ p, p ∈ selected →
     ∃ d, assoc "demand" (df_columns (t_vars p.2)) = Some d ∧ length d = L) →
  laid_out s elems →
  e_name <$> elems ≡ₚ pump_stations net ++ vsp net ++ wells net
                       ++ control_valves net ++ valves net →
  (∀ e, e ∈ elems → e_name e ∈ pump_stations net ++ control_valves net →
        is_Some (combs e)) →
  (∀ e, e ∈ elems → e_name e ∈ vsp net ++ wells net ++ valves net →
        combs e = None) →
  ∃ nominal m,
    init s lou udata
    = Ret ({| sim := s; lou := lou; udata := udata |}, nominal, m) ∧
    get_nominal_demands s (u_elements demand) = Ret nominal ∧
    adapt_ldr s {| x_size := length (vars_name s); z_rows := L;
                   z_cols := length selected; depend := ∅;
                   constraints := [] |} = Ret m.
Proof.
  intros net selected Hud Hne Hdem Hlaid Hperm Hcomb Hunit. unfold init.
  rewrite (getitem_Some _ _ _ Hud). ret.
  destruct (get_nominal_demands_spec s (u_elements demand) L Hne Hdem)
    as (a & Ha & Har & Hac & _ & Hdata).
  rewrite Ha. ret.
  pose proof (declare_variables_rows s elems Hlaid Hperm Hcomb Hunit) as Hdecl.
  rewrite Hdecl. ret. unfold declare_random_variables. cbv beta iota.
  rewrite Har, Hac. fold net. fold selected.
  destruct (adapt_ldr_returns s elems
              {| x_size := length (vars_name s); z_rows := L;
                 z_cols := length selected; depend := ∅; constraints := [] |}
              Hlaid eq_refl eq_refl)
    as (m' & Hm' & _).
  match goal with
  | |- context [adapt_ldr s ?m0] =>
      assert (Hgo : adapt_ldr s m0 = Ret m') by exact Hm'
  end.
  rewrite Hgo. ret. exists a, m'. by repeat split.
Qed.

(** X11: [__init__] declares a decision rule and a random variable that fit
    the builders.  When the uncertainty data has the demand, at least one
    tank is named by it, the named tanks have demand series of one length
    [L], and the table is laid out by element over the elements of the five
    groups (discrete states exactly for the pump stations and control
    valves), [__init__] returns: [x] has one decision per row of the table,
    [z] has the shape [(L, number of named tanks)] of the nominal demands,
    whose entry [(t, k)] is the demand of the [k]-th named tank at step [t],
    no constraint is declared, and the decision at a position of [x] may
    depend on the entry [j] of flattened [z] exactly when [j] lies in the
    rows of [z] before the step of the position. *)
Theorem init_declares_rule (s : Sim) (lou : Z) (udata : gmap string UData)
    (demand : UData) (elems : list Element) (L : nat) :
  let net := network s in
  let selected := filter (λ p : string * Tank, t_name p.2 ∈ u_elements demand)
                    (tanks net) in
  udata !! "demand" = Some demand →
  selected ≠ [] →
  (∀ p, p ∈ selected →
     ∃ d, assoc "demand" (df_columns (t_vars p.2)) = Some d ∧ length d = L) →
  laid_out s elems →
  e_name <$> elems ≡ₚ pump_stations net ++ vsp net ++ wells net
                       ++ control_valves net ++ valves net →
  (∀ e, e ∈ elems → e_name e ∈ pump_stations net ++ control_valves net →
        is_Some (combs e)) →
  (∀ e, e ∈ elems → e_name e ∈ vsp net ++ wells net ++ valves net →
        combs e = None) →
  ∃ nominal m,
    init s lou udata
    = Ret ({| sim := s; lou := lou; udata := udata |}, nominal, m) ∧
    x_size m = length (vars_name s) ∧
    z_rows m = L ∧ z_cols m = length selected ∧ constraints m = [] ∧
    (∀ t k p, (t < L)%nat → selected !! k = Some p →
       mget (a_data nominal) t k = Some (entry (demand_of p.2) t)) ∧
    ∀ i j, (i, j) ∈ depend m ↔
      ∃ t, step_of (num_steps s) elems i = Some t ∧
           (j < t `min` L * length selected)%nat.
Proof.
  intros net selected Hud Hne Hdem Hlaid Hperm Hcomb Hunit.
  destruct (init_returns s lou udata demand elems L Hud Hne Hdem Hlaid Hperm
              Hcomb Hunit) as (nominal & m & Hinit & Hnom & Hm).
  exists nominal, m. split; [done|].
  destruct (get_nominal_demands_spec s (u_elements demand) L Hne Hdem)
    as (a & Ha & _ & _ & _ & Hdata).
  rewrite Hnom in Ha. injection Ha as <-.
  destruct (adapt_ldr_returns s elems
              {| x_size := length (vars_name s); z_rows := L;
                 z_cols := length selected; depend := ∅; constraints := [] |}
              Hlaid eq_refl eq_refl)
    as (m' & Hm' & Hx & Hzr & Hzc & Hcs & Hdep).
  pose proof (eq_trans (eq_sym Hm) Hm') as Heq. injection Heq as <-.
  cbn [x_size z_rows z_cols constraints] in *.
  do 4 (split; [done|]). split; [exact Hdata|]. exact Hdep.
Qed.

Lemma init_declares_rule_witness :
  ∃ nominal m,
    init Example.sim0 2 (udata Example.aro_delta)
    = Ret (Example.aro_delta, nominal, m) ∧
    x_size m = 9%nat ∧ z_rows m = 3%nat ∧ z_cols m = 1%nat ∧
    mget (a_data nominal) 1 0 = Some 2 ∧
    ((7, 0)%nat ∈ depend m ↔ True) ∧ ((6, 0)%nat ∈ depend m ↔ False).
Proof.
  destruct (init_declares_rule Example.sim0 2 (udata Example.aro_delta)
              {| u_elements := ["t1"]; u_delta := Some [[0]] |}
              [Example.p1; Example.v1] 3)
    as (nominal & m & Hret & Hx & Hzr & Hzc & _ & Hdata & Hdep).
  - reflexivity.
  - done.
  - intros p [_ Hp]%list_elem_of_filter.
    change (tanks (network Example.sim0)) with [("t1", Example.t1)] in Hp.
    apply list_elem_of_singleton in Hp as ->. by eexists.
  - apply example_laid_out.
  - reflexivity.
  - intros e He Hin.
    apply elem_of_cons in He as [->|He]; [by eexists|].
    apply elem_of_cons in He as [->|He]; [|by apply elem_of_nil in He].
    apply (bool_decide_pack _) in Hin. by vm_compute in Hin.
  - intros e He Hin.
    apply elem_of_cons in He as [->|He].
    { apply (bool_decide_pack _) in Hin. by vm_compute in Hin. }
    apply elem_of_cons in He as [->|He]; [done|]. by apply elem_of_nil in He.
  - exists nominal, m. split; [exact Hret|].
    split; [exact Hx|]. split; [exact Hzr|]. split; [exact Hzc|].
    split; [apply (Hdata 1%nat 0%nat ("t1", Example.t1)); [lia|reflexivity]|].
    split.
    + split; [done|]. intros _. apply Hdep. exists 1%nat.
      split; [reflexivity|]. simpl. lia.
    + split; [|done]. intros (t & Ht & Hj)%Hdep.
      vm_compute in Ht. injection Ht as <-. simpl in Hj. lia.
Defined.

(** X12: [__init__] needs the demand among the uncertainty data and at
    least one tank named by it.  Without the key [demand] the constructor
    stops with a [KeyError]; with it, but with no tank of the network named
    by its elements, it stops with the [ValueError] of [np.vstack] of no
    array.  An object that the constructor returns therefore always has the
    key, and [build_mass_balance] never takes its branch for a missing
    key on such an object. *)
Theorem init_needs_uncertain_demand (s : Sim) (lou : Z)
    (ud : gmap string UData) :
  (ud !! "demand" = None → init s lou ud = Raise KeyError) ∧
  (∀ demand, ud !! "demand" = Some demand →
     filter (λ p : string * Tank, t_name p.2 ∈ u_elements demand)
       (tanks (network s)) = [] →
     init s lou ud = Raise ValueError) ∧
  (∀ self nominal m, init s lou ud = Ret (self, nominal, m) →
     sim self = s ∧ ∃ demand, udata self !! "demand" = Some demand ∧
     ∀ m0, build_mass_balance self m0
           = (m1 ← mass_balance self (uncertain_tanks self) (u_delta demand) m0;
              mass_balance self (deterministic_tanks self) None m1)).
Proof.
  split; [|split].
  - intros Hno. unfold init. by rewrite (getitem_None _ _ Hno).
  - intros demand Hd Hsel. unfold init, get_nominal_demands.
    rewrite (getitem_Some _ _ _ Hd). ret. by rewrite Hsel.
  - intros self nominal m. unfold init, getitem.
    destruct (ud !! "demand") as [demand|] eqn:Hd; [|done]. ret. intros H.
    apply bind_Ret_inv in H as (a & _ & H).
    apply bind_Ret_inv in H as (n & _ & H).
    destruct (declare_random_variables a) as [zr zc].
    apply bind_Ret_inv in H as (m' & _ & [= <- _ _]).
    split; [done|]. exists demand. split; [done|]. intros m0.
    unfold build_mass_balance, deterministic_tanks, uncertain_tanks.
    cbn [udata sim]. by rewrite Hd.
Qed.

Lemma init_needs_uncertain_demand_witness :
  init Example.sim0 2 ∅ = Raise KeyError ∧
  init Example.sim0 2 {["demand" := {| u_elements := ["t9"]; u_delta := None |}]}
  = Raise ValueError.
Proof.
  split.
  - destruct (init_needs_uncertain_demand Example.sim0 2 ∅) as (H & _).
    apply H. apply lookup_empty.
  - destruct (init_needs_uncertain_demand Example.sim0 2
      {["demand" := {| u_elements := ["t9"]; u_delta := None |}]})
      as (_ & H & _).
    apply (H {| u_elements := ["t9"]; u_delta := None |}); reflexivity.
Defined.

Lemma filter_ext_in {A} (P Q : A → Prop) `{∀ x, Decision (P x)}
    `{∀ x, Decision (Q x)} (l : list A) :
  (∀ x, x ∈ l → P x ↔ Q x) → filter P l = filter Q l.
Proof.
  induction l as [|a l IH]; intros HPQ; [done|].
  rewrite !filter_cons. rewrite IH by (intros x Hx; apply HPQ; by right).
  pose proof (HPQ a ltac:(left)) as Ha.
  destruct (decide (P a)), (decide (Q a)); tauto || done.
Qed.

(** On a horizon of two steps or more, a table with a row has a decision
    of the step 1. *)
Lemma step_of_one (T : nat) (elems : list Element) :
  (1 < T)%nat → layout T elems ≠ [] → ∃ i, step_of T elems i = Some 1%nat.
Proof.
  intros HT. induction elems as [|e elems IH]; [done|].
  unfold layout. rewrite bind_cons. fold (layout T elems). intros Hne.
  cbn [step_of].
  destruct (decide (0 < state_count e)%nat) as [Hc|Hc].
  - exists (state_count e). unfold block_size.
    rewrite decide_True by nia. by rewrite Nat.div_same by lia.
  - assert (Hb : block_size T e = 0%nat) by (unfold block_size; nia).
    rewrite Hb in *. simpl in Hne. destruct (IH Hne) as (i & Hi).
    exists i. rewrite decide_False by lia. by rewrite Nat.sub_0_r.
Qed.

(** X13: the model that [__init__] declares is one that
    [build_mass_balance] accepts.  Under the conditions of the declaration
    (table laid out over the five groups, uncertainty data with the
    demand), with at least two steps and a table that is not empty, so that
    the rule is adapted, every tank filed under its own name with a demand
    and a minimum volume per step, every element of the table a flow
    element with its flows, and at least one tank named by the uncertainty
    data, [__init__] returns and [build_mass_balance] on its result returns
    as well: the shape [(T, number of uncertain tanks)] that [z] was given
    has exactly one entry per row of the mass balance of the uncertain
    tanks, so that the product of [1 + lou * z] with the cumulative demands
    is well formed.  The uncertain tanks receive the two constraints for
    the sensitivity map of the data, the other tanks the two constraints
    without a map. *)
Theorem init_then_build_mass_balance (s : Sim) (lou : Z)
    (ud : gmap string UData) (demand : UData) (elems : list Element) :
  let net := network s in
  let T := num_steps s in
  let self := {| sim := s; lou := lou; udata := ud |} in
  ud !! "demand" = Some demand →
  uncertain_tanks self ≠ [] →
  (∀ p, p ∈ tanks net → t_name p.2 = p.1) →
  laid_out s elems →
  e_name <$> elems ≡ₚ pump_stations net ++ vsp net ++ wells net
                       ++ control_valves net ++ valves net →
  (∀ e, e ∈ elems → e_name e ∈ pump_stations net ++ control_valves net →
        is_Some (combs e)) →
  (∀ e, e ∈ elems → e_name e ∈ vsp net ++ wells net ++ valves net →
        combs e = None) →
  (1 < T)%nat → vars_name s ≠ [] →
  (∀ e, e ∈ elems → (0 < block_size T e)%nat →
     e_name e ∈ flow_elements net ∧
     ∀ l, combs e = Some l →
       ∃ fl, assoc "flow" (df_columns (e_vars e)) = Some fl ∧
             length fl = (T * length l)%nat) →
  (∀ p, p ∈ tanks net →
     (∃ d, assoc "demand" (df_columns (t_vars p.2)) = Some d ∧ length d = T) ∧
     length (min_vol p.2) = T ∧
     ∀ l, max_vol p.2 = Column l → length l = T) →
  ∃ nominal m m1 m2,
    init s lou ud = Ret (self, nominal, m) ∧ constraints m = [] ∧
    z_rows m = T ∧ z_cols m = length (uncertain_tanks self) ∧
    depend m ≠ ∅ ∧
    build_mass_balance self m = Ret m2 ∧
    balance_declared self elems (uncertain_tanks self) (u_delta demand) m m1 ∧
    balance_declared self elems (deterministic_tanks self) None m1 m2.
Proof.
  intros net T self Hud Hne Hkeys Hlaid Hperm Hcomb Hunit HT Hrows Hflow
    Htanks.
  assert (Hsel : filter (λ p : string * Tank, t_name p.2 ∈ u_elements demand)
                   (tanks net) = uncertain_tanks self).
  { unfold uncertain_tanks, self. cbn [udata sim]. rewrite Hud. fold net.
    apply filter_ext_in. intros p Hp. by rewrite Hkeys. }
  destruct (init_returns s lou ud demand elems T Hud)
    as (nominal & m & Hinit & _ & Hm); try done.
  { fold net. by rewrite Hsel. }
  { intros p Hp. apply list_elem_of_filter in Hp as [_ Hp].
    by destruct (Htanks p Hp) as [? _]. }
  match type of Hm with
  | adapt_ldr s ?m0 = _ =>
      destruct (adapt_ldr_returns s elems m0 Hlaid eq_refl eq_refl)
        as (m' & Hm' & Hx & Hzr & Hzc & Hcs & Hdep)
  end.
  pose proof (eq_trans (eq_sym Hm) Hm') as Heq. injection Heq as <-.
  cbn [x_size z_rows z_cols constraints] in Hx, Hzr, Hzc, Hcs, Hdep.
  fold net in Hzc, Hdep. rewrite Hsel in Hzc, Hdep.
  assert (Hready : balance_ready self elems (tanks (network (sim self))) m).
  { split; try done. unfold self. cbn [sim]. fold T. lia. }
  assert (Had : depend m ≠ ∅).
  { destruct (step_of_one T elems HT) as (i & Hi).
    { unfold T. by rewrite <- (lo_names _ _ Hlaid). }
    assert (Hin : (i, 0%nat) ∈ depend m).
    { apply Hdep. exists 1%nat. split; [done|].
      destruct (uncertain_tanks self); [done|]. cbn [length]. fold T. nia. }
    intros Hempty. rewrite Hempty in Hin. by apply elem_of_empty in Hin. }
  destruct (build_mass_balance_declared self elems m Hready)
    as (m1 & m2 & Hret & Hu & Hd).
  { by apply adapted_true. }
  { intros _ _. rewrite Hzr, Hzc. unfold self. cbn [sim]. fold T. lia. }
  exists nominal, m, m1, m2. do 6 (split; [done|]). split; [|done].
  unfold passed_map, self in Hu. cbn [udata] in Hu. by rewrite Hud in Hu.
Qed.

Lemma init_then_build_mass_balance_witness :
  ∃ nominal m m2,
    init Example.sim0 2 (udata Example.aro_delta)
    = Ret (Example.aro_delta, nominal, m) ∧
    build_mass_balance Example.aro_delta m = Ret m2 ∧
    length (constraints m2) = 2%nat.
Proof.
  destruct (init_then_build_mass_balance Example.sim0 2
              (udata Example.aro_delta)
              {| u_elements := ["t1"]; u_delta := Some [[0]] |}
              [Example.p1; Example.v1])
    as (nominal & m & m1 & m2 & Hinit & Hcs & _ & _ & _ & Hret & Hu & Hd).
  - reflexivity.
  - done.
  - intros p Hp.
    change (tanks (network Example.sim0)) with [("t1", Example.t1)] in Hp.
    by apply list_elem_of_singleton in Hp as ->.
  - apply example_laid_out.
  - reflexivity.
  - intros e He Hin.
    apply elem_of_cons in He as [->|He]; [by eexists|].
    apply elem_of_cons in He as [->|He]; [|by apply elem_of_nil in He].
    apply (bool_decide_pack _) in Hin. by vm_compute in Hin.
  - intros e He Hin.
    apply elem_of_cons in He as [->|He].
    { apply (bool_decide_pack _) in Hin. by vm_compute in Hin. }
    apply elem_of_cons in He as [->|He]; [done|]. by apply elem_of_nil in He.
  - simpl. lia.
  - done.
  - intros e He _.
    apply elem_of_cons in He as [->|He];
      [|apply elem_of_cons in He as [->|He]; [|by apply elem_of_nil in He]].
    + split; [apply (bool_decide_unpack _); by vm_compute|].
      intros l [= <-]. by eexists.
    + split; [apply (bool_decide_unpack _); by vm_compute|]. by intros l [=].
  - intros p Hp.
    change (tanks (network Example.sim0)) with [("t1", Example.t1)] in Hp.
    apply list_elem_of_singleton in Hp as ->.
    split; [by eexists|]. by split.
  - exists nominal, m, m2. split; [exact Hinit|]. split; [exact Hret|].
    change (uncertain_tanks _) with [("t1", Example.t1)] in Hu.
    change (deterministic_tanks _) with (@nil (string * Tank)) in Hd.
    cbn [balance_declared] in Hu, Hd.
    destruct Hu as (cmax & cmin & Hm1 & _). rewrite Hd, Hm1. cbn.
    by rewrite Hcs.
Defined.

(** ** The extracted values *)

Lemma write_loop_steps (x : list Z) (l : list string) (s s' : Sim) :
  for_each (write_value x) l s = Ret s' → num_steps s' = num_steps s.
Proof.
  revert s. induction l as [|n l IH]; intros s; cbn [for_each].
  - by intros [= <-].
  - intros (s1 & Hs1 & Hrest)%bind_Ret_inv. rewrite (IH _ Hrest).
    apply write_value_inv in Hs1 as (? & ? & ? & ? & ? & _ & _ & _ & _ & ->).
    done.
Qed.

Lemma get_results_inv (m : Model) (sol : Solution) (s s1 : Sim)
    (sample : option (list (list Z))) :
  get_results m sol s sample = Ret s1 →
  ∃ x, retrieve_decision_vars m sol sample = Ret x ∧
       length x = length (vars_name s) ∧
       vars_name s1 = vars_name s ∧ num_steps s1 = num_steps s ∧
       vars_value s1 = Some x ∧
       ∀ name, name ∈ vars_name s → written x s1 name.
Proof.
  unfold get_results. intros H.
  apply bind_Ret_inv in H as (x & Hx & H).
  apply bind_Ret_inv in H as (sA & HA & H).
  apply bind_Ret_inv in H as (sB & HB & H).
  exists x. split; [done|].
  pose proof (write_loop_steps _ _ _ _ HA) as HT.
  apply write_loop_written in HA as (Hnames & _ & Hwritten).
  unfold write_flat in HB.
  destruct (bool_decide_reflect (length x = length (vars_name sA))) as [Hlen|];
    [|done].
  injection HB as <-.
  apply tanks_balance_inv in H as (tanks' & _ & ->).
  cbn [vars_value vars_name num_steps].
  split; [congruence|]. split; [done|]. split; [done|]. split; [done|].
  intros name Hname. apply (written_same x sA); [done|done|].
  apply Hwritten. by apply (proj2 (elem_of_unique _ _)).
Qed.

Lemma written_value_of (x : list Z) (s : Sim) (T : nat) (pre post : list Element)
    (e : Element) :
  vars_name s = layout T (pre ++ e :: post) →
  NoDup (e_name <$> (pre ++ e :: post)) →
  (0 < block_size T e)%nat → length x = length (vars_name s) →
  written x s (e_name e) →
  value_of s (e_name e)
  = take (block_size T e) (drop (length (layout T pre)) x).
Proof.
  intros Hnames Hnd Hpos Hlen (xmin & xmax & e' & a & w & Hidx & He & Hsl & _ & Hval).
  rewrite Hnames, get_x_idx_layout in Hidx by done.
  injection Hidx as <- <-.
  rewrite slice_bounds_in_range in Hsl.
  2:{ lia. }
  2:{ rewrite Hlen, Hnames, layout_app, layout_cons, !length_app,
        length_replicate. lia. }
  injection Hsl as <- <-.
  unfold value_of. rewrite He. simpl. rewrite Hval. simpl.
  f_equal. lia.
Qed.

Lemma values_concat (x : list Z) (s : Sim) (T : nat) (elems : list Element) :
  vars_name s = layout T elems → NoDup (e_name <$> elems) →
  length x = length (vars_name s) →
  (∀ name, name ∈ vars_name s → written x s name) →
  ∀ rest pre, elems = pre ++ rest →
    concat ((λ e, value_of s (e_name e))
              <$> filter (λ e, (0 < block_size T e)%nat) rest)
    = drop (length (layout T pre)) x.
Proof.
  intros Hnames Hnd Hlen Hwritten.
  induction rest as [|e rest IH]; intros pre Helems.
  - rewrite app_nil_r in Helems. subst pre. simpl.
    rewrite drop_ge; [done|]. rewrite Hlen, Hnames. done.
  - specialize (IH (pre ++ [e])). rewrite <- app_assoc in IH.
    specialize (IH Helems). rewrite filter_cons.
    rewrite layout_app, length_app in IH.
    assert (Hl : length (layout T [e]) = block_size T e)
      by (by rewrite (layout_cons T e []), length_app, length_replicate,
            Nat.add_0_r).
    rewrite Hl in IH.
    destruct (decide (0 < block_size T e)%nat) as [Hpos|Hzero].
    + rewrite fmap_cons, concat_cons, IH.
      rewrite (written_value_of x s T pre rest e); try done; try congruence.
      * rewrite <- drop_drop. apply take_drop.
      * apply Hwritten. rewrite Hnames, Helems, layout_app, layout_cons.
        apply elem_of_app. right. apply elem_of_app. left.
        apply elem_of_replicate. split; [done|lia].
    + rewrite IH. f_equal. lia.
Qed.

(** X14: the values that [get_results] writes partition the decision
    vector.  For a table laid out by element, whenever the extraction
    returns, the flat column [value] of the table is the vector of the
    decisions at the realization, and the value series of the elements,
    taken in the order of the table and put end to end, are that vector
    again: every decision is written to exactly one element, in order. *)
Theorem get_results_values_partition (m : Model) (sol : Solution) (s s1 : Sim)
    (sample : option (list (list Z))) (elems : list Element) :
  laid_out s elems →
  get_results m sol s sample = Ret s1 →
  ∃ x,
    retrieve_decision_vars m sol sample = Ret x ∧
    vars_value s1 = Some x ∧ length x = length (vars_name s1) ∧
    concat ((λ e, value_of s1 (e_name e))
              <$> filter (λ e, (0 < block_size (num_steps s) e)%nat) elems)
    = x.
Proof.
  intros [Hnames Hnd Hobj] Hret.
  apply get_results_inv in Hret as (x & Hx & Hlen & Hn1 & HT1 & Hflat & Hwritten).
  exists x. split; [done|]. split; [done|]. split; [congruence|].
  rewrite (values_concat x s1 (num_steps s) elems) with (pre := []);
    try done; try congruence.
  intros name Hname. apply Hwritten. by rewrite <- Hn1.
Qed.

Lemma get_results_values_partition_witness :
  ∃ s1,
    get_results Example.m0 (Example.answer 2) Example.sim0 None = Ret s1 ∧
    value_of s1 "p1" ++ value_of s1 "v1" = [1; 0; 0; 1; 1; 0; 3; 4; 5].
Proof.
  destruct (get_results Example.m0 (Example.answer 2) Example.sim0 None)
    as [s1|e] eqn:Hret; [|vm_compute in Hret; discriminate].
  destruct (get_results_values_partition _ _ _ _ _ [Example.p1; Example.v1]
              example_laid_out Hret) as (x & Hx & _ & _ & Hcat).
  assert (x = [1; 0; 0; 1; 1; 0; 3; 4; 5]) as ->
    by (vm_compute in Hx; congruence).
  exists s1. split; [reflexivity|].
  assert (Hf : filter (λ e, (0 < block_size (num_steps Example.sim0) e)%nat)
                 [Example.p1; Example.v1] = [Example.p1; Example.v1])
    by reflexivity.
  rewrite Hf in Hcat. rewrite <- Hcat.
  change (value_of s1 "p1" ++ value_of s1 "v1"
          = value_of s1 "p1" ++ value_of s1 "v1" ++ []).
  by rewrite app_nil_r.
Defined.

(** ** The objective *)

Lemma objective_loop (s : Sim) (m : Model) (l : list (string * Element))
    (obj0 : affine) :
  x_size m = length (vars_name s) →
  (∀ p, p ∈ l →
     objects (network s) !! p.1 = Some p.2 ∧ p.1 ∈ vars_name s ∧
     ∃ (a b : nat) cost,
       Index.get_x_idx (vars_name s) p.1
       = Ret (Int (Z.of_nat a), Int (Z.of_nat b)) ∧
       assoc "cost" (df_columns (e_vars p.2)) = Some cost ∧
       length cost = (b - a)%nat) →
  ∃ obj,
    for_each (λ obj (item : string * Element),
        '(xmin_idx, xmax_idx) ← Index.get_x_idx (vars_name s) item.1;
        cost ← df_get (e_vars item.2) "cost";
        ix ← x_slice m xmin_idx xmax_idx;
        term ← dot cost (aff_x <$> ix);
        mret (aff_add obj term)) l obj0 = Ret obj ∧
    ∀ xv zv, eval xv zv obj
             = eval xv zv obj0 + sumZ ((λ p, element_cost s xv p.1) <$> l).
Proof.
  intros Hn. revert obj0. induction l as [|p l IH]; intros obj0 Hl.
  - exists obj0. split; [done|]. intros xv zv. unfold sumZ. simpl. lia.
  - destruct (Hl p) as (Hobj & Hin & a & b & cost & Hidx & Hcost & Hlen);
      [left|].
    destruct (get_x_idx_present (vars_name s) p.1 Hin) as (a' & b' & Hidx' & Hab).
    rewrite Hidx in Hidx'. injection Hidx' as Ha Hb.
    apply Nat2Z.inj in Ha, Hb. subst a' b'.
    cbn [for_each]. rewrite Hidx. ret. unfold df_get. rewrite Hcost. ret.
    rewrite x_slice_in_range by lia. ret. unfold dot.
    rewrite bool_decide_true by (by rewrite length_fmap, length_seq). ret.
    destruct (IH (aff_add obj0 (lincomb cost (aff_x <$> seq a (b - a)))))
      as (obj & Hobj' & Heval); [intros q Hq; apply Hl; by right|].
    exists obj. split; [done|]. intros xv zv.
    rewrite Heval, eval_add, fmap_cons, sumZ_cons.
    rewrite eval_lincomb_x by (by rewrite length_seq).
    assert (Hec : element_cost s xv p.1
                  = sumZ ((λ j, entry cost j
                                * from_option (entry xv) 0 (seq a (b - a) !! j))
                            <$> seq 0 (length cost))).
    { unfold element_cost. rewrite Hobj.
      unfold Index.get_x_idx in Hidx.
      destruct (Index.index_min (Index.loc (vars_name s) p.1)) as [|a0];
        [done|].
      injection Hidx as -> _. rewrite Hcost. simpl. apply sumZ_ext.
      intros j Hj%elem_of_seq. rewrite lookup_seq_lt by lia. simpl.
      by rewrite Nat2Z.id. }
    rewrite Hec. lia.
Qed.

(** X15: the objective is the total cost of the decisions.  With one
    decision per row, when every cost element is an object of the network
    with rows in the table and a column [cost] of one entry per decision of
    its range, [objective_func] returns, the nominal uncertainty set goes
    to [minmax] exactly when [worst_case] is false, and the value of the
    objective at any decisions is the sum, over the cost elements, of the
    costs times the decisions of the element; the realization of [z]
    enters the objective only through the decisions. *)
Theorem objective_is_total_cost (s : Sim) (m : Model)
    (cost_elements : list string) (worst_case : bool) :
  x_size m = length (vars_name s) →
  (∀ k, k ∈ cost_elements →
     k ∈ vars_name s ∧
     ∃ e (a b : nat) cost,
       objects (network s) !! k = Some e ∧
       Index.get_x_idx (vars_name s) k
       = Ret (Int (Z.of_nat a), Int (Z.of_nat b)) ∧
       assoc "cost" (df_columns (e_vars e)) = Some cost ∧
       length cost = (b - a)%nat) →
  ∃ obj,
    objective_func s m cost_elements worst_case = Ret (obj, negb worst_case) ∧
    ∀ xv zv zv',
      eval xv zv obj = sumZ (element_cost s xv <$> cost_elements) ∧
      eval xv zv' obj = eval xv zv obj.
Proof.
  intros Hn Hcost. unfold objective_func.
  destruct (items_Ret (network s) cost_elements) as (l & Hl & HF).
  { intros k Hk. destruct (Hcost k Hk) as (_ & e & _ & _ & _ & He & _).
    by exists e. }
  rewrite Hl. ret.
  destruct (objective_loop s m l (aff_const 0) Hn) as (obj & Hobj & Heval).
  { intros p Hp. apply list_elem_of_lookup in Hp as [i Hi].
    destruct (Forall2_lookup_r _ _ _ _ _ HF Hi) as (k & Hk & <- & Hobj).
    destruct (Hcost p.1) as (Hin & e & a & b & cost & He & Hidx & Hc & Hlen);
      [by eapply list_elem_of_lookup_2|].
    split; [done|]. split; [done|]. exists a, b, cost.
    rewrite He in Hobj. injection Hobj as <-. done. }
  rewrite Hobj. ret. exists obj. split; [done|].
  assert (Hl' : ∀ xv, (λ p : string * Element, element_cost s xv p.1) <$> l
                      = element_cost s xv <$> cost_elements).
  { intros xv. clear -HF. induction HF as [|k p ks ps [<- _] HF IH]; [done|].
    by rewrite !fmap_cons, IH. }
  intros xv zv zv'. rewrite !Heval, !eval_const, Hl'. split; lia.
Qed.

Lemma objective_is_total_cost_witness :
  ∃ obj,
    objective_func Costed.sim1 Costed.m1 ["v1"] false = Ret (obj, true) ∧
    eval [1; 2; 3] [0; 0; 0] obj = 38.
Proof.
  destruct (objective_is_total_cost Costed.sim1 Costed.m1 ["v1"] false)
    as (obj & Hobj & Heval).
  - reflexivity.
  - intros k ->%list_elem_of_singleton.
    split; [apply (bool_decide_unpack _); by vm_compute|].
    exists Costed.v1, 0%nat, 3%nat, [5; 6; 7]. by repeat split.
  - exists obj. split; [exact Hobj|].
    destruct (Heval [1; 2; 3] [0; 0; 0] [0; 0; 0]) as [-> _]. reflexivity.
Defined.

(** ** The balance of the tanks *)

(** *** Joins on a shared index *)

Lemma omap_as_filter {A B} (P : A → Prop) `{∀ a, Decision (P a)} (h : A → B)
    (l : list A) :
  omap (λ a, if bool_decide (P a) then Some (h a) else None) l
  = h <$> filter P l.
Proof.
  induction l as [|a l IH]; [done|]. rewrite filter_cons.
  set (f := λ a, if bool_decide (P a) then Some (h a) else None) in *.
  change (omap f (a :: l))
    with (match f a with Some y => y :: omap f l | None => omap f l end).
  unfold f at 1. case_bool_decide.
  - rewrite decide_True by done. by rewrite fmap_cons, IH.
  - by rewrite decide_False.
Qed.

Lemma bind_as_filter {A B} (P : A → Prop) `{∀ a, Decision (P a)} (h : A → B)
    (l : list A) :
  (a ← l; if bool_decide (P a) then [h a] else []) = h <$> filter P l.
Proof.
  induction l as [|a l IH]; [done|]. rewrite filter_cons, bind_cons, IH.
  case_bool_decide.
  - by rewrite decide_True.
  - by rewrite decide_False.
Qed.

Lemma filter_key_absent (keys vals : list Z) (t : Z) :
  t ∉ keys → filter (λ p : Z * Z, p.1 = t) (zip keys vals) = [].
Proof.
  revert vals. induction keys as [|k keys IH]; intros [|v vals] Hno; try done.
  apply not_elem_of_cons in Hno as [Hne Hno]. simpl zip.
  rewrite filter_cons. simpl. rewrite decide_False by done. by apply IH.
Qed.

Lemma filter_key_unique (keys vals : list Z) (i : nat) (t : Z) :
  NoDup keys → keys !! i = Some t → length vals = length keys →
  filter (λ p : Z * Z, p.1 = t) (zip keys vals) = [(t, entry vals i)].
Proof.
  revert vals i. induction keys as [|k keys IH]; intros [|v vals] i Hnd Hi Hlen;
    try done.
  apply NoDup_cons in Hnd as [Hk Hnd]. simpl zip. rewrite filter_cons. simpl.
  destruct i as [|i]; simpl in Hi.
  - injection Hi as ->. rewrite decide_True by done.
    by rewrite filter_key_absent.
  - rewrite decide_False.
    + change (entry (v :: vals) (S i)) with (entry vals i).
      apply IH; [done|done|]. simpl in Hlen. lia.
    + intros ->. apply Hk. by eapply list_elem_of_lookup_2.
Qed.

Lemma bind_ext_in {A B} (f g : A → list B) (l : list A) :
  (∀ a, a ∈ l → f a = g a) → l ≫= f = l ≫= g.
Proof.
  induction l as [|a l IH]; intros H; [done|].
  rewrite !bind_cons, (H a) by left. f_equal. apply IH.
  intros b Hb. apply H. by right.
Qed.

Lemma bind_singleton_fmap {A B} (f : A → B) (l : list A) :
  (a ← l; [f a]) = f <$> l.
Proof. induction l as [|a l IH]; [done|]. by rewrite bind_cons, IH. Qed.

Lemma imap_index {A B} (g : nat → B) (l : list A) :
  imap (λ i _, g i) l = g <$> seq 0 (length l).
Proof. apply imap_seq_0. Qed.

Lemma fmap_seq_lookup (l : list Z) :
  (λ i, default 0 (l !! i)) <$> seq 0 (length l) = l.
Proof.
  apply list_eq. intros i. rewrite list_lookup_fmap.
  destruct (decide (i < length l)%nat) as [Hi|Hi].
  - rewrite lookup_seq_lt by done. simpl.
    by destruct (lookup_lt_is_Some_2 l i Hi) as [a ->].
  - rewrite lookup_seq_ge by lia. simpl. symmetry. apply lookup_ge_None. lia.
Qed.

(** A join with a series over the index of the table keeps the rows and
    appends the series as a column. *)
Lemma merge_same_index (df : DataFrame) (name : string) (vals : list Z) :
  NoDup (df_index df) →
  Forall (λ c : string * list Z, length c.2 = length (df_index df))
    (df_columns df) →
  length vals = length (df_index df) →
  merge df name (df_index df) vals
  = {| df_index := df_index df;
       df_columns := df_columns df ++ [(name, vals)] |}.
Proof.
  intros Hnd Hcols Hlen. unfold merge.
  set (idx := df_index df) in *.
  assert (Hrows :
    (p ← imap pair idx;
     q ← zip idx vals;
     if bool_decide (q.1 = p.2) then [(p.1, p.2, q.2)] else [])
    = imap (λ i t, (i, t, entry vals i)) idx).
  { rewrite (bind_ext_in _ (λ p : nat * Z, [(p.1, p.2, entry vals p.1)])).
    - rewrite bind_singleton_fmap, fmap_imap. done.
    - intros [i t] Hp. apply elem_of_lookup_imap in Hp as (i' & t' & [= <- <-] & Hi).
      simpl. rewrite (bind_as_filter (λ q : Z * Z, q.1 = t)
                        (λ q, (i, t, q.2))).
      by rewrite (filter_key_unique idx vals i t). }
  rewrite Hrows. f_equal.
  - rewrite fmap_imap. unfold compose. simpl.
    change (imap (λ (_ : nat) (x : Z), x) idx) with (imap (const id) idx).
    by rewrite imap_const, list_fmap_id.
  - f_equal.
    + rewrite <- (list_fmap_id (df_columns df)) at 2.
      apply Forall_fmap_ext_1. eapply Forall_impl; [exact Hcols|].
      intros [c v] Hv. simpl in *. f_equal.
      rewrite fmap_imap. unfold compose. simpl.
      rewrite (imap_index (λ i, default 0 (v !! i))), <- Hv.
      apply fmap_seq_lookup.
    + do 2 f_equal. rewrite fmap_imap. unfold compose. simpl.
      rewrite (imap_index (entry vals)), <- Hlen. apply fmap_seq_lookup.
Qed.

(** A series over distinct labels is aligned with its own index as it
    is. *)
Lemma align_same_index (keys vals : list Z) :
  NoDup keys → length vals = length keys → align keys vals keys = Ret vals.
Proof.
  intros Hnd Hlen. unfold align.
  rewrite (mapM_Ret _ (λ t, sumZ (snd <$> filter (λ p : Z * Z, p.1 = t)
                                     (zip keys vals)))).
  - f_equal. apply list_eq. intros i. rewrite list_lookup_fmap.
    destruct (keys !! i) as [t|] eqn:Hi; simpl.
    + rewrite (filter_key_unique keys vals i t) by done. simpl.
      rewrite sumZ_cons. unfold sumZ at 1. simpl. rewrite Z.add_0_r.
      symmetry. apply lookup_entry. rewrite Hlen. by eapply lookup_lt_Some.
    + symmetry. apply lookup_ge_None. apply lookup_ge_None in Hi. lia.
  - intros t Ht. apply list_elem_of_lookup in Ht as [i Hi].
    rewrite (omap_as_filter (λ p : Z * Z, p.1 = t) snd).
    rewrite (filter_key_unique keys vals i t) by done. simpl.
    rewrite sumZ_cons. unfold sumZ. simpl. f_equal. lia.
Qed.

(** *** The contributions of the elements *)

Lemma groupby_sum_spec (s : Sim) (k : string) (x : Element) (fl v : list Z) :
  objects (network s) !! k = Some x →
  assoc "flow" (df_columns (e_vars x)) = Some fl →
  assoc "value" (df_columns (e_vars x)) = Some v →
  merge_sort Z.le (remove_dups (df_index (e_vars x))) = time_range s →
  groupby_sum (df_index (e_vars x)) (zip_with Z.mul fl v)
  = (time_range s, comb_flow_at s k <$> time_range s).
Proof.
  intros Hx Hfl Hv Htimes. unfold groupby_sum. rewrite Htimes. f_equal.
  apply list_fmap_ext. intros i t _. unfold comb_flow_at, flow_of, value_of.
  rewrite Hx. simpl. by rewrite Hfl, Hv.
Qed.

Lemma merge_comb_loop (s : Sim) (sign : Z) (names : list string)
    (df : DataFrame) :
  NoDup (time_range s) → df_index df = time_range s →
  Forall (λ c : string * list Z, length c.2 = length (time_range s))
    (df_columns df) →
  (∀ k, k ∈ names →
     ∃ x fl v, objects (network s) !! k = Some x ∧
               assoc "flow" (df_columns (e_vars x)) = Some fl ∧
               assoc "value" (df_columns (e_vars x)) = Some v ∧
               merge_sort Z.le (remove_dups (df_index (e_vars x)))
               = time_range s) →
  ∃ cols,
    for_each (merge_comb s sign) names df
    = Ret {| df_index := time_range s; df_columns := df_columns df ++ cols |} ∧
    Forall2 (λ k (c : string * list Z),
               c.2 = (λ t, sign * comb_flow_at s k t) <$> time_range s)
      names cols.
Proof.
  intros Hnd. revert df. induction names as [|k names IH];
    intros df Hidx Hcols Hnames.
  - exists []. split; [|constructor]. cbn [for_each].
    rewrite app_nil_r, <- Hidx. by destruct df.
  - destruct (Hnames k) as (x & fl & v & Hx & Hfl & Hv & Htimes); [left|].
    assert (Hstep : merge_comb s sign df k
              = Ret {| df_index := df_index df;
                       df_columns := df_columns df
                         ++ [(e_name x, Z.mul sign
                                <$> (comb_flow_at s k <$> time_range s))] |}).
    { unfold merge_comb. rewrite (getitem_Some _ _ _ Hx). ret. unfold df_get.
      rewrite Hfl, Hv. ret.
      rewrite (groupby_sum_spec s k x fl v Hx Hfl Hv Htimes). cbn [fst snd].
      rewrite <- Hidx at 1. rewrite merge_same_index; [done| | |].
      - by rewrite Hidx.
      - by rewrite Hidx.
      - by rewrite !length_fmap, Hidx. }
    cbn [for_each]. rewrite Hstep. ret.
    destruct (IH {| df_index := df_index df;
                    df_columns := df_columns df
                      ++ [(e_name x, Z.mul sign <$> (comb_flow_at s k <$> time_range s))] |})
      as (cols & Hloop & HF).
    + done.
    + apply Forall_app. split; [done|]. constructor; [|constructor].
      simpl. by rewrite !length_fmap.
    + intros k' Hk'. apply Hnames. by right.
    + eexists (_ :: cols). rewrite Hloop. cbn [df_columns].
      rewrite <- app_assoc. split; [reflexivity|].
      constructor; [|done]. simpl. by rewrite <- list_fmap_compose.
Qed.

Lemma merge_value_loop (s : Sim) (sign : Z) (names : list string)
    (df : DataFrame) :
  NoDup (time_range s) → df_index df = time_range s →
  Forall (λ c : string * list Z, length c.2 = length (time_range s))
    (df_columns df) →
  (∀ k, k ∈ names →
     ∃ x v, objects (network s) !! k = Some x ∧
            assoc "value" (df_columns (e_vars x)) = Some v ∧
            length v = length (time_range s) ∧
            df_index (e_vars x) = time_range s) →
  ∃ cols,
    for_each (merge_value s sign) names df
    = Ret {| df_index := time_range s; df_columns := df_columns df ++ cols |} ∧
    Forall2 (λ k (c : string * list Z), c.2 = Z.mul sign <$> value_of s k)
      names cols.
Proof.
  intros Hnd. revert df. induction names as [|k names IH];
    intros df Hidx Hcols Hnames.
  - exists []. split; [|constructor]. cbn [for_each].
    rewrite app_nil_r, <- Hidx. by destruct df.
  - destruct (Hnames k) as (x & v & Hx & Hv & Hlen & Hxi); [left|].
    assert (Hstep : merge_value s sign df k
              = Ret {| df_index := df_index df;
                       df_columns := df_columns df
                         ++ [(e_name x, Z.mul sign <$> v)] |}).
    { unfold merge_value. rewrite (getitem_Some _ _ _ Hx). ret. unfold df_get.
      rewrite Hv. ret.
      rewrite Hxi. rewrite <- Hidx at 1. rewrite merge_same_index; [done| | |].
      - by rewrite Hidx.
      - by rewrite Hidx.
      - by rewrite length_fmap, Hidx. }
    cbn [for_each]. rewrite Hstep. ret.
    destruct (IH {| df_index := df_index df;
                    df_columns := df_columns df
                      ++ [(e_name x, Z.mul sign <$> v)] |})
      as (cols & Hloop & HF).
    + done.
    + apply Forall_app. split; [done|]. constructor; [|constructor].
      simpl. by rewrite length_fmap.
    + intros k' Hk'. apply Hnames. by right.
    + eexists (_ :: cols). rewrite Hloop. cbn [df_columns].
      rewrite <- app_assoc. split; [reflexivity|].
      constructor; [|done]. simpl. unfold value_of. rewrite Hx. simpl.
      by rewrite Hv.
Qed.

Lemma column_sum (names : list string) (cols : list (string * list Z))
    (g : string → list Z) (i : nat) :
  Forall2 (λ k (c : string * list Z), c.2 = g k) names cols →
  sumZ ((λ c : string * list Z, default 0 (c.2 !! i)) <$> cols)
  = sumZ ((λ k, entry (g k) i) <$> names).
Proof.
  induction 1 as [|k c names cols Hc HF IH]; [done|].
  by rewrite !fmap_cons, !sumZ_cons, IH, Hc.
Qed.

Lemma cumsum_from_entry (acc : Z) (l : list Z) (i : nat) :
  (i < length l)%nat →
  entry (cumsum_from acc l) i = acc + sumZ (entry l <$> seq 0 (S i)).
Proof.
  revert acc i. induction l as [|a l IH]; intros acc i Hi; [simpl in Hi; lia|].
  destruct i as [|i].
  - unfold entry, sumZ. simpl. lia.
  - change (entry (cumsum_from acc (a :: l)) (S i))
      with (entry (cumsum_from (acc + a) l) i).
    rewrite IH by (simpl in Hi; lia).
    change (seq 0 (S (S i))) with (0%nat :: seq 1 (S i)).
    rewrite fmap_cons, sumZ_cons.
    rewrite <- (fmap_S_seq 0), <- list_fmap_compose.
    change (entry (a :: l) 0) with a.
    change (entry (a :: l) ∘ S) with (entry l). lia.
Qed.

(** *** One tank *)

Lemma tank_balance_spec (s : Sim) (item : string * Tank) :
  balanceable s item.2 →
  ∃ t' inflow value,
    tank_balance s item = Ret (item.1, t') ∧
    initial_vol t' = initial_vol item.2 ∧
    df_index (t_vars t') = time_range s ∧
    assoc "demand" (df_columns (t_vars t'))
    = assoc "demand" (df_columns (t_vars item.2)) ∧
    assoc "inflow" (df_columns (t_vars t')) = Some inflow ∧
    assoc "value" (df_columns (t_vars t')) = Some value ∧
    length inflow = length (time_range s) ∧
    length value = length (time_range s) ∧
    ∀ i ti, time_range s !! i = Some ti →
      entry inflow i = tank_inflow_at s item.2 i ti ∧
      entry value i
      = initial_vol item.2
        + sumZ ((λ j, entry inflow j - entry (demand_of item.2) j)
                  <$> seq 0 (S i)).
Proof.
  intros [Hnd Hidx (d & Hd & Hdlen) Hcomb Hcont].
  set (t := item.2) in *.
  unfold tank_balance. fold t.
  destruct (merge_comb_loop s 1 (pumps_inflows t ++ cv_inflows t)
              {| df_index := (time_range s); df_columns := [("df", replicate (length (time_range s)) 0)] |})
    as (c1 & H1 & F1); [done|done| | |].
  { constructor; [|constructor]. simpl. apply length_replicate. }
  { intros k Hk. apply Hcomb. rewrite !elem_of_app in *. tauto. }
  rewrite H1. ret. cbn [df_columns] in *.
  assert (Hlen_comb : ∀ sign names cols,
            Forall2 (λ k (c : string * list Z),
                       c.2 = (λ t, sign * comb_flow_at s k t) <$> (time_range s))
              names cols →
            Forall (λ c : string * list Z, length c.2 = (length (time_range s))) cols).
  { intros sign names cols HF. apply Forall_forall. intros c Hc.
    apply list_elem_of_lookup in Hc as [i Hi].
    destruct (Forall2_lookup_r _ _ _ _ _ HF Hi) as (k & _ & ->).
    by rewrite length_fmap. }
  destruct (merge_value_loop s 1 (vsp_inflows t ++ v_inflows t)
              {| df_index := (time_range s);
                 df_columns := [("df", replicate (length (time_range s)) 0)] ++ c1 |})
    as (c2 & H2 & F2); [done|done| | |].
  { apply Forall_app. split; [|by eapply Hlen_comb].
    constructor; [|constructor]. simpl. apply length_replicate. }
  { intros k Hk. apply Hcont. rewrite !elem_of_app in *. tauto. }
  rewrite H2. ret. cbn [df_columns] in *.
  assert (Hlen_val : ∀ sign names cols,
            (∀ k, k ∈ names → length (value_of s k) = (length (time_range s))) →
            Forall2 (λ k (c : string * list Z),
                       c.2 = Z.mul sign <$> value_of s k) names cols →
            Forall (λ c : string * list Z, length c.2 = (length (time_range s))) cols).
  { intros sign names cols Hv HF. apply Forall_forall. intros c Hc.
    apply list_elem_of_lookup in Hc as [i Hi].
    destruct (Forall2_lookup_r _ _ _ _ _ HF Hi) as (k & Hk & ->).
    rewrite length_fmap. apply Hv. by eapply list_elem_of_lookup_2. }
  assert (Hvlen : ∀ k, k ∈ vsp_inflows t ++ v_inflows t
                           ++ vsp_outflows t ++ v_outflows t →
                       length (value_of s k) = (length (time_range s))).
  { intros k Hk. destruct (Hcont k Hk) as (x & v & Hx & Hv & Hl & _).
    unfold value_of. rewrite Hx. simpl. by rewrite Hv. }
  destruct (merge_comb_loop s (-1) (pumps_outflows t ++ cv_outflows t)
              {| df_index := (time_range s);
                 df_columns := ([("df", replicate (length (time_range s)) 0)] ++ c1) ++ c2 |})
    as (c3 & H3 & F3); [done|done| | |].
  { apply Forall_app. split.
    - apply Forall_app. split; [|by eapply Hlen_comb].
      constructor; [|constructor]. simpl. apply length_replicate.
    - eapply Hlen_val; [|done]. intros k Hk. apply Hvlen.
      rewrite !elem_of_app in *. tauto. }
  { intros k Hk. apply Hcomb. rewrite !elem_of_app in *. tauto. }
  rewrite H3. ret. cbn [df_columns] in *.
  destruct (merge_value_loop s (-1) (vsp_outflows t ++ v_outflows t)
              {| df_index := (time_range s);
                 df_columns := (([("df", replicate (length (time_range s)) 0)] ++ c1) ++ c2) ++ c3 |})
    as (c4 & H4 & F4); [done|done| | |].
  { apply Forall_app. split; [|by eapply Hlen_comb].
    apply Forall_app. split.
    - apply Forall_app. split; [|by eapply Hlen_comb].
      constructor; [|constructor]. simpl. apply length_replicate.
    - eapply Hlen_val; [|done]. intros k Hk. apply Hvlen.
      rewrite !elem_of_app in *. tauto. }
  { intros k Hk. apply Hcont. rewrite !elem_of_app in *. tauto. }
  rewrite H4. ret. cbn [df_columns df_index] in *.
  unfold df_get. rewrite Hd. ret. rewrite Hidx.
  rewrite (align_same_index (time_range s) (Z.opp <$> d));
    [|done|by rewrite length_fmap]. ret.
  set (cols := ((([("df", replicate (length (time_range s)) 0)] ++ c1) ++ c2)
                ++ c3) ++ c4).
  set (inflow := sum_axis1 {| df_index := (time_range s); df_columns := cols |}).
  assert (Hinlen : length inflow = (length (time_range s)))
    by (unfold inflow, sum_axis1; by rewrite length_imap).
  set (value := Z.add (initial_vol t)
                  <$> cumsum (zip_with Z.add inflow (Z.opp <$> d))).
  assert (Hzlen : length (zip_with Z.add inflow (Z.opp <$> d)) = (length (time_range s)))
    by (rewrite length_zip_with, length_fmap, Hinlen, Hdlen; lia).
  assert (Hvallen : length value = (length (time_range s)))
    by (unfold value; by rewrite length_fmap, length_cumsum).
  rewrite (align_same_index (time_range s) value) by done. ret.
  rewrite (align_same_index (time_range s) inflow) by done. ret.
  eexists _, inflow, value. split; [reflexivity|].
  cbn [initial_vol t_vars with_columns df_index df_columns].
  split; [done|]. split; [done|].
  split; [by rewrite !assoc_set_column_ne by done|].
  split; [apply assoc_set_column_eq|].
  split; [rewrite assoc_set_column_ne by done; apply assoc_set_column_eq|].
  split; [done|]. split; [done|].
  assert (Hin : ∀ i ti, (time_range s) !! i = Some ti →
            entry inflow i = tank_inflow_at s t i ti).
  { intros i ti Hi. unfold entry at 1, inflow, sum_axis1. cbn [df_index df_columns].
    rewrite list_lookup_imap, Hi. cbn [fmap option_fmap option_map default].
    unfold cols.
    rewrite !fmap_app, !sumZ_app, fmap_cons, sumZ_cons, fmap_nil.
    change (sumZ []) with 0. cbn [snd].
    rewrite lookup_replicate_2 by (by eapply lookup_lt_Some). cbn [default].
    rewrite (column_sum _ c1 (λ k, (λ t, 1 * comb_flow_at s k t) <$> (time_range s)) i F1).
    rewrite (column_sum _ c2 (λ k, Z.mul 1 <$> value_of s k) i F2).
    rewrite (column_sum _ c3 (λ k, (λ t, -1 * comb_flow_at s k t) <$> (time_range s)) i F3).
    rewrite (column_sum _ c4 (λ k, Z.mul (-1) <$> value_of s k) i F4).
    unfold tank_inflow_at.
    assert (Hc : ∀ sign names,
              sumZ ((λ k, entry ((λ t, sign * comb_flow_at s k t) <$> (time_range s)) i)
                      <$> names)
              = sign * sumZ ((λ k, comb_flow_at s k ti) <$> names)).
    { intros sign names. induction names as [|k names IH].
      - unfold sumZ. simpl. lia.
      - rewrite !fmap_cons, !sumZ_cons, IH. unfold entry.
        rewrite list_lookup_fmap, Hi. simpl. lia. }
    assert (Hv : ∀ sign names,
              sumZ ((λ k, entry (Z.mul sign <$> value_of s k) i) <$> names)
              = sign * sumZ ((λ k, entry (value_of s k) i) <$> names)).
    { intros sign names. induction names as [|k names IH].
      - unfold sumZ. simpl. lia.
      - rewrite !fmap_cons, !sumZ_cons, IH. unfold entry.
        rewrite list_lookup_fmap. destruct (value_of s k !! i); simpl; lia. }
    rewrite !Hc, !Hv. unfold id. lia. }
  intros i ti Hi. split; [by apply Hin|].
  assert (Hilt : (i < (length (time_range s)))%nat) by (by eapply lookup_lt_Some).
  unfold entry at 1, value. rewrite list_lookup_fmap.
  rewrite (lookup_entry (cumsum _) i) by (by rewrite length_cumsum, Hzlen).
  cbn [fmap option_fmap option_map default]. unfold cumsum.
  rewrite cumsum_from_entry by lia. unfold id. f_equal.
  apply sumZ_ext. intros j Hj%elem_of_seq.
  unfold entry at 1. rewrite lookup_zip_with.
  unfold demand_of. fold t. rewrite Hd. simpl.
  rewrite (lookup_entry inflow j) by lia. simpl.
  rewrite list_lookup_fmap.
  rewrite (lookup_entry d j) by (rewrite Hdlen; lia). simpl. lia.
Qed.

(** *** All the tanks *)

Lemma mapM_Forall2 {A B} (f : A → outcome B) (P : A → B → Prop) (l : list A) :
  (∀ a, a ∈ l → ∃ b, f a = Ret b ∧ P a b) →
  ∃ bs, mapM f l = Ret bs ∧ Forall2 P l bs.
Proof.
  induction l as [|a l IH]; intros Hf.
  - exists []. by split.
  - destruct (Hf a) as (b & Hb & HP); [left|].
    destruct IH as (bs & Hbs & HF); [intros c Hc; apply Hf; by right|].
    exists (b :: bs). split; [|by constructor].
    simpl. rewrite Hb. simpl. by rewrite Hbs.
Qed.

(** X16: when the tables that [tanks_balance] joins share the time stamps
    of the simulation, it returns; the elements and the time stamps are
    unchanged, and every tank keeps its name, its index and its demand and
    gets two columns: [inflow], at each step the flows of its inflow
    elements minus those of its outflow elements, and [value], the initial
    volume plus the running total of inflow minus demand up to that
    step. *)
Theorem tanks_balance_volumes (s : Sim) :
  (∀ p, p ∈ tanks (network s) → balanceable s p.2) →
  ∃ s', tanks_balance s = Ret s' ∧
    time_range s' = time_range s ∧
    objects (network s') = objects (network s) ∧
    Forall2 (λ (p p' : string * Tank),
        p'.1 = p.1 ∧ t_name p'.2 = t_name p.2 ∧
        df_index (t_vars p'.2) = time_range s ∧
        demand_of p'.2 = demand_of p.2 ∧
        ∃ inflow value,
          assoc "inflow" (df_columns (t_vars p'.2)) = Some inflow ∧
          assoc "value" (df_columns (t_vars p'.2)) = Some value ∧
          length inflow = length (time_range s) ∧
          length value = length (time_range s) ∧
          ∀ i ti, time_range s !! i = Some ti →
            entry inflow i = tank_inflow_at s p.2 i ti ∧
            entry value i
            = initial_vol p.2
              + sumZ ((λ j, entry inflow j - entry (demand_of p.2) j)
                        <$> seq 0 (S i)))
      (tanks (network s)) (tanks (network s')).
Proof.
  intros Hb. unfold tanks_balance.
  destruct (mapM_Forall2 (tank_balance s)
    (λ (p p' : string * Tank),
        p'.1 = p.1 ∧ t_name p'.2 = t_name p.2 ∧
        df_index (t_vars p'.2) = time_range s ∧
        demand_of p'.2 = demand_of p.2 ∧
        ∃ inflow value,
          assoc "inflow" (df_columns (t_vars p'.2)) = Some inflow ∧
          assoc "value" (df_columns (t_vars p'.2)) = Some value ∧
          length inflow = length (time_range s) ∧
          length value = length (time_range s) ∧
          ∀ i ti, time_range s !! i = Some ti →
            entry inflow i = tank_inflow_at s p.2 i ti ∧
            entry value i
            = initial_vol p.2
              + sumZ ((λ j, entry inflow j - entry (demand_of p.2) j)
                        <$> seq 0 (S i)))
    (tanks (network s))) as (ts & Hts & HF).
  { intros p Hp.
    destruct (tank_balance_spec s p (Hb p Hp))
      as (t' & inflow & value & Hrun & Hvol & Hidx & Hdem & Hin & Hval & Hl1 & Hl2 & Hall).
    exists (p.1, t'). split; [done|]. cbn [fst snd].
    split; [done|]. split.
    { unfold tank_balance in Hrun.
      repeat (apply bind_Ret_inv in Hrun as (? & _ & Hrun)).
      by injection Hrun as <-. }
    split; [done|]. split; [unfold demand_of; by rewrite Hdem|].
    by exists inflow, value. }
  rewrite Hts. ret. eexists. split; [reflexivity|]. by cbn.
Qed.

Lemma tanks_balance_volumes_witness :
  (∀ p, p ∈ tanks (network Solved.sim1) → balanceable Solved.sim1 p.2) ∧
  ∃ s', tanks_balance Solved.sim1 = Ret s' ∧
    time_range s' = time_range Solved.sim1 ∧
    objects (network s') = objects (network Solved.sim1) ∧
    Forall2 (λ (p p' : string * Tank),
        p'.1 = p.1 ∧ t_name p'.2 = t_name p.2 ∧
        df_index (t_vars p'.2) = time_range Solved.sim1 ∧
        demand_of p'.2 = demand_of p.2 ∧
        ∃ inflow value,
          assoc "inflow" (df_columns (t_vars p'.2)) = Some inflow ∧
          assoc "value" (df_columns (t_vars p'.2)) = Some value ∧
          length inflow = length (time_range Solved.sim1) ∧
          length value = length (time_range Solved.sim1) ∧
          ∀ i ti, time_range Solved.sim1 !! i = Some ti →
            entry inflow i = tank_inflow_at Solved.sim1 p.2 i ti ∧
            entry value i
            = initial_vol p.2
              + sumZ ((λ j, entry inflow j - entry (demand_of p.2) j)
                        <$> seq 0 (S i)))
      (tanks (network Solved.sim1)) (tanks (network s')).
Proof.
  assert (H : ∀ p, p ∈ tanks (network Solved.sim1) → balanceable Solved.sim1 p.2).
  { intros p Hp.
    change (tanks (network Solved.sim1)) with [("t1", Example.t1)] in Hp.
    apply list_elem_of_singleton in Hp as ->. cbn [snd].
    split.
    - apply (bool_decide_unpack _). by vm_compute.
    - reflexivity.
    - exists [1; 2; 3]. by split.
    - intros k Hk.
      change (k ∈ ["p1"]) in Hk. apply list_elem_of_singleton in Hk as ->.
      exists Solved.p1, [1; 2; 1; 2; 1; 2], [1; 0; 0; 1; 1; 0].
      repeat split; reflexivity.
    - intros k Hk.
      change (k ∈ ["v1"]) in Hk. apply list_elem_of_singleton in Hk as ->.
      exists Solved.v1, [3; 4; 5]. repeat split; reflexivity. }
  split; [exact H|]. exact (tanks_balance_volumes Solved.sim1 H).
Defined.

(** ** Builders on a rule without adaptation *)

Lemma one_comb_plain (s : Sim) (m : Model) (p : string * Element) l :
  (0 < num_steps s)%nat → x_size m = length (vars_name s) →
  adapted m = false →
  combs p.2 = Some l →
  length (Index.loc (vars_name s) (e_name p.2)) = (num_steps s * length l)%nat →
  one_comb s m p = Raise AttributeError.
Proof.
  intros HT Hn Had Hcombs Hrows. unfold one_comb.
  rewrite x_take_loc by done. ret.
  unfold len_combs. rewrite Hcombs. ret.
  destruct (selector_matrix_spec (num_steps s) (length l) HT)
    as (M & HM & [Hs _]).
  rewrite HM. ret.
  unfold matmul. rewrite bool_decide_true.
  2:{ eapply Forall_impl; [apply Hs|]. intros row Hrow. simpl in Hrow.
      unfold rows_of. by rewrite !length_fmap, Hrows. }
  ret. unfold compare. ret. by rewrite Had.
Qed.

Lemma vsp_changes_row_plain (s : Sim) (m : Model) (row : changes_row) vsp a :
  (0 < num_steps s)%nat → adapted m = false →
  scheduled s m (cr_vsp row) vsp a →
  vsp_changes_row (s, m) row = Raise AttributeError.
Proof.
  intros HT Had Hsch. pose proof Hsch as (He & Hidx & Hle & Hlen).
  unfold vsp_changes_row.
  rewrite (network_element_scheduled s m _ vsp a Hsch). ret.
  rewrite Hidx. ret. rewrite x_slice_in_range by lia. ret.
  replace (a + num_steps s - a)%nat with (num_steps s) by lia.
  destruct (aux_column (e_vars vsp) row)
    as (vars & aux & Hvars & Hvidx & Hvcols & Haux & Hauxlen & Hauxval).
  change (df_index (df_set_scalar (e_vars vsp) "aux" 0))
    with (df_index (e_vars vsp)).
  rewrite Hvars. ret.
  change (num_steps (set_vars s (cr_vsp row) vars)) with (num_steps s).
  destruct (difference_matrix_spec (num_steps s) HT) as (D & HD & HDs & _).
  rewrite HD. ret. rewrite Haux. ret.
  destruct (mul_column_spec D (num_steps s) aux HDs) as (M & HM & HMs & _);
    [by rewrite Hauxlen|].
  rewrite HM. ret.
  unfold matmul. rewrite bool_decide_true.
  2:{ eapply Forall_impl; [apply HMs|]. intros r Hr. simpl in Hr.
      by rewrite length_fmap, length_seq. }
  ret. unfold compare. ret. by rewrite Had.
Qed.

Lemma mass_balance_plain (self : Aro) (elems : list Element)
    (tanks : list (string * Tank)) (m : Model) :
  balance_ready self elems tanks m → tanks ≠ [] → adapted m = false →
  mass_balance self tanks None m = Raise AttributeError.
Proof.
  intros Hready Hne Had. unfold mass_balance.
  rewrite bool_decide_false by (by destruct tanks).
  rewrite Had.
  set (T := num_steps (sim self)) in *. set (N := x_size m).
  set (n := length tanks) in *.
  destruct (balance_loop self elems tanks m Hready) as (b & Hb & Hfilled).
  fold T N n in Hb, Hfilled. rewrite Hb. ret.
  destruct Hfilled as (Hdem & Hmin & Hmax & Hinit & Hlen & Hrows & _).
  apply filled_all in Hdem as [Hdlen Hdval]; [|done].
  apply filled_all in Hmax as [Hmaxlen Hmaxval]; [|done].
  apply filled_all in Hinit as [Hilen Hival]; [|done].
  pose proof Hready as [[Hnames _ _] Hsize HT _ _].
  fold T in Hnames, HT.
  unfold matmul. rewrite bool_decide_true.
  2:{ apply Forall_forall. intros row Hrow.
      apply list_elem_of_lookup in Hrow as [i Hi].
      assert (Hi' : (i < n * T)%nat)
        by (rewrite <- Hlen; by eapply lookup_lt_Some).
      destruct (row_of_tank tanks T i Hi') as (k & p & t & Hp & Ht & ->).
      rewrite (Hrows k p t Hp) in Hi; [|by eapply lookup_lt_Some|done].
      injection Hi as <-. unfold x_all.
      by rewrite length_balance_row, length_fmap, length_seq, Hsize, Hnames. }
  ret. unfold balance_rhs. ret.
  rewrite (compare_vec Le).
  2:{ rewrite !length_fmap, !length_zip_with, Hlen, Hmaxlen, Hdlen, Hilen.
      lia. }
  ret. done.
Qed.

(** X17: the builders need an adapted rule.  On a rule without adaptation
    every comparison of decisions alone is a linear constraint, which has
    no [forall], and the builder that makes it stops with an
    [AttributeError] at its first constraint: [one_comb_only] at its first
    discrete-state element, [vsp_volume] and [vsp_changes] at their first
    record, [mass_balance] without an affine map at its first constraint.
    With an affine map the right-hand side holds [z], and [mass_balance]
    returns all the same. *)
Theorem builders_need_adaptation (self : Aro) (elems : list Element)
    (m : Model) :
  let s := sim self in
  let T := num_steps s in
  depend m = ∅ → x_size m = length (vars_name s) → (0 < T)%nat →
  (∀ k rest station l,
     comb_elements (network s) = k :: rest →
     (∀ k', k' ∈ k :: rest → is_Some (objects (network s) !! k')) →
     objects (network s) !! k = Some station → combs station = Some l →
     length (Index.loc (vars_name s) (e_name station)) = (T * length l)%nat →
     one_comb_only s m = Raise AttributeError) ∧
  (∀ row rows vsp a,
     scheduled s m (vr_vsp row) vsp a →
     assoc "aux" (df_columns (e_vars vsp)) = None →
     vr_constraint_type row ∈ ["le"; "ge"; "eq"] →
     vsp_volume (row :: rows) (s, m) = Raise AttributeError) ∧
  (∀ row rows vsp a,
     scheduled s m (cr_vsp row) vsp a →
     vsp_changes (row :: rows) (s, m) = Raise AttributeError) ∧
  (∀ tanks,
     balance_ready self elems tanks m → tanks ≠ [] →
     mass_balance self tanks None m = Raise AttributeError ∧
     ∀ delta,
       (z_rows m * z_cols m)%nat = (length tanks * T)%nat →
       ∃ m', mass_balance self tanks (Some delta) m = Ret m').
Proof.
  intros s T Had%adapted_false Hn HT. split; [|split; [|split]].
  - intros k rest station l Hcomb Hobjs He Hl Hrows. unfold one_comb_only.
    destruct (items_cons (network s) k rest Hobjs) as (e & its & Hits).
    rewrite Hcomb, Hits. ret. cbn [for_each].
    assert (e = station) as ->.
    { unfold items in Hits. cbn [mapM] in Hits. unfold getitem in Hits.
      rewrite He in Hits. cbn in Hits.
      destruct (mapM _ rest); cbn in Hits; [|done]. by injection Hits as <- _. }
    by rewrite (one_comb_plain s m (k, station) l).
  - intros row rows vsp a Hsch Hno Htype. unfold vsp_volume. cbn [for_each].
    pose proof (vsp_volume_row_cases s m row vsp a Hsch Hno) as H.
    assert (∃ op, operators (vr_constraint_type row) = Ret op) as [op Hop].
    { unfold operators.
      repeat (apply elem_of_cons in Htype as [->|Htype]; [by eexists|]).
      by apply elem_of_nil in Htype. }
    rewrite Hop, Had in H. by rewrite H.
  - intros row rows vsp a Hsch. unfold vsp_changes. cbn [for_each].
    by rewrite (vsp_changes_row_plain s m row vsp a).
  - intros tanks Hready Hne. split.
    + by eapply mass_balance_plain.
    + intros delta Hz.
      destruct (mass_balance_declares self elems tanks (Some delta) m
                  Hready Hne) as (cmax & cmin & Hret & _); [done|done|].
      by eexists.
Qed.

Lemma onestep_laid_out : laid_out OneStep.sim1 [OneStep.p1; OneStep.v1].
Proof.
  split.
  - reflexivity.
  - apply (bool_decide_unpack _). by vm_compute.
  - intros e He. repeat (apply elem_of_cons in He as [->|He]; [reflexivity|]).
    by apply elem_of_nil in He.
Qed.

Lemma onestep_balance_ready :
  balance_ready OneStep.aro [OneStep.p1; OneStep.v1] [("t1", OneStep.t1)]
    OneStep.m0.
Proof.
  split.
  - apply onestep_laid_out.
  - reflexivity.
  - simpl. lia.
  - intros e He _.
    apply elem_of_cons in He as [->|He];
      [|apply elem_of_cons in He as [->|He]; [|by apply elem_of_nil in He]].
    + split; [apply (bool_decide_unpack _); by vm_compute|].
      intros l [= <-]. by eexists.
    + split; [apply (bool_decide_unpack _); by vm_compute|]. by intros l [=].
  - intros p ->%list_elem_of_singleton. split; [by eexists|]. by split.
Qed.

Lemma builders_need_adaptation_witness :
  one_comb_only OneStep.sim1 OneStep.m0 = Raise AttributeError ∧
  vsp_volume [OneStep.volume] (OneStep.sim1, OneStep.m0)
  = Raise AttributeError ∧
  vsp_changes [OneStep.changes] (OneStep.sim1, OneStep.m0)
  = Raise AttributeError ∧
  mass_balance OneStep.aro [("t1", OneStep.t1)] None OneStep.m0
  = Raise AttributeError ∧
  ∃ m', mass_balance OneStep.aro [("t1", OneStep.t1)] (Some [[0]]) OneStep.m0
        = Ret m'.
Proof.
  destruct (builders_need_adaptation OneStep.aro [OneStep.p1; OneStep.v1]
              OneStep.m0) as (Hcomb & Hvol & Hch & Hbal);
    [reflexivity|reflexivity|simpl; lia|].
  assert (Hsch : ∀ name, name = "v1" →
            scheduled OneStep.sim1 OneStep.m0 name OneStep.v1 2).
  { intros name ->. split; [reflexivity|]. split; [reflexivity|].
    split; [simpl; lia|reflexivity]. }
  split; [|split; [|split]].
  - apply (Hcomb "p1" [] OneStep.p1 ["off"; "on"]); try reflexivity.
    intros k' ->%list_elem_of_singleton. by eexists.
  - apply (Hvol OneStep.volume [] OneStep.v1 2%nat).
    + by apply Hsch.
    + reflexivity.
    + apply (bool_decide_unpack _). by vm_compute.
  - apply (Hch OneStep.changes [] OneStep.v1 2%nat). by apply Hsch.
  - destruct (Hbal [("t1", OneStep.t1)] onestep_balance_ready) as [Hnone Hsome];
      [done|].
    split; [exact Hnone|]. by apply Hsome.
Defined.

(** *** The one-step horizon *)

Lemma step_of_step_lt (T : nat) (elems : list Element) (i t : nat) :
  step_of T elems i = Some t → (t < T)%nat.
Proof.
  revert i. induction elems as [|e elems IH]; intros i; [done|].
  cbn [step_of]. destruct (decide (i < block_size T e)%nat) as [Hi|Hi].
  - intros [= <-]. unfold block_size in Hi.
    apply Nat.Div0.div_lt_upper_bound. lia.
  - apply IH.
Qed.

(** X18: on a horizon of one step [__init__] leaves the rule without
    adaptation, for [adapt_ldr] has no step to adapt, and [build] cannot
    declare its first constraint: when the first element of the five groups
    has a row in the table, [range_constraints], and with it [build], stops
    with the [AttributeError] of [forall] on a linear constraint. *)
Theorem one_step_horizon_stops_build (s : Sim) (lou : Z)
    (ud : gmap string UData) (demand : UData) (elems : list Element) (L : nat)
    (volume_rows : list volume_row) (changes_rows : list changes_row)
    (cost_elements : list string) (worst_case : bool) :
  let net := network s in
  let groups := pump_stations net ++ vsp net ++ wells net
                ++ control_valves net ++ valves net in
  let selected := filter (λ p : string * Tank, t_name p.2 ∈ u_elements demand)
                    (tanks net) in
  let self := {| sim := s; lou := lou; udata := ud |} in
  num_steps s = 1%nat →
  ud !! "demand" = Some demand →
  selected ≠ [] →
  (∀ p, p ∈ selected →
     ∃ d, assoc "demand" (df_columns (t_vars p.2)) = Some d ∧ length d = L) →
  laid_out s elems →
  e_name <$> elems ≡ₚ groups →
  (∀ e, e ∈ elems → e_name e ∈ pump_stations net ++ control_valves net →
        is_Some (combs e)) →
  (∀ e, e ∈ elems → e_name e ∈ vsp net ++ wells net ++ valves net →
        combs e = None) →
  ∃ nominal m,
    init s lou ud = Ret (self, nominal, m) ∧
    depend m = ∅ ∧
    ∀ k rest, groups = k :: rest → k ∈ vars_name s →
      range_constraints s m = Raise AttributeError ∧
      build self m volume_rows changes_rows cost_elements worst_case
      = Raise AttributeError.
Proof.
  intros net groups selected self HT Hud Hne Hdem Hlaid Hperm Hcomb Hunit.
  destruct (init_returns s lou ud demand elems L Hud Hne Hdem Hlaid Hperm
              Hcomb Hunit) as (nominal & m & Hinit & _ & Hm).
  match type of Hm with
  | adapt_ldr s ?m0 = _ =>
      destruct (adapt_ldr_returns s elems m0 Hlaid eq_refl eq_refl)
        as (m' & Hm' & Hx & _ & _ & _ & Hdep)
  end.
  pose proof (eq_trans (eq_sym Hm) Hm') as Heq. injection Heq as <-.
  cbn [x_size z_rows z_cols] in Hx, Hdep.
  assert (Hempty : depend m = ∅).
  { apply elem_of_equiv_empty_L. intros [i j] Hin.
    apply Hdep in Hin as (t & Ht%step_of_step_lt & Hj).
    rewrite HT in Ht. assert (t = 0%nat) as -> by lia. simpl in Hj. lia. }
  exists nominal, m. split; [exact Hinit|]. split; [exact Hempty|].
  intros k rest Hgroups Hk.
  assert (Hrange : range_constraints s m = Raise AttributeError).
  { rewrite (range_constraints_plain s m k rest Hgroups Hx).
    - by rewrite bool_decide_true.
    - by apply adapted_false.
    - fold net. intros k' Hk'.
      assert (Hin : k' ∈ e_name <$> elems).
      { rewrite Hperm, Hgroups. exact Hk'. }
      apply list_elem_of_fmap in Hin as (e & -> & He).
      exists e. by apply (lo_objects _ _ Hlaid). }
  split; [exact Hrange|].
  unfold build, self. cbn [sim]. by rewrite Hrange.
Qed.

Lemma one_step_horizon_stops_build_witness :
  ∃ nominal m,
    init OneStep.sim1 2 (udata OneStep.aro) = Ret (OneStep.aro, nominal, m) ∧
    depend m = ∅ ∧
    range_constraints OneStep.sim1 m = Raise AttributeError ∧
    build OneStep.aro m [OneStep.volume] [OneStep.changes] [] false
    = Raise AttributeError.
Proof.
  destruct (one_step_horizon_stops_build OneStep.sim1 2 (udata OneStep.aro)
              {| u_elements := ["t1"]; u_delta := Some [[0]] |}
              [OneStep.p1; OneStep.v1] 1 [OneStep.volume] [OneStep.changes]
              [] false)
    as (nominal & m & Hinit & Hempty & Hstop).
  - reflexivity.
  - reflexivity.
  - done.
  - intros p Hp.
    change (p ∈ [("t1", OneStep.t1)]) in Hp.
    apply list_elem_of_singleton in Hp as ->. by eexists.
  - apply onestep_laid_out.
  - reflexivity.
  - intros e He Hin.
    apply elem_of_cons in He as [->|He]; [by eexists|].
    apply elem_of_cons in He as [->|He]; [|by apply elem_of_nil in He].
    apply (bool_decide_pack _) in Hin. by vm_compute in Hin.
  - intros e He Hin.
    apply elem_of_cons in He as [->|He].
    { apply (bool_decide_pack _) in Hin. by vm_compute in Hin. }
    apply elem_of_cons in He as [->|He]; [done|]. by apply elem_of_nil in He.
  - exists nominal, m. split; [exact Hinit|]. split; [exact Hempty|].
    apply (Hstop "p1" ["v1"]); [reflexivity|].
    apply (bool_decide_unpack _). by vm_compute.
Defined.
